(** * tree.hh: an n-ary tree container over a pointer graph

    The nodes of [tree.hh] live on the C++ heap and refer to each other
    through raw pointers.  The development models the heap as a finite map
    from addresses to node records, the null pointer as address [0], and
    every member function of [tree] as a function on heaps.  Loops that
    chase pointers take a fuel argument; the theorems give the fuel that
    suffices.  The header defines [TREE_HH_EXTRA] itself, so the
    bookkeeping build is the one that is modelled. *)

From Stdlib Require Import ZArith Lia.
From stdpp Require Import gmap list sorting.

Open Scope nat_scope.

(** ** Outcomes of a member function *)

(** [Ok]: the call returns.  [RangeError]: the call throws
    [std::range_error].  [Abort]: a failed [assert] or a dereference of a
    pointer that holds no node.  [OutOfFuel]: the model ran out of fuel. *)
Inductive outcome (A : Type) : Type :=
  | Ok (a : A)
  | RangeError
  | Abort
  | OutOfFuel.
Arguments Ok {A} a.
Arguments RangeError {A}.
Arguments Abort {A}.
Arguments OutOfFuel {A}.

Definition obind {A B : Type} (m : outcome A) (k : A -> outcome B) : outcome B :=
  match m with
  | Ok a => k a
  | RangeError => RangeError
  | Abort => Abort
  | OutOfFuel => OutOfFuel
  end.

#[global] Instance outcome_bind : MBind outcome := fun A B k m => obind m k.
#[global] Instance outcome_ret : MRet outcome := @Ok.

(** ** Machine integers *)

(** [size_t] is a 64-bit unsigned integer. *)
Definition size_max : Z := 2 ^ 64.
Definition wrap (z : Z) : Z := z mod size_max.

(** ** Nodes and heaps *)

Abbreviation ptr := nat (only parsing).

Section Tree.

Context {T : Type} `{Inhabited T}.

Record tree_node_ : Type := mk_node {
  parent : ptr;
  first_child : ptr;
  last_child : ptr;
  prev_sibling : ptr;
  next_sibling : ptr;
  data : T;
  count : Z;
  count_expanded : Z;
  count_expandable : Z;
  expanded : bool;
  visible : bool
}.

Abbreviation heap := (gmap nat tree_node_).

(** [tree_node_<T>()] and [tree_node_<T>(val)]. *)
Definition node_default : tree_node_ :=
  mk_node 0 0 0 0 0 inhabitant 0%Z 0%Z 0%Z false false.
Definition node_of (x : T) : tree_node_ :=
  mk_node 0 0 0 0 0 x 0%Z 0%Z 0%Z false false.

Definition set_parent (v : ptr) (n : tree_node_) : tree_node_ :=
  mk_node v (first_child n) (last_child n) (prev_sibling n) (next_sibling n)
    (data n) (count n) (count_expanded n) (count_expandable n) (expanded n) (visible n).
Definition set_first_child (v : ptr) (n : tree_node_) : tree_node_ :=
  mk_node (parent n) v (last_child n) (prev_sibling n) (next_sibling n)
    (data n) (count n) (count_expanded n) (count_expandable n) (expanded n) (visible n).
Definition set_last_child (v : ptr) (n : tree_node_) : tree_node_ :=
  mk_node (parent n) (first_child n) v (prev_sibling n) (next_sibling n)
    (data n) (count n) (count_expanded n) (count_expandable n) (expanded n) (visible n).
Definition set_prev_sibling (v : ptr) (n : tree_node_) : tree_node_ :=
  mk_node (parent n) (first_child n) (last_child n) v (next_sibling n)
    (data n) (count n) (count_expanded n) (count_expandable n) (expanded n) (visible n).
Definition set_next_sibling (v : ptr) (n : tree_node_) : tree_node_ :=
  mk_node (parent n) (first_child n) (last_child n) (prev_sibling n) v
    (data n) (count n) (count_expanded n) (count_expandable n) (expanded n) (visible n).
Definition set_count (v : Z) (n : tree_node_) : tree_node_ :=
  mk_node (parent n) (first_child n) (last_child n) (prev_sibling n) (next_sibling n)
    (data n) v (count_expanded n) (count_expandable n) (expanded n) (visible n).
Definition set_count_expanded (v : Z) (n : tree_node_) : tree_node_ :=
  mk_node (parent n) (first_child n) (last_child n) (prev_sibling n) (next_sibling n)
    (data n) (count n) v (count_expandable n) (expanded n) (visible n).
Definition set_count_expandable (v : Z) (n : tree_node_) : tree_node_ :=
  mk_node (parent n) (first_child n) (last_child n) (prev_sibling n) (next_sibling n)
    (data n) (count n) (count_expanded n) v (expanded n) (visible n).
Definition set_expanded (v : bool) (n : tree_node_) : tree_node_ :=
  mk_node (parent n) (first_child n) (last_child n) (prev_sibling n) (next_sibling n)
    (data n) (count n) (count_expanded n) (count_expandable n) v (visible n).
Definition set_visible (v : bool) (n : tree_node_) : tree_node_ :=
  mk_node (parent n) (first_child n) (last_child n) (prev_sibling n) (next_sibling n)
    (data n) (count n) (count_expanded n) (count_expandable n) (expanded n) v.

(** [p->field]: reading through a pointer that holds no node aborts. *)
Definition rd (h : heap) (p : ptr) : outcome tree_node_ :=
  match h !! p with
  | Some n => Ok n
  | None => Abort
  end.

(** [p->field = v], as an update [f] of the node stored at [p]. *)
Definition wr (h : heap) (p : ptr) (f : tree_node_ -> tree_node_) : outcome heap :=
  match h !! p with
  | Some n => Ok (<[p := f n]> h)
  | None => Abort
  end.

(** [alloc_.allocate(1, 0)]: an address that is not null and holds no node. *)
Definition allocate (h : heap) : ptr := fresh ({[0]} ∪ dom h).

(** [alloc_.destroy(p); alloc_.deallocate(p, 1)]. *)
Definition deallocate (h : heap) (p : ptr) : heap := delete p h.

(** A tree object: its two sentinel pointers. *)
Record tree : Type := mk_tree { head : ptr; feet : ptr }.

(** An iterator: [iterator_base::node] and [skip_current_children_]. *)
Record iterator : Type := mk_it { node : ptr; skip_current_children_ : bool }.

Definition iterator_of (p : ptr) : iterator := mk_it p false.

(** A sibling iterator carries [parent_] as well. *)
Record sibling_iterator : Type := mk_sit { snode : ptr; parent_ : ptr }.

(** ** The empty tree *)

(** [head_initialise_]: allocate and link the two sentinels. *)
Definition head_initialise_ (h : heap) : heap * tree :=
  let hd := allocate h in
  let h1 := <[hd := node_default]> h in
  let ft := allocate h1 in
  let nhead := mk_node 0 0 0 0 ft inhabitant 0%Z 0%Z 0%Z true true in
  let nfeet := mk_node 0 0 0 hd 0 inhabitant 0%Z 0%Z 0%Z false true in
  (<[ft := nfeet]> (<[hd := nhead]> h1), mk_tree hd ft).

(** [begin()], [end()], [is_valid], [empty()]. *)
Definition begin_ (h : heap) (t : tree) : outcome iterator :=
  nd ← rd h (head t); Ok (iterator_of (next_sibling nd)).
Definition end_ (t : tree) : iterator := iterator_of (feet t).
Definition is_valid (t : tree) (it : iterator) : bool :=
  negb ((node it =? 0) || (node it =? feet t) || (node it =? head t)).

(** ** Pre-order increment *)

(** The loop of [pre_order_iterator::operator++]: while the node has no
    next sibling go to its parent, returning the null iterator when the
    parent is null; then step to the next sibling. *)
Fixpoint climb_next (fuel : nat) (h : heap) (p : ptr) : outcome ptr :=
  match fuel with
  | 0 => OutOfFuel
  | S fuel' =>
      nd ← rd h p;
      if next_sibling nd =? 0 then
        if parent nd =? 0 then Ok 0 else climb_next fuel' h (parent nd)
      else Ok (next_sibling nd)
  end.

Definition pre_incr (fuel : nat) (h : heap) (it : iterator) : outcome iterator :=
  if node it =? 0 then Abort else
  nd ← rd h (node it);
  if negb (skip_current_children_ it) && negb (first_child nd =? 0)
  then Ok (mk_it (first_child nd) (skip_current_children_ it))
  else p ← climb_next fuel h (node it); Ok (mk_it p false).

(** ** Bookkeeping on insertion *)

(** The [while (parent)] loop shared by [insert] and [append_child]. *)
Fixpoint bump_ancestors (fuel : nat) (h : heap) (p : ptr) (parent_expanded : bool)
  : outcome (heap * bool) :=
  match fuel with
  | 0 => OutOfFuel
  | S fuel' =>
      if p =? 0 then Ok (h, parent_expanded) else
      nd ← rd h p;
      let pe := parent_expanded && expanded nd in
      let nd1 := if pe then set_count_expanded (wrap (count_expanded nd + 1)) nd else nd in
      let nd2 := set_count (wrap (count nd1 + 1)) nd1 in
      let nd3 := set_count_expandable (wrap (count_expandable nd2 + 1)) nd2 in
      bump_ancestors fuel' (<[p := nd3]> h) (parent nd3) pe
  end.

Definition bump_head (h : heap) (t : tree) (parent_expanded : bool) : outcome heap :=
  h1 ← (if parent_expanded
        then wr h (head t) (fun n => set_count_expanded (wrap (count_expanded n + 1)) n)
        else Ok h);
  h2 ← wr h1 (head t) (fun n => set_count (wrap (count n + 1)) n);
  wr h2 (head t) (fun n => set_count_expandable (wrap (count_expandable n + 1)) n).

Definition bookkeep_insert (fuel : nat) (h : heap) (t : tree) (tmp : ptr) : outcome heap :=
  nd ← rd h tmp;
  '(h1, pe) ← bump_ancestors fuel h (parent nd) true;
  bump_head h1 t pe.

(** [alloc_.construct(tmp, x)] followed by the copy of the head's
    [expanded] and [visible] flags. *)
Definition new_node (h : heap) (t : tree) (x : T) : outcome (heap * ptr) :=
  let tmp := allocate h in
  hd ← rd h (head t);
  Ok (<[tmp := set_visible (visible hd) (set_expanded (expanded hd) (node_of x))]> h, tmp).

(** ** Insertion *)

(** [insert(iter position, const T& x)]. *)
Definition insert (fuel : nat) (h : heap) (t : tree) (position : iterator) (x : T)
  : outcome (heap * iterator) :=
  let pos := if node position =? 0 then feet t else node position in
  if pos =? head t then Abort else
  '(h, tmp) ← new_node h t x;
  pn ← rd h pos;
  h ← wr h tmp (fun n => set_prev_sibling (prev_sibling pn)
                          (set_next_sibling pos (set_parent (parent pn) n)));
  h ← wr h pos (set_prev_sibling tmp);
  h ← (if prev_sibling pn =? 0 then
         if parent pn =? 0 then Ok h else wr h (parent pn) (set_first_child tmp)
       else wr h (prev_sibling pn) (set_next_sibling tmp));
  h ← bookkeep_insert fuel h t tmp;
  Ok (h, iterator_of tmp).

(** [append_child(iter position, const T& x)]. *)
Definition append_child (fuel : nat) (h : heap) (t : tree) (position : iterator) (x : T)
  : outcome (heap * iterator) :=
  let pos := node position in
  if (pos =? head t) || (pos =? feet t) || (pos =? 0) then Abort else
  '(h, tmp) ← new_node h t x;
  h ← wr h tmp (set_parent pos);
  pn ← rd h pos;
  h ← (if last_child pn =? 0 then wr h pos (set_first_child tmp)
       else wr h (last_child pn) (set_next_sibling tmp));
  h ← wr h tmp (set_prev_sibling (last_child pn));
  h ← wr h pos (set_last_child tmp);
  h ← wr h tmp (set_next_sibling 0);
  h ← bookkeep_insert fuel h t tmp;
  Ok (h, iterator_of tmp).

(** [prepend_child(iter position, const T& x)]: no counter is touched. *)
Definition prepend_child (h : heap) (t : tree) (position : iterator) (x : T)
  : outcome (heap * iterator) :=
  let pos := node position in
  if (pos =? head t) || (pos =? feet t) || (pos =? 0) then Abort else
  '(h, tmp) ← new_node h t x;
  h ← wr h tmp (set_parent pos);
  pn ← rd h pos;
  h ← (if first_child pn =? 0 then wr h pos (set_last_child tmp)
       else wr h (first_child pn) (set_prev_sibling tmp));
  h ← wr h tmp (set_next_sibling (first_child pn));
  h ← wr h pos (set_first_child tmp);
  h ← wr h tmp (set_prev_sibling 0);
  Ok (h, iterator_of tmp).

(** [insert_after(iter position, const T& x)]: no counter is touched. *)
Definition insert_after (h : heap) (t : tree) (position : iterator) (x : T)
  : outcome (heap * iterator) :=
  let pos := node position in
  '(h, tmp) ← new_node h t x;
  pn ← rd h pos;
  h ← wr h tmp (fun n => set_next_sibling (next_sibling pn)
                          (set_prev_sibling pos (set_parent (parent pn) n)));
  h ← wr h pos (set_next_sibling tmp);
  h ← (if next_sibling pn =? 0 then
         if parent pn =? 0 then Ok h else wr h (parent pn) (set_last_child tmp)
       else wr h (next_sibling pn) (set_prev_sibling tmp));
  Ok (h, iterator_of tmp).

(** [set_head(const T& x)]. *)
Definition set_head (fuel : nat) (h : heap) (t : tree) (x : T)
  : outcome (heap * iterator) :=
  hd ← rd h (head t);
  if next_sibling hd =? feet t then insert fuel h t (iterator_of (feet t)) x else Abort.

(** ** Size *)

(** [size()] in the bookkeeping build: the counter cached on the head. *)
Definition size (h : heap) (t : tree) : outcome Z :=
  nd ← rd h (head t); Ok (count nd).

(** The number of [++it] steps that take [it] to [end()]: the loop
    [while (it != eit) { ++i; ++it; }]. *)
Fixpoint steps_to_end (fuel : nat) (h : heap) (t : tree) (it : iterator) (i : nat)
  : outcome nat :=
  match fuel with
  | 0 => OutOfFuel
  | S fuel' =>
      if node it =? feet t then Ok i else
      it' ← pre_incr fuel h it;
      steps_to_end fuel' h t it' (S i)
  end.

Definition pre_order_steps (fuel : nat) (h : heap) (t : tree) : outcome nat :=
  b ← begin_ h t; steps_to_end fuel h t b 0.

(** ** Children and sibling iterators *)

(** The loop [while ((pos = pos->next_sibling)) ++ret;] of the static
    [number_of_children]. *)
Fixpoint count_siblings (fuel : nat) (h : heap) (pos : ptr) (ret : nat) : outcome nat :=
  match fuel with
  | 0 => OutOfFuel
  | S fuel' =>
      nd ← rd h pos;
      if next_sibling nd =? 0 then Ok ret
      else count_siblings fuel' h (next_sibling nd) (S ret)
  end.

(** The static [tree::number_of_children(const iterator_base&)]. *)
Definition number_of_children (fuel : nat) (h : heap) (it : iterator) : outcome nat :=
  nd ← rd h (node it);
  if first_child nd =? 0 then Ok 0 else count_siblings fuel h (first_child nd) 1.

(** The loop [while (pos != node->last_child) { ++ret; pos = pos->next_sibling; }]
    of the member [iterator_base::number_of_children]. *)
Fixpoint count_to_last (fuel : nat) (h : heap) (last pos : ptr) (ret : nat) : outcome nat :=
  match fuel with
  | 0 => OutOfFuel
  | S fuel' =>
      if pos =? last then Ok ret else
      nd ← rd h pos;
      count_to_last fuel' h last (next_sibling nd) (S ret)
  end.

Definition it_number_of_children (fuel : nat) (h : heap) (it : iterator) : outcome nat :=
  nd ← rd h (node it);
  if first_child nd =? 0 then Ok 0
  else count_to_last fuel h (last_child nd) (first_child nd) 1.

(** [sibling_iterator(tree_node* tn)], which runs [set_parent_]. *)
Definition sibling_of_node (h : heap) (p : ptr) : outcome sibling_iterator :=
  if p =? 0 then Ok (mk_sit 0 0) else
  nd ← rd h p; Ok (mk_sit p (parent nd)).

(** The static [begin(pos)] and [end(pos)]. *)
Definition sibling_end (pos : iterator) : sibling_iterator := mk_sit 0 (node pos).
Definition sibling_begin (h : heap) (pos : iterator) : outcome sibling_iterator :=
  if node pos =? 0 then Abort else
  nd ← rd h (node pos);
  if first_child nd =? 0 then Ok (sibling_end pos)
  else sibling_of_node h (first_child nd).

(** [pre_order_iterator(const sibling_iterator&)]: an end iterator is
    resolved to the pre-order successor of the range it closes. *)
Definition pre_of_sibling (fuel : nat) (h : heap) (s : sibling_iterator) : outcome iterator :=
  if snode s =? 0 then
    pn ← rd h (parent_ s);
    let start := if last_child pn =? 0 then parent_ s else last_child pn in
    pre_incr fuel h (mk_it start true)
  else Ok (iterator_of (snode s)).

(** ** Equality of subtrees *)

(** The loop of [equal(one_, two, three_, fun)], instantiated at sibling
    iterators as [equal_subtree] calls it; [one != two] converts [two]
    to a pre-order iterator at every test. *)
Fixpoint equal_loop (fuel : nat) (h : heap) (t : tree) (fn : T -> T -> bool)
    (one : iterator) (two : sibling_iterator) (three : iterator) : outcome bool :=
  match fuel with
  | 0 => OutOfFuel
  | S fuel' =>
      two' ← pre_of_sibling fuel h two;
      if negb (node one =? node two') && is_valid t three then
        n1 ← rd h (node one);
        n3 ← rd h (node three);
        if negb (fn (data n1) (data n3)) then Ok false else
        c1 ← it_number_of_children fuel h one;
        c3 ← it_number_of_children fuel h three;
        if negb (c1 =? c3) then Ok false else
        one' ← pre_incr fuel h one;
        three' ← pre_incr fuel h three;
        equal_loop fuel' h t fn one' two three'
      else Ok true
  end.

Definition equal (fuel : nat) (h : heap) (t : tree) (fn : T -> T -> bool)
    (one_ two three_ : sibling_iterator) : outcome bool :=
  one ← pre_of_sibling fuel h one_;
  three ← pre_of_sibling fuel h three_;
  equal_loop fuel h t fn one two three.

(** [equal_subtree(one_, two_, fun)]. *)
Definition equal_subtree (fuel : nat) (h : heap) (t : tree) (fn : T -> T -> bool)
    (one two : iterator) : outcome bool :=
  n1 ← rd h (node one);
  n2 ← rd h (node two);
  if negb (fn (data n1) (data n2)) then Ok false else
  c1 ← number_of_children fuel h one;
  c2 ← number_of_children fuel h two;
  if negb (c1 =? c2) then Ok false else
  b1 ← sibling_begin h one;
  b2 ← sibling_begin h two;
  equal fuel h t fn b1 (sibling_end one) b2.

(** ** Moving a subtree out *)

(** [move_out(iterator source)].  The local [tree ret] is the returned
    object; no counter of either tree is touched. *)
Definition move_out (h : heap) (source : iterator) : outcome (heap * tree) :=
  let '(h, ret) := head_initialise_ h in
  let s := node source in
  h ← wr h (head ret) (set_next_sibling s);
  h ← wr h (feet ret) (set_prev_sibling s);
  h ← wr h s (set_parent 0);
  sn ← rd h s;
  h ← (if prev_sibling sn =? 0 then Ok h
       else wr h (prev_sibling sn) (set_next_sibling (next_sibling sn)));
  sn ← rd h s;
  h ← (if next_sibling sn =? 0 then Ok h
       else wr h (next_sibling sn) (set_prev_sibling (prev_sibling sn)));
  h ← wr h s (set_prev_sibling (head ret));
  h ← wr h s (set_next_sibling (feet ret));
  Ok (h, ret).

(** ** Paths *)

(** The inner loop of [path_from_iterator]:
    [while (walk != top.node && walk->prev_sibling != 0
            && walk->prev_sibling != head) { ++num; walk = walk->prev_sibling; }]. *)
Fixpoint count_back (fuel : nat) (h : heap) (t : tree) (top walk : ptr) (num : nat)
  : outcome (ptr * nat) :=
  match fuel with
  | 0 => OutOfFuel
  | S fuel' =>
      if walk =? top then Ok (walk, num) else
      nd ← rd h walk;
      if prev_sibling nd =? 0 then Ok (walk, num) else
      if prev_sibling nd =? head t then Ok (walk, num) else
      count_back fuel' h t top (prev_sibling nd) (S num)
  end.

(** One round of the [do ... while] loop once [walk] has been moved to
    the parent; [k] runs the next round. *)
Definition pfi_level (k : ptr -> list nat -> outcome (list nat))
    (fuel : nat) (h : heap) (t : tree) (top walk : ptr) (path : list nat)
  : outcome (list nat) :=
  '(walk, num) ← count_back fuel h t top walk 0;
  let path := path ++ [num] in
  nd ← rd h walk;
  if negb (parent nd =? 0) && negb (walk =? top) then k walk path
  else Ok (rev path).

Fixpoint pfi_loop (fuel : nat) (h : heap) (t : tree) (top walk : ptr) (path : list nat)
  : outcome (list nat) :=
  match fuel with
  | 0 => OutOfFuel
  | S fuel' =>
      walk ← (if 0 <? length path then nd ← rd h walk; Ok (parent nd) else Ok walk);
      pfi_level (pfi_loop fuel' h t top) fuel h t top walk path
  end.

(** [path_from_iterator(iter, top)]. *)
Definition path_from_iterator (fuel : nat) (h : heap) (t : tree) (iter top : iterator)
  : outcome (list nat) :=
  pfi_loop fuel h t (node top) (node iter) [].

(** The inner loop of [iterator_from_path]: [n] steps to the right,
    throwing when the chain ends. *)
Fixpoint advance_siblings (h : heap) (walk : ptr) (n : nat) : outcome ptr :=
  match n with
  | 0 => Ok walk
  | S n' =>
      nd ← rd h walk;
      if next_sibling nd =? 0 then RangeError
      else advance_siblings h (next_sibling nd) n'
  end.

Fixpoint ifp_steps (h : heap) (walk : ptr) (first : bool) (path : list nat) : outcome ptr :=
  match path with
  | [] => Ok walk
  | n :: rest =>
      walk ← (if first then Ok walk else nd ← rd h walk; Ok (first_child nd));
      if walk =? 0 then RangeError else
      walk ← advance_siblings h walk n;
      ifp_steps h walk false rest
  end.

(** [iterator_from_path(path, top)]. *)
Definition iterator_from_path (h : heap) (path : list nat) (top : iterator)
  : outcome iterator :=
  walk ← ifp_steps h (node top) true path; Ok (iterator_of walk).

(** ** The n-th child *)

(** The loop [while (num--) { assert(tmp != 0); tmp = tmp->next_sibling; }]. *)
Fixpoint child_loop (h : heap) (tmp : ptr) (num : nat) : outcome ptr :=
  match num with
  | 0 => Ok tmp
  | S num' =>
      if tmp =? 0 then Abort else
      nd ← rd h tmp; child_loop h (next_sibling nd) num'
  end.


(** ** Moving another tree in *)




(** ** Maximal depth *)

(** The [do { tmp = tmp->parent; if (tmp == 0) return maxdepth; --curdepth; }
    while (tmp->next_sibling == 0);] loop of [max_depth]; [None] stands
    for the [return] inside it. *)
Fixpoint md_climb (fuel : nat) (h : heap) (tmp : ptr) (curdepth : Z)
  : outcome (option (ptr * Z)) :=
  match fuel with
  | 0 => OutOfFuel
  | S fuel' =>
      nd ← rd h tmp;
      let tmp := parent nd in
      if tmp =? 0 then Ok None else
      let curdepth := wrap (curdepth - 1) in
      nd ← rd h tmp;
      if next_sibling nd =? 0 then md_climb fuel' h tmp curdepth
      else Ok (Some (tmp, curdepth))
  end.

(** The two nested [while] loops of [max_depth], one test of
    [tmp->first_child == 0] per round. *)
Fixpoint md_loop (fuel : nat) (h : heap) (pos tmp : ptr) (curdepth maxdepth : Z)
  : outcome Z :=
  match fuel with
  | 0 => OutOfFuel
  | S fuel' =>
      nd ← rd h tmp;
      if first_child nd =? 0 then
        if tmp =? pos then Ok maxdepth else
        r ← (if next_sibling nd =? 0 then md_climb fuel h tmp curdepth
             else Ok (Some (tmp, curdepth)));
        match r with
        | None => Ok maxdepth
        | Some (tmp, curdepth) =>
            if tmp =? pos then Ok maxdepth else
            nd ← rd h tmp;
            md_loop fuel' h pos (next_sibling nd) curdepth maxdepth
        end
      else
        let curdepth := wrap (curdepth + 1) in
        md_loop fuel' h pos (first_child nd) curdepth (Z.max curdepth maxdepth)
  end.

(** [max_depth(const iterator_base& pos)]; [-1] is [size_t(-1)]. *)
Definition max_depth_at (fuel : nat) (h : heap) (t : tree) (pos : iterator) : outcome Z :=
  let tmp := node pos in
  if (tmp =? 0) || (tmp =? head t) || (tmp =? feet t) then Ok (wrap (-1)) else
  md_loop fuel h tmp tmp 0 0.

(** The [for] loop of the whole-tree [max_depth()]. *)
Fixpoint max_depth_roots (fuel : nat) (h : heap) (t : tree) (it : ptr) (maxd : Z)
  : outcome Z :=
  match fuel with
  | 0 => OutOfFuel
  | S fuel' =>
      if it =? feet t then Ok maxd else
      d ← max_depth_at fuel h t (iterator_of it);
      nd ← rd h it;
      max_depth_roots fuel' h t (next_sibling nd) (Z.max maxd d)
  end.

(** [max_depth()]. *)
Definition max_depth (fuel : nat) (h : heap) (t : tree) : outcome Z :=
  hd ← rd h (head t);
  max_depth_roots fuel h t (next_sibling hd) (wrap (-1)).

(** ** Filtering *)

Definition bump_expand (n : tree_node_) : tree_node_ :=
  let n1 := set_count_expandable (wrap (count_expandable n + 1)) n in
  set_count_expanded (wrap (count_expanded n1 + 1)) n1.

(** The innermost loop of [filter]:
    [while (parent1) { ++parent1->count_expandable; ++parent1->count_expanded;
                       parent1 = parent1->parent; }]. *)
Fixpoint filter_bump (fuel : nat) (h : heap) (parent1 : ptr) : outcome heap :=
  match fuel with
  | 0 => OutOfFuel
  | S fuel' =>
      if parent1 =? 0 then Ok h else
      h ← wr h parent1 bump_expand;
      nd ← rd h parent1;
      filter_bump fuel' h (parent nd)
  end.

(** The [while (parent)] loop of [filter], which forces the ancestors of
    a visible node visible. *)
Fixpoint filter_parents (fuel : nat) (h : heap) (t : tree) (p : ptr) : outcome heap :=
  match fuel with
  | 0 => OutOfFuel
  | S fuel' =>
      if p =? 0 then Ok h else
      nd ← rd h p;
      h ← (if visible nd then Ok h else
             h ← wr h p (set_visible true);
             h ← wr h (head t) bump_expand;
             nd ← rd h p;
             filter_bump fuel h (parent nd));
      h ← wr h p bump_expand;
      nd ← rd h p;
      filter_parents fuel' h t (parent nd)
  end.

(** The body of the [while (it != end())] loop of [filter]; [calls]
    records the nodes whose value was passed to the predicate. *)
Fixpoint filter_loop (fuel : nat) (h : heap) (t : tree) (comp : T -> bool)
    (it : iterator) (calls : list ptr) : outcome (heap * list ptr) :=
  match fuel with
  | 0 => OutOfFuel
  | S fuel' =>
      if node it =? feet t then Ok (h, calls) else
      nd ← rd h (node it);
      h ← (if first_child nd =? 0 then Ok h else
             wr h (node it) (fun n =>
               set_count_expanded 0 (set_count_expandable 0 (set_expanded true n))));
      nd ← rd h (node it);
      let vis := comp (data nd) in
      let calls := calls ++ [node it] in
      h ← wr h (node it) (set_visible vis);
      h ← (if vis then
             h ← wr h (head t) bump_expand;
             nd ← rd h (node it);
             filter_parents fuel h t (parent nd)
           else Ok h);
      it ← pre_incr fuel h it;
      filter_loop fuel' h t comp it calls
  end.

(** [filter(comp)]: the new heap, the returned count and the record of
    predicate calls. *)
Definition filter (fuel : nat) (h : heap) (t : tree) (comp : T -> bool)
  : outcome (heap * Z * list ptr) :=
  h ← wr h (head t) (set_count_expandable 0);
  h ← wr h (head t) (set_count_expanded 0);
  it ← begin_ h t;
  '(h, calls) ← filter_loop fuel h t comp it [];
  hd ← rd h (head t);
  Ok (h, count_expanded hd, calls).

(** ** Sorting a range of siblings *)

(** [sibling_iterator::operator++] and [operator--]; the latter asserts a
    parent when it steps back from the end of a chain. *)
Definition sibling_incr (h : heap) (s : sibling_iterator) : outcome sibling_iterator :=
  if snode s =? 0 then Ok s
  else nd ← rd h (snode s); Ok (mk_sit (next_sibling nd) (parent_ s)).

Definition sibling_decr (h : heap) (s : sibling_iterator) : outcome sibling_iterator :=
  if snode s =? 0 then
    if parent_ s =? 0 then Abort
    else pn ← rd h (parent_ s); Ok (mk_sit (last_child pn) (parent_ s))
  else nd ← rd h (snode s); Ok (mk_sit (prev_sibling nd) (parent_ s)).

(** [compare_nodes]: the ordering of two nodes is the ordering of their
    values.  The nodes compared are those of the range; a node that is not
    allocated stops [sort_collect] at the increment that follows. *)
Definition value_of (h : heap) (p : ptr) : T := data (default node_default (h !! p)).

Definition compare_nodes (h : heap) (comp : T -> T -> bool) (a b : ptr) : bool :=
  comp (value_of h a) (value_of h b).

(** [std::multiset::insert]: the new element goes in front of the first
    element that is greater, hence behind the elements equivalent to it. *)
Fixpoint ms_insert {A : Type} (lt : A -> A -> bool) (x : A) (l : list A) : list A :=
  match l with
  | [] => [x]
  | e :: l' => if lt x e then x :: l else e :: ms_insert lt x l'
  end.

(** The loop [while (it != to) { nodes.insert(it.node); ++it; }]. *)
Fixpoint sort_collect (fuel : nat) (h : heap) (lt : ptr -> ptr -> bool)
    (it to : ptr) (nodes : list ptr) : outcome (list ptr) :=
  match fuel with
  | 0 => OutOfFuel
  | S fuel' =>
      if it =? to then Ok nodes
      else
        let nodes := ms_insert lt it nodes in
        s ← sibling_incr h (mk_sit it 0);
        sort_collect fuel' h lt (snode s) to nodes
  end.

(** The loop [while (nit != eit)] over all sorted nodes but the last; it
    returns the heap, the final [prev] and the last node [*eit]. *)
Fixpoint sort_relink (h : heap) (prev : ptr) (nodes : list ptr) : outcome (heap * ptr * ptr) :=
  match nodes with
  | [] => Abort
  | [e] => Ok (h, prev, e)
  | n :: rest =>
      h ← wr h n (set_prev_sibling prev);
      h ← (if prev =? 0 then Ok h else wr h prev (set_next_sibling n));
      sort_relink h n rest
  end.

(** The loop [while (bcs != ecs) { sort(begin(bcs), end(bcs), comp, deep); ++bcs; }],
    with the recursive call as [k]. *)
Fixpoint sort_children (fuel : nat)
    (k : heap -> sibling_iterator -> sibling_iterator -> outcome heap)
    (h : heap) (bcs ecs : ptr) : outcome heap :=
  match fuel with
  | 0 => OutOfFuel
  | S fuel' =>
      if bcs =? ecs then Ok h
      else
        b ← sibling_begin h (iterator_of bcs);
        h ← k h b (sibling_end (iterator_of bcs));
        s ← sibling_incr h (mk_sit bcs 0);
        sort_children fuel' k h (snode s) ecs
  end.

(** [sort(from, to, comp, deep)]. *)
Fixpoint sort (fuel : nat) (h : heap) (comp : T -> T -> bool)
    (from to : sibling_iterator) (deep : bool) : outcome heap :=
  match fuel with
  | 0 => OutOfFuel
  | S fuel' =>
      if snode from =? snode to then Ok h
      else
        nodes ← sort_collect fuel h (compare_nodes h comp) (snode from) (snode to) [];
        it2 ← sibling_decr h to;
        fn ← rd h (snode from);
        let prev := prev_sibling fn in
        ln ← rd h (snode it2);
        let next := next_sibling ln in
        match nodes with
        | [] => Abort
        | nit :: _ =>
            h ← (if prev =? 0 then
                   nn ← rd h nit;
                   if parent nn =? 0 then Ok h
                   else wr h (parent nn) (set_first_child nit)
                 else wr h prev (set_next_sibling nit));
            '(h, prev, eit) ← sort_relink h prev nodes;
            h ← (if prev =? 0 then Ok h else wr h prev (set_next_sibling eit));
            h ← wr h eit (set_next_sibling next);
            h ← wr h eit (set_prev_sibling prev);
            h ← (if next =? 0 then
                   en ← rd h eit;
                   if parent en =? 0 then Ok h
                   else wr h (parent en) (set_last_child eit)
                 else wr h next (set_prev_sibling eit));
            if deep then
              sort_children fuel' (fun h b e => sort fuel' h comp b e deep) h nit next
            else Ok h
        end
  end.

(** ** Erasing a node *)

(** The loop of [erase_children_] over the children, with the recursive
    call as [k]: [prev = cur; cur = cur->next_sibling;
    erase_children_(prev); alloc_.destroy(prev); alloc_.deallocate(prev, 1)]. *)
Fixpoint erase_loop (fuel : nat) (k : heap -> ptr -> outcome heap) (h : heap) (cur : ptr)
  : outcome heap :=
  match fuel with
  | 0 => OutOfFuel
  | S fuel' =>
      if cur =? 0 then Ok h else
      nd ← rd h cur;
      h ← k h cur;
      _ ← rd h cur;
      erase_loop fuel' k (deallocate h cur) (next_sibling nd)
  end.

(** [erase_children_(it)]: no counter is touched. *)
Fixpoint erase_children_ (fuel : nat) (h : heap) (p : ptr) : outcome heap :=
  match fuel with
  | 0 => OutOfFuel
  | S fuel' =>
      if p =? 0 then Ok h else
      nd ← rd h p;
      h ← erase_loop fuel' (erase_children_ fuel') h (first_child nd);
      h ← wr h p (set_first_child 0);
      wr h p (set_last_child 0)
  end.

(** The [while (parent)] loop of [erase]:
    [--parent->count_expanded -= it.node->count_expanded] while all
    ancestors so far are expanded, and [--parent->count -= it.node->count]. *)
Fixpoint unbump_ancestors (fuel : nat) (h : heap) (cur p : ptr) (parent_expanded : bool)
  : outcome (heap * bool) :=
  match fuel with
  | 0 => OutOfFuel
  | S fuel' =>
      if p =? 0 then Ok (h, parent_expanded) else
      nd ← rd h p;
      let pe := parent_expanded && expanded nd in
      h ← (if pe then
             cn ← rd h cur;
             wr h p (fun n => set_count_expanded
                                (wrap (wrap (count_expanded n - 1) - count_expanded cn)) n)
           else Ok h);
      cn ← rd h cur;
      h ← wr h p (fun n => set_count (wrap (wrap (count n - 1) - count cn)) n);
      nd ← rd h p;
      unbump_ancestors fuel' h cur (parent nd) pe
  end.

Definition unbump_head (h : heap) (t : tree) (cur : ptr) (parent_expanded : bool)
  : outcome heap :=
  h ← (if parent_expanded then
         cn ← rd h cur;
         wr h (head t) (fun n => set_count_expanded
                                   (wrap (wrap (count_expanded n - 1) - count_expanded cn)) n)
       else Ok h);
  cn ← rd h cur;
  wr h (head t) (fun n => set_count (wrap (wrap (count n - 1) - count cn)) n).

(** [erase(it)] for a pre-order iterator; the iterator that is returned
    is computed before anything is unlinked. *)
Definition erase (fuel : nat) (h : heap) (t : tree) (it : iterator)
  : outcome (heap * iterator) :=
  let cur := node it in
  if cur =? head t then Abort else
  ret ← pre_incr fuel h (mk_it cur true);
  h ← erase_children_ fuel h cur;
  cn ← rd h cur;
  h ← (if prev_sibling cn =? 0 then wr h (parent cn) (set_first_child (next_sibling cn))
       else wr h (prev_sibling cn) (set_next_sibling (next_sibling cn)));
  h ← (if next_sibling cn =? 0 then wr h (parent cn) (set_last_child (prev_sibling cn))
       else wr h (next_sibling cn) (set_prev_sibling (prev_sibling cn)));
  '(h, pe) ← unbump_ancestors fuel h cur (parent cn) true;
  h ← unbump_head h t cur pe;
  _ ← rd h cur;
  Ok (deallocate h cur, ret).

(** ** Emptiness, depth and siblings *)

(** [empty()]: [begin() == end()]; two iterators are equal when they
    point to the same node. *)
Definition empty (h : heap) (t : tree) : outcome bool :=
  it ← begin_ h t; Ok (node it =? node (end_ t)).

(** The loop [while (pos->parent != 0 && pos != root.node) { pos = pos->parent; ++ret; }]
    of [depth(it, root)]; the counter is a natural number, it counts the
    nodes that the loop visits. *)
Fixpoint depth_loop (fuel : nat) (h : heap) (root pos : ptr) (ret : nat) : outcome nat :=
  match fuel with
  | 0 => OutOfFuel
  | S fuel' =>
      nd ← rd h pos;
      if negb (parent nd =? 0) && negb (pos =? root)
      then depth_loop fuel' h root (parent nd) (S ret)
      else Ok ret
  end.

(** [depth(it)]: the loop [while (pos->parent != 0)]. *)
Fixpoint depth_top (fuel : nat) (h : heap) (pos : ptr) (ret : nat) : outcome nat :=
  match fuel with
  | 0 => OutOfFuel
  | S fuel' =>
      nd ← rd h pos;
      if negb (parent nd =? 0) then depth_top fuel' h (parent nd) (S ret) else Ok ret
  end.

Definition depth (fuel : nat) (h : heap) (it : iterator) : outcome nat :=
  if node it =? 0 then Abort else depth_top fuel h (node it) 0.

(** [depth(it, root)]. *)
Definition depth_below (fuel : nat) (h : heap) (it root : iterator) : outcome nat :=
  if node it =? 0 then Abort else depth_loop fuel h (node root) (node it) 0.

(** [parent(position)], [previous_sibling(position)] and
    [next_sibling(position)] at pre-order iterators. *)
Definition parent_of (h : heap) (position : iterator) : outcome iterator :=
  if node position =? 0 then Abort else
  nd ← rd h (node position); Ok (iterator_of (parent nd)).

Definition previous_sibling_of (h : heap) (position : iterator) : outcome iterator :=
  if node position =? 0 then Abort else
  nd ← rd h (node position); Ok (mk_it (prev_sibling nd) (skip_current_children_ position)).

Definition next_sibling_of (h : heap) (position : iterator) : outcome iterator :=
  if node position =? 0 then Abort else
  nd ← rd h (node position); Ok (mk_it (next_sibling nd) (skip_current_children_ position)).

(** The two loops of [number_of_siblings]: forward, then backward from
    the same node. *)
Fixpoint count_forward (fuel : nat) (h : heap) (t : tree) (pos : ptr) (ret : nat)
  : outcome nat :=
  match fuel with
  | 0 => OutOfFuel
  | S fuel' =>
      nd ← rd h pos;
      let n := next_sibling nd in
      if negb (n =? 0) && negb (n =? head t) && negb (n =? feet t)
      then count_forward fuel' h t n (S ret)
      else Ok ret
  end.

Fixpoint count_backward (fuel : nat) (h : heap) (t : tree) (pos : ptr) (ret : nat)
  : outcome nat :=
  match fuel with
  | 0 => OutOfFuel
  | S fuel' =>
      nd ← rd h pos;
      let p := prev_sibling nd in
      if negb (p =? 0) && negb (p =? head t) && negb (p =? feet t)
      then count_backward fuel' h t p (S ret)
      else Ok ret
  end.

(** [number_of_siblings(it)]. *)
Definition number_of_siblings (fuel : nat) (h : heap) (t : tree) (it : iterator)
  : outcome nat :=
  ret ← count_forward fuel h t (node it) 0;
  count_backward fuel h t (node it) ret.

(** The loops [while (it.node->prev_sibling != stop) { it.node = it.node->prev_sibling; ++ind; }]
    of [index(sibling_iterator)], where [stop] is the head sentinel or null. *)
Fixpoint index_loop (fuel : nat) (h : heap) (stop p : ptr) (ind : nat) : outcome nat :=
  match fuel with
  | 0 => OutOfFuel
  | S fuel' =>
      nd ← rd h p;
      if prev_sibling nd =? stop then Ok ind
      else index_loop fuel' h stop (prev_sibling nd) (S ind)
  end.

(** [index(sibling_iterator it)]. *)
Definition index (fuel : nat) (h : heap) (t : tree) (it : sibling_iterator) : outcome nat :=
  nd ← rd h (snode it);
  if parent nd =? 0 then index_loop fuel h (head t) (snode it) 0
  else index_loop fuel h 0 (snode it) 0.

(** The loop [while (num--) { tmp = tmp->next_sibling; }] of [sibling] at
    the top level, which has no assertion. *)
Fixpoint sibling_loop (h : heap) (tmp : ptr) (num : nat) : outcome ptr :=
  match num with
  | 0 => Ok tmp
  | S num' => nd ← rd h tmp; sibling_loop h (next_sibling nd) num'
  end.

(** [sibling(it, num)]. *)
Definition sibling (h : heap) (t : tree) (it : iterator) (num : nat)
  : outcome sibling_iterator :=
  nd ← rd h (node it);
  tmp ← (if parent nd =? 0 then
           hd ← rd h (head t); sibling_loop h (next_sibling hd) num
         else
           pn ← rd h (parent nd); child_loop h (first_child pn) num);
  sibling_of_node h tmp.

(** ** Membership in a subtree *)

(** The loop of [is_in_subtree(it, begin, end)]:
    [while (tmp != end) { if (tmp == it) return true; ++tmp; } return false;]. *)
Fixpoint in_range (fuel : nat) (h : heap) (it tmp last : ptr) : outcome bool :=
  match fuel with
  | 0 => OutOfFuel
  | S fuel' =>
      if tmp =? last then Ok false else
      if tmp =? it then Ok true else
      nxt ← pre_incr fuel h (iterator_of tmp);
      in_range fuel' h it (node nxt) last
  end.

(** [is_in_subtree(it, top)]: the range runs from [top] to its next
    sibling. *)
Definition is_in_subtree (fuel : nat) (h : heap) (it top : iterator) : outcome bool :=
  first ← sibling_of_node h (node top);
  last ← sibling_incr h first;
  in_range fuel h (node it) (snode first) (snode last).

(** ** Erasing the children of a node, and all nodes *)

(** The [while (parent)] loop of [erase_children]:
    [parent->count_expanded -= it.node->count_expanded] while all
    ancestors so far are expanded, [parent->count -= it.node->count] and
    [parent->count_expandable -= it.node->count_expandable]. *)
Fixpoint shrink_ancestors (fuel : nat) (h : heap) (cur p : ptr) (parent_expanded : bool)
  : outcome (heap * bool) :=
  match fuel with
  | 0 => OutOfFuel
  | S fuel' =>
      if p =? 0 then Ok (h, parent_expanded) else
      nd ← rd h p;
      let pe := parent_expanded && expanded nd in
      h ← (if pe then
             cn ← rd h cur;
             wr h p (fun n => set_count_expanded (wrap (count_expanded n - count_expanded cn)) n)
           else Ok h);
      cn ← rd h cur;
      h ← wr h p (fun n => set_count (wrap (count n - count cn)) n);
      cn ← rd h cur;
      h ← wr h p (fun n => set_count_expandable
                             (wrap (count_expandable n - count_expandable cn)) n);
      nd ← rd h p;
      shrink_ancestors fuel' h cur (parent nd) pe
  end.

Definition shrink_head (h : heap) (t : tree) (cur : ptr) (parent_expanded : bool)
  : outcome heap :=
  h ← (if parent_expanded then
         cn ← rd h cur;
         wr h (head t) (fun n => set_count_expanded
                                   (wrap (count_expanded n - count_expanded cn)) n)
       else Ok h);
  cn ← rd h cur;
  h ← wr h (head t) (fun n => set_count (wrap (count n - count cn)) n);
  cn ← rd h cur;
  wr h (head t) (fun n => set_count_expandable
                            (wrap (count_expandable n - count_expandable cn)) n).

(** [erase_children(it)]: the counters of the ancestors and of the head
    are lowered by the counters of the node, whose own counters are left
    as they are. *)
Definition erase_children (fuel : nat) (h : heap) (t : tree) (it : iterator) : outcome heap :=
  if node it =? 0 then Ok h else
  nd ← rd h (node it);
  '(h, pe) ← shrink_ancestors fuel h (node it) (parent nd) true;
  h ← shrink_head h t (node it) pe;
  erase_children_ fuel h (node it).

(** [clear()]: [while (head->next_sibling != feet) erase(pre_order_iterator(head->next_sibling));]. *)
Fixpoint clear_loop (fuel : nat) (h : heap) (t : tree) : outcome heap :=
  match fuel with
  | 0 => OutOfFuel
  | S fuel' =>
      hd ← rd h (head t);
      if next_sibling hd =? feet t then Ok h else
      '(h, _) ← erase fuel h t (iterator_of (next_sibling hd));
      clear_loop fuel' h t
  end.

Definition clear (fuel : nat) (h : heap) (t : tree) : outcome heap :=
  if head t =? 0 then Ok h else clear_loop fuel h t.

(** ** Pre-order decrement *)

(** The loop [while (this->node->last_child) this->node = this->node->last_child;]. *)
Fixpoint descend_last (fuel : nat) (h : heap) (p : ptr) : outcome ptr :=
  match fuel with
  | 0 => OutOfFuel
  | S fuel' =>
      nd ← rd h p;
      if last_child nd =? 0 then Ok p else descend_last fuel' h (last_child nd)
  end.

(** [pre_order_iterator::operator--]; [skip_current_children_] is left as
    it is. *)
Definition pre_decr (fuel : nat) (h : heap) (it : iterator) : outcome iterator :=
  if node it =? 0 then Abort else
  nd ← rd h (node it);
  if negb (prev_sibling nd =? 0) then
    p ← descend_last fuel h (prev_sibling nd);
    Ok (mk_it p (skip_current_children_ it))
  else Ok (mk_it (parent nd) (skip_current_children_ it)).

(** The loop [while (--it != head) ++ind;] of [index(pre_order_iterator)]. *)
Fixpoint index_pre_loop (fuel : nat) (h : heap) (t : tree) (it : iterator) (ind : nat)
  : outcome nat :=
  match fuel with
  | 0 => OutOfFuel
  | S fuel' =>
      it ← pre_decr fuel h it;
      if node it =? head t then Ok ind else index_pre_loop fuel' h t it (S ind)
  end.

(** [index(pre_order_iterator it)]. *)
Definition index_pre (fuel : nat) (h : heap) (t : tree) (it : iterator) : outcome nat :=
  index_pre_loop fuel h t it 0.

(** ** Swapping a node with its next sibling *)

(** [swap(sibling_iterator it)]. *)
Definition swap (h : heap) (it : sibling_iterator) : outcome heap :=
  nd ← rd h (snode it);
  let nxt := next_sibling nd in
  if nxt =? 0 then Ok h else
  h ← (if negb (prev_sibling nd =? 0) then wr h (prev_sibling nd) (set_next_sibling nxt)
       else wr h (parent nd) (set_first_child nxt));
  nd ← rd h (snode it);
  h ← wr h nxt (set_prev_sibling (prev_sibling nd));
  xn ← rd h nxt;
  let nxtnxt := next_sibling xn in
  h ← (if negb (nxtnxt =? 0) then wr h nxtnxt (set_prev_sibling (snode it))
       else nd ← rd h (snode it); wr h (parent nd) (set_last_child (snode it)));
  h ← wr h nxt (set_next_sibling (snode it));
  h ← wr h (snode it) (set_prev_sibling nxt);
  wr h (snode it) (set_next_sibling nxtnxt).

(** ** Flattening a node *)

(** The loop [while (tmp) { tmp->parent = position.node->parent; tmp = tmp->next_sibling; }]
    of [flatten]. *)
Fixpoint flatten_loop (fuel : nat) (h : heap) (pos tmp : ptr) : outcome heap :=
  match fuel with
  | 0 => OutOfFuel
  | S fuel' =>
      if tmp =? 0 then Ok h else
      pn ← rd h pos;
      h ← wr h tmp (set_parent (parent pn));
      nd ← rd h tmp;
      flatten_loop fuel' h pos (next_sibling nd)
  end.

(** [flatten(position)]: the children of the node become its next
    siblings; no counter is touched. *)
Definition flatten (fuel : nat) (h : heap) (position : iterator)
  : outcome (heap * iterator) :=
  let pos := node position in
  pn ← rd h pos;
  if first_child pn =? 0 then Ok (h, position) else
  h ← flatten_loop fuel h pos (first_child pn);
  pn ← rd h pos;
  h ← (if negb (next_sibling pn =? 0) then
         h ← wr h (last_child pn) (set_next_sibling (next_sibling pn));
         pn ← rd h pos;
         wr h (next_sibling pn) (set_prev_sibling (last_child pn))
       else wr h (parent pn) (set_last_child (last_child pn)));
  pn ← rd h pos;
  h ← wr h pos (set_next_sibling (first_child pn));
  pn ← rd h pos;
  h ← wr h (next_sibling pn) (set_prev_sibling pos);
  h ← wr h pos (set_first_child 0);
  h ← wr h pos (set_last_child 0);
  Ok (h, position).


(** ** Lowest common ancestor *)

(** The first loop of [lowest_common_ancestor],
    [do { walk = parent(walk); parents.insert(walk); } while (is_valid(parent(walk)))].
    The [std::set] of iterators ordered by their node pointers is the set
    of these pointers. *)
Fixpoint lca_collect (fuel : nat) (h : heap) (t : tree) (walk : iterator)
    (parents : gset ptr) : outcome (gset ptr) :=
  match fuel with
  | 0 => OutOfFuel
  | S fuel' =>
      walk ← parent_of h walk;
      let parents := {[ node walk ]} ∪ parents in
      up ← parent_of h walk;
      if is_valid t up then lca_collect fuel' h t walk parents else Ok parents
  end.

(** The second loop: [walk] goes up from [two] until it is in [parents] or
    its parent is not valid. *)
Fixpoint lca_search (fuel : nat) (h : heap) (t : tree) (walk : iterator)
    (parents : gset ptr) : outcome iterator :=
  match fuel with
  | 0 => OutOfFuel
  | S fuel' =>
      walk ← parent_of h walk;
      if bool_decide (node walk ∈ parents) then Ok walk else
      up ← parent_of h walk;
      if is_valid t up then lca_search fuel' h t walk parents else Ok walk
  end.

Definition lowest_common_ancestor (fuel : nat) (h : heap) (t : tree)
    (one two : iterator) : outcome iterator :=
  parents ← lca_collect fuel h t (iterator_of (node one)) ∅;
  lca_search fuel h t (iterator_of (node two)) parents.


(** ** The overloads that take the value by rvalue reference *)

Definition set_data (x : T) (n : tree_node_) : tree_node_ :=
  mk_node (parent n) (first_child n) (last_child n) (prev_sibling n) (next_sibling n)
    x (count n) (count_expanded n) (count_expandable n) (expanded n) (visible n).

(** [alloc_.construct(tmp); std::swap(tmp->data, x);]: a default node that
    takes the value. *)
Definition new_node_rvalue (h : heap) (x : T) : heap * ptr :=
  let tmp := allocate h in (<[tmp := set_data x node_default]> h, tmp).

(** [insert(iter position, T&& x)]: the same links as in
    [insert(iter position, const T& x)], but no assertion, no copy of the
    flags of the head and no counter. *)
Definition insert_rvalue (h : heap) (t : tree) (position : iterator) (x : T)
  : outcome (heap * iterator) :=
  let pos := if node position =? 0 then feet t else node position in
  let '(h, tmp) := new_node_rvalue h x in
  h ← wr h tmp (set_first_child 0);
  h ← wr h tmp (set_last_child 0);
  pn ← rd h pos;
  h ← wr h tmp (fun n => set_prev_sibling (prev_sibling pn)
                          (set_next_sibling pos (set_parent (parent pn) n)));
  h ← wr h pos (set_prev_sibling tmp);
  h ← (if prev_sibling pn =? 0 then
         if parent pn =? 0 then Ok h else wr h (parent pn) (set_first_child tmp)
       else wr h (prev_sibling pn) (set_next_sibling tmp));
  Ok (h, iterator_of tmp).

(** [append_child(iter position, T&& x)]: the links of
    [append_child(iter position, const T& x)] and no counter. *)
Definition append_child_rvalue (h : heap) (t : tree) (position : iterator) (x : T)
  : outcome (heap * iterator) :=
  let pos := node position in
  if (pos =? head t) || (pos =? feet t) || (pos =? 0) then Abort else
  let '(h, tmp) := new_node_rvalue h x in
  h ← wr h tmp (set_first_child 0);
  h ← wr h tmp (set_last_child 0);
  h ← wr h tmp (set_parent pos);
  pn ← rd h pos;
  h ← (if last_child pn =? 0 then wr h pos (set_first_child tmp)
       else wr h (last_child pn) (set_next_sibling tmp));
  h ← wr h tmp (set_prev_sibling (last_child pn));
  h ← wr h pos (set_last_child tmp);
  h ← wr h tmp (set_next_sibling 0);
  Ok (h, iterator_of tmp).

End Tree.

Arguments tree_node_ T : clear implicits.

(** ** The shape of a well-formed tree *)

(** A sibling chain with the subtrees below it: [FCons p cs r] is the
    node at address [p], its children [cs] and its right siblings [r]. *)
Inductive forest : Type :=
  | FNil
  | FCons (p : ptr) (children rest : forest).

Definition first_ptr (f : forest) (d : ptr) : ptr :=
  match f with
  | FNil => d
  | FCons p _ _ => p
  end.

Fixpoint last_ptr (f : forest) (d : ptr) : ptr :=
  match f with
  | FNil => d
  | FCons p _ r => last_ptr r p
  end.

(** The addresses of a forest in pre-order. *)
Fixpoint preorder (f : forest) : list ptr :=
  match f with
  | FNil => []
  | FCons p cs r => p :: preorder cs ++ preorder r
  end.

(** The roots of a forest, left to right. *)
Fixpoint roots (f : forest) : list ptr :=
  match f with
  | FNil => []
  | FCons p _ r => p :: roots r
  end.

Fixpoint fdepth (f : forest) : nat :=
  match f with
  | FNil => 0
  | FCons _ cs r => Nat.max (S (fdepth cs)) (fdepth r)
  end.

Section Rep.

Context {T : Type} `{Inhabited T}.

Abbreviation heap := (gmap nat (tree_node_ T)).

(** [links h par prev f next]: the heap [h] links the sibling chain [f]
    below the parent [par], between the nodes [prev] and [next]. *)
Fixpoint links (h : heap) (par prev : ptr) (f : forest) (next : ptr) : Prop :=
  match f with
  | FNil => True
  | FCons p cs r =>
      match h !! p with
      | Some nd =>
          parent nd = par /\ prev_sibling nd = prev /\
          next_sibling nd = first_ptr r next /\
          first_child nd = first_ptr cs 0 /\ last_child nd = last_ptr cs 0 /\
          links h p 0 cs 0 /\ links h par p r next
      | None => False
      end
  end.

Definition sentinel_ok (h : heap) (p prev next : ptr) : Prop :=
  match h !! p with
  | Some nd =>
      parent nd = 0 /\ first_child nd = 0 /\ last_child nd = 0 /\
      prev_sibling nd = prev /\ next_sibling nd = next
  | None => False
  end.

(** [tree_rep h t f]: in the heap [h] the tree object [t] is well formed
    and has the shape [f]: the roots are chained between the two
    sentinels, every link invariant of the container holds and no two
    nodes share an address. *)
Record tree_rep (h : heap) (t : tree) (f : forest) : Prop := mk_rep {
  rep_null : h !! 0 = None;
  rep_head : sentinel_ok h (head t) 0 (first_ptr f (feet t));
  rep_feet : sentinel_ok h (feet t) (last_ptr f (head t)) 0;
  rep_links : links h 0 (head t) f (feet t);
  rep_nodup : NoDup (head t :: feet t :: preorder f)
}.

(** [subtree_of f a]: the children of the node [a] of [f]. *)
Fixpoint subtree_of (f : forest) (a : ptr) : option forest :=
  match f with
  | FNil => None
  | FCons p cs r =>
      if p =? a then Some cs else
      match subtree_of cs a with
      | Some g => Some g
      | None => subtree_of r a
      end
  end.

(** [after f e a]: the node that follows the subtree of [a] in the
    pre-order of [f], where [e] follows [f] itself. *)
Fixpoint after (f : forest) (e : ptr) (a : ptr) : ptr :=
  match f with
  | FNil => e
  | FCons p cs r =>
      if p =? a then first_ptr r e else
      match subtree_of cs a with
      | Some _ => after cs (first_ptr r e) a
      | None => after r e a
      end
  end.

(** One [++it] without and with [skip_children()]. *)
Definition step (N : nat) (h : heap) (a b : ptr) : Prop :=
  pre_incr N h (iterator_of a) = Ok (iterator_of b).
Definition skip_step (N : nat) (h : heap) (a b : ptr) : Prop :=
  pre_incr N h (mk_it a true) = Ok (iterator_of b).

(** [walk_ok N h f e]: with fuel [N], the increments of the pre-order
    iterator follow the pre-order of [f] and leave it at [e]. *)
Fixpoint walk_ok (N : nat) (h : heap) (f : forest) (e : ptr) : Prop :=
  match f with
  | FNil => True
  | FCons p cs r =>
      step N h p (first_ptr cs (first_ptr r e)) /\
      skip_step N h p (first_ptr r e) /\
      walk_ok N h cs (first_ptr r e) /\ walk_ok N h r e
  end.

(** [exit_ok h par next n e]: [e] follows a sibling chain that ends in
    [next] below [par]. *)
Definition exit_ok (h : heap) (par next : ptr) (n : nat) (e : ptr) : Prop :=
  (next <> 0 /\ e = next) \/ (next = 0 /\ par <> 0 /\ climb_next n h par = Ok e).

(** [chain R l]: [R] relates every element of [l] to the next one. *)
Fixpoint chain (R : ptr -> ptr -> Prop) (l : list ptr) : Prop :=
  match l with
  | [] => True
  | a :: l' => match l' with [] => True | b :: _ => R a b end /\ chain R l'
  end.

(** [nth_root f i]: the [i]-th root of [f] and its children. *)
Fixpoint nth_root (f : forest) (i : nat) : option (ptr * forest) :=
  match f with
  | FNil => None
  | FCons p cs r =>
      match i with
      | 0 => Some (p, cs)
      | S j => nth_root r j
      end
  end.

(** [descend f path]: the node reached from the chain [f] by taking, at
    each level, the root with the given index and then its children. *)
Fixpoint descend (f : forest) (path : list nat) : option ptr :=
  match path with
  | [] => None
  | i :: rest =>
      match nth_root f i with
      | None => None
      | Some (p, cs) =>
          match rest with
          | [] => Some p
          | _ :: _ => descend cs rest
          end
      end
  end.

Definition root_ptr (f : forest) (i : nat) (d : ptr) : ptr :=
  match nth_root f i with
  | Some (p, _) => p
  | None => d
  end.

(** [fsnoc f p]: the chain [f] with the leaf [p] appended as last root. *)
Fixpoint fsnoc (f : forest) (p : ptr) : forest :=
  match f with
  | FNil => FCons p FNil FNil
  | FCons q cs r => FCons q cs (fsnoc r p)
  end.

(** Two nodes carry the same five links. *)
Definition same_links (a b : tree_node_ T) : Prop :=
  parent a = parent b /\ first_child a = first_child b /\
  last_child a = last_child b /\ prev_sibling a = prev_sibling b /\
  next_sibling a = next_sibling b.

(** [h'] keeps the links of the node that [h] stores at [p]. *)
Definition keeps_links (h h' : heap) (p : ptr) : Prop :=
  match h !! p, h' !! p with
  | Some a, Some b => same_links a b
  | _, _ => False
  end.

(** [same_shape h h']: the two heaps hold nodes at the same addresses,
    with the same links and the same values. *)
Definition same_shape (h h' : heap) : Prop :=
  forall p,
    match h !! p, h' !! p with
    | Some a, Some b => same_links a b /\ data a = data b
    | None, None => True
    | _, _ => False
    end.

(** [chain_up h p l]: [l] lists [p] and its ancestors, following the
    parent pointers of [h] from [p] up to a node without parent. *)
Fixpoint chain_up (h : heap) (p : ptr) (l : list ptr) : Prop :=
  match l with
  | [] => p = 0
  | a :: l' =>
      a = p /\ p <> 0 /\
      match h !! p with
      | Some nd => chain_up h (parent nd) l'
      | None => False
      end
  end.

(** [anc_in f acc y]: the ancestors of the node [y] of [f], nearest
    first, where [acc] lists the ancestors of the roots of [f]. *)
Fixpoint anc_in (f : forest) (acc : list ptr) (y : ptr) : option (list ptr) :=
  match f with
  | FNil => None
  | FCons p cs r =>
      if p =? y then Some acc else
      match anc_in cs (p :: acc) y with
      | Some l => Some l
      | None => anc_in r acc y
      end
  end.

Definition ancestors (f : forest) (y : ptr) : list ptr :=
  match anc_in f [] y with
  | Some l => l
  | None => []
  end.

(** [desc f x]: the proper descendants of the node [x] of [f]. *)
Definition desc (f : forest) (x : ptr) : list ptr :=
  match subtree_of f x with
  | Some cs => preorder cs
  | None => []
  end.

(** The predicate [comp] on the value stored at [p]. *)
Definition comp_at (comp : T -> bool) (h : heap) (p : ptr) : bool :=
  match h !! p with
  | Some nd => comp (data nd)
  | None => false
  end.

Definition visible_at (h : heap) (p : ptr) : bool :=
  match h !! p with
  | Some nd => visible nd
  | None => false
  end.

(** [vis_inv comp h0 h f l]: in [h] a node of [l] is visible exactly
    when the predicate holds of its value or of the value of one of its
    descendants in [l]; the values are read in [h0]. *)
Definition vis_inv (comp : T -> bool) (h0 h : heap) (f : forest) (l : list ptr) : Prop :=
  forall z, z ∈ l ->
    (visible_at h z = true <->
     (comp_at comp h0 z = true \/
      exists y, y ∈ l /\ y ∈ desc f z /\ comp_at comp h0 y = true)).

(** ** Forests with a hole *)

(** A forest with one hole in the place of the tail of a sibling chain:
    [HChild p C r] has the hole among the descendants of the root [p],
    [HRest p cs C] has it to the right of the root [p]. *)
Inductive hforest : Type :=
  | HHole
  | HChild (p : ptr) (C : hforest) (r : forest)
  | HRest (p : ptr) (cs : forest) (C : hforest).

Fixpoint hplug (C : hforest) (g : forest) : forest :=
  match C with
  | HHole => g
  | HChild p C' r => FCons p (hplug C' g) r
  | HRest p cs C' => FCons p cs (hplug C' g)
  end.

(** The parent, the left neighbour and the right end of the chain in the
    hole, for a forest that sits below [par] between [prev] and [next]. *)
Fixpoint hpar (C : hforest) (par : ptr) : ptr :=
  match C with
  | HHole => par
  | HChild p C' _ => hpar C' p
  | HRest _ _ C' => hpar C' par
  end.

Fixpoint hprev (C : hforest) (prev : ptr) : ptr :=
  match C with
  | HHole => prev
  | HChild _ C' _ => hprev C' 0
  | HRest p _ C' => hprev C' p
  end.

Fixpoint hnext (C : hforest) (next : ptr) : ptr :=
  match C with
  | HHole => next
  | HChild _ C' _ => hnext C' 0
  | HRest _ _ C' => hnext C' next
  end.

(** The first and the last root of the chain in the hole, if any. *)
Definition bounds (g : forest) : option (ptr * ptr) :=
  match g with
  | FNil => None
  | FCons p _ r => Some (p, last_ptr r p)
  end.

Definition bfirst (b : option (ptr * ptr)) (d : ptr) : ptr :=
  match b with
  | None => d
  | Some (a, _) => a
  end.

Definition blast (b : option (ptr * ptr)) (d : ptr) : ptr :=
  match b with
  | None => d
  | Some (_, z) => z
  end.

Definition hfirst (C : hforest) (b : option (ptr * ptr)) (d : ptr) : ptr :=
  match C with
  | HHole => bfirst b d
  | HChild p _ _ => p
  | HRest p _ _ => p
  end.

Fixpoint hlast (C : hforest) (b : option (ptr * ptr)) (d : ptr) : ptr :=
  match C with
  | HHole => blast b d
  | HChild p _ r => last_ptr r p
  | HRest p _ C' => hlast C' b p
  end.

(** The links of the nodes around the hole, when the chain in the hole
    has the bounds [b]. *)
Fixpoint clinks (h : heap) (par prev : ptr) (C : hforest) (next : ptr)
    (b : option (ptr * ptr)) : Prop :=
  match C with
  | HHole => True
  | HChild p C' r =>
      match h !! p with
      | Some nd =>
          parent nd = par /\ prev_sibling nd = prev /\
          next_sibling nd = first_ptr r next /\
          first_child nd = hfirst C' b 0 /\ last_child nd = hlast C' b 0 /\
          clinks h p 0 C' 0 b /\ links h par p r next
      | None => False
      end
  | HRest p cs C' =>
      match h !! p with
      | Some nd =>
          parent nd = par /\ prev_sibling nd = prev /\
          next_sibling nd = hfirst C' b next /\
          first_child nd = first_ptr cs 0 /\ last_child nd = last_ptr cs 0 /\
          links h p 0 cs 0 /\ clinks h par p C' next b
      | None => False
      end
  end.

(** The addresses of the nodes around the hole. *)
Fixpoint cptrs (C : hforest) : list ptr :=
  match C with
  | HHole => []
  | HChild p C' r => p :: cptrs C' ++ preorder r
  | HRest p cs C' => p :: preorder cs ++ cptrs C'
  end.

(** The ancestors of the hole, nearest first. *)
Fixpoint cancestors (C : hforest) : list ptr :=
  match C with
  | HHole => []
  | HChild p C' _ => cancestors C' ++ [p]
  | HRest _ _ C' => cancestors C'
  end.

(** The hole is in the outermost sibling chain. *)
Fixpoint on_top (C : hforest) : bool :=
  match C with
  | HHole => true
  | HChild _ _ _ => false
  | HRest _ _ C' => on_top C'
  end.

(** The chain of the roots of a tree between its two sentinels, as one
    sibling chain. *)
Definition with_sentinels (t : tree) (f : forest) : forest :=
  FCons (head t) FNil (fsnoc f (feet t)).

(** A sibling chain given by its trees, in front of the chain [rest]. *)
Fixpoint of_trees (ts : list (ptr * forest)) (rest : forest) : forest :=
  match ts with
  | [] => rest
  | (p, cs) :: ts' => FCons p cs (of_trees ts' rest)
  end.

(** [ctx_upd h h' hp hv hn b p]: the node [p] around a hole has in [h']
    the links it has in [h], but for the links into the hole, which
    follow the bounds [b] of the new chain in the hole: the left neighbour
    [hv] points to its first root, the parent [hp] to its first and last
    root. *)
Definition ctx_upd (h h' : heap) (hp hv hn : ptr) (b : option (ptr * ptr))
    (p : ptr) : Prop :=
  match h !! p, h' !! p with
  | Some a, Some c =>
      parent c = parent a /\ prev_sibling c = prev_sibling a /\
      next_sibling c = (if decide (p = hv) then bfirst b hn else next_sibling a) /\
      first_child c =
        (if decide (p = hp) then
           if decide (hv = 0) then bfirst b 0 else first_child a
         else first_child a) /\
      last_child c = (if decide (p = hp) then blast b hv else last_child a)
  | _, _ => False
  end.

(** [raw h f]: the links of the sibling chain [f], sentinels included. *)
Definition raw (h : heap) (f : forest) : Prop :=
  h !! 0 = None /\ links h 0 0 f 0 /\ NoDup (preorder f).

(** ** Orderings *)

(** A strict weak ordering, as [sort] expects it: irreflexive and
    transitive, with a transitive equivalence of incomparable values. *)
Record strict_weak (comp : T -> T -> bool) : Prop := mk_sw {
  sw_irrefl : forall x, comp x x = false;
  sw_trans : forall x y z, comp x y = true -> comp y z = true -> comp x z = true;
  sw_equiv : forall x y z,
    comp x y = false -> comp y x = false ->
    comp y z = false -> comp z y = false ->
    comp x z = false /\ comp z x = false
}.

(** Two values are equivalent when neither is less than the other. *)
Definition equivalent (comp : T -> T -> bool) (x y : T) : bool :=
  negb (comp x y) && negb (comp y x).

(** [a] may stand before [b] in a sorted chain. *)
Definition not_after (comp : T -> T -> bool) (h : heap) (a b : ptr) : Prop :=
  compare_nodes h comp b a = false.

(** The chain [f] followed by the chain [g]. *)
Fixpoint fapp (f g : forest) : forest :=
  match f with
  | FNil => g
  | FCons p cs r => FCons p cs (fapp r g)
  end.

(** The hole of [C] seen in the chain of the roots between the sentinels
    of the tree [t]: the foot sentinel closes the outermost chain, which is
    in the hole when the hole is on top. *)
Fixpoint cext_top (t : tree) (C : hforest) : hforest :=
  match C with
  | HHole => HHole
  | HChild p C' r => HChild p C' (fsnoc r (feet t))
  | HRest p cs C' => HRest p cs (cext_top t C')
  end.

Definition cext (t : tree) (C : hforest) : hforest :=
  HRest (head t) FNil (cext_top t C).

Definition gext (t : tree) (C : hforest) (g : forest) : forest :=
  if on_top C then fsnoc g (feet t) else g.

(** ** Sorted chains *)

(** The tree [x] hangs below [par] in the heap [h], whatever its place
    among its siblings. *)
Definition tree_ok (h : heap) (par : ptr) (x : ptr * forest) : Prop :=
  match h !! x.1 with
  | Some nd =>
      parent nd = par /\ first_child nd = first_ptr x.2 0 /\
      last_child nd = last_ptr x.2 0 /\ links h x.1 0 x.2 0
  | None => False
  end.

(** The relinking loop of [sort] with the three statements that follow
    it. *)
Definition sort_chain (h : heap) (prev : ptr) (nodes : list ptr) (next : ptr) : outcome heap :=
  '(h, prev, eit) ← sort_relink h prev nodes;
  h ← (if prev =? 0 then Ok h else wr h prev (set_next_sibling eit));
  h ← wr h eit (set_next_sibling next);
  wr h eit (set_prev_sibling prev).

(** The trees [ts] in the order of the multiset of [sort]: inserted one
    after the other, by the values of their roots. *)
Definition tsort (h : heap) (comp : T -> T -> bool) (ts : list (ptr * forest)) :
    list (ptr * forest) :=
  fold_left (fun acc x => ms_insert (fun a b => compare_nodes h comp a.1 b.1) x acc) ts [].

(** The two heaps hold the same values at the same addresses. *)
Definition same_values (h h' : heap) : Prop :=
  forall p, data <$> h' !! p = data <$> h !! p.

(** The parent/child edges of a chain below [par]. *)
Fixpoint edges (par : ptr) (f : forest) : list (ptr * ptr) :=
  match f with
  | FNil => []
  | FCons p cs r => (par, p) :: edges p cs ++ edges par r
  end.

(** The trees of a sibling chain. *)
Fixpoint trees (f : forest) : list (ptr * forest) :=
  match f with
  | FNil => []
  | FCons p cs r => (p, cs) :: trees r
  end.

(** The forest with a hole [D] in the hole of [C]. *)
Fixpoint hcomp (C D : hforest) : hforest :=
  match C with
  | HHole => D
  | HChild p C' r => HChild p (hcomp C' D) r
  | HRest p cs C' => HRest p cs (hcomp C' D)
  end.

(** The two chains have the same parent/child edges, below any parent. *)
Definition same_edges (f f' : forest) : Prop :=
  forall par, edges par f ≡ₚ edges par f'.

(** ** The node counters *)

(** [counts_ok h f]: every node of [f] counts its proper descendants, a
    leaf counts 0. *)
Fixpoint counts_ok (h : heap) (f : forest) : Prop :=
  match f with
  | FNil => True
  | FCons p cs r =>
      match h !! p with
      | Some nd => count nd = wrap (Z.of_nat (length (preorder cs)))
      | None => False
      end /\ counts_ok h cs /\ counts_ok h r
  end.

(** [bookkept h t f]: the tree is well formed, every node counts its
    proper descendants and the head sentinel counts the nodes of the
    tree. *)
Definition bookkept (h : heap) (t : tree) (f : forest) : Prop :=
  tree_rep h t f /\ counts_ok h f /\
  count <$> h !! head t = Some (wrap (Z.of_nat (length (preorder f)))).

(** The number of nodes of the chain around the hole of [C], when the
    chain in the hole has [k] nodes. *)
Fixpoint csize (C : hforest) (k : Z) : Z :=
  match C with
  | HHole => k
  | HChild _ C' r => (1 + csize C' k + Z.of_nat (length (preorder r)))%Z
  | HRest _ cs C' => (1 + Z.of_nat (length (preorder cs)) + csize C' k)%Z
  end.

(** The counters of the nodes around the hole, when the chain in the
    hole has [k] nodes. *)
Fixpoint ccounts (h : heap) (C : hforest) (k : Z) : Prop :=
  match C with
  | HHole => True
  | HChild p C' r =>
      match h !! p with
      | Some nd => count nd = wrap (csize C' k)
      | None => False
      end /\ ccounts h C' k /\ counts_ok h r
  | HRest p cs C' =>
      match h !! p with
      | Some nd => count nd = wrap (Z.of_nat (length (preorder cs)))
      | None => False
      end /\ counts_ok h cs /\ ccounts h C' k
  end.

(** The counter of [p] is in [h'] the counter in [h] changed by [g]. *)
Definition count_upd (h h' : heap) (g : Z -> Z) (p : ptr) : Prop :=
  match h !! p, h' !! p with
  | Some a, Some c => count c = g (count a)
  | _, _ => False
  end.

(** The chain [f] with the hole at its end. *)
Fixpoint cend (f : forest) : hforest :=
  match f with
  | FNil => HHole
  | FCons p cs r => HRest p cs (cend r)
  end.

(** The forest of [C] with the hole at the end of the children of the root
    [pos], which has the children [cs] and is followed by [r]. *)
Definition child_end (C : hforest) (pos : ptr) (cs r : forest) : hforest :=
  hcomp C (HChild pos (cend cs) r).

(** The sum, over the roots of a chain, of one plus the counter of the
    root: what the nodes of the chain add to the counter of their
    parent. *)
Definition children_sum (h : heap) (cs : forest) : Z :=
  foldr (fun c acc => (1 + count (default node_default (h !! c)) + acc)%Z) 0%Z (roots cs).

(** The counter that the specification words ask for at a node with the
    children [cs]: one plus the sum of the counters of the children. *)
Definition spec_subtree_count (h : heap) (cs : forest) : Z :=
  (1 + foldr (fun c acc => (count (default node_default (h !! c)) + acc)%Z) 0%Z (roots cs))%Z.

(** The ordering of the elements of a multiset by their keys, its
    converse and the class of the elements equivalent to a value. *)
Definition key_lt {A : Type} (comp : T -> T -> bool) (key : A -> T) (a b : A) : bool :=
  comp (key a) (key b).
Definition key_le {A : Type} (comp : T -> T -> bool) (key : A -> T) (a b : A) : Prop :=
  comp (key b) (key a) = false.
Definition key_class {A : Type} (comp : T -> T -> bool) (key : A -> T) (v : T) (a : A) : bool :=
  equivalent comp v (key a).

(** [sibling_chain t f par g lo hi]: [g] is a whole sibling chain of the
    tree [f], below [par] and between [lo] and [hi]: the chain of the
    roots, which has no parent and lies between the two sentinels, or the
    chain of the children of the node [par], which null pointers close. *)
Definition sibling_chain (t : tree) (f : forest) (par : ptr) (g : forest) (lo hi : ptr)
  : Prop :=
  (par = 0 /\ g = f /\ lo = head t /\ hi = feet t) \/
  (subtree_of f par = Some g /\ lo = 0 /\ hi = 0).

(** The nodes in front of the hole of [C] and the nodes behind it, in
    pre-order. *)
Fixpoint cbefore (C : hforest) : list ptr :=
  match C with
  | HHole => []
  | HChild p C' _ => p :: cbefore C'
  | HRest p cs C' => p :: preorder cs ++ cbefore C'
  end.

Fixpoint cafter (C : hforest) : list ptr :=
  match C with
  | HHole => []
  | HChild _ C' r => cafter C' ++ preorder r
  | HRest _ _ C' => cafter C'
  end.


(** The node that [lowest_common_ancestor] returns for the chains of
    ancestors [l1] and [l2], nearest ancestor first: the first node of [l2]
    that is in [l1], and the last node of [l2] when there is none. *)
Definition lca_pick (l1 l2 : list ptr) : ptr :=
  default (List.last l2 0) (List.find (fun x => bool_decide (x ∈ l1)) l2).


(** What a call that links the new node [allocate h] with the value [x]
    and touches no counter leaves behind: the new node has the counter 0,
    every old node has the counter it had, and [size()] returns what it
    returned before. *)
Definition linked_uncounted (h h' : heap) (t : tree) (x : T) : Prop :=
  data <$> h' !! allocate h = Some x /\
  count <$> h' !! allocate h = Some 0%Z /\
  (forall q, is_Some (h !! q) -> count <$> h' !! q = count <$> h !! q) /\
  size h' t = size h t.

End Rep.

(** * A concrete tree *)

(** The tree built by
    [a = insert(end, 10); b = append_child(a, 20); c = append_child(a, 30);
     d = append_child(b, 40); e = insert(end, 50)]
    on a fresh heap: two roots [a] and [e]; [a] has the children [b] and
    [c]; [b] has the child [d]. *)
Definition ex_build : outcome (gmap nat (tree_node_ nat) * tree * list ptr) :=
  let '(h, t) := head_initialise_ (∅ : gmap nat (tree_node_ nat)) in
  '(h, a) ← insert 8 h t (iterator_of 0) 10;
  '(h, b) ← append_child 8 h t a 20;
  '(h, c) ← append_child 8 h t a 30;
  '(h, d) ← append_child 8 h t b 40;
  '(h, e) ← insert 8 h t (iterator_of 0) 50;
  Ok (h, t, [node a; node b; node c; node d; node e]).

Definition ex_tree : tree := mk_tree 1 2.

Definition ex_heap : gmap nat (tree_node_ nat) :=
  list_to_map
    [ (1, mk_node 0 0 0 0 3 0 5%Z 5%Z 5%Z true true);
      (2, mk_node 0 0 0 7 0 0 0%Z 0%Z 0%Z false true);
      (3, mk_node 0 4 5 1 7 10 3%Z 3%Z 3%Z true true);
      (4, mk_node 3 6 6 0 5 20 1%Z 1%Z 1%Z true true);
      (5, mk_node 3 0 0 4 0 30 0%Z 0%Z 0%Z true true);
      (6, mk_node 4 0 0 0 0 40 0%Z 0%Z 0%Z true true);
      (7, mk_node 0 0 0 3 2 50 0%Z 0%Z 0%Z true true) ].

Definition ex_forest : forest :=
  FCons 3 (FCons 4 (FCons 6 FNil FNil) (FCons 5 FNil FNil)) (FCons 7 FNil FNil).

(** * A tree grown by [prepend_child] *)

(** [a = set_head(10); b = prepend_child(a, 20)] on a fresh heap. *)
Definition prepended_build : outcome (gmap nat (tree_node_ nat) * tree) :=
  let '(h, t) := head_initialise_ (∅ : gmap nat (tree_node_ nat)) in
  '(h, a) ← set_head 4 h t 10;
  '(h, b) ← prepend_child h t a 20;
  Ok (h, t).

Definition prepended_heap : gmap nat (tree_node_ nat) :=
  list_to_map
    [ (1, mk_node 0 0 0 0 3 0 1%Z 1%Z 1%Z true true);
      (2, mk_node 0 0 0 3 0 0 0%Z 0%Z 0%Z false true);
      (3, mk_node 0 4 4 1 2 10 0%Z 0%Z 0%Z true true);
      (4, mk_node 3 0 0 0 0 20 0%Z 0%Z 0%Z true true) ].

Definition prepended_forest : forest := FCons 3 (FCons 4 FNil FNil) FNil.

(** * A tree with a root-level subtree to move out *)

(** [a = insert(end, 1); d = insert(end, 4); g = insert(end, 8);
     f = append_child(d, 6); g' = append_child(d, 7)]: three roots, the
    middle one [d] with two children. *)
Definition movable_build : outcome (gmap nat (tree_node_ nat) * tree) :=
  let '(h, t) := head_initialise_ (∅ : gmap nat (tree_node_ nat)) in
  '(h, a) ← insert 4 h t (iterator_of 0) 1;
  '(h, d) ← insert 4 h t (iterator_of 0) 4;
  '(h, e) ← insert 4 h t (iterator_of 0) 8;
  '(h, f) ← append_child 4 h t d 6;
  '(h, g) ← append_child 4 h t d 7;
  Ok (h, t).

Definition movable_heap : gmap nat (tree_node_ nat) :=
  list_to_map
    [ (1, mk_node 0 0 0 0 3 0 5%Z 5%Z 5%Z true true);
      (2, mk_node 0 0 0 5 0 0 0%Z 0%Z 0%Z false true);
      (3, mk_node 0 0 0 1 4 1 0%Z 0%Z 0%Z true true);
      (4, mk_node 0 6 7 3 5 4 2%Z 2%Z 2%Z true true);
      (5, mk_node 0 0 0 4 2 8 0%Z 0%Z 0%Z true true);
      (6, mk_node 4 0 0 0 7 6 0%Z 0%Z 0%Z true true);
      (7, mk_node 4 0 0 6 0 7 0%Z 0%Z 0%Z true true) ].

Definition movable_tree : tree := mk_tree 1 2.

Definition movable_forest : forest :=
  FCons 3 FNil (FCons 4 (FCons 6 FNil (FCons 7 FNil FNil)) (FCons 5 FNil FNil)).

(** The heap and the returned tree of [move_out(d)]. *)
Definition moved_heap : gmap nat (tree_node_ nat) :=
  list_to_map
    [ (1, mk_node 0 0 0 0 3 0 5%Z 5%Z 5%Z true true);
      (2, mk_node 0 0 0 5 0 0 0%Z 0%Z 0%Z false true);
      (3, mk_node 0 0 0 1 5 1 0%Z 0%Z 0%Z true true);
      (4, mk_node 0 6 7 8 9 4 2%Z 2%Z 2%Z true true);
      (5, mk_node 0 0 0 3 2 8 0%Z 0%Z 0%Z true true);
      (6, mk_node 4 0 0 0 7 6 0%Z 0%Z 0%Z true true);
      (7, mk_node 4 0 0 6 0 7 0%Z 0%Z 0%Z true true);
      (8, mk_node 0 0 0 0 4 0 0%Z 0%Z 0%Z true true);
      (9, mk_node 0 0 0 4 0 0 0%Z 0%Z 0%Z false true) ].

Definition moved_tree : tree := mk_tree 8 9.


(** * Sorting the children of the first root *)

(** The descending order on values. *)
Definition descending (x y : nat) : bool := y <? x.

(** The concrete tree with the hole in the place of the children of the
    root [a], and the trees of these children. *)
Definition ex_context : hforest := HChild 3 HHole (FCons 7 FNil FNil).
Definition ex_children : list (ptr * forest) := [(4, FCons 6 FNil FNil); (5, FNil)].

(** * Verification *)

(** * Further places in the concrete tree *)

(** The children of the root [a]; the concrete tree with the hole in the
    place of the children of [b], where [d] is, and with the hole to the
    right of [b], where [c] is. *)
Definition ex_siblings : forest := FCons 4 (FCons 6 FNil FNil) (FCons 5 FNil FNil).
Definition ex_context_d : hforest :=
  HChild 3 (HChild 4 HHole (FCons 5 FNil FNil)) (FCons 7 FNil FNil).
Definition ex_context_c : hforest :=
  HChild 3 (HRest 4 (FCons 6 FNil FNil) HHole) (FCons 7 FNil FNil).


(** * A tree grown from temporaries *)

(** [a = insert(end(), 10); b = append_child(a, 20)] with the values given
    as temporaries, which selects the overloads that take [T&&]. *)
Definition rvalue_build : outcome (gmap nat (tree_node_ nat) * tree) :=
  let '(h, t) := head_initialise_ (∅ : gmap nat (tree_node_ nat)) in
  '(h, a) ← insert_rvalue h t (end_ t) 10;
  '(h, b) ← append_child_rvalue h t a 20;
  Ok (h, t).


Definition rvalue_heap : gmap nat (tree_node_ nat) :=
  list_to_map
    [ (1, mk_node 0 0 0 0 3 0 0%Z 0%Z 0%Z true true);
      (2, mk_node 0 0 0 3 0 0 0%Z 0%Z 0%Z false true);
      (3, mk_node 0 4 4 1 2 10 0%Z 0%Z 0%Z false false);
      (4, mk_node 3 0 0 0 0 20 0%Z 0%Z 0%Z false false) ].

Definition rvalue_forest : forest := FCons 3 (FCons 4 FNil FNil) FNil.

Section Proofs.

Context {T : Type} `{Inhabited T}.

Abbreviation heap := (gmap nat (tree_node_ T)).

Lemma rd_some (h : heap) p nd : h !! p = Some nd -> rd h p = Ok nd.
Proof. intros E. unfold rd. by rewrite E. Qed.

Lemma links_cons (h : heap) par prev p cs r next :
  links h par prev (FCons p cs r) next ->
  exists nd, h !! p = Some nd /\ parent nd = par /\ prev_sibling nd = prev /\
    next_sibling nd = first_ptr r next /\
    first_child nd = first_ptr cs 0 /\ last_child nd = last_ptr cs 0 /\
    links h p 0 cs 0 /\ links h par p r next.
Proof.
  simpl. destruct (h !! p) as [nd|]; [|done]. intros HH. exists nd. tauto.
Qed.

Lemma links_nonnull (h : heap) f : forall par prev next,
  h !! 0 = None -> links h par prev f next -> Forall (fun p => p <> 0) (preorder f).
Proof.
  induction f as [|p cs IHcs r IHr]; intros par prev next H0 L; simpl.
  - constructor.
  - apply links_cons in L as (nd & Hp & _ & _ & _ & _ & _ & Lcs & Lr).
    constructor.
    + intros ->. congruence.
    + apply Forall_app. split; eauto.
Qed.

Lemma first_ptr_nonnull (h : heap) f par prev next d :
  h !! 0 = None -> links h par prev f next -> d <> 0 -> first_ptr f d <> 0.
Proof.
  intros H0 L Hd. destruct f as [|p cs r]; simpl; [done|].
  apply links_cons in L as (nd & Hp & _). intros ->. congruence.
Qed.

Lemma climb_next_mono (h : heap) n : forall m p e,
  climb_next n h p = Ok e -> n <= m -> climb_next m h p = Ok e.
Proof.
  induction n as [|n IH]; intros m p e Hc Hle; [done|].
  destruct m as [|m]; [lia|]. simpl in *.
  destruct (rd h p) as [nd| | |]; simpl in *; try done.
  destruct (next_sibling nd =? 0); [|done].
  destruct (parent nd =? 0); [done|]. apply IH; [done|lia].
Qed.

Lemma walk_ok_intro f : forall (h : heap) par prev next n e N,
  h !! 0 = None -> links h par prev f next -> exit_ok h par next n e ->
  n + fdepth f <= N -> walk_ok N h f e.
Proof.
  induction f as [|p cs IHcs r IHr]; intros h par prev next n e N H0 L Hex HN; simpl; [done|].
  pose proof L as L'.
  apply links_cons in L' as (nd & Hp & Hpar & Hprev & Hnext & Hfc & Hlc & Lcs & Lr).
  assert (Hp0 : p <> 0) by (intros ->; congruence).
  simpl in HN.
  (* what follows the subtree of p *)
  assert (Hex' : exit_ok h p 0 (S n) (first_ptr r e)).
  { right. split; [done|]. split; [done|]. simpl. rewrite (rd_some _ _ _ Hp). simpl.
    rewrite Hnext. destruct r as [|q qcs qr]; simpl.
    - destruct Hex as [[Hn ->]|(-> & Hpar0 & Hc)].
      + apply Nat.eqb_neq in Hn. by rewrite Hn.
      + simpl. rewrite Hpar. apply Nat.eqb_neq in Hpar0. by rewrite Hpar0.
    - apply links_cons in Lr as (qn & Hq & _).
      assert (q <> 0) by (intros ->; congruence).
      by rewrite (proj2 (Nat.eqb_neq q 0)). }
  assert (Hskip : skip_step N h p (first_ptr r e)).
  { unfold skip_step, pre_incr. simpl. rewrite (proj2 (Nat.eqb_neq p 0)) by done.
    rewrite (rd_some _ _ _ Hp). simpl.
    destruct Hex' as [[? _]|(_ & _ & Hc)]; [done|].
    rewrite (climb_next_mono _ _ N _ _ Hc) by lia. done. }
  split; [|split; [done|split]].
  - destruct cs as [|c ccs cr]; simpl.
    + unfold step, pre_incr. simpl. rewrite (proj2 (Nat.eqb_neq p 0)) by done.
      rewrite (rd_some _ _ _ Hp). simpl. rewrite Hfc. simpl.
      destruct Hex' as [[? _]|(_ & _ & Hc)]; [done|].
      rewrite (climb_next_mono _ _ N _ _ Hc) by lia. done.
    + unfold step, pre_incr. simpl. rewrite (proj2 (Nat.eqb_neq p 0)) by done.
      rewrite (rd_some _ _ _ Hp). simpl. rewrite Hfc. simpl.
      apply links_cons in Lcs as (cn & Hc & _).
      assert (c <> 0) by (intros ->; congruence).
      by rewrite (proj2 (Nat.eqb_neq c 0)).
  - eapply IHcs; eauto. lia.
  - eapply IHr; eauto. lia.
Qed.

Lemma chain_glue (R : ptr -> ptr -> Prop) l1 x l2 :
  chain R (l1 ++ [x]) -> chain R (x :: l2) -> chain R (l1 ++ x :: l2).
Proof.
  induction l1 as [|a l1 IH]; simpl; intros H1 H2; [done|].
  destruct H1 as [Ha H1]. split; [|by apply IH].
  destruct l1; simpl in *; done.
Qed.

Lemma chain_app_r (R : ptr -> ptr -> Prop) l1 l2 : chain R (l1 ++ l2) -> chain R l2.
Proof. induction l1 as [|a l1 IH]; simpl; [done|]. intros [_ ?]. by apply IH. Qed.

Lemma preorder_head f e : preorder f ++ [e] = first_ptr f e :: tail (preorder f ++ [e]).
Proof. destruct f; done. Qed.

Lemma walk_chain N (h : heap) f : forall e,
  walk_ok N h f e -> chain (step N h) (preorder f ++ [e]).
Proof.
  induction f as [|p cs IHcs r IHr]; intros e W; simpl; [done|].
  destruct W as (Hs & _ & Wcs & Wr).
  split.
  - rewrite <- app_assoc. rewrite (preorder_head r e).
    destruct cs; simpl in *; done.
  - rewrite <- app_assoc. rewrite (preorder_head r e).
    apply chain_glue; [by apply IHcs|]. rewrite <- preorder_head. by apply IHr.
Qed.

Lemma subtree_of_elem f a : a ∈ preorder f <-> is_Some (subtree_of f a).
Proof.
  induction f as [|p cs IHcs r IHr]; simpl.
  - split; [by intros ?%elem_of_nil|by intros [? ?]].
  - destruct (Nat.eqb_spec p a) as [->|Hne].
    + split; [eauto|]. intros _. apply elem_of_cons. by left.
    + rewrite elem_of_cons, elem_of_app, IHcs, IHr.
      destruct (subtree_of cs a); split; eauto; intros [?|[[? ?]|?]]; done.
Qed.

Lemma subtree_of_none f a : a ∉ preorder f -> subtree_of f a = None.
Proof.
  intros Hn. destruct (subtree_of f a) eqn:E; [|done].
  exfalso. apply Hn, subtree_of_elem. eauto.
Qed.

Lemma links_sub (h : heap) f a cs : forall par prev next,
  links h par prev f next -> subtree_of f a = Some cs ->
  links h a 0 cs 0 /\
  exists nd, h !! a = Some nd /\ first_child nd = first_ptr cs 0 /\
             last_child nd = last_ptr cs 0.
Proof.
  induction f as [|p pcs IHcs r IHr]; intros par prev next L S; simpl in S; [done|].
  apply links_cons in L as (nd & Hp & _ & _ & _ & Hfc & Hlc & Lcs & Lr).
  destruct (Nat.eqb_spec p a) as [->|Hne].
  - injection S as <-. eauto.
  - destruct (subtree_of pcs a) eqn:E.
    + injection S as <-. eapply IHcs; eauto.
    + eapply IHr; eauto.
Qed.

Lemma walk_ok_sub N (h : heap) f a cs : forall e,
  walk_ok N h f e -> subtree_of f a = Some cs ->
  step N h a (first_ptr cs (after f e a)) /\ skip_step N h a (after f e a) /\
  walk_ok N h cs (after f e a).
Proof.
  induction f as [|p pcs IHcs r IHr]; intros e W S; simpl in S; [done|].
  destruct W as (Hs & Hk & Wcs & Wr). simpl.
  destruct (Nat.eqb_spec p a) as [->|Hne].
  - injection S as <-. done.
  - destruct (subtree_of pcs a) eqn:E.
    + injection S as <-. by apply IHcs.
    + by apply IHr.
Qed.

Lemma preorder_sub f a cs : forall e,
  subtree_of f a = Some cs ->
  exists l1 l2, preorder f ++ [e] = l1 ++ a :: preorder cs ++ after f e a :: l2.
Proof.
  induction f as [|p pcs IHcs r IHr]; intros e S; simpl in S; [done|]. simpl.
  destruct (Nat.eqb_spec p a) as [->|Hne].
  - injection S as <-. exists [], (tail (preorder r ++ [e])). simpl.
    by rewrite <- app_assoc, <- preorder_head.
  - destruct (subtree_of pcs a) eqn:E.
    + injection S as <-.
      destruct (IHcs (first_ptr r e) eq_refl) as (l1 & l2 & E1).
      exists (p :: l1), (l2 ++ tail (preorder r ++ [e])).
      rewrite <- app_assoc, (preorder_head r e).
      change (first_ptr r e :: tail (preorder r ++ [e]))
        with ([first_ptr r e] ++ tail (preorder r ++ [e])).
      rewrite (app_assoc (preorder pcs)), E1. simpl.
      rewrite <- !app_assoc. simpl. by rewrite <- !app_assoc.
    + destruct (IHr e S) as (l1 & l2 & E1).
      exists (p :: preorder pcs ++ l1), l2.
      simpl. by rewrite <- !app_assoc, E1.
Qed.

Lemma rep_feet_nonnull (h : heap) t f : tree_rep h t f -> feet t <> 0.
Proof.
  intros R E. pose proof (rep_feet _ _ _ R) as S. pose proof (rep_null _ _ _ R) as N.
  unfold sentinel_ok in S. rewrite E, N in S. done.
Qed.

Lemma rep_head_nonnull (h : heap) t f : tree_rep h t f -> head t <> 0.
Proof.
  intros R E. pose proof (rep_head _ _ _ R) as S. pose proof (rep_null _ _ _ R) as N.
  unfold sentinel_ok in S. rewrite E, N in S. done.
Qed.

Lemma tree_walk (h : heap) t f N :
  tree_rep h t f -> fdepth f <= N -> walk_ok N h f (feet t).
Proof.
  intros R HN. eapply (walk_ok_intro f h 0 (head t) (feet t) 0).
  - apply R.
  - apply R.
  - left. split; [|done]. by eapply rep_feet_nonnull.
  - done.
Qed.

Lemma fdepth_le f : fdepth f <= length (preorder f).
Proof.
  induction f as [|p cs IHcs r IHr]; simpl; [done|].
  rewrite length_app. lia.
Qed.

Lemma roots_le f : length (roots f) <= length (preorder f).
Proof.
  induction f as [|p cs IHcs r IHr]; simpl; [done|].
  rewrite length_app. lia.
Qed.

Lemma subtree_of_length f a cs :
  subtree_of f a = Some cs -> length (preorder cs) < length (preorder f).
Proof.
  intros S. destruct (preorder_sub f a cs 0 S) as (l1 & l2 & E).
  apply (f_equal length) in E. rewrite !length_app in E. simpl in E.
  rewrite !length_app in E. simpl in E. lia.
Qed.

Lemma subtree_of_incl f a cs :
  subtree_of f a = Some cs -> forall x, x ∈ preorder cs -> x ∈ preorder f.
Proof.
  induction f as [|p pcs IHcs r IHr]; simpl; intros S x Hx; [done|].
  apply elem_of_cons. right. apply elem_of_app.
  destruct (Nat.eqb_spec p a) as [->|Hne].
  - injection S as <-. by left.
  - destruct (subtree_of pcs a) eqn:E.
    + injection S as <-. left. by apply IHcs.
    + right. by apply IHr.
Qed.

Lemma count_siblings_spec (h : heap) r : forall p cs par prev fuel k,
  h !! 0 = None -> links h par prev (FCons p cs r) 0 -> length (roots r) < fuel ->
  count_siblings fuel h p k = Ok (k + length (roots r)).
Proof.
  induction r as [|q qcs _ qr IH]; intros p cs par prev fuel k H0 L Hf;
    (destruct fuel as [|fuel]; [simpl in Hf; lia|]);
    apply links_cons in L as (nd & Hp & _ & _ & Hn & _ & _ & _ & Lr); simpl in *.
  - rewrite (rd_some _ _ _ Hp). simpl. rewrite Hn. simpl. f_equal. lia.
  - rewrite (rd_some _ _ _ Hp). simpl. rewrite Hn.
    pose proof Lr as Lr'. apply links_cons in Lr' as (qn & Hq & _).
    assert (q <> 0) by (intros ->; congruence).
    rewrite (proj2 (Nat.eqb_neq q 0)) by done.
    rewrite (IH q qcs par p fuel (S k) H0 Lr) by lia. f_equal. lia.
Qed.

Lemma count_to_last_ok (h : heap) r : forall p cs par prev next fuel k,
  links h par prev (FCons p cs r) next -> length (roots r) < fuel ->
  exists c, count_to_last fuel h (last_ptr r p) p k = Ok c.
Proof.
  induction r as [|q qcs _ qr IH]; intros p cs par prev next fuel k L Hf;
    (destruct fuel as [|fuel]; [simpl in Hf; lia|]);
    apply links_cons in L as (nd & Hp & _ & _ & Hn & _ & _ & _ & Lr); simpl in *.
  - rewrite Nat.eqb_refl. eauto.
  - destruct (p =? last_ptr qr q); [eauto|].
    rewrite (rd_some _ _ _ Hp). simpl. rewrite Hn.
    eapply IH; eauto. lia.
Qed.

Lemma it_number_of_children_ok (h : heap) f a par prev next fuel sk :
  links h par prev f next -> a ∈ preorder f -> length (preorder f) <= fuel ->
  exists c, it_number_of_children fuel h (mk_it a sk) = Ok c.
Proof.
  intros L Ha Hf. apply subtree_of_elem in Ha as [cs S].
  destruct (links_sub _ _ _ _ _ _ _ L S) as (Lcs & nd & Hnd & Hfc & Hlc).
  unfold it_number_of_children. simpl. rewrite (rd_some _ _ _ Hnd). simpl.
  destruct (first_child nd =? 0); [eauto|].
  destruct cs as [|c ccs cr]; simpl in *.
  - rewrite Hfc, Hlc. destruct fuel; [|simpl; eauto].
    apply subtree_of_length in S. simpl in S. lia.
  - rewrite Hfc, Hlc. eapply count_to_last_ok; eauto.
    apply subtree_of_length in S. simpl in S. rewrite length_app in S.
    pose proof (roots_le cr). lia.
Qed.

Lemma number_of_children_spec (h : heap) f a cs par prev next fuel sk :
  h !! 0 = None -> links h par prev f next -> subtree_of f a = Some cs ->
  length (preorder f) <= fuel ->
  number_of_children fuel h (mk_it a sk) = Ok (length (roots cs)).
Proof.
  intros H0 L S Hf.
  destruct (links_sub _ _ _ _ _ _ _ L S) as (Lcs & nd & Hnd & Hfc & Hlc).
  unfold number_of_children. simpl. rewrite (rd_some _ _ _ Hnd). simpl.
  destruct cs as [|c ccs cr]; simpl in *.
  - by rewrite Hfc.
  - rewrite Hfc. pose proof Lcs as Lcs'. apply links_cons in Lcs' as (cn & Hc & _).
    assert (c <> 0) by (intros ->; congruence).
    rewrite (proj2 (Nat.eqb_neq c 0)) by done.
    erewrite count_siblings_spec; eauto.
    apply subtree_of_length in S. simpl in S. rewrite length_app in S.
    pose proof (roots_le cr). lia.
Qed.

Lemma skip_last N (h : heap) f : forall e d,
  walk_ok N h f e -> f <> FNil -> skip_step N h (last_ptr f d) e.
Proof.
  induction f as [|p cs _ r IHr]; intros e d W Hne; [done|].
  destruct W as (_ & Hk & _ & Wr). simpl.
  destruct r as [|q qcs qr]; [done|]. by apply IHr.
Qed.

Lemma rep_valid (h : heap) t f x sk :
  tree_rep h t f -> x ∈ preorder f -> is_valid t (mk_it x sk) = true.
Proof.
  intros R Hx. unfold is_valid. simpl.
  pose proof (rep_nodup _ _ _ R) as ND.
  pose proof (links_nonnull _ _ _ _ _ (rep_null _ _ _ R) (rep_links _ _ _ R)) as NZ.
  rewrite Forall_forall in NZ. specialize (NZ _ Hx).
  apply NoDup_cons in ND as [Hh ND]. apply NoDup_cons in ND as [Hf ND].
  rewrite (proj2 (Nat.eqb_neq x 0)) by done.
  assert (x <> feet t) by (intros ->; done).
  assert (x <> head t).
  { intros ->. apply Hh. apply elem_of_cons. by right. }
  rewrite (proj2 (Nat.eqb_neq x (feet t))) by done.
  by rewrite (proj2 (Nat.eqb_neq x (head t))).
Qed.

Lemma equal_loop_same (h : heap) t (fn : T -> T -> bool) two E N0 l :
  (forall x, fn x x = true) ->
  (forall n, N0 <= n -> pre_of_sibling n h two = Ok (iterator_of E)) ->
  (forall n, N0 <= n -> chain (step n h) (l ++ [E])) ->
  (forall x, x ∈ l ->
     x <> E /\ is_valid t (iterator_of x) = true /\ is_Some (h !! x) /\
     forall n, N0 <= n -> exists c, it_number_of_children n h (iterator_of x) = Ok c) ->
  forall fuel, N0 + length l < fuel ->
  equal_loop fuel h t fn (iterator_of (hd E l)) two (iterator_of (hd E l)) = Ok true.
Proof.
  intros Hrefl Htwo. induction l as [|x l IH]; intros Hch Hl fuel Hf.
  - destruct fuel as [|fuel]; [lia|]. simpl hd. cbn [equal_loop].
    rewrite Htwo by lia. simpl. by rewrite Nat.eqb_refl.
  - destruct fuel as [|fuel]; [lia|]. simpl hd. cbn [equal_loop].
    rewrite Htwo by (simpl in Hf; lia). simpl in Hf.
    destruct (Hl x) as (HxE & Hv & [nd Hnd] & Hc); [apply elem_of_cons; by left|].
    cbn [mbind outcome_bind obind node iterator_of].
    rewrite (proj2 (Nat.eqb_neq x E)) by done. rewrite Hv. cbn [negb andb].
    rewrite (rd_some _ _ _ Hnd). cbn [mbind outcome_bind obind].
    rewrite Hrefl. cbn [negb].
    destruct (Hc (S fuel)) as [c Hcc]; [lia|]. rewrite Hcc.
    cbn [mbind outcome_bind obind]. rewrite Nat.eqb_refl. cbn [negb].
    pose proof (Hch (S fuel) ltac:(lia)) as Hch1. simpl in Hch1.
    destruct Hch1 as [Hst _].
    assert (Hst' : step (S fuel) h x (hd E l)) by (destruct l; exact Hst).
    unfold step in Hst'. rewrite Hst'. cbn [mbind outcome_bind obind].
    apply IH.
    + intros n Hn. specialize (Hch n Hn). simpl in Hch. tauto.
    + intros y Hy. apply Hl. apply elem_of_cons. by right.
    + lia.
Qed.

Lemma last_ptr_elem f d : f <> FNil -> last_ptr f d ∈ preorder f.
Proof.
  revert d. induction f as [|p cs _ r IHr]; intros d Hne; [done|]. simpl.
  destruct r as [|q qcs qr].
  - simpl. apply elem_of_cons. by left.
  - apply elem_of_cons. right. apply elem_of_app. right. by apply IHr.
Qed.

Lemma links_lookup (h : heap) f a par prev next :
  links h par prev f next -> a ∈ preorder f -> is_Some (h !! a).
Proof.
  intros L Ha. apply subtree_of_elem in Ha as [cs S].
  destruct (links_sub _ _ _ _ _ _ _ L S) as (_ & nd & Hnd & _). eauto.
Qed.

Lemma rep_nodup_exit (h : heap) t f : tree_rep h t f -> NoDup (preorder f ++ [feet t]).
Proof.
  intros R. pose proof (rep_nodup _ _ _ R) as ND.
  apply NoDup_cons in ND as [_ ND]. apply NoDup_cons in ND as [Hf ND].
  apply NoDup_app. split; [done|]. split.
  - intros x Hx ->%list_elem_of_singleton. done.
  - apply NoDup_singleton.
Qed.

Lemma sub_not_exit f a cs e :
  NoDup (preorder f ++ [e]) -> subtree_of f a = Some cs ->
  forall x, x ∈ a :: preorder cs -> x <> after f e a.
Proof.
  intros ND S x Hx ->. destruct (preorder_sub f a cs e S) as (l1 & l2 & E).
  rewrite E in ND. apply NoDup_app in ND as (_ & _ & ND).
  rewrite app_comm_cons in ND. apply NoDup_app in ND as (_ & ND & _).
  apply (ND _ Hx). apply elem_of_cons. by left.
Qed.

(** C9: for a node [a] of a well-formed tree and a reflexive comparator
    [fn], [equal_subtree(a, a, fn)] returns [true]. *)
Theorem equal_subtree_refl (h : heap) (t : tree) (f : forest)
    (fn : T -> T -> bool) (a : iterator) (fuel : nat) :
  tree_rep h t f -> node a ∈ preorder f ->
  (forall x, fn x x = true) ->
  2 * length (preorder f) + 2 <= fuel ->
  equal_subtree fuel h t fn a a = Ok true.
Proof.
  intros R Ha Hrefl Hf.
  pose proof (rep_null _ _ _ R) as H0. pose proof (rep_links _ _ _ R) as L.
  pose proof Ha as Ha'. apply subtree_of_elem in Ha' as [cs S].
  destruct (links_sub _ _ _ _ _ _ _ L S) as (Lcs & nd & Hnd & Hfc & Hlc).
  set (E := after f (feet t) (node a)).
  assert (Hwalk : forall n, length (preorder f) <= n ->
            skip_step n h (node a) E /\ walk_ok n h cs E).
  { intros n Hn. pose proof (fdepth_le f).
    assert (W : walk_ok n h f (feet t)) by (apply tree_walk; [done|lia]).
    destruct (walk_ok_sub _ _ _ _ _ _ W S) as (_ & ? & ?). done. }
  assert (Ha0 : node a <> 0) by (intros E0; rewrite E0 in Hnd; congruence).
  unfold equal_subtree. rewrite (rd_some _ _ _ Hnd).
  cbn [mbind outcome_bind obind]. rewrite Hrefl. cbn [negb].
  destruct a as [a sk]. simpl in *.
  rewrite (number_of_children_spec h f a cs 0 (head t) (feet t)) by (done || lia).
  cbn [mbind outcome_bind obind]. rewrite Nat.eqb_refl. cbn [negb].
  assert (Htwo : forall n, length (preorder f) <= n ->
            pre_of_sibling n h (sibling_end (mk_it a sk)) = Ok (iterator_of E)).
  { intros n Hn. unfold pre_of_sibling, sibling_end. simpl.
    rewrite (rd_some _ _ _ Hnd). cbn [mbind outcome_bind obind].
    destruct (Hwalk n Hn) as [Hk W]. rewrite Hlc.
    destruct cs as [|c ccs cr].
    - simpl. exact Hk.
    - assert (Hl : last_ptr (FCons c ccs cr) 0 <> 0).
      { pose proof (links_nonnull _ _ _ _ _ H0 Lcs) as NZ.
        rewrite Forall_forall in NZ. apply NZ. by apply last_ptr_elem. }
      rewrite (proj2 (Nat.eqb_neq _ 0) Hl). by apply skip_last. }
  assert (Hloop : equal_loop fuel h t fn (iterator_of (hd E (preorder cs)))
            (sibling_end (mk_it a sk)) (iterator_of (hd E (preorder cs))) = Ok true).
  { apply (equal_loop_same h t fn _ E (length (preorder f))); try done.
    - intros n Hn. apply walk_chain. by apply Hwalk.
    - intros x Hx. split; [|split; [|split]].
      + eapply (sub_not_exit f a cs (feet t)); eauto using rep_nodup_exit.
        apply elem_of_cons. by right.
      + eapply rep_valid; [done|]. eapply subtree_of_incl; eauto.
      + eapply links_lookup; [exact L|]. eapply subtree_of_incl; eauto.
      + intros n Hn. eapply it_number_of_children_ok; [exact L| |done].
        eapply subtree_of_incl; eauto.
    - apply subtree_of_length in S. lia. }
  unfold sibling_begin. simpl. rewrite (proj2 (Nat.eqb_neq a 0)) by done.
  rewrite (rd_some _ _ _ Hnd). cbn [mbind outcome_bind obind]. rewrite Hfc.
  destruct cs as [|c ccs cr]; simpl first_ptr.
  - simpl. unfold equal. rewrite Htwo by lia. cbn [mbind outcome_bind obind].
    exact Hloop.
  - pose proof Lcs as Lcs'. apply links_cons in Lcs' as (cn & Hc & Hcp & _).
    assert (c <> 0) by (intros ->; congruence).
    rewrite (proj2 (Nat.eqb_neq c 0)) by done.
    unfold sibling_of_node. rewrite (proj2 (Nat.eqb_neq c 0)) by done.
    rewrite (rd_some _ _ _ Hc). cbn [mbind outcome_bind obind].
    unfold equal, pre_of_sibling. simpl snode.
    rewrite (proj2 (Nat.eqb_neq c 0)) by done.
    cbn [mbind outcome_bind obind]. exact Hloop.
Qed.

Lemma steps_to_end_spec (h : heap) t N0 l :
  (forall n, N0 <= n -> chain (step n h) (l ++ [feet t])) ->
  feet t ∉ l ->
  forall fuel i, N0 + length l < fuel ->
  steps_to_end fuel h t (iterator_of (hd (feet t) l)) i = Ok (i + length l).
Proof.
  induction l as [|x l IH]; intros Hch Hnf fuel i Hf;
    (destruct fuel as [|fuel]; [lia|]); simpl hd; cbn [steps_to_end iterator_of node].
  - rewrite Nat.eqb_refl. f_equal. simpl. lia.
  - assert (x <> feet t) by (intros ->; apply Hnf, elem_of_cons; by left).
    rewrite (proj2 (Nat.eqb_neq x (feet t))) by done.
    pose proof (Hch (S fuel) ltac:(simpl in Hf; lia)) as Hch1. simpl in Hch1.
    destruct Hch1 as [Hst _].
    assert (Hst' : step (S fuel) h x (hd (feet t) l)) by (destruct l; exact Hst).
    unfold step in Hst'. rewrite Hst'. cbn [mbind outcome_bind obind].
    rewrite IH.
    + f_equal. simpl. lia.
    + intros n Hn. specialize (Hch n Hn). simpl in Hch. tauto.
    + intros Hin. apply Hnf, elem_of_cons. by right.
    + simpl in Hf. lia.
Qed.

(** The walk that [size()] performs without the cached counter: on a
    well-formed tree, [begin()] reaches [end()] after as many increments
    as the tree has nodes. *)
Lemma pre_order_steps_spec (h : heap) t f fuel :
  tree_rep h t f -> 2 * length (preorder f) < fuel ->
  pre_order_steps fuel h t = Ok (length (preorder f)).
Proof.
  intros R Hf. unfold pre_order_steps, begin_.
  pose proof (rep_head _ _ _ R) as Hh. unfold sentinel_ok in Hh.
  destruct (h !! head t) as [hn|] eqn:Ehd; [|done].
  destruct Hh as (_ & _ & _ & _ & Hn).
  rewrite (rd_some _ _ _ Ehd). cbn [mbind outcome_bind obind]. rewrite Hn.
  replace (first_ptr f (feet t)) with (hd (feet t) (preorder f)) by (by destruct f).
  rewrite (steps_to_end_spec h t (length (preorder f))); [done| | |lia].
  - intros n Hn'. apply walk_chain, tree_walk; [done|]. pose proof (fdepth_le f). lia.
  - pose proof (rep_nodup _ _ _ R) as ND. apply NoDup_cons in ND as [_ ND].
    by apply NoDup_cons in ND as [? _].
Qed.

Lemma links_nth (h : heap) g : forall i par prev next p cs,
  links h par prev g next -> nth_root g i = Some (p, cs) ->
  exists nd, h !! p = Some nd /\ parent nd = par /\
    prev_sibling nd = match i with 0 => prev | S j => root_ptr g j 0 end /\
    next_sibling nd = root_ptr g (S i) next /\
    first_child nd = first_ptr cs 0 /\ last_child nd = last_ptr cs 0 /\
    links h p 0 cs 0.
Proof.
  induction g as [|q qcs _ r IHr]; intros i par prev next p cs L N; [done|].
  apply links_cons in L as (nd & Hq & Hpar & Hprev & Hnext & Hfc & Hlc & Lcs & Lr).
  destruct i as [|j]; simpl in N.
  - injection N as <- <-. exists nd. repeat split; try done.
    rewrite Hnext. unfold root_ptr. simpl. by destruct r.
  - destruct (IHr j par q next p cs Lr N) as (pn & Hp & Hpp & Hpv & Hpn & Hpf & Hpl & Lp).
    exists pn. repeat split; try done.
    rewrite Hpv. destruct j; done.
Qed.

Lemma nth_root_elem g : forall i p cs,
  nth_root g i = Some (p, cs) ->
  p ∈ preorder g /\ forall x, x ∈ preorder cs -> x ∈ preorder g.
Proof.
  induction g as [|q qcs _ r IHr]; intros i p cs N; [done|].
  destruct i as [|j]; simpl in N.
  - injection N as <- <-. split.
    + apply elem_of_cons. by left.
    + intros x Hx. apply elem_of_cons. right. apply elem_of_app. by left.
  - destruct (IHr j p cs N) as [Hp Hcs]. split.
    + apply elem_of_cons. right. apply elem_of_app. by right.
    + intros x Hx. apply elem_of_cons. right. apply elem_of_app. right. by apply Hcs.
Qed.

Lemma nth_root_length g : forall i p cs,
  nth_root g i = Some (p, cs) -> i < length (preorder g).
Proof.
  induction g as [|q qcs _ r IHr]; intros i p cs N; [done|].
  destruct i as [|j]; simpl in *; [lia|].
  apply IHr in N. rewrite length_app. lia.
Qed.

Lemma nth_root_pred g j p cs :
  nth_root g (S j) = Some (p, cs) -> exists q qcs, nth_root g j = Some (q, qcs).
Proof.
  revert j. induction g as [|q qcs _ r IHr]; intros j N; [done|].
  destruct j as [|j]; simpl in *; [eauto|]. by apply IHr.
Qed.

Lemma count_back_spec (h : heap) t top g par :
  links h par 0 g 0 ->
  (forall x, x ∈ preorder g -> x <> top /\ x <> head t /\ x <> 0) ->
  forall i p cs fuel num, nth_root g i = Some (p, cs) -> i < fuel ->
  count_back fuel h t top p num = Ok (first_ptr g 0, num + i).
Proof.
  intros L Hg. induction i as [|j IH]; intros p cs fuel num N Hf;
    (destruct fuel as [|fuel]; [lia|]);
    destruct (links_nth _ _ _ _ _ _ _ _ L N) as (nd & Hp & _ & Hpv & _);
    destruct (nth_root_elem _ _ _ _ N) as [Hin _];
    destruct (Hg _ Hin) as (Ht & Hh & _); simpl.
  - rewrite (proj2 (Nat.eqb_neq p top)) by done.
    rewrite (rd_some _ _ _ Hp). simpl. rewrite Hpv. simpl.
    destruct g; simpl in N; [done|]. injection N as <- <-. simpl. f_equal. f_equal. lia.
  - rewrite (proj2 (Nat.eqb_neq p top)) by done.
    rewrite (rd_some _ _ _ Hp). simpl. rewrite Hpv.
    destruct (nth_root_pred _ _ _ _ N) as (q & qcs & Nq).
    unfold root_ptr. rewrite Nq.
    destruct (nth_root_elem _ _ _ _ Nq) as [Hqin _].
    destruct (Hg _ Hqin) as (_ & Hqh & Hq0).
    rewrite (proj2 (Nat.eqb_neq q 0)) by done.
    rewrite (proj2 (Nat.eqb_neq q (head t))) by done.
    rewrite (IH q qcs fuel (S num) Nq) by lia. f_equal. f_equal. lia.
Qed.

Lemma advance_siblings_spec (h : heap) g : forall i par prev next p cs d,
  h !! 0 = None -> links h par prev g next -> nth_root g i = Some (p, cs) ->
  advance_siblings h (first_ptr g d) i = Ok p.
Proof.
  induction g as [|q qcs _ r IHr]; intros i par prev next p cs d H0 L N; [done|].
  apply links_cons in L as (nd & Hq & _ & _ & Hnext & _ & _ & _ & Lr).
  destruct i as [|j]; simpl in *.
  - by injection N as <- <-.
  - rewrite (rd_some _ _ _ Hq). simpl. rewrite Hnext.
    destruct r as [|r0 rcs rr]; [done|]. simpl.
    pose proof Lr as Lr'. apply links_cons in Lr' as (rn & Hr & _).
    assert (r0 <> 0) by (intros ->; congruence).
    rewrite (proj2 (Nat.eqb_neq r0 0)) by done.
    apply (IHr j par q next p cs 0 H0 Lr N).
Qed.

Lemma descend_exists g a : a ∈ preorder g -> exists path, descend g path = Some a.
Proof.
  induction g as [|p cs IHcs r IHr]; intros Ha; [by apply elem_of_nil in Ha|].
  simpl in Ha. apply elem_of_cons in Ha as [->|Ha]; [by exists [0]|].
  apply elem_of_app in Ha as [Ha|Ha].
  - destruct (IHcs Ha) as [path D]. exists (0 :: path). simpl.
    destruct path; [done|exact D].
  - destruct (IHr Ha) as [path D]. destruct path as [|j rest]; [done|].
    exists (S j :: rest). exact D.
Qed.

(** Decoding a path below a node whose children are [g]. *)
Lemma ifp_steps_spec (h : heap) path : forall g par n,
  h !! 0 = None -> links h par 0 g 0 ->
  (exists nd, h !! par = Some nd /\ first_child nd = first_ptr g 0) ->
  descend g path = Some n ->
  ifp_steps h par false path = Ok n.
Proof.
  induction path as [|i rest IH]; intros g par n H0 L (nd & Hpar & Hfc) D; [done|].
  simpl in D. destruct (nth_root g i) as [[p cs]|] eqn:N; [|done].
  cbn [ifp_steps]. rewrite (rd_some _ _ _ Hpar). cbn [mbind outcome_bind obind].
  rewrite Hfc.
  assert (Hg : first_ptr g 0 <> 0).
  { destruct g as [|q qcs r]; [done|]. simpl.
    apply links_cons in L as (qn & Hq & _). intros ->. congruence. }
  rewrite (proj2 (Nat.eqb_neq _ 0) Hg).
  rewrite (advance_siblings_spec h g i par 0 0 p cs 0 H0 L N).
  cbn [mbind outcome_bind obind].
  destruct rest as [|j rest'].
  - by injection D as <-.
  - destruct (links_nth _ _ _ _ _ _ _ _ L N) as (pn & Hp & _ & _ & _ & Hpf & _ & Lp).
    eapply IH; eauto.
Qed.

(** One round of the encoding loop at the [i]-th child of [par]. *)
Lemma pfi_level_child (h : heap) t top g par rho F0 B :
  links h par 0 g 0 -> par <> 0 ->
  (forall x, x ∈ preorder g -> x <> top /\ x <> head t /\ x <> 0) ->
  length (preorder g) < B ->
  (forall acc fuel, F0 + B <= fuel ->
     pfi_level (pfi_loop fuel h t top) (S fuel) h t top par acc = Ok (rho ++ rev acc)) ->
  forall i p cs acc fuel, nth_root g i = Some (p, cs) -> S F0 + B <= fuel ->
    pfi_level (pfi_loop fuel h t top) (S fuel) h t top p acc
    = Ok ((rho ++ [i]) ++ rev acc).
Proof.
  intros L Hpar Hg HB Hup i p cs acc fuel N Hf.
  unfold pfi_level at 1.
  pose proof (nth_root_length _ _ _ _ N) as Hi.
  rewrite (count_back_spec h t top g par L Hg i p cs (S fuel) 0 N) by lia.
  cbn [mbind outcome_bind obind].
  assert (Hs0 : nth_root g 0 = Some (first_ptr g 0, match g with FNil => FNil | FCons _ c _ => c end)).
  { destruct g; [done|done]. }
  destruct (links_nth _ _ _ _ _ _ _ _ L Hs0) as (sn & Hs & Hsp & _).
  destruct (nth_root_elem _ _ _ _ Hs0) as [Hsin _].
  destruct (Hg _ Hsin) as (Hst & _ & _).
  rewrite (rd_some _ _ _ Hs). cbn [mbind outcome_bind obind].
  rewrite Hsp. rewrite (proj2 (Nat.eqb_neq par 0)) by done.
  rewrite (proj2 (Nat.eqb_neq _ top) Hst). cbn [negb andb].
  destruct fuel as [|fuel]; [lia|]. cbn [pfi_loop].
  rewrite length_app. simpl length.
  replace (0 <? length acc + 1) with true by (symmetry; apply Nat.ltb_lt; lia).
  rewrite (rd_some _ _ _ Hs). cbn [mbind outcome_bind obind]. rewrite Hsp.
  rewrite Hup by lia. rewrite rev_app_distr. simpl. by rewrite <- app_assoc.
Qed.

Lemma nth_root_sub_length g : forall i p cs,
  nth_root g i = Some (p, cs) -> length (preorder cs) < length (preorder g).
Proof.
  induction g as [|q qcs _ r IHr]; intros i p cs N; [done|].
  destruct i; simpl in *.
  - injection N as <- <-. rewrite length_app. lia.
  - apply IHr in N. rewrite length_app. lia.
Qed.

Lemma pfi_level_descend (h : heap) t top path : forall g par rho F0 B n,
  links h par 0 g 0 -> par <> 0 ->
  (forall x, x ∈ preorder g -> x <> top /\ x <> head t /\ x <> 0) ->
  length (preorder g) < B ->
  (forall acc fuel, F0 + B <= fuel ->
     pfi_level (pfi_loop fuel h t top) (S fuel) h t top par acc = Ok (rho ++ rev acc)) ->
  descend g path = Some n ->
  forall acc fuel, F0 + length path + B <= fuel ->
    pfi_level (pfi_loop fuel h t top) (S fuel) h t top n acc
    = Ok ((rho ++ path) ++ rev acc).
Proof.
  induction path as [|i rest IH]; intros g par rho F0 B n L Hpar Hg HB Hup D acc fuel Hf;
    [done|].
  simpl in D. destruct (nth_root g i) as [[p cs]|] eqn:N; [|done].
  pose proof (pfi_level_child h t top g par rho F0 B L Hpar Hg HB Hup i p cs) as Hone.
  destruct rest as [|j rest'].
  - injection D as <-. apply Hone; [done|]. simpl in Hf. lia.
  - destruct (links_nth _ _ _ _ _ _ _ _ L N) as (pn & Hp & _ & _ & _ & _ & _ & Lp).
    destruct (nth_root_elem _ _ _ _ N) as [Hpin Hcsin].
    replace (rho ++ i :: j :: rest') with ((rho ++ [i]) ++ j :: rest')
      by (by rewrite <- app_assoc).
    apply (IH cs p (rho ++ [i]) (S F0) B n Lp).
    + by destruct (Hg _ Hpin) as (_ & _ & ?).
    + intros x Hx. apply Hg. by apply Hcsin.
    + pose proof (nth_root_sub_length _ _ _ _ N). lia.
    + intros acc' fuel' Hf'. apply Hone; [done|lia].
    + exact D.
    + simpl in *. lia.
Qed.

Lemma pfi_level_top (h : heap) t top acc fuel :
  is_Some (h !! top) ->
  pfi_level (pfi_loop fuel h t top) (S fuel) h t top top acc = Ok ([0] ++ rev acc).
Proof.
  intros [nd Hnd]. unfold pfi_level. simpl. rewrite Nat.eqb_refl.
  cbn [mbind outcome_bind obind]. rewrite (rd_some _ _ _ Hnd).
  cbn [mbind outcome_bind obind]. rewrite Nat.eqb_refl. cbn [negb]. rewrite andb_false_r.
  by rewrite rev_app_distr.
Qed.

Lemma sub_nodup f a cs :
  NoDup (preorder f) -> subtree_of f a = Some cs -> NoDup (a :: preorder cs).
Proof.
  revert a cs. induction f as [|p pcs IHcs r IHr]; intros a cs ND S; [done|].
  simpl in *. apply NoDup_cons in ND as [Hp ND].
  apply NoDup_app in ND as (NDc & Hd & NDr).
  destruct (Nat.eqb_spec p a) as [->|Hne].
  - injection S as <-. apply NoDup_cons. split; [|done].
    intros Hin. apply Hp, elem_of_app. by left.
  - destruct (subtree_of pcs a) eqn:E.
    + injection S as <-. by apply IHcs.
    + by apply IHr.
Qed.

(** C1: in a well-formed tree, for a node [top] and a node [n] that is
    [top] or one of its descendants, [path_from_iterator(n, top)]
    returns a path that [iterator_from_path(path, top)] decodes to an
    iterator at [n]. *)
Theorem path_roundtrip (h : heap) (t : tree) (f cs : forest)
    (top n : iterator) (fuel : nat) :
  tree_rep h t f ->
  subtree_of f (node top) = Some cs ->
  node n = node top \/ node n ∈ preorder cs ->
  2 * length (preorder f) + 2 <= fuel ->
  exists path,
    path_from_iterator fuel h t n top = Ok path /\
    iterator_from_path h path top = Ok (iterator_of (node n)).
Proof.
  intros R Sub Hn Hf.
  pose proof (rep_null _ _ _ R) as H0. pose proof (rep_links _ _ _ R) as L.
  destruct (links_sub _ _ _ _ _ _ _ L Sub) as (Lcs & nd & Hnd & Hfc & Hlc).
  assert (Htop0 : node top <> 0) by (intros E0; rewrite E0 in Hnd; congruence).
  destruct fuel as [|fuel]; [lia|].
  unfold path_from_iterator, iterator_from_path. cbn [pfi_loop].
  cbn [length Nat.ltb Nat.leb mbind outcome_bind obind].
  destruct Hn as [->|Hn].
  - exists [0]. rewrite pfi_level_top by eauto. split; [done|].
    simpl. by rewrite (proj2 (Nat.eqb_neq _ 0) Htop0).
  - destruct (descend_exists _ _ Hn) as [path D].
    exists ([0] ++ path). split.
    + rewrite <- (app_nil_r ([0] ++ path)). change [] with (rev (@nil nat)).
      apply (pfi_level_descend h t (node top) path cs (node top) [0] 0
                (S (length (preorder f))) (node n) Lcs Htop0).
      * intros x Hx.
        pose proof (rep_nodup _ _ _ R) as ND.
        apply NoDup_cons in ND as [Hh ND]. apply NoDup_cons in ND as [_ ND].
        pose proof (sub_nodup _ _ _ ND Sub) as ND'. apply NoDup_cons in ND' as [Ht _].
        pose proof (subtree_of_incl _ _ _ Sub x Hx) as Hxf.
        pose proof (links_nonnull _ _ _ _ _ H0 L) as NZ. rewrite Forall_forall in NZ.
        repeat split.
        -- intros ->. done.
        -- intros ->. apply Hh. apply elem_of_cons. by right.
        -- by apply NZ.
      * apply subtree_of_length in Sub. lia.
      * intros acc fuel' _. apply pfi_level_top. eauto.
      * exact D.
      * assert (length path <= length (preorder cs)).
        { clear -D. revert cs D. induction path as [|i rest IH]; intros cs D; [simpl; lia|].
          simpl in D. destruct (nth_root cs i) as [[p ccs]|] eqn:N; [|done].
          pose proof (nth_root_sub_length _ _ _ _ N).
          pose proof (nth_root_length _ _ _ _ N).
          destruct rest as [|j rest']; [simpl; lia|].
          apply IH in D. simpl in *. lia. }
        apply subtree_of_length in Sub. simpl. lia.
    + simpl. rewrite (proj2 (Nat.eqb_neq _ 0) Htop0). simpl.
      erewrite ifp_steps_spec; eauto.
Qed.

Lemma nth_root_none g i : nth_root g i = None <-> length (roots g) <= i.
Proof.
  revert i. induction g as [|p cs _ r IHr]; intros i; simpl.
  - split; [lia|done].
  - destruct i; [split; [done|lia]|]. rewrite IHr. lia.
Qed.

Lemma child_loop_spec (h : heap) g : forall n par prev,
  h !! 0 = None -> links h par prev g 0 ->
  child_loop h (first_ptr g 0) n =
    if n <=? length (roots g) then Ok (root_ptr g n 0) else Abort.
Proof.
  induction g as [|p cs _ r IHr]; intros n par prev H0 L.
  - destruct n; done.
  - apply links_cons in L as (nd & Hp & _ & _ & Hn & _ & _ & _ & Lr).
    assert (p <> 0) by (intros ->; congruence).
    destruct n as [|n]; [done|]. simpl.
    rewrite (proj2 (Nat.eqb_neq p 0)) by done.
    rewrite (rd_some _ _ _ Hp). simpl. rewrite Hn.
    rewrite (IHr n par p H0 Lr). done.
Qed.





Lemma md_climb_spec (h : heap) n : forall x y cur,
  climb_next n h x = Ok y -> y <> 0 ->
  (exists nd, h !! x = Some nd /\ next_sibling nd = 0) ->
  exists q cur' qn, md_climb n h x cur = Ok (Some (q, cur')) /\
    h !! q = Some qn /\ next_sibling qn = y.
Proof.
  induction n as [|n IH]; intros x y cur Hc Hy (nd & Hx & Hnx); [done|].
  simpl in Hc. rewrite (rd_some _ _ _ Hx) in Hc. simpl in Hc.
  rewrite Hnx in Hc. simpl in Hc.
  destruct (parent nd =? 0) eqn:Ep; [congruence|].
  simpl. rewrite (rd_some _ _ _ Hx). simpl. rewrite Ep.
  destruct n as [|n']; [done|].
  pose proof Hc as Hc'. simpl in Hc'.
  destruct (h !! parent nd) as [pn|] eqn:Epn;
    [|unfold rd in Hc'; rewrite Epn in Hc'; done].
  rewrite (rd_some _ _ _ Epn) in Hc'. simpl in Hc'.
  rewrite (rd_some _ _ _ Epn). cbn [mbind outcome_bind obind].
  destruct (next_sibling pn =? 0) eqn:En.
  - apply (IH (parent nd) y (wrap (cur - 1)) Hc Hy).
    exists pn. split; [done|]. by apply Nat.eqb_eq.
  - injection Hc' as <-. exists (parent nd), (wrap (cur - 1)), pn. done.
Qed.

Lemma rep_feet_fields (h : heap) t f :
  tree_rep h t f ->
  exists nd, h !! feet t = Some nd /\ parent nd = 0 /\ first_child nd = 0 /\
    next_sibling nd = 0 /\ prev_sibling nd = last_ptr f (head t).
Proof.
  intros R. pose proof (rep_feet _ _ _ R) as S. unfold sentinel_ok in S.
  destruct (h !! feet t) as [nd|]; [|done]. exists nd. tauto.
Qed.

Lemma rep_head_fields (h : heap) t f :
  tree_rep h t f ->
  exists nd, h !! head t = Some nd /\ parent nd = 0 /\ prev_sibling nd = 0 /\
    next_sibling nd = first_ptr f (feet t).
Proof.
  intros R. pose proof (rep_head _ _ _ R) as S. unfold sentinel_ok in S.
  destruct (h !! head t) as [nd|]; [|done]. exists nd. tauto.
Qed.

Lemma rep_feet_fresh (h : heap) t f : tree_rep h t f -> feet t ∉ preorder f.
Proof.
  intros R. pose proof (rep_nodup _ _ _ R) as ND.
  apply NoDup_cons in ND as [_ ND]. by apply NoDup_cons in ND as [? _].
Qed.

Lemma rep_nonnull (h : heap) t f x : tree_rep h t f -> x ∈ preorder f -> x <> 0.
Proof.
  intros R Hx. pose proof (links_nonnull _ _ _ _ _ (rep_null _ _ _ R) (rep_links _ _ _ R)) as NZ.
  rewrite Forall_forall in NZ. by apply NZ.
Qed.

Lemma feet_no_step (h : heap) t f n y :
  tree_rep h t f -> step n h (feet t) y -> y = 0.
Proof.
  intros R Hst. unfold step, pre_incr in Hst. cbn [node iterator_of] in Hst.
  rewrite (proj2 (Nat.eqb_neq _ 0) (rep_feet_nonnull _ _ _ R)) in Hst.
  destruct (rep_feet_fields _ _ _ R) as (nd & Hft & Hp & Hfc & Hn & _).
  rewrite (rd_some _ _ _ Hft) in Hst. cbn [mbind outcome_bind obind] in Hst.
  rewrite Hfc in Hst. cbn [Nat.eqb negb andb skip_current_children_] in Hst.
  destruct n as [|n]; [done|]. cbn [climb_next] in Hst.
  rewrite (rd_some _ _ _ Hft) in Hst. cbn [mbind outcome_bind obind] in Hst.
  rewrite Hn, Hp in Hst. simpl in Hst. unfold iterator_of in Hst. congruence.
Qed.

(** From any point of the pre-order the walk of [max_depth] returns,
    with a value that is not below the running maximum. *)
Lemma md_loop_ok (h : heap) t f pos N0 :
  tree_rep h t f -> pos ∈ preorder f -> 1 <= N0 ->
  forall rem x cur maxd fuel,
    last (x :: rem) = Some (feet t) ->
    Forall (fun z => z ∈ preorder f \/ z = feet t) (x :: rem) ->
    (forall n, N0 <= n -> chain (step n h) (x :: rem)) ->
    N0 + length rem < fuel ->
    exists d, md_loop fuel h pos x cur maxd = Ok d /\ (maxd <= d)%Z.
Proof.
  intros R Hpos HN0.
  induction rem as [|y rem IH]; intros x cur maxd fuel Hlast Hgood Hch Hf;
    (destruct fuel as [|fuel]; [lia|]).
  - (* the walk stands on the feet *)
    simpl in Hlast. injection Hlast as ->.
    destruct (rep_feet_fields _ _ _ R) as (nd & Hft & Hp & Hfc & Hn & _).
    cbn [md_loop]. rewrite (rd_some _ _ _ Hft). cbn [mbind outcome_bind obind].
    rewrite Hfc. simpl.
    assert (feet t <> pos) by (intros E; apply (rep_feet_fresh _ _ _ R); by rewrite E).
    rewrite (proj2 (Nat.eqb_neq _ _) H0). rewrite Hn. simpl.
    rewrite (rd_some _ _ _ Hft). simpl. rewrite Hp. simpl. exists maxd. split; [done|lia].
  - apply Forall_cons in Hgood as [Hx Hgood].
    destruct Hx as [Hx| ->].
    2:{ (* the feet cannot be followed by anything *)
        exfalso. pose proof (Hch (S fuel) ltac:(simpl in Hf; lia)) as [Hst _].
        simpl in Hst. apply (feet_no_step _ _ _ _ _ R) in Hst. subst y.
        apply Forall_cons in Hgood as [Hy' _].
        destruct Hy' as [Hy'|Hy'].
        - by apply (rep_nonnull _ _ _ _ R) in Hy'.
        - by apply (rep_feet_nonnull _ _ _ R). }
    destruct (links_lookup _ _ _ _ _ _ (rep_links _ _ _ R) Hx) as [nd Hnd].
    pose proof (rep_nonnull _ _ _ _ R Hx) as Hx0.
    assert (Hy0 : y <> 0).
    { apply Forall_cons in Hgood as [[Hy| ->] _].
      - by apply (rep_nonnull _ _ _ _ R) in Hy.
      - by apply (rep_feet_nonnull _ _ _ R). }
    assert (Hstep : forall n, N0 <= n ->
              if first_child nd =? 0 then climb_next n h x = Ok y
              else y = first_child nd).
    { intros n Hn. pose proof (Hch n Hn) as [Hst _]. simpl in Hst.
      unfold step, pre_incr, iterator_of in Hst. simpl in Hst.
      rewrite (proj2 (Nat.eqb_neq _ 0) Hx0) in Hst.
      rewrite (rd_some _ _ _ Hnd) in Hst. simpl in Hst.
      destruct (first_child nd =? 0); simpl in Hst.
      - destruct (climb_next n h x); simpl in Hst; congruence.
      - congruence. }
    assert (Hrest : forall cur' maxd', (maxd <= maxd')%Z ->
              exists d, md_loop fuel h pos y cur' maxd' = Ok d /\ (maxd <= d)%Z).
    { intros cur' maxd' Hm.
      destruct (IH y cur' maxd' fuel) as (d & Hd & Hle).
      - by rewrite last_cons_cons in Hlast.
      - done.
      - intros n Hn. specialize (Hch n Hn). simpl in Hch. simpl. tauto.
      - simpl in Hf. lia.
      - exists d. split; [done|lia]. }
    cbn [md_loop]. rewrite (rd_some _ _ _ Hnd). cbn [mbind outcome_bind obind].
    pose proof (Hstep (S fuel) ltac:(simpl in Hf; lia)) as Hs.
    destruct (first_child nd =? 0) eqn:Efc.
    + destruct (x =? pos) eqn:Exp; [exists maxd; split; [done|lia]|].
      destruct (next_sibling nd =? 0) eqn:Ens.
      * destruct (md_climb_spec h (S fuel) x y cur Hs Hy0) as (q & cur' & qn & Hq & Hqn & Hqy).
        { exists nd. split; [done|]. by apply Nat.eqb_eq. }
        rewrite Hq. cbn [mbind outcome_bind obind].
        destruct (q =? pos); [exists maxd; split; [done|lia]|].
        rewrite (rd_some _ _ _ Hqn). cbn [mbind outcome_bind obind]. rewrite Hqy.
        apply Hrest. lia.
      * cbn [mbind outcome_bind obind]. rewrite Exp.
        rewrite (rd_some _ _ _ Hnd). cbn [mbind outcome_bind obind].
        simpl in Hs. rewrite (rd_some _ _ _ Hnd) in Hs. simpl in Hs.
        rewrite Ens in Hs. injection Hs as ->.
        apply Hrest. lia.
    + subst y. apply Hrest. lia.
Qed.

(** C7, as amended: for every node [n] of a well-formed tree
    [max_depth(n)] returns; the value is at least 1 exactly when [n] has
    a child and it is 0 for a leaf.  [max_depth()] of an empty tree
    returns [size_t(-1)]. *)
Theorem max_depth_spec (h : heap) (t : tree) (f : forest) :
  tree_rep h t f ->
  (forall n cs fuel,
     subtree_of f (node n) = Some cs -> 2 * length (preorder f) + 2 <= fuel ->
     exists d, max_depth_at fuel h t n = Ok d /\ (0 <= d)%Z /\
               ((1 <= d)%Z <-> cs <> FNil)) /\
  (f = FNil -> forall fuel, 1 <= fuel -> max_depth fuel h t = Ok (size_max - 1)%Z).
Proof.
  intros R. split.
  - intros [pos sk] cs fuel Sub Hf. simpl in Sub.
    assert (Hpos : pos ∈ preorder f) by (apply subtree_of_elem; eauto).
    unfold max_depth_at. cbn [node].
    pose proof (rep_valid h t f pos sk R Hpos) as Hv. unfold is_valid in Hv.
    cbn [node] in Hv. apply negb_true_iff in Hv.
    replace ((pos =? 0) || (pos =? head t) || (pos =? feet t))
      with ((pos =? 0) || (pos =? feet t) || (pos =? head t))
      by (destruct (pos =? 0), (pos =? feet t), (pos =? head t); done).
    rewrite Hv.
    destruct (links_sub _ _ _ _ _ _ _ (rep_links _ _ _ R) Sub) as (Lcs & nd & Hnd & Hfc & _).
    destruct fuel as [|fuel]; [lia|]. cbn [md_loop].
    rewrite (rd_some _ _ _ Hnd). cbn [mbind outcome_bind obind]. rewrite Hfc.
    destruct cs as [|c ccs cr].
    + simpl. rewrite Nat.eqb_refl. exists 0%Z. split; [done|]. split; [lia|].
      split; [lia|done].
    + simpl first_ptr.
      assert (Hc : c ∈ preorder f).
      { eapply subtree_of_incl; [exact Sub|]. apply elem_of_cons. by left. }
      rewrite (proj2 (Nat.eqb_neq c 0) (rep_nonnull _ _ _ _ R Hc)).
      destruct (preorder_sub f pos _ (feet t) Sub) as (l1 & l2 & E).
      simpl in E. rewrite <- app_assoc in E. simpl in E.
      set (rem := preorder ccs ++ preorder cr ++ after f (feet t) pos :: l2) in E.
      assert (E' : preorder f ++ [feet t] = (l1 ++ [pos]) ++ c :: rem)
        by (by rewrite <- app_assoc).
      destruct (md_loop_ok h t f pos (length (preorder f) + 1) R Hpos ltac:(lia)
                  rem c (wrap (0 + 1)) (Z.max (wrap (0 + 1)) 0) fuel) as (d & Hd & Hle).
      * rewrite <- (last_app_cons (l1 ++ [pos])), <- E'. apply last_snoc.
      * assert (Hall : Forall (fun z => z ∈ preorder f \/ z = feet t)
                         (preorder f ++ [feet t])).
        { apply Forall_app. split.
          - apply Forall_forall. intros z Hz. by left.
          - apply Forall_singleton. by right. }
        rewrite E' in Hall. by apply Forall_app in Hall as [_ ?].
      * intros n Hn. apply (chain_app_r _ (l1 ++ [pos])). rewrite <- E'.
        apply walk_chain, tree_walk; [done|]. pose proof (fdepth_le f). lia.
      * assert (length (c :: rem) < length (preorder f ++ [feet t])).
        { rewrite E'. rewrite !length_app. simpl. lia. }
        rewrite length_app in H0. simpl in H0. lia.
      * exists d. split; [done|]. change (wrap (0 + 1)) with 1%Z in Hle.
        split; [lia|]. split; [done|lia].
  - intros -> fuel Hf. unfold max_depth.
    destruct (rep_head_fields _ _ _ R) as (nd & Hhd & _ & _ & Hn).
    rewrite (rd_some _ _ _ Hhd). cbn [mbind outcome_bind obind]. rewrite Hn.
    destruct fuel as [|fuel]; [lia|]. simpl. by rewrite Nat.eqb_refl.
Qed.

Lemma links_keep (h h' : heap) f : forall par prev next,
  links h par prev f next ->
  (forall p, p ∈ preorder f -> keeps_links h h' p) ->
  links h' par prev f next.
Proof.
  induction f as [|p cs IHcs r IHr]; intros par prev next L K; [done|].
  apply links_cons in L as (nd & Hp & Hpar & Hprev & Hnext & Hfc & Hlc & Lcs & Lr).
  pose proof (K p ltac:(simpl; apply elem_of_cons; by left)) as Kp.
  unfold keeps_links in Kp. rewrite Hp in Kp.
  simpl. destruct (h' !! p) as [nd'|]; [|done].
  destruct Kp as (E1 & E2 & E3 & E4 & E5).
  rewrite <- E1, <- E2, <- E3, <- E4, <- E5.
  repeat split; try done.
  - apply IHcs; [done|]. intros q Hq. apply K. simpl.
    apply elem_of_cons. right. apply elem_of_app. by left.
  - apply IHr; [done|]. intros q Hq. apply K. simpl.
    apply elem_of_cons. right. apply elem_of_app. by right.
Qed.

Lemma preorder_fsnoc f p : preorder (fsnoc f p) = preorder f ++ [p].
Proof.
  induction f as [|q cs _ r IHr]; simpl; [done|]. by rewrite IHr, app_assoc.
Qed.

Lemma first_ptr_fsnoc f p d : first_ptr (fsnoc f p) d = first_ptr f p.
Proof. by destruct f. Qed.

Lemma last_ptr_fsnoc f p d : last_ptr (fsnoc f p) d = p.
Proof. revert d. induction f as [|q cs _ r IHr]; intros d; simpl; [done|]. apply IHr. Qed.

(** Appending a fresh leaf to a sibling chain: the last node of the chain
    gets the new right neighbour, every other node keeps its links. *)
Lemma links_fsnoc (h h' : heap) tmp f : forall par prev next,
  links h par prev f next ->
  (match h' !! tmp with
   | Some nd => parent nd = par /\ prev_sibling nd = last_ptr f prev /\
                next_sibling nd = next /\ first_child nd = 0 /\ last_child nd = 0
   | None => False
   end) ->
  (forall p, p ∈ preorder f -> p <> last_ptr f prev -> keeps_links h h' p) ->
  (f <> FNil ->
   match h !! last_ptr f prev, h' !! last_ptr f prev with
   | Some a, Some b => same_links (set_next_sibling tmp a) b
   | _, _ => False
   end) ->
  NoDup (preorder f) ->
  links h' par prev (fsnoc f tmp) next.
Proof.
  induction f as [|p cs _ r IHr]; intros par prev next L Htmp K Hlast ND.
  - simpl in *. destruct (h' !! tmp) as [nd|]; [|done]. tauto.
  - apply links_cons in L as (nd & Hp & Hpar & Hprev & Hnext & Hfc & Hlc & Lcs & Lr).
    simpl in ND. apply NoDup_cons in ND as [Hpn ND].
    apply NoDup_app in ND as (NDc & Hd & NDr).
    assert (Hcs : links h' p 0 cs 0).
    { apply (links_keep h); [done|]. intros q Hq. apply K.
      - simpl. apply elem_of_cons. right. apply elem_of_app. by left.
      - simpl. intros ->. destruct r as [|r0 rcs rr].
        + simpl in Hq. apply Hpn, elem_of_app. by left.
        + apply (Hd _ Hq). by apply last_ptr_elem. }
    simpl fsnoc. cbn [links].
    destruct r as [|r0 rcs rr].
    + (* p is the last node of the chain *)
      simpl in *. specialize (Hlast ltac:(done)). rewrite Hp in Hlast.
      destruct (h' !! p) as [nd'|]; [|done].
      destruct Hlast as (E1 & E2 & E3 & E4 & E5). simpl in *.
      rewrite <- E1, <- E2, <- E3, <- E4, <- E5.
      repeat split; try done.
      destruct (h' !! tmp) as [tn|]; [|done]. tauto.
    + assert (Hne : p <> last_ptr (FCons r0 rcs rr) p).
      { intros E. apply Hpn. apply elem_of_app. right. rewrite E.
        by apply last_ptr_elem. }
      pose proof (K p ltac:(simpl; apply elem_of_cons; by left) Hne) as Kp.
      unfold keeps_links in Kp. rewrite Hp in Kp.
      destruct (h' !! p) as [nd'|]; [|done].
      destruct Kp as (E1 & E2 & E3 & E4 & E5).
      rewrite <- E1, <- E2, <- E3, <- E4, <- E5.
      repeat split; try done.
      apply (IHr par p next Lr).
      * exact Htmp.
      * intros q Hq Hql. apply K; [|exact Hql].
        simpl. apply elem_of_cons. right. apply elem_of_app. by right.
      * intros _. apply Hlast. done.
      * done.
Qed.

Lemma wr_some (h : heap) p nd g : h !! p = Some nd -> wr h p g = Ok (<[p := g nd]> h).
Proof. intros E. unfold wr. by rewrite E. Qed.

Lemma allocate_fresh (h : heap) : h !! allocate h = None /\ allocate h <> 0.
Proof.
  unfold allocate. pose proof (is_fresh ({[0]} ∪ dom h)) as F.
  split.
  - apply not_elem_of_dom. set_solver.
  - intros E. apply F. rewrite E. set_solver.
Qed.

Lemma last_ptr_in f d : last_ptr f d = d \/ last_ptr f d ∈ preorder f.
Proof.
  destruct f as [|p cs r]; [by left|]. right. by apply last_ptr_elem.
Qed.

Lemma rep_allocated (h : heap) t f p :
  tree_rep h t f -> p ∈ head t :: feet t :: preorder f -> is_Some (h !! p).
Proof.
  intros R Hp. apply elem_of_cons in Hp as [->|Hp].
  - destruct (rep_head_fields _ _ _ R) as (nd & ? & _). eauto.
  - apply elem_of_cons in Hp as [->|Hp].
    + destruct (rep_feet_fields _ _ _ R) as (nd & ? & _). eauto.
    + eapply links_lookup; [apply R|done].
Qed.

Lemma same_links_refl (a : tree_node_ T) : same_links a a.
Proof. by repeat split. Qed.

Lemma keeps_links_same (h h' : heap) p :
  is_Some (h !! p) -> h' !! p = h !! p -> keeps_links h h' p.
Proof.
  intros [nd E] E'. unfold keeps_links. rewrite E', E. apply same_links_refl.
Qed.

(** C10: [insert(position, x)] with a null [position] on a well-formed
    tree returns; it behaves as [insert(end(), x)]: the new node becomes
    the last root of the tree, and the returned iterator is valid and
    points to it. *)
Theorem insert_null (h : heap) (t : tree) (f : forest) (x : T) (sk : bool) (fuel : nat) :
  tree_rep h t f -> 1 <= fuel ->
  exists h',
    insert fuel h t (mk_it 0 sk) x = Ok (h', iterator_of (allocate h)) /\
    insert fuel h t (end_ t) x = Ok (h', iterator_of (allocate h)) /\
    tree_rep h' t (fsnoc f (allocate h)) /\
    is_valid t (iterator_of (allocate h)) = true /\
    data <$> h' !! allocate h = Some x.
Proof.
  intros R Hf.
  destruct (allocate_fresh h) as [Hfresh Htmp0]. set (tmp := allocate h) in *.
  destruct (rep_head_fields _ _ _ R) as (hd & Hhd & Hhp & Hhv & Hhn).
  destruct (rep_feet_fields _ _ _ R) as (ft & Hft & Hfp & Hffc & Hfn & Hfv).
  pose proof (rep_head _ _ _ R) as Shead. pose proof (rep_feet _ _ _ R) as Sfeet.
  unfold sentinel_ok in Shead, Sfeet. rewrite Hhd in Shead. rewrite Hft in Sfeet.
  pose proof (rep_nodup _ _ _ R) as ND.
  assert (Hhf : head t <> feet t).
  { apply NoDup_cons in ND as [Hh _]. intros E. apply Hh. rewrite E.
    apply elem_of_cons. by left. }
  assert (Htf : tmp <> feet t) by (intros E; rewrite E in Hfresh; congruence).
  assert (Hth : tmp <> head t) by (intros E; rewrite E in Hfresh; congruence).
  set (q := last_ptr f (head t)) in *.
  assert (Hq : is_Some (h !! q)).
  { apply (rep_allocated h t f); [done|]. destruct (last_ptr_in f (head t)) as [E|E].
    - fold q in E. rewrite E. apply elem_of_cons. by left.
    - apply elem_of_cons. right. apply elem_of_cons. by right. }
  destruct Hq as [qn Hqn].
  assert (Hq0 : q <> 0) by (intros E; rewrite E in Hqn; rewrite (rep_null _ _ _ R) in Hqn; done).
  assert (Hqf : q <> feet t).
  { destruct (last_ptr_in f (head t)) as [E|E]; fold q in E.
    - by rewrite E.
    - intros E'. rewrite E' in E. by apply (rep_feet_fresh _ _ _ R). }
  assert (Hqt : q <> tmp) by (intros E; rewrite E in Hqn; congruence).
  assert (Heq : insert fuel h t (mk_it 0 sk) x = insert fuel h t (end_ t) x).
  { unfold insert, end_, iterator_of. cbn [node]. rewrite Nat.eqb_refl.
    by rewrite (proj2 (Nat.eqb_neq (feet t) 0) (rep_feet_nonnull _ _ _ R)). }
  rewrite <- Heq.
  unfold insert. cbn [node]. rewrite Nat.eqb_refl.
  rewrite (proj2 (Nat.eqb_neq (feet t) (head t))) by done.
  unfold new_node. rewrite (rd_some _ _ _ Hhd). cbn [mbind outcome_bind obind].
  fold tmp.
  set (N0 := set_visible (visible hd) (set_expanded (expanded hd) (node_of x))).
  rewrite (rd_some (<[tmp:=N0]> h) (feet t) ft) by (by rewrite lookup_insert_ne).
  cbn [mbind outcome_bind obind].
  rewrite (wr_some _ tmp N0) by apply lookup_insert_eq.
  cbn [mbind outcome_bind obind]. rewrite insert_insert_eq.
  rewrite (wr_some _ (feet t) ft) by (by rewrite lookup_insert_ne).
  cbn [mbind outcome_bind obind]. rewrite Hfv. fold q.
  rewrite (proj2 (Nat.eqb_neq q 0)) by done.
  rewrite (wr_some _ q qn) by (by rewrite !lookup_insert_ne).
  cbn [mbind outcome_bind obind].
  set (N1 := set_prev_sibling q (set_next_sibling (feet t) (set_parent (parent ft) N0))).
  set (h4 := <[q:=set_next_sibling tmp qn]>
               (<[feet t:=set_prev_sibling tmp ft]> (<[tmp:=N1]> h))).
  assert (H4tmp : h4 !! tmp = Some N1).
  { unfold h4. rewrite lookup_insert_ne by done. rewrite lookup_insert_ne by done.
    apply lookup_insert_eq. }
  unfold bookkeep_insert. rewrite (rd_some _ _ _ H4tmp). cbn [mbind outcome_bind obind].
  assert (Hpar1 : parent N1 = 0) by (by simpl).
  rewrite Hpar1. destruct fuel as [|fuel]; [lia|]. cbn [bump_ancestors Nat.eqb].
  cbn [mbind outcome_bind obind].
  assert (Hhd4 : exists hd4, h4 !! head t = Some hd4 /\
            same_links hd4 (if decide (q = head t) then set_next_sibling tmp hd else hd)).
  { unfold h4. destruct (decide (q = head t)) as [E|E].
    - rewrite E. rewrite lookup_insert_eq. rewrite E in Hqn.
      assert (qn = hd) by congruence. subst qn. eexists. split; [done|].
      apply same_links_refl.
    - rewrite lookup_insert_ne by done. rewrite lookup_insert_ne by done.
      rewrite lookup_insert_ne by done. eexists. split; [done|]. apply same_links_refl. }
  destruct Hhd4 as (hd4 & Hhd4 & Shd4).
  unfold bump_head. rewrite (wr_some _ _ _ _ Hhd4). cbn [mbind outcome_bind obind].
  rewrite (wr_some _ (head t) _) by apply lookup_insert_eq.
  cbn [mbind outcome_bind obind]. rewrite insert_insert_eq.
  rewrite (wr_some _ (head t) _) by apply lookup_insert_eq.
  cbn [mbind outcome_bind obind]. rewrite insert_insert_eq.
  match goal with |- context [ <[head t := ?n]> h4 ] => set (hd7 := n) end.
  assert (Shd7 : same_links hd7 hd4) by (by repeat split).
  eexists. split; [reflexivity|]. split; [reflexivity|].
  assert (Hq_in : f <> FNil -> q ∈ preorder f) by (intros; by apply last_ptr_elem).
  assert (Hin_ne : forall p, p ∈ preorder f -> p <> head t /\ p <> feet t /\ p <> tmp).
  { intros p Hp. repeat split.
    - intros ->. apply NoDup_cons in ND as [Hh _]. apply Hh. apply elem_of_cons. by right.
    - intros ->. by apply (rep_feet_fresh _ _ _ R).
    - intros ->. destruct (links_lookup _ _ _ _ _ _ (rep_links _ _ _ R) Hp). congruence. }
  split; [|split].
  - split.
    + pose proof (rep_head_nonnull _ _ _ R). pose proof (rep_feet_nonnull _ _ _ R).
      rewrite lookup_insert_ne by done.
      unfold h4. rewrite !lookup_insert_ne by done. apply R.
    + unfold sentinel_ok. rewrite lookup_insert_eq.
      destruct Shd7 as (E1 & E2 & E3 & E4 & E5). rewrite E1, E2, E3, E4, E5.
      destruct Shd4 as (E1' & E2' & E3' & E4' & E5'). rewrite E1', E2', E3', E4', E5'.
      rewrite first_ptr_fsnoc.
      destruct (decide (q = head t)) as [E|E].
      * simpl. destruct f as [|p cs r]; [simpl; tauto|].
        exfalso. apply NoDup_cons in ND as [Hh _]. apply Hh. rewrite <- E.
        apply elem_of_cons. right. by apply Hq_in.
      * destruct f as [|p cs r]; [done|]. simpl. simpl in Hhn. tauto.
    + unfold sentinel_ok. rewrite lookup_insert_ne by done.
      unfold h4. rewrite lookup_insert_ne by done. rewrite lookup_insert_eq.
      rewrite last_ptr_fsnoc. simpl. tauto.
    + apply (links_fsnoc h _ tmp f 0 (head t) (feet t) (rep_links _ _ _ R)).
      * rewrite lookup_insert_ne by done. rewrite H4tmp. simpl. by rewrite Hfp.
      * intros p Hp Hpq. destruct (Hin_ne p Hp) as (? & ? & ?).
        apply keeps_links_same; [eapply links_lookup; [apply R|done]|].
        rewrite lookup_insert_ne by done. unfold h4. by rewrite !lookup_insert_ne.
      * intros Hne. fold q. destruct (Hin_ne q (Hq_in Hne)) as (? & ? & ?).
        rewrite Hqn. rewrite lookup_insert_ne by done. unfold h4.
        rewrite lookup_insert_eq. apply same_links_refl.
      * apply NoDup_cons in ND as [_ ND]. by apply NoDup_cons in ND as [_ ND].
    + rewrite preorder_fsnoc.
      apply NoDup_cons in ND as [Hh ND]. apply NoDup_cons in ND as [Hft' ND].
      apply NoDup_cons. split.
      { intros Hin. apply elem_of_cons in Hin as [?|Hin]; [done|].
        apply elem_of_app in Hin as [Hin|Hin].
        - apply Hh. apply elem_of_cons. by right.
        - apply list_elem_of_singleton in Hin. done. }
      apply NoDup_cons. split.
      { intros Hin. apply elem_of_app in Hin as [Hin|Hin]; [done|].
        apply list_elem_of_singleton in Hin. done. }
      apply NoDup_app. split; [done|]. split; [|apply NoDup_singleton].
      intros p Hp Hin. apply list_elem_of_singleton in Hin. subst p.
      by destruct (Hin_ne tmp Hp) as (_ & _ & ?).
  - unfold is_valid, iterator_of. cbn [node].
    rewrite (proj2 (Nat.eqb_neq tmp 0)) by done.
    rewrite (proj2 (Nat.eqb_neq tmp (feet t))) by done.
    by rewrite (proj2 (Nat.eqb_neq tmp (head t))).
  - rewrite lookup_insert_ne by done. rewrite H4tmp. done.
Qed.

Lemma same_shape_refl (h : heap) : same_shape h h.
Proof. intros p. destruct (h !! p); [|done]. split; [apply same_links_refl|done]. Qed.

Lemma same_links_trans (a b c : tree_node_ T) :
  same_links a b -> same_links b c -> same_links a c.
Proof.
  intros (A1 & A2 & A3 & A4 & A5) (B1 & B2 & B3 & B4 & B5).
  repeat split; congruence.
Qed.

Lemma same_shape_trans (h1 h2 h3 : heap) :
  same_shape h1 h2 -> same_shape h2 h3 -> same_shape h1 h3.
Proof.
  intros S12 S23 p. specialize (S12 p). specialize (S23 p).
  destruct (h1 !! p), (h2 !! p), (h3 !! p); try done.
  destruct S12, S23. split; [by eapply same_links_trans|congruence].
Qed.

Lemma same_shape_insert (h : heap) p nd nd' :
  h !! p = Some nd -> same_links nd nd' -> data nd = data nd' ->
  same_shape h (<[p := nd']> h).
Proof.
  intros Hp SL D q. destruct (decide (p = q)) as [<-|Hne].
  - rewrite lookup_insert_eq, Hp. done.
  - rewrite lookup_insert_ne by done. destruct (h !! q); [|done].
    split; [apply same_links_refl|done].
Qed.

Lemma same_shape_lookup (h h' : heap) p nd :
  same_shape h h' -> h !! p = Some nd ->
  exists nd', h' !! p = Some nd' /\ same_links nd nd' /\ data nd = data nd'.
Proof.
  intros S Hp. specialize (S p). rewrite Hp in S.
  destruct (h' !! p) as [nd'|]; [|done]. exists nd'. tauto.
Qed.

Lemma same_shape_sym (h h' : heap) : same_shape h h' -> same_shape h' h.
Proof.
  intros S p. specialize (S p). destruct (h !! p), (h' !! p); try done.
  destruct S as ((E1 & E2 & E3 & E4 & E5) & D). repeat split; congruence.
Qed.

Lemma tree_rep_shape (h h' : heap) t f :
  tree_rep h t f -> same_shape h h' -> tree_rep h' t f.
Proof.
  intros R S. split.
  - pose proof (S 0) as S0. rewrite (rep_null _ _ _ R) in S0.
    by destruct (h' !! 0).
  - pose proof (rep_head _ _ _ R) as Hh. unfold sentinel_ok in *.
    destruct (h !! head t) as [nd|] eqn:E; [|done].
    destruct (same_shape_lookup _ _ _ _ S E) as (nd' & -> & (E1 & E2 & E3 & E4 & E5) & _).
    rewrite <- E1, <- E2, <- E3, <- E4, <- E5. done.
  - pose proof (rep_feet _ _ _ R) as Hh. unfold sentinel_ok in *.
    destruct (h !! feet t) as [nd|] eqn:E; [|done].
    destruct (same_shape_lookup _ _ _ _ S E) as (nd' & -> & (E1 & E2 & E3 & E4 & E5) & _).
    rewrite <- E1, <- E2, <- E3, <- E4, <- E5. done.
  - apply (links_keep h); [apply R|]. intros p Hp.
    destruct (links_lookup _ _ _ _ _ _ (rep_links _ _ _ R) Hp) as [nd E].
    destruct (same_shape_lookup _ _ _ _ S E) as (nd' & E' & SL & _).
    unfold keeps_links. by rewrite E, E'.
  - apply R.
Qed.

Lemma chain_up_shape (h h' : heap) l : forall p,
  chain_up h p l -> same_shape h h' -> chain_up h' p l.
Proof.
  induction l as [|a l IH]; intros p C S; [done|].
  simpl in *. destruct C as (-> & Hp & C). split; [done|]. split; [done|].
  destruct (h !! p) as [nd|] eqn:E; [|done].
  destruct (same_shape_lookup _ _ _ _ S E) as (nd' & -> & (E1 & _) & _).
  rewrite <- E1. by apply IH.
Qed.

Lemma anc_in_elem f : forall acc y l, anc_in f acc y = Some l -> y ∈ preorder f.
Proof.
  induction f as [|p cs IHcs r IHr]; intros acc y l A; [done|]. simpl in *.
  destruct (Nat.eqb_spec p y) as [->|Hne]; [apply elem_of_cons; by left|].
  apply elem_of_cons. right. apply elem_of_app.
  destruct (anc_in cs (p :: acc) y) eqn:E.
  - left. by eapply IHcs.
  - right. by eapply IHr.
Qed.

Lemma anc_in_some f : forall acc y, y ∈ preorder f -> is_Some (anc_in f acc y).
Proof.
  induction f as [|p cs IHcs r IHr]; intros acc y Hy; [by apply elem_of_nil in Hy|].
  simpl in *. destruct (Nat.eqb_spec p y) as [->|Hne]; [eauto|].
  apply elem_of_cons in Hy as [->|Hy]; [done|].
  apply elem_of_app in Hy as [Hy|Hy].
  - destruct (IHcs (p :: acc) y Hy) as [l ->]. eauto.
  - destruct (anc_in cs (p :: acc) y); [eauto|]. by apply IHr.
Qed.

Lemma anc_in_suffix f : forall acc y l, anc_in f acc y = Some l -> forall a, a ∈ acc -> a ∈ l.
Proof.
  induction f as [|p cs IHcs r IHr]; intros acc y l A a Ha; [done|]. simpl in *.
  destruct (Nat.eqb_spec p y) as [->|Hne]; [by injection A as <-|].
  destruct (anc_in cs (p :: acc) y) eqn:E.
  - injection A as <-. eapply IHcs; [exact E|]. apply elem_of_cons. by right.
  - by eapply IHr.
Qed.

(** In the heap the parent pointers of [y] run through its ancestors. *)
Lemma anc_chain (h : heap) f : forall par prev next acc y l,
  h !! 0 = None ->
  links h par prev f next -> chain_up h par acc -> anc_in f acc y = Some l ->
  exists nd, h !! y = Some nd /\ chain_up h (parent nd) l.
Proof.
  induction f as [|p cs IHcs r IHr]; intros par prev next acc y l H0 L C A; [done|].
  pose proof L as L'.
  apply links_cons in L' as (nd & Hp & Hpar & _ & _ & _ & _ & Lcs & Lr).
  simpl in A. destruct (Nat.eqb_spec p y) as [->|Hne].
  - injection A as <-. exists nd. by rewrite Hpar.
  - destruct (anc_in cs (p :: acc) y) eqn:E.
    + injection A as <-. eapply (IHcs p 0 0 (p :: acc)); [done|done| |done].
      simpl. split; [done|]. split; [intros ->; congruence|].
      rewrite Hp, Hpar. done.
    + eapply IHr; eauto.
Qed.

Lemma subtree_of_some_elem f a cs : subtree_of f a = Some cs -> a ∈ preorder f.
Proof. intros S. apply subtree_of_elem. eauto. Qed.

Lemma desc_elem f x y : y ∈ desc f x -> x ∈ preorder f /\ y ∈ preorder f.
Proof.
  unfold desc. destruct (subtree_of f x) as [cs|] eqn:S; [|by intros ?%elem_of_nil].
  intros Hy. split; [by eapply subtree_of_some_elem|by eapply subtree_of_incl].
Qed.

Lemma desc_cons_here p cs r : desc (FCons p cs r) p = preorder cs.
Proof. unfold desc. simpl. by rewrite Nat.eqb_refl. Qed.

Lemma desc_cons_child p cs r x :
  p <> x -> x ∈ preorder cs -> desc (FCons p cs r) x = desc cs x.
Proof.
  intros Hne Hx. unfold desc. simpl. rewrite (proj2 (Nat.eqb_neq p x)) by done.
  apply subtree_of_elem in Hx as [g ->]. done.
Qed.

Lemma desc_cons_rest p cs r x :
  p <> x -> x ∉ preorder cs -> desc (FCons p cs r) x = desc r x.
Proof.
  intros Hne Hx. unfold desc. simpl. rewrite (proj2 (Nat.eqb_neq p x)) by done.
  by rewrite (subtree_of_none cs x).
Qed.

(** Every listed ancestor of [y] has [y] among its descendants. *)
Lemma anc_in_desc f : forall acc y l a,
  NoDup (preorder f) -> anc_in f acc y = Some l -> a ∈ l -> a ∈ acc \/ y ∈ desc f a.
Proof.
  induction f as [|p cs IHcs r IHr]; intros acc y l a ND A Ha; [done|].
  simpl in ND. apply NoDup_cons in ND as [Hp ND].
  apply NoDup_app in ND as (NDc & Hd & NDr).
  simpl in A. destruct (Nat.eqb_spec p y) as [->|Hne].
  - injection A as <-. by left.
  - destruct (anc_in cs (p :: acc) y) eqn:E.
    + injection A as <-. pose proof (anc_in_elem _ _ _ _ E) as Hy.
      destruct (IHcs _ _ _ _ NDc E Ha) as [Hin|Hin].
      * apply elem_of_cons in Hin as [->|Hin]; [|by left].
        right. by rewrite desc_cons_here.
      * right. destruct (desc_elem _ _ _ Hin) as [Hac _].
        rewrite desc_cons_child; [done| |done].
        intros ->. apply Hp. apply elem_of_app. by left.
    + destruct (IHr _ _ _ _ NDr A Ha) as [Hin|Hin]; [by left|].
      right. destruct (desc_elem _ _ _ Hin) as [Har _].
      rewrite desc_cons_rest; [done| |].
      * intros ->. apply Hp. apply elem_of_app. by right.
      * intros Hac. by apply (Hd _ Hac).
Qed.

(** Every node that has [y] among its descendants is a listed ancestor. *)
Lemma desc_anc_in f : forall acc y l x,
  NoDup (preorder f) -> anc_in f acc y = Some l -> y ∈ desc f x -> x ∈ l.
Proof.
  induction f as [|p cs IHcs r IHr]; intros acc y l x ND A Hy; [done|].
  simpl in ND. apply NoDup_cons in ND as [Hp ND].
  apply NoDup_app in ND as (NDc & Hd & NDr).
  simpl in A.
  destruct (decide (p = x)) as [->|Hpx].
  - rewrite desc_cons_here in Hy.
    destruct (Nat.eqb_spec x y) as [->|Hne].
    + exfalso. apply Hp. apply elem_of_app. by left.
    + destruct (anc_in_some cs (x :: acc) y Hy) as [l' E]. rewrite E in A.
      injection A as <-. eapply anc_in_suffix; [exact E|]. apply elem_of_cons. by left.
  - destruct (decide (x ∈ preorder cs)) as [Hxc|Hxc].
    + rewrite desc_cons_child in Hy by done.
      destruct (desc_elem _ _ _ Hy) as [_ Hyc].
      destruct (Nat.eqb_spec p y) as [->|Hne].
      * exfalso. apply Hp. apply elem_of_app. by left.
      * destruct (anc_in_some cs (p :: acc) y Hyc) as [l' E]. rewrite E in A.
        injection A as <-. by eapply IHcs.
    + rewrite desc_cons_rest in Hy by done.
      destruct (desc_elem _ _ _ Hy) as [_ Hyr].
      destruct (Nat.eqb_spec p y) as [->|Hne].
      * exfalso. apply Hp. apply elem_of_app. by right.
      * destruct (anc_in cs (p :: acc) y) eqn:E.
        -- exfalso. apply anc_in_elem in E. by apply (Hd _ E).
        -- by eapply IHr.
Qed.

Lemma nodup_split_unique {A} (l1 l2 a1 a2 : list A) x :
  NoDup (l1 ++ x :: l2) -> l1 ++ x :: l2 = a1 ++ x :: a2 -> l1 = a1 /\ l2 = a2.
Proof.
  revert a1. induction l1 as [|b l1 IH]; intros a1 ND E.
  - destruct a1 as [|c a1]; simpl in E.
    + by injection E as <-.
    + injection E as <- E. simpl in ND. apply NoDup_cons in ND as [Hx _].
      exfalso. apply Hx. rewrite E. apply elem_of_app. right. apply elem_of_cons. by left.
  - destruct a1 as [|c a1]; simpl in E.
    + injection E as E0 E. subst b. simpl in ND. apply NoDup_cons in ND as [Hx _].
      exfalso. apply Hx. apply elem_of_app. right. apply elem_of_cons. by left.
    + injection E as <- E. simpl in ND. apply NoDup_cons in ND as [_ ND].
      destruct (IH a1 ND E) as [-> ->]. done.
Qed.

(** The descendants of a node come after it in the pre-order. *)
Lemma desc_after f l1 l2 x y e :
  NoDup (preorder f ++ [e]) -> l1 ++ x :: l2 = preorder f ++ [e] ->
  y ∈ desc f x -> (y ∉ l1) /\ y <> x /\ y ∈ l2.
Proof.
  intros ND E Hy. unfold desc in Hy.
  destruct (subtree_of f x) as [cs|] eqn:S; [|by apply elem_of_nil in Hy].
  destruct (preorder_sub f x cs e S) as (a1 & a2 & E').
  rewrite <- E in ND. rewrite E' in E.
  destruct (nodup_split_unique _ _ _ _ _ ND E) as [-> ->].
  apply NoDup_app in ND as (_ & Hd & ND). apply NoDup_cons in ND as [Hx _].
  split; [|split].
  - intros Hin. apply (Hd _ Hin). apply elem_of_cons. right. apply elem_of_app. by left.
  - intros ->. apply Hx. apply elem_of_app. by left.
  - apply elem_of_app. by left.
Qed.

Lemma visible_at_insert (h : heap) p n q :
  visible_at (<[p := n]> h) q = if decide (q = p) then visible n else visible_at h q.
Proof.
  unfold visible_at. destruct (decide (q = p)) as [->|Hne].
  - by rewrite lookup_insert_eq.
  - by rewrite lookup_insert_ne.
Qed.

Lemma wr_keep (h : heap) p nd g :
  h !! p = Some nd -> same_links nd (g nd) -> data nd = data (g nd) ->
  wr h p g = Ok (<[p := g nd]> h) /\ same_shape h (<[p := g nd]> h).
Proof.
  intros Hp SL D. split; [by apply wr_some|by eapply same_shape_insert].
Qed.

Lemma anc_in_length f : forall acc y l,
  anc_in f acc y = Some l -> length l + 1 <= length acc + fdepth f.
Proof.
  induction f as [|p cs IHcs r IHr]; intros acc y l A; [done|]. simpl in *.
  destruct (p =? y).
  - injection A as <-. lia.
  - destruct (anc_in cs (p :: acc) y) eqn:E.
    + injection A as <-. apply IHcs in E. simpl in E. lia.
    + apply IHr in A. lia.
Qed.

Lemma filter_bump_spec l : forall (h : heap) p fuel,
  chain_up h p l -> length l < fuel ->
  exists h', filter_bump fuel h p = Ok h' /\ same_shape h h' /\
    forall q, visible_at h' q = visible_at h q.
Proof.
  induction l as [|a l IH]; intros h p fuel C Hf; (destruct fuel as [|fuel]; [lia|]).
  - simpl in C. subst p. exists h. split; [done|]. split; [apply same_shape_refl|done].
  - simpl in C. destruct C as (-> & Hp0 & C).
    destruct (h !! p) as [nd|] eqn:Hp; [|done].
    cbn [filter_bump]. rewrite (proj2 (Nat.eqb_neq p 0)) by done.
    destruct (wr_keep h p nd bump_expand Hp) as [Hw S1]; [by repeat split|done|].
    rewrite Hw. cbn [mbind outcome_bind obind].
    rewrite (rd_some _ p (bump_expand nd)) by apply lookup_insert_eq.
    cbn [mbind outcome_bind obind].
    destruct (IH (<[p:=bump_expand nd]> h) (parent nd) fuel) as (h' & Hr & S2 & V).
    + by apply (chain_up_shape h).
    + simpl in Hf. lia.
    + exists h'. split; [exact Hr|]. split; [by eapply same_shape_trans|].
      intros q. rewrite V, visible_at_insert. destruct (decide (q = p)) as [->|]; [|done].
      unfold visible_at. by rewrite Hp.
Qed.

Lemma filter_parents_spec l : forall (h : heap) t p fuel,
  chain_up h p l -> is_Some (h !! head t) -> length l < fuel ->
  exists h', filter_parents fuel h t p = Ok h' /\ same_shape h h' /\
    forall q, visible_at h' q = if decide (q ∈ l) then true else visible_at h q.
Proof.
  induction l as [|a l IH]; intros h t p fuel C Hhd Hf; (destruct fuel as [|fuel]; [lia|]).
  - simpl in C. subst p. exists h. split; [done|]. split; [apply same_shape_refl|].
    intros q. destruct (decide (q ∈ [])) as [Hin|]; [by apply elem_of_nil in Hin|done].
  - simpl in C. destruct C as (-> & Hp0 & C).
    destruct (h !! p) as [nd|] eqn:Hp; [|done].
    cbn [filter_parents]. rewrite (proj2 (Nat.eqb_neq p 0)) by done.
    rewrite (rd_some _ _ _ Hp). cbn [mbind outcome_bind obind].
    (* the heap after the optional forcing of [p] *)
    assert (Hforce : exists h1,
      (if visible nd then Ok h else
         h ← wr h p (set_visible true);
         h ← wr h (head t) bump_expand;
         nd ← rd h p;
         filter_bump (S fuel) h (parent nd)) = Ok h1 /\
      same_shape h h1 /\
      forall q, visible_at h1 q = if decide (q = p) then true else visible_at h q).
    { destruct (visible nd) eqn:Ev.
      - exists h. split; [done|]. split; [apply same_shape_refl|].
        intros q. destruct (decide (q = p)) as [->|]; [|done].
        unfold visible_at. by rewrite Hp.
      - destruct (wr_keep h p nd (set_visible true) Hp) as [Hw S1]; [by repeat split|done|].
        rewrite Hw. cbn [mbind outcome_bind obind].
        set (ha := <[p:=set_visible true nd]> h) in *.
        destruct Hhd as [hd0 Hhd0].
        destruct (same_shape_lookup _ _ _ _ S1 Hhd0) as (hd1 & Hhd1 & _).
        destruct (wr_keep ha (head t) hd1 bump_expand Hhd1) as [Hw2 S2];
          [by repeat split|done|].
        rewrite Hw2. cbn [mbind outcome_bind obind].
        set (hb := <[head t:=bump_expand hd1]> ha) in *.
        pose proof (same_shape_trans _ _ _ S1 S2) as S12.
        destruct (same_shape_lookup _ _ _ _ S12 Hp) as (ndb & Hndb & (Epar & _) & _).
        rewrite (rd_some _ _ _ Hndb). cbn [mbind outcome_bind obind]. rewrite <- Epar.
        destruct (filter_bump_spec l hb (parent nd) (S fuel)) as (hc & Hr & S3 & V).
        + by apply (chain_up_shape h).
        + simpl in Hf. lia.
        + exists hc. split; [exact Hr|]. split; [by eapply same_shape_trans|].
          intros q. rewrite V. unfold hb. rewrite visible_at_insert.
          assert (Va : forall q', visible_at ha q' =
                    if decide (q' = p) then true else visible_at h q').
          { intros q'. unfold ha. by rewrite visible_at_insert. }
          destruct (decide (q = head t)) as [->|]; [|apply Va].
          rewrite <- Va. unfold visible_at. by rewrite Hhd1. }
    destruct Hforce as (h1 & -> & S1 & V1). cbn [mbind outcome_bind obind].
    destruct (same_shape_lookup _ _ _ _ S1 Hp) as (nd1 & Hnd1 & (Epar & _) & _).
    destruct (wr_keep h1 p nd1 bump_expand Hnd1) as [Hw S2]; [by repeat split|done|].
    rewrite Hw. cbn [mbind outcome_bind obind].
    rewrite (rd_some _ p (bump_expand nd1)) by apply lookup_insert_eq.
    cbn [mbind outcome_bind obind]. change (parent (bump_expand nd1)) with (parent nd1).
    rewrite <- Epar.
    pose proof (same_shape_trans _ _ _ S1 S2) as S12.
    destruct (IH (<[p:=bump_expand nd1]> h1) t (parent nd) fuel) as (h' & Hr & S3 & V).
    + by apply (chain_up_shape h).
    + destruct Hhd as [hd0 Hhd0].
      destruct (same_shape_lookup _ _ _ _ S12 Hhd0) as (? & ? & _). eauto.
    + simpl in Hf. lia.
    + exists h'. split; [exact Hr|]. split; [by eapply same_shape_trans|].
      intros q. rewrite V, visible_at_insert.
      change (visible (bump_expand nd1)) with (visible nd1).
      assert (Vp : visible nd1 = true).
      { specialize (V1 p). rewrite decide_True in V1 by done.
        unfold visible_at in V1. by rewrite Hnd1 in V1. }
      destruct (decide (q ∈ l)) as [Hin|Hin].
      * rewrite decide_True; [done|]. apply elem_of_cons. by right.
      * destruct (decide (q = p)) as [->|Hne].
        -- rewrite decide_True; [done|]. apply elem_of_cons. by left.
        -- rewrite decide_False.
           ++ rewrite V1. by rewrite decide_False.
           ++ intros [?|?]%elem_of_cons; done.
Qed.

Lemma subtree_of_nested f : forall x y cs,
  NoDup (preorder f) -> subtree_of f x = Some cs -> y ∈ preorder cs ->
  subtree_of f y = subtree_of cs y.
Proof.
  induction f as [|p pcs IHcs r IHr]; intros x y cs ND S Hy; [done|].
  simpl in ND. apply NoDup_cons in ND as [Hp ND].
  apply NoDup_app in ND as (NDc & Hd & NDr).
  simpl in S. simpl.
  destruct (Nat.eqb_spec p x) as [->|Hne].
  - injection S as <-.
    rewrite (proj2 (Nat.eqb_neq x y)).
    + apply subtree_of_elem in Hy as [g E]. by rewrite E.
    + intros ->. apply Hp. apply elem_of_app. by left.
  - destruct (subtree_of pcs x) as [g|] eqn:E.
    + injection S as <-. pose proof (subtree_of_incl _ _ _ E y Hy) as Hyc.
      rewrite (proj2 (Nat.eqb_neq p y)).
      * rewrite <- (IHcs x y g NDc E Hy).
        apply subtree_of_elem in Hyc as [g' E']. by rewrite E'.
      * intros ->. apply Hp. apply elem_of_app. by left.
    + pose proof (subtree_of_incl _ _ _ S y Hy) as Hyr.
      rewrite (proj2 (Nat.eqb_neq p y)).
      * rewrite (subtree_of_none pcs y); [by eapply IHr|].
        intros Hyc. by apply (Hd _ Hyc).
      * intros ->. apply Hp. apply elem_of_app. by right.
Qed.

Lemma desc_trans f x y z :
  NoDup (preorder f) -> y ∈ desc f x -> z ∈ desc f y -> z ∈ desc f x.
Proof.
  intros ND Hy Hz. unfold desc in *.
  destruct (subtree_of f x) as [cs|] eqn:Sx; [|by apply elem_of_nil in Hy].
  rewrite (subtree_of_nested f x y cs ND Sx Hy) in Hz.
  destruct (subtree_of cs y) as [g|] eqn:Sy; [|by apply elem_of_nil in Hz].
  by eapply subtree_of_incl.
Qed.

Lemma cons_snoc {A} (a : A) l : exists l' b, a :: l = l' ++ [b].
Proof.
  revert a. induction l as [|c l IH]; intros a.
  - by exists [], a.
  - destruct (IH c) as (l' & b & E). exists (a :: l'), b. by rewrite E.
Qed.

Lemma split_not_last {A} (l1 l2 P : list A) x y e :
  l1 ++ x :: y :: l2 = P ++ [e] -> x ∈ P.
Proof.
  intros E. destruct (cons_snoc y l2) as (l' & b & E').
  rewrite E' in E. change (x :: l' ++ [b]) with ((x :: l') ++ [b]) in E.
  rewrite app_assoc in E. apply app_inj_tail in E as [<- _].
  apply elem_of_app. right. apply elem_of_cons. by left.
Qed.

(** One round of [filter] keeps the invariant on the visited nodes. *)
Lemma vis_inv_step (comp : T -> bool) (h0 hc hd : heap) f l1 x l2 l e :
  NoDup (preorder f ++ [e]) -> l1 ++ x :: l2 = preorder f ++ [e] ->
  anc_in f [] x = Some l ->
  vis_inv comp h0 hc f l1 ->
  (forall q, visible_at hd q =
     if comp_at comp h0 x
     then (if decide (q ∈ l) then true
           else if decide (q = x) then true else visible_at hc q)
     else (if decide (q = x) then false else visible_at hc q)) ->
  vis_inv comp h0 hd f (l1 ++ [x]).
Proof.
  intros ND E A Inv V z Hz.
  assert (NDf : NoDup (preorder f)) by (by apply NoDup_app in ND as (? & _)).
  assert (Hx1 : x ∉ l1).
  { rewrite <- E in ND. apply NoDup_app in ND as (_ & Hd & _).
    intros Hin. apply (Hd _ Hin). apply elem_of_cons. by left. }
  assert (Hnodesc : forall y, y ∈ l1 ++ [x] -> y ∉ desc f x).
  { intros y Hy Hd. destruct (desc_after f l1 l2 x y e ND E Hd) as (H1 & H2 & _).
    apply elem_of_app in Hy as [Hy|Hy]; [done|].
    apply list_elem_of_singleton in Hy. done. }
  rewrite V. apply elem_of_app in Hz as [Hz|Hz].
  - (* a node visited earlier *)
    assert (Hzx : z <> x) by (intros ->; done).
    specialize (Inv z Hz).
    destruct (comp_at comp h0 x) eqn:Cx.
    + destruct (decide (z ∈ l)) as [Hzl|Hzl].
      * split; [|done]. intros _. right. exists x. split; [|split; [|done]].
        -- apply elem_of_app. right. apply elem_of_cons. by left.
        -- destruct (anc_in_desc f [] x l z NDf A Hzl) as [Hin|Hin]; [|done].
           by apply elem_of_nil in Hin.
      * rewrite decide_False by done. rewrite Inv. split.
        -- intros [?|(y & Hy & Hyd & Cy)]; [by left|]. right. exists y.
           split; [apply elem_of_app; by left|done].
        -- intros [?|(y & Hy & Hyd & Cy)]; [by left|].
           apply elem_of_app in Hy as [Hy|Hy]; [right; by exists y|].
           apply list_elem_of_singleton in Hy. subst y.
           exfalso. apply Hzl. by eapply desc_anc_in.
    + rewrite decide_False by done. rewrite Inv. split.
      * intros [?|(y & Hy & Hyd & Cy)]; [by left|]. right. exists y.
        split; [apply elem_of_app; by left|done].
      * intros [?|(y & Hy & Hyd & Cy)]; [by left|].
        apply elem_of_app in Hy as [Hy|Hy]; [right; by exists y|].
        apply list_elem_of_singleton in Hy. subst y. congruence.
  - (* the node of this round *)
    apply list_elem_of_singleton in Hz. subst z.
    destruct (comp_at comp h0 x) eqn:Cx.
    + split; [by left|]. intros _.
      destruct (decide (x ∈ l)); [done|]. by rewrite decide_True.
    + rewrite decide_True by done. split; [done|].
      intros [?|(y & Hy & Hyd & Cy)]; [done|]. exfalso. by apply (Hnodesc y).
Qed.

Lemma comp_at_shape (comp : T -> bool) (h h' : heap) p :
  same_shape h h' -> comp_at comp h' p = comp_at comp h p.
Proof.
  intros S. specialize (S p). unfold comp_at.
  destruct (h !! p), (h' !! p); try done. destruct S as [_ ->]. done.
Qed.

Lemma filter_loop_spec (comp : T -> bool) (h0 : heap) t f :
  tree_rep h0 t f ->
  forall l2 l1 x hc calls fuel,
    l1 ++ x :: l2 = preorder f ++ [feet t] ->
    same_shape h0 hc -> vis_inv comp h0 hc f l1 ->
    length (preorder f) + 2 + length l2 <= fuel ->
    exists h' calls',
      filter_loop fuel hc t comp (iterator_of x) calls = Ok (h', calls') /\
      calls' ++ [feet t] = calls ++ x :: l2 /\
      same_shape h0 h' /\ vis_inv comp h0 h' f (preorder f).
Proof.
  intros R0.
  induction l2 as [|y l2 IH]; intros l1 x hc calls fuel E Sh Inv Hf;
    (destruct fuel as [|fuel]; [lia|]).
  - apply app_inj_tail in E as [-> ->].
    cbn [filter_loop iterator_of node]. rewrite Nat.eqb_refl.
    exists hc, calls. done.
  - pose proof (split_not_last _ _ _ _ _ _ E) as Hx.
    pose proof (tree_rep_shape _ _ _ _ R0 Sh) as Rc.
    assert (Hxf : x <> feet t) by (intros ->; by apply (rep_feet_fresh _ _ _ R0)).
    cbn [filter_loop iterator_of node].
    rewrite (proj2 (Nat.eqb_neq _ _) Hxf).
    destruct (links_lookup _ _ _ _ _ _ (rep_links _ _ _ Rc) Hx) as [nd Hnd].
    rewrite (rd_some _ _ _ Hnd). cbn [mbind outcome_bind obind].
    (* resetting the counters of an inner node *)
    assert (Hreset : exists ha,
      (if first_child nd =? 0 then Ok hc else
         wr hc x (fun n =>
           set_count_expanded 0 (set_count_expandable 0 (set_expanded true n)))) = Ok ha /\
      same_shape hc ha /\ forall q, visible_at ha q = visible_at hc q).
    { destruct (first_child nd =? 0).
      - exists hc. split; [done|]. split; [apply same_shape_refl|done].
      - destruct (wr_keep hc x nd (fun n =>
           set_count_expanded 0 (set_count_expandable 0 (set_expanded true n))) Hnd)
          as [Hw S1]; [by repeat split|done|].
        rewrite Hw. eexists. split; [done|]. split; [done|].
        intros q. rewrite visible_at_insert. destruct (decide (q = x)) as [->|]; [|done].
        unfold visible_at. by rewrite Hnd. }
    destruct Hreset as (ha & -> & Sa & Va). cbn [mbind outcome_bind obind].
    destruct (same_shape_lookup _ _ _ _ Sa Hnd) as (nda & Hnda & _ & Dnda).
    rewrite (rd_some _ _ _ Hnda). cbn [mbind outcome_bind obind].
    pose proof (same_shape_trans _ _ _ Sh Sa) as S0a.
    assert (Cx : comp (data nda) = comp_at comp h0 x).
    { rewrite <- (comp_at_shape comp h0 ha x S0a). unfold comp_at. by rewrite Hnda. }
    rewrite Cx.
    destruct (wr_keep ha x nda (set_visible (comp_at comp h0 x)) Hnda) as [Hw Sb];
      [by repeat split|done|].
    rewrite Hw. cbn [mbind outcome_bind obind].
    set (hb := <[x:=set_visible (comp_at comp h0 x) nda]> ha) in *.
    pose proof (same_shape_trans _ _ _ S0a Sb) as S0b.
    assert (Vb : forall q, visible_at hb q =
              if decide (q = x) then comp_at comp h0 x else visible_at hc q).
    { intros q. unfold hb. rewrite visible_at_insert, Va. done. }
    destruct (anc_in_some f [] x Hx) as [l A].
    pose proof (anc_in_length _ _ _ _ A) as Hl. simpl in Hl.
    pose proof (fdepth_le f) as Hdep.
    (* forcing the ancestors *)
    assert (Hanc : exists hd,
      (if comp_at comp h0 x then
         h ← wr hb (head t) bump_expand;
         nd ← rd h x;
         filter_parents (S fuel) h t (parent nd)
       else Ok hb) = Ok hd /\
      same_shape hb hd /\
      forall q, visible_at hd q =
        if comp_at comp h0 x
        then (if decide (q ∈ l) then true
              else if decide (q = x) then true else visible_at hc q)
        else (if decide (q = x) then false else visible_at hc q)).
    { destruct (comp_at comp h0 x) eqn:Cx'.
      - pose proof (tree_rep_shape _ _ _ _ R0 S0b) as Rb.
        destruct (rep_head_fields _ _ _ Rb) as (hdn & Hhdn & _).
        destruct (wr_keep hb (head t) hdn bump_expand Hhdn) as [Hw2 Sc];
          [by repeat split|done|].
        rewrite Hw2. cbn [mbind outcome_bind obind].
        set (hc' := <[head t:=bump_expand hdn]> hb) in *.
        pose proof (tree_rep_shape _ _ _ _ Rb Sc) as Rc'.
        destruct (anc_chain hc' f 0 (head t) (feet t) [] x l
                    (rep_null _ _ _ Rc') (rep_links _ _ _ Rc') eq_refl A)
          as (ndc & Hndc & Chain).
        rewrite (rd_some _ _ _ Hndc). cbn [mbind outcome_bind obind].
        destruct (filter_parents_spec l hc' t (parent ndc) (S fuel) Chain)
          as (hd & Hr & Sd & Vd).
        + destruct (rep_head_fields _ _ _ Rc') as (? & ? & _). eauto.
        + lia.
        + exists hd. split; [exact Hr|]. split; [by eapply same_shape_trans|].
          intros q. rewrite Vd. destruct (decide (q ∈ l)); [done|].
          unfold hc'. rewrite visible_at_insert.
          destruct (decide (q = head t)) as [->|Hqh].
          * change (visible (bump_expand hdn)) with (visible hdn).
            replace (visible hdn) with (visible_at hb (head t))
              by (unfold visible_at; by rewrite Hhdn).
            rewrite Vb. by destruct (decide (head t = x)).
          * rewrite Vb. by destruct (decide (q = x)).
      - exists hb. split; [done|]. split; [apply same_shape_refl|].
        intros q. rewrite Vb. by destruct (decide (q = x)). }
    destruct Hanc as (hd & -> & Sd & Vd). cbn [mbind outcome_bind obind].
    pose proof (same_shape_trans _ _ _ S0b Sd) as S0d.
    pose proof (tree_rep_shape _ _ _ _ R0 S0d) as Rd.
    assert (Hstep : step (S fuel) hd x y).
    { assert (W : chain (step (S fuel) hd) (preorder f ++ [feet t])).
      { apply walk_chain, tree_walk; [done|]. lia. }
      rewrite <- E in W. apply chain_app_r in W. simpl in W. tauto. }
    unfold step in Hstep. rewrite Hstep. cbn [mbind outcome_bind obind].
    destruct (IH (l1 ++ [x]) y hd (calls ++ [x]) fuel) as (h' & calls' & Hr & Hc & S' & I').
    + by rewrite <- app_assoc.
    + done.
    + eapply vis_inv_step; eauto. by apply rep_nodup_exit in R0.
    + simpl in Hf. lia.
    + exists h', calls'. split; [exact Hr|]. split; [|done].
      rewrite Hc. by rewrite <- app_assoc.
Qed.

Lemma existsb_true_iff {A} (p : A -> bool) (l : list A) :
  existsb p l = true <-> exists y, y ∈ l /\ p y = true.
Proof.
  rewrite existsb_exists. split; intros (y & Hy & Py); exists y; split; try done.
  - by apply list_elem_of_In.
  - by apply list_elem_of_In.
Qed.

(** C8: on a well-formed tree [filter(comp)] returns after evaluating
    the predicate once on every node, in pre-order; afterwards a node
    is visible exactly when the predicate holds of its value or of the
    value of one of its descendants, so that every ancestor of a
    visible node is visible; links and values are unchanged. *)
Theorem filter_spec (h : heap) (t : tree) (f : forest) (comp : T -> bool) (fuel : nat) :
  tree_rep h t f -> 2 * length (preorder f) + 4 <= fuel ->
  exists h' n,
    filter fuel h t comp = Ok (h', n, preorder f) /\
    NoDup (preorder f) /\
    same_shape h h' /\ tree_rep h' t f /\
    (forall x, x ∈ preorder f ->
       visible_at h' x = comp_at comp h x || existsb (comp_at comp h) (desc f x)) /\
    (forall x y, x ∈ preorder f -> y ∈ desc f x ->
       visible_at h' y = true -> visible_at h' x = true).
Proof.
  intros R Hf.
  destruct (rep_head_fields _ _ _ R) as (hd & Hhd & _).
  unfold filter.
  destruct (wr_keep h (head t) hd (set_count_expandable 0) Hhd) as [Hw S1];
    [by repeat split|done|].
  rewrite Hw. cbn [mbind outcome_bind obind].
  rewrite (wr_some _ (head t) _ (set_count_expanded 0)) by apply lookup_insert_eq.
  cbn [mbind outcome_bind obind]. rewrite insert_insert_eq.
  set (h1 := <[head t:=set_count_expanded 0 (set_count_expandable 0 hd)]> h).
  assert (S01 : same_shape h h1).
  { unfold h1. eapply same_shape_insert; [exact Hhd|by repeat split|done]. }
  pose proof (tree_rep_shape _ _ _ _ R S01) as R1.
  destruct (rep_head_fields _ _ _ R1) as (hd1 & Hhd1 & _ & _ & Hn1).
  unfold begin_. rewrite (rd_some _ _ _ Hhd1). cbn [mbind outcome_bind obind].
  rewrite Hn1.
  destruct (filter_loop_spec comp h t f R (tail (preorder f ++ [feet t])) []
              (first_ptr f (feet t)) h1 [] fuel) as (h' & calls' & Hr & Hc & S' & I').
  - simpl. by rewrite <- preorder_head.
  - done.
  - intros z Hz. by apply elem_of_nil in Hz.
  - assert (length (tail (preorder f ++ [feet t])) <= length (preorder f)).
    { destruct (preorder f ++ [feet t]) as [|a l] eqn:El; [simpl; lia|].
      apply (f_equal length) in El. rewrite length_app in El. simpl in *. lia. }
    lia.
  - rewrite Hr. cbn [mbind outcome_bind obind].
    pose proof (tree_rep_shape _ _ _ _ R S') as R'.
    destruct (rep_head_fields _ _ _ R') as (hd' & Hhd' & _).
    rewrite (rd_some _ _ _ Hhd'). cbn [mbind outcome_bind obind].
    simpl in Hc. rewrite <- preorder_head in Hc. apply app_inj_tail in Hc as [-> _].
    assert (NDf : NoDup (preorder f)).
    { pose proof (rep_nodup_exit _ _ _ R) as ND. by apply NoDup_app in ND as (? & _). }
    assert (Hvis : forall x, x ∈ preorder f ->
              visible_at h' x = comp_at comp h x || existsb (comp_at comp h) (desc f x)).
    { intros x Hx. apply eq_true_iff_eq. rewrite (I' x Hx).
      rewrite orb_true_iff, existsb_true_iff. split.
      - intros [?|(y & _ & Hy & Cy)]; [by left|]. right. by exists y.
      - intros [?|(y & Hy & Cy)]; [by left|]. right. exists y.
        split; [by destruct (desc_elem _ _ _ Hy)|done]. }
    exists h', (count_expanded hd'). split; [done|]. split; [done|].
    split; [done|]. split; [done|]. split; [done|].
    intros x y Hx Hy Vy.
    destruct (desc_elem _ _ _ Hy) as [_ Hyf].
    rewrite (Hvis y Hyf) in Vy. rewrite (Hvis x Hx).
    apply orb_true_iff. right. apply existsb_true_iff.
    apply orb_true_iff in Vy as [Cy|Vy].
    + by exists y.
    + apply existsb_true_iff in Vy as (z & Hz & Cz). exists z.
      split; [by eapply desc_trans|done].
Qed.

Lemma first_ptr_bounds g d : first_ptr g d = bfirst (bounds g) d.
Proof. by destruct g. Qed.

Lemma last_ptr_bounds g d : last_ptr g d = blast (bounds g) d.
Proof. by destruct g. Qed.

Lemma first_ptr_hplug C g d : first_ptr (hplug C g) d = hfirst C (bounds g) d.
Proof. destruct C; simpl; [apply first_ptr_bounds|done..]. Qed.

Lemma last_ptr_hplug C g : forall d, last_ptr (hplug C g) d = hlast C (bounds g) d.
Proof.
  induction C as [|p C IH r|p cs C IH]; intros d; simpl.
  - apply last_ptr_bounds.
  - done.
  - apply IH.
Qed.

Lemma links_hplug (h : heap) C g : forall par prev next,
  links h par prev (hplug C g) next <->
  clinks h par prev C next (bounds g) /\
  links h (hpar C par) (hprev C prev) g (hnext C next).
Proof.
  induction C as [|p C IH r|p cs C IH]; intros par prev next; simpl.
  - tauto.
  - destruct (h !! p) as [nd|]; [|tauto].
    rewrite first_ptr_hplug, last_ptr_hplug, IH. tauto.
  - destruct (h !! p) as [nd|]; [|tauto].
    rewrite first_ptr_hplug, IH. tauto.
Qed.

Lemma preorder_hplug C g : preorder (hplug C g) ≡ₚ cptrs C ++ preorder g.
Proof.
  induction C as [|p C IH r|p cs C IH]; simpl; [done| |].
  - rewrite IH. f_equiv. rewrite <- !(assoc_L (++)). f_equiv. apply Permutation_app_comm.
  - rewrite IH. f_equiv. by rewrite <- !(assoc_L (++)).
Qed.

Lemma hpar_cases C : forall u,
  (on_top C = true /\ hpar C u = u) \/ (on_top C = false /\ hpar C u ∈ cptrs C).
Proof.
  induction C as [|p C IH r|p cs C IH]; intros u; simpl.
  - by left.
  - right. split; [done|]. destruct (IH p) as [[_ ->]|[_ E]].
    + apply elem_of_cons. by left.
    + apply elem_of_cons. right. apply elem_of_app. by left.
  - destruct (IH u) as [[E1 E2]|[E1 E2]]; [by left|right].
    split; [done|]. apply elem_of_cons. right. apply elem_of_app. by right.
Qed.

Lemma hprev_cases C : forall v,
  (C = HHole /\ hprev C v = v) \/ hprev C v ∈ cptrs C \/
  (on_top C = false /\ hprev C v = 0).
Proof.
  induction C as [|p C IH r|p cs C IH]; intros v; simpl.
  - by left.
  - right. destruct (IH 0) as [[-> E]|[E|[E1 E2]]].
    + right. done.
    + left. apply elem_of_cons. right. apply elem_of_app. by left.
    + right. done.
  - right. destruct (IH p) as [[-> E]|[E|[E1 E2]]].
    + left. simpl. apply elem_of_cons. by left.
    + left. apply elem_of_cons. right. apply elem_of_app. by right.
    + right. done.
Qed.

Lemma hlast_top C b : forall d, on_top C = true -> hlast C b d = blast b (hprev C d).
Proof.
  induction C as [|p C IH r|p cs C IH]; intros d E; simpl in *; [done|done|].
  by apply IH.
Qed.

Lemma hlast_deep C b b' : forall d, on_top C = false -> hlast C b d = hlast C b' d.
Proof.
  induction C as [|p C IH r|p cs C IH]; intros d E; simpl in *; [done|done|].
  by apply IH.
Qed.

Lemma hfirst_filled C b b' d : C <> HHole -> hfirst C b d = hfirst C b' d.
Proof. by destruct C. Qed.
Lemma ctx_upd_plain (h h' : heap) hp hv hn b p :
  ctx_upd h h' hp hv hn b p -> p <> hp -> p <> hv -> keeps_links h h' p.
Proof.
  unfold ctx_upd, keeps_links. intros U N1 N2.
  destruct (h !! p) as [a|]; [|done]. destruct (h' !! p) as [c|]; [|done].
  destruct U as (E1 & E2 & E3 & E4 & E5).
  rewrite !decide_False in * by done.
  unfold same_links. rewrite E1, E2, E3, E4, E5. done.
Qed.

Lemma clinks_rebound (h h' : heap) C b b' : forall par prev next,
  clinks h par prev C next b ->
  NoDup (cptrs C) -> 0 ∉ cptrs C -> par ∉ cptrs C -> prev ∉ cptrs C ->
  (forall p, p ∈ cptrs C ->
     ctx_upd h h' (hpar C par) (hprev C prev) (hnext C next) b' p) ->
  clinks h' par prev C next b'.
Proof.
  induction C as [|p C IH r|p cs C IH]; intros par prev next L ND N0 Npar Nprev U;
    simpl in *; [done| |].
  - destruct (h !! p) as [a|] eqn:Ea; [|done].
    destruct L as (L1 & L2 & L3 & L4 & L5 & LC & Lr).
    apply NoDup_cons in ND as [Np ND]. apply NoDup_app in ND as (NDC & Dis & NDr).
    pose proof (U p ltac:(apply elem_of_cons; by left)) as Up.
    unfold ctx_upd in Up. rewrite Ea in Up.
    destruct (h' !! p) as [c|] eqn:Ec; [|done].
    destruct Up as (E1 & E2 & E3 & E4 & E5).
    assert (p <> 0) as Hp0 by (intros ->; apply N0, elem_of_cons; by left).
    assert (p ∉ cptrs C) as NpC by (intros X; apply Np, elem_of_app; by left).
    assert (0 ∉ cptrs C) as N0C
      by (intros X; apply N0, elem_of_cons; right; apply elem_of_app; by left).
    assert (p <> hprev C 0) as Hpv.
    { destruct (hprev_cases C 0) as [[_ E]|[E|[_ E]]]; congruence. }
    rewrite decide_False in E3 by done.
    repeat split.
    + congruence.
    + congruence.
    + congruence.
    + rewrite E4. destruct (hpar_cases C p) as [[T1 T2]|[T1 T2]].
      * rewrite T2, decide_True by done.
        destruct (hprev_cases C 0) as [[-> E]|[E|[E' _]]]; [|  |congruence].
        -- cbn [hprev hfirst]. rewrite decide_True by done. done.
        -- rewrite decide_False by (intros X; rewrite X in E; done).
           rewrite L4. apply hfirst_filled. intros ->. simpl in E. by apply not_elem_of_nil in E.
      * rewrite decide_False by (intros X; rewrite <- X in T2; done).
        rewrite L4. apply hfirst_filled. by intros ->.
    + rewrite E5. destruct (hpar_cases C p) as [[T1 T2]|[T1 T2]].
      * rewrite T2, decide_True by done. symmetry. by apply hlast_top.
      * rewrite decide_False by (intros X; rewrite <- X in T2; done).
        rewrite L5. by apply hlast_deep.
    + apply (IH p 0 0 LC NDC N0C NpC N0C).
      intros q Hq. apply U. apply elem_of_cons. right. apply elem_of_app. by left.
    + apply (links_keep h h' r par p next Lr). intros q Hq.
      eapply ctx_upd_plain.
      * apply U. apply elem_of_cons. right. apply elem_of_app. by right.
      * destruct (hpar_cases C p) as [[T1 T2]|[T1 T2]].
        -- rewrite T2. intros ->. apply Np, elem_of_app. by right.
        -- intros ->. by apply (Dis _ T2).
      * destruct (hprev_cases C 0) as [[_ E]|[E|[_ E]]].
        -- rewrite E. intros ->. apply N0, elem_of_cons. right. apply elem_of_app. by right.
        -- intros ->. by apply (Dis _ E).
        -- rewrite E. intros ->. apply N0, elem_of_cons. right. apply elem_of_app. by right.
  - destruct (h !! p) as [a|] eqn:Ea; [|done].
    destruct L as (L1 & L2 & L3 & L4 & L5 & Lcs & LC).
    apply NoDup_cons in ND as [Np ND]. apply NoDup_app in ND as (NDcs & Dis & NDC).
    pose proof (U p ltac:(apply elem_of_cons; by left)) as Up.
    unfold ctx_upd in Up. rewrite Ea in Up.
    destruct (h' !! p) as [c|] eqn:Ec; [|done].
    destruct Up as (E1 & E2 & E3 & E4 & E5).
    assert (p <> 0) as Hp0 by (intros ->; apply N0, elem_of_cons; by left).
    assert (p ∉ cptrs C) as NpC by (intros X; apply Np, elem_of_app; by right).
    assert (0 ∉ cptrs C) as N0C
      by (intros X; apply N0, elem_of_cons; right; apply elem_of_app; by right).
    assert (par ∉ cptrs C) as NparC
      by (intros X; apply Npar, elem_of_cons; right; apply elem_of_app; by right).
    assert (p <> hpar C par) as Hpp.
    { destruct (hpar_cases C par) as [[T1 T2]|[T1 T2]].
      - rewrite T2. intros ->. apply Npar, elem_of_cons. by left.
      - intros X. rewrite <- X in T2. done. }
    rewrite decide_False in E4, E5 by done.
    repeat split.
    + congruence.
    + congruence.
    + rewrite E3. destruct (hprev_cases C p) as [[-> E]|[E|[E' E]]].
      * cbn [hprev hfirst]. by rewrite decide_True.
      * rewrite decide_False by (intros X; rewrite <- X in E; done).
        rewrite L3. apply hfirst_filled. intros ->. by apply not_elem_of_nil in E.
      * rewrite decide_False by congruence.
        rewrite L3. apply hfirst_filled. by intros ->.
    + congruence.
    + congruence.
    + apply (links_keep h h' cs p 0 0 Lcs). intros q Hq.
      eapply ctx_upd_plain.
      * apply U. apply elem_of_cons. right. apply elem_of_app. by left.
      * destruct (hpar_cases C par) as [[T1 T2]|[T1 T2]].
        -- rewrite T2. intros ->. apply Npar, elem_of_cons. right. apply elem_of_app. by left.
        -- intros ->. by apply (Dis _ Hq).
      * destruct (hprev_cases C p) as [[_ E]|[E|[_ E]]].
        -- rewrite E. intros ->. apply Np, elem_of_app. by left.
        -- intros ->. by apply (Dis _ Hq).
        -- rewrite E. intros ->. apply N0, elem_of_cons. right. apply elem_of_app. by left.
    + apply (IH par p next LC NDC N0C NparC NpC).
      intros q Hq. apply U. apply elem_of_cons. right. apply elem_of_app. by right.
Qed.

Section Multiset.
Context {A : Type} (comp : T -> T -> bool) (key : A -> T).
Hypothesis SW : strict_weak comp.

Lemma sw_asym x y : comp x y = true -> comp y x = false.
Proof.
  intros L. destruct (comp y x) eqn:E; [|done].
  pose proof (sw_trans _ SW _ _ _ L E) as X. by rewrite (sw_irrefl _ SW) in X.
Qed.

Lemma sw_lt_le x e z : comp x e = true -> comp z e = false -> comp x z = true.
Proof.
  intros L1 L2. destruct (comp x z) eqn:E1; [done|].
  destruct (comp z x) eqn:E2.
  - by rewrite (sw_trans _ SW _ _ _ E2 L1) in L2.
  - destruct (comp e z) eqn:E3.
    + by rewrite (sw_trans _ SW _ _ _ L1 E3) in E1.
    + destruct (sw_equiv _ SW _ _ _ E1 E2 L2 E3) as [X _]. congruence.
Qed.

Lemma ms_insert_perm (x : A) l : ms_insert (key_lt comp key) x l ≡ₚ x :: l.
Proof.
  induction l as [|e l IH]; simpl; [done|].
  destruct (key_lt comp key x e); [done|]. rewrite IH. apply Permutation_swap.
Qed.

Lemma ms_insert_sorted (x : A) l :
  StronglySorted (key_le comp key) l ->
  StronglySorted (key_le comp key) (ms_insert (key_lt comp key) x l).
Proof.
  induction l as [|e l IH]; intros S; simpl.
  - repeat constructor.
  - apply StronglySorted_inv in S as [S F].
    destruct (key_lt comp key x e) eqn:E.
    + constructor; [by constructor|]. constructor.
      * unfold key_le. by apply sw_asym.
      * apply Forall_forall. intros z Hz. rewrite Forall_forall in F.
        pose proof (F z Hz) as Fz. unfold key_le in *.
        destruct (comp (key z) (key x)) eqn:E'; [|done].
        unfold key_lt in E. by rewrite (sw_trans _ SW _ _ _ E' E) in Fz.
    + constructor; [by apply IH|].
      apply Forall_forall. intros z Hz.
      apply (elem_of_Permutation_proper _ _ _ (ms_insert_perm x l)) in Hz.
      apply elem_of_cons in Hz as [->|Hz]; [done|].
      rewrite Forall_forall in F. by apply F.
Qed.

Lemma ms_insert_filter v (x : A) l :
  StronglySorted (key_le comp key) l ->
  List.filter (key_class comp key v) (ms_insert (key_lt comp key) x l) =
  List.filter (key_class comp key v) l ++ List.filter (key_class comp key v) [x].
Proof.
  induction l as [|e l IH]; intros S.
  - done.
  - apply StronglySorted_inv in S as [S F]. cbn [ms_insert].
    destruct (key_lt comp key x e) eqn:E.
    + destruct (key_class comp key v x) eqn:Ex.
      2:{ cbn [List.filter]. rewrite Ex. by rewrite app_nil_r. }
      assert (forall z, z ∈ e :: l -> key_class comp key v z = false) as Out.
      { intros z Hz. assert (key_lt comp key x z = true) as Lz.
        { apply elem_of_cons in Hz as [->|Hz]; [done|].
          rewrite Forall_forall in F. apply (sw_lt_le _ (key e)); [done|]. by apply F. }
        unfold key_class, equivalent in *. unfold key_lt in Lz.
        apply andb_prop in Ex as [X1 X2].
        apply negb_true_iff in X1, X2.
        destruct (comp v (key z)) eqn:Z1; [done|].
        destruct (comp (key z) v) eqn:Z2; [done|]. exfalso.
        destruct (sw_equiv _ SW _ _ _ X2 X1 Z1 Z2) as [Y _]. congruence. }
      assert (List.filter (key_class comp key v) (e :: l) = []) as Hn.
      { clear -Out. induction (e :: l) as [|z l' IH']; [done|]. simpl.
        rewrite (Out z) by (apply elem_of_cons; by left).
        apply IH'. intros y Hy. apply Out. apply elem_of_cons. by right. }
      cbn [List.filter] in Hn |- *. rewrite Ex, Hn. done.
    + cbn [List.filter]. rewrite (IH S). by destruct (key_class comp key v e).
Qed.

Lemma ms_fold_spec l : forall acc,
  StronglySorted (key_le comp key) acc ->
  StronglySorted (key_le comp key)
    (fold_left (fun acc x => ms_insert (key_lt comp key) x acc) l acc) /\
  fold_left (fun acc x => ms_insert (key_lt comp key) x acc) l acc ≡ₚ acc ++ l /\
  forall v,
    List.filter (key_class comp key v)
      (fold_left (fun acc x => ms_insert (key_lt comp key) x acc) l acc) =
            List.filter (key_class comp key v) acc ++ List.filter (key_class comp key v) l.
Proof.
  induction l as [|x l IH]; intros acc S; simpl.
  - split; [done|]. split; [by rewrite app_nil_r|]. intros v. by rewrite app_nil_r.
  - destruct (IH (ms_insert (key_lt comp key) x acc) (ms_insert_sorted x acc S)) as (S1 & P1 & F1).
    split; [done|]. split.
    + rewrite P1, ms_insert_perm. by rewrite <- Permutation_middle.
    + intros v. rewrite F1, ms_insert_filter by done.
      rewrite <- (assoc_L (++)). cbn [List.filter]. by destruct (key_class comp key v x).
Qed.

End Multiset.

Lemma ms_insert_map {A B : Type} (f : A -> B) (lt : B -> B -> bool) x l :
  map f (ms_insert (fun a b => lt (f a) (f b)) x l) = ms_insert lt (f x) (map f l).
Proof.
  induction l as [|e l IH]; simpl; [done|].
  destruct (lt (f x) (f e)); simpl; [done|]. by rewrite IH.
Qed.

Lemma ms_fold_map {A B : Type} (f : A -> B) (lt : B -> B -> bool) l : forall acc,
  map f (fold_left (fun acc x => ms_insert (fun a b => lt (f a) (f b)) x acc) l acc) =
  fold_left (fun acc x => ms_insert lt x acc) (map f l) (map f acc).
Proof.
  induction l as [|x l IH]; intros acc; simpl; [done|].
  rewrite IH. by rewrite ms_insert_map.
Qed.

Lemma of_trees_fapp ts rest : of_trees ts rest = fapp (of_trees ts FNil) rest.
Proof. induction ts as [|[p cs] ts IH]; simpl; [done|]. by rewrite IH. Qed.

Lemma fsnoc_fapp f p : fsnoc f p = fapp f (FCons p FNil FNil).
Proof. induction f as [|q cs _ r IH]; simpl; [done|]. by rewrite IH. Qed.

Lemma first_ptr_fapp f g d : first_ptr (fapp f g) d = first_ptr f (first_ptr g d).
Proof. by destruct f. Qed.

Lemma last_ptr_fapp f g : forall d, last_ptr (fapp f g) d = last_ptr g (last_ptr f d).
Proof. induction f as [|q cs _ r IH]; intros d; simpl; [done|]. apply IH. Qed.

Lemma preorder_fapp f g : preorder (fapp f g) = preorder f ++ preorder g.
Proof.
  induction f as [|q cs _ r IH]; simpl; [done|].
  rewrite IH. by rewrite <- !(assoc_L (++)).
Qed.

Lemma links_fapp (h : heap) f g : forall par prev next,
  links h par prev (fapp f g) next <->
  links h par prev f (first_ptr g next) /\ links h par (last_ptr f prev) g next.
Proof.
  induction f as [|q cs _ r IH]; intros par prev next; simpl.
  - tauto.
  - destruct (h !! q) as [nd|]; [|tauto].
    rewrite first_ptr_fapp, IH. tauto.
Qed.

Lemma rep_raw (h : heap) t f : tree_rep h t f <-> raw h (with_sentinels t f).
Proof.
  unfold raw, with_sentinels. rewrite fsnoc_fapp.
  assert (NoDup (head t :: feet t :: preorder f) <->
          NoDup (preorder (FCons (head t) FNil (fapp f (FCons (feet t) FNil FNil))))) as ND.
  { simpl. rewrite preorder_fapp. simpl.
    assert (feet t :: preorder f ≡ₚ preorder f ++ [feet t]) as P
      by (rewrite Permutation_app_comm; done).
    split; intros X.
    - apply NoDup_cons in X as [X1 X2]. apply NoDup_cons. rewrite <- P. done.
    - apply NoDup_cons in X as [X1 X2]. apply NoDup_cons. rewrite P. done. }
  split.
  - intros [R0 Rh Rf RL RN]. split; [done|]. split; [|by apply ND].
    unfold sentinel_ok in *. cbn [links].
    destruct (h !! head t) as [hn|]; [|done].
    rewrite first_ptr_fapp. cbn [first_ptr last_ptr links].
    destruct Rh as (E1 & E2 & E3 & E4 & E5).
    repeat split; try done.
    apply links_fapp. cbn [first_ptr last_ptr links]. split; [done|].
    destruct (h !! feet t) as [fn|]; [|done].
    destruct Rf as (F1 & F2 & F3 & F4 & F5). done.
  - intros (R0 & L & N). cbn [links] in L.
    destruct (h !! head t) as [hn|] eqn:Eh; [|done].
    rewrite first_ptr_fapp in L. cbn [first_ptr last_ptr links] in L.
    destruct L as (E1 & E2 & E3 & E4 & E5 & _ & L).
    apply links_fapp in L as [L1 L2]. cbn [first_ptr last_ptr links] in L1, L2.
    destruct (h !! feet t) as [fn|] eqn:Ef; [|done].
    destruct L2 as (F1 & F2 & F3 & F4 & F5 & _).
    split; [done| | |done|by apply ND].
    + unfold sentinel_ok. rewrite Eh. done.
    + unfold sentinel_ok. rewrite Ef. done.
Qed.

Lemma fsnoc_hplug_top t C g :
  fsnoc (hplug C g) (feet t) = hplug (cext_top t C) (gext t C g).
Proof.
  unfold gext. induction C as [|p C IH r|p cs C IH]; simpl; [done|done|].
  by rewrite IH.
Qed.

Lemma with_sentinels_hplug t C g :
  with_sentinels t (hplug C g) = hplug (cext t C) (gext t C g).
Proof. unfold with_sentinels, cext. simpl. by rewrite fsnoc_hplug_top. Qed.

Lemma hpar_cext_top t C : forall u, hpar (cext_top t C) u = hpar C u.
Proof. induction C as [|p C IH r|p cs C IH]; intros u; simpl; [done|done|]. apply IH. Qed.

Lemma hprev_cext_top t C : forall u, hprev (cext_top t C) u = hprev C u.
Proof. induction C as [|p C IH r|p cs C IH]; intros u; simpl; [done|done|]. apply IH. Qed.

Lemma hnext_raw C : hnext C 0 = 0.
Proof.
  assert (forall u, hnext C u = u \/ hnext C u = 0) as X.
  { induction C as [|p C IH r|p cs C IH]; intros u; simpl; [by left| |apply IH].
    right. by destruct (IH 0). }
  by destruct (X 0).
Qed.

Lemma first_ptr_of_trees ts d :
  ts <> [] -> first_ptr (of_trees ts FNil) d = first_ptr (of_trees ts FNil) 0.
Proof. by destruct ts as [|[p cs] ts]. Qed.

Lemma sort_collect_spec (h : heap) lt ts : forall par prev next fuel acc,
  h !! 0 = None ->
  links h par prev (of_trees ts FNil) next ->
  next ∉ map fst ts ->
  length ts + 1 <= fuel ->
  sort_collect fuel h lt (first_ptr (of_trees ts FNil) next) next acc =
  Ok (fold_left (fun acc x => ms_insert lt x acc) (map fst ts) acc).
Proof.
  induction ts as [|[p cs] ts IH]; intros par prev next fuel acc H0 L Nn Hf;
    (destruct fuel as [|fuel]; [simpl in Hf; lia|]).
  - simpl. by rewrite Nat.eqb_refl.
  - apply links_cons in L as (nd & Hp & _ & _ & Hnx & _ & _ & _ & Lr).
    cbn [of_trees first_ptr sort_collect map fst fold_left].
    assert (p <> next) as Hpn by (intros ->; apply Nn; simpl; apply elem_of_cons; by left).
    assert (p <> 0) as Hp0 by (intros ->; congruence).
    rewrite (proj2 (Nat.eqb_neq p next)) by done.
    unfold sibling_incr. cbn [snode parent_].
    rewrite (proj2 (Nat.eqb_neq p 0)) by done.
    rewrite (rd_some _ _ _ Hp). cbn [mbind outcome_bind obind snode].
    rewrite Hnx. apply (IH par p next fuel _ H0 Lr).
    + intros X. apply Nn. simpl. apply elem_of_cons. by right.
    + simpl in Hf. lia.
Qed.

Lemma links_trees (h : heap) ts : forall par prev next,
  links h par prev (of_trees ts FNil) next -> Forall (tree_ok h par) ts.
Proof.
  induction ts as [|[p cs] ts IH]; intros par prev next L; [constructor|].
  apply links_cons in L as (nd & Hp & E1 & _ & _ & E2 & E3 & Lc & Lr).
  constructor; [|by eapply IH].
  unfold tree_ok. simpl. rewrite Hp. done.
Qed.

Lemma tree_ok_keep (h h' : heap) par x :
  tree_ok h par x ->
  (forall q, q ∈ x.1 :: preorder x.2 -> h' !! q = h !! q) ->
  tree_ok h' par x.
Proof.
  unfold tree_ok. intros O K.
  rewrite (K x.1) by (apply elem_of_cons; by left).
  destruct (h !! x.1) as [nd|]; [|done].
  destruct O as (E1 & E2 & E3 & L). repeat split; try done.
  apply (links_keep h h' _ _ _ _ L). intros q Hq.
  apply keeps_links_same.
  - eapply links_lookup; eauto.
  - apply K. apply elem_of_cons. by right.
Qed.

Lemma preorder_of_trees ts rest :
  preorder (of_trees ts rest) = mjoin ((fun x => x.1 :: preorder x.2) <$> ts) ++ preorder rest.
Proof.
  induction ts as [|[p cs] ts IH]; simpl; [done|].
  rewrite IH. by rewrite <- !(assoc_L (++)).
Qed.

Lemma preorder_of_trees_perm ts ts' rest :
  ts ≡ₚ ts' -> preorder (of_trees ts rest) ≡ₚ preorder (of_trees ts' rest).
Proof. intros P. rewrite !preorder_of_trees. by rewrite P. Qed.

Lemma root_in_preorder ts rest p : p ∈ map fst ts -> p ∈ preorder (of_trees ts rest).
Proof.
  intros Hp. rewrite preorder_of_trees. apply elem_of_app. left.
  apply list_elem_of_fmap in Hp as ([q cs] & -> & Hx).
  apply list_elem_of_join. exists (q :: preorder cs). split.
  - simpl. apply elem_of_cons. by left.
  - apply list_elem_of_fmap. by exists (q, cs).
Qed.

Lemma tree_in_preorder ts rest x q :
  x ∈ ts -> q ∈ x.1 :: preorder x.2 -> q ∈ preorder (of_trees ts rest).
Proof.
  intros Hx Hq. rewrite preorder_of_trees. apply elem_of_app. left.
  apply list_elem_of_join. exists (x.1 :: preorder x.2). split; [done|].
  apply list_elem_of_fmap. by exists x.
Qed.

Lemma same_values_refl (h : heap) : same_values h h.
Proof. by intros p. Qed.

Lemma same_values_trans (h1 h2 h3 : heap) :
  same_values h1 h2 -> same_values h2 h3 -> same_values h1 h3.
Proof. intros A B p. by rewrite B, A. Qed.

Lemma same_values_insert (h : heap) p nd nd' :
  h !! p = Some nd -> data nd' = data nd -> same_values h (<[p := nd']> h).
Proof.
  intros E D q. destruct (decide (q = p)) as [->|N].
  - rewrite lookup_insert_eq, E. simpl. by rewrite D.
  - by rewrite lookup_insert_ne.
Qed.

Lemma sort_chain_spec ts : forall (h : heap) par prev next,
  ts <> [] ->
  Forall (tree_ok h par) ts ->
  NoDup (preorder (of_trees ts FNil)) ->
  0 ∉ preorder (of_trees ts FNil) ->
  (prev = 0 \/ is_Some (h !! prev)) ->
  prev ∉ preorder (of_trees ts FNil) ->
  exists h',
    sort_chain h prev (map fst ts) next = Ok h' /\
    links h' par prev (of_trees ts FNil) next /\
    (forall q, q ∉ map fst ts -> q <> prev -> h' !! q = h !! q) /\
    (prev <> 0 ->
     h' !! prev = set_next_sibling (first_ptr (of_trees ts FNil) 0) <$> h !! prev) /\
    same_values h h'.
Proof.
  induction ts as [|[n cs] ts IH]; intros h par prev next NE F ND N0 Hprev Nprev; [done|].
  apply Forall_cons in F as [Fn F].
  unfold tree_ok in Fn. cbn [fst snd] in Fn.
  destruct (h !! n) as [nd|] eqn:En; [|done].
  destruct Fn as (E1 & E2 & E3 & Lcs).
  cbn [of_trees preorder] in ND, Nprev, N0.
  assert (n <> 0) as Hn0 by (intros ->; apply N0, elem_of_cons; by left).
  apply NoDup_cons in ND as [Nn ND]. apply NoDup_app in ND as (NDcs & Dis & NDts).
  assert (n <> prev) as Hnp by (intros ->; apply Nprev, elem_of_cons; by left).
  assert (forall q, q ∈ preorder cs -> q <> n) as Hcsn
    by (intros q Hq ->; apply Nn, elem_of_app; by left).
  assert (forall q, q ∈ preorder cs -> q <> prev) as Hcsp
    by (intros q Hq ->; apply Nprev, elem_of_cons; right; apply elem_of_app; by left).
  destruct ts as [|[n2 cs2] ts].
  - (* the last node of the range *)
    clear IH. unfold sort_chain. cbn [map fst sort_relink mbind outcome_bind obind].
    set (h1 := if prev =? 0 then h else <[prev := set_next_sibling n (default nd (h !! prev))]> h).
    assert ((if prev =? 0 then Ok h else wr h prev (set_next_sibling n)) = Ok h1) as ->.
    { unfold h1. destruct (Nat.eqb_spec prev 0) as [->|Hp0]; [done|].
      destruct Hprev as [?|[pn Epn]]; [done|]. rewrite (wr_some _ _ _ _ Epn).
      by rewrite Epn. }
    assert (h1 !! n = Some nd) as En1.
    { unfold h1. destruct (prev =? 0); [done|]. by rewrite lookup_insert_ne. }
    cbn [mbind outcome_bind obind]. rewrite (wr_some _ _ _ _ En1). cbn [mbind outcome_bind obind].
    rewrite (wr_some _ _ (set_next_sibling next nd) _) by apply lookup_insert_eq.
    rewrite insert_insert_eq.
    eexists. split; [done|].
    assert (forall q, q <> n -> q <> prev ->
      (<[n := set_prev_sibling prev (set_next_sibling next nd)]> h1 : heap) !! q = h !! q) as Out.
    { intros q Q1 Q2. rewrite lookup_insert_ne by done. unfold h1.
      destruct (prev =? 0); [done|]. by rewrite lookup_insert_ne. }
    split; [|split; [|split]].
    + cbn [of_trees links]. rewrite lookup_insert_eq. cbn.
      repeat split; try done.
      apply (links_keep h _ cs n 0 0 Lcs). intros q Hq. apply keeps_links_same.
      * eapply links_lookup; eauto.
      * apply Out; auto.
    + intros q Hq Hqp. apply Out; [|done].
      intros ->. apply Hq. simpl. apply elem_of_cons. by left.
    + intros Hp0. rewrite lookup_insert_ne by done. unfold h1.
      rewrite (proj2 (Nat.eqb_neq prev 0)) by done. rewrite lookup_insert_eq.
      destruct Hprev as [?|[pn Epn]]; [done|]. rewrite Epn. done.
    + apply (same_values_trans _ h1).
      * unfold h1. destruct (Nat.eqb_spec prev 0) as [->|Hp0]; [apply same_values_refl|].
        destruct Hprev as [?|[pn Epn]]; [done|]. rewrite Epn.
        by apply (same_values_insert _ _ pn).
      * by apply (same_values_insert _ _ nd).
  - (* a node that is followed by another one *)
    unfold sort_chain. cbn [map fst sort_relink mbind outcome_bind obind].
    rewrite (wr_some _ _ _ _ En). cbn [mbind outcome_bind obind].
    set (h0 := <[n := set_prev_sibling prev nd]> h).
    set (h1 := if prev =? 0 then h0
               else <[prev := set_next_sibling n (default nd (h !! prev))]> h0).
    assert ((if prev =? 0 then Ok h0 else wr h0 prev (set_next_sibling n)) = Ok h1) as ->.
    { unfold h1. destruct (Nat.eqb_spec prev 0) as [->|Hp0]; [done|].
      destruct Hprev as [?|[pn Epn]]; [done|].
      assert (h0 !! prev = Some pn) as Epn0 by (unfold h0; by rewrite lookup_insert_ne).
      rewrite (wr_some _ _ _ _ Epn0). by rewrite Epn. }
    cbn [mbind outcome_bind obind].
    assert (forall q, q <> n -> q <> prev -> h1 !! q = h !! q) as Out1.
    { intros q Q1 Q2. unfold h1, h0. destruct (prev =? 0).
      - by rewrite lookup_insert_ne.
      - by rewrite !lookup_insert_ne. }
    assert (h1 !! n = Some (set_prev_sibling prev nd)) as En1.
    { unfold h1, h0. destruct (prev =? 0).
      - by rewrite lookup_insert_eq.
      - rewrite lookup_insert_ne by done. by rewrite lookup_insert_eq. }
    assert (same_values h h1) as SV1.
    { apply (same_values_trans _ h0).
      - by apply (same_values_insert _ _ nd).
      - unfold h1. destruct (Nat.eqb_spec prev 0) as [->|Hp0]; [apply same_values_refl|].
        destruct Hprev as [?|[pn Epn]]; [done|]. rewrite Epn.
        apply (same_values_insert _ _ pn); [|done].
        unfold h0. by rewrite lookup_insert_ne. }
    destruct (IH h1 par n next) as (h' & Run & L' & Out' & Hn' & SV'); [done| |done| |by right| |].
    { apply Forall_forall. intros x Hx. rewrite Forall_forall in F.
      apply (tree_ok_keep h h1); [by apply F|].
      intros q Hq. apply Out1.
      - intros ->. apply Nn. apply elem_of_app. right.
        by apply (tree_in_preorder _ FNil x).
      - intros ->. apply Nprev. apply elem_of_cons. right. apply elem_of_app. right.
        by apply (tree_in_preorder _ FNil x). }
    { intros X. apply N0. apply elem_of_cons. right. apply elem_of_app. by right. }
    { intros X. apply Nn. apply elem_of_app. by right. }
    unfold sort_chain in Run. cbn [map fst mbind outcome_bind] in Run.
    exists h'. split; [exact Run|].
    specialize (Hn' Hn0). rewrite En1 in Hn'. cbn in Hn'.
    assert (n ∉ map fst ((n2, cs2) :: ts)) as Nroot.
    { intros X. apply Nn. apply elem_of_app. right. by apply root_in_preorder. }
    assert (prev ∉ map fst ((n2, cs2) :: ts)) as Proot.
    { intros X. apply Nprev. apply elem_of_cons. right. apply elem_of_app. right.
      by apply root_in_preorder. }
    split; [|split; [|split]].
    + cbn [of_trees links] in L' |- *. rewrite Hn'. cbn.
      repeat split; try done.
      apply (links_keep h _ cs n 0 0 Lcs). intros q Hq. apply keeps_links_same.
      * eapply links_lookup; eauto.
      * rewrite Out'; [apply Out1; auto| |by apply Hcsn].
        intros X. apply (Dis q Hq). by apply root_in_preorder.
    + intros q Hq Hqp.
      assert (q <> n) as Hqn by (intros ->; apply Hq; simpl; apply elem_of_cons; by left).
      rewrite Out'; [by apply Out1| |done].
      intros X. apply Hq. cbn [map fst]. apply elem_of_cons. by right.
    + intros Hp0. rewrite Out' by (done || by apply not_eq_sym).
      unfold h1, h0. rewrite (proj2 (Nat.eqb_neq prev 0)) by done.
      rewrite lookup_insert_eq.
      destruct Hprev as [?|[pn Epn]]; [done|]. rewrite Epn. done.
    + by apply (same_values_trans _ h1).
Qed.

Lemma clinks_parent (h : heap) C b : forall par prev next,
  clinks h par prev C next b -> 0 ∉ cptrs C -> on_top C = false ->
  exists nd, h !! hpar C par = Some nd /\
    last_child nd = blast b (hprev C prev) /\
    (hprev C prev = 0 -> first_child nd = bfirst b 0).
Proof.
  induction C as [|p C IH r|p cs C IH]; intros par prev next L N0 Top; simpl in *; [done| |].
  - destruct (h !! p) as [a|] eqn:Ea; [|done].
    destruct L as (L1 & L2 & L3 & L4 & L5 & LC & Lr).
    assert (0 ∉ cptrs C) as N0C
      by (intros X; apply N0, elem_of_cons; right; apply elem_of_app; by left).
    destruct (hpar_cases C p) as [[T1 T2]|[T1 T2]].
    + rewrite T2. exists a. split; [done|]. split.
      * rewrite L5. by apply hlast_top.
      * intros E. rewrite L4.
        destruct (hprev_cases C 0) as [[-> _]|[X|[X _]]]; [done| |congruence].
        rewrite E in X. done.
    + by apply (IH p 0 0).
  - destruct (h !! p) as [a|] eqn:Ea; [|done].
    destruct L as (L1 & L2 & L3 & L4 & L5 & Lcs & LC).
    apply (IH par p next); [done| |done].
    intros X; apply N0, elem_of_cons; right; apply elem_of_app; by right.
Qed.

Lemma clinks_prev (h : heap) C b : forall par prev next,
  clinks h par prev C next b -> 0 ∉ cptrs C -> C <> HHole -> hprev C prev <> 0 ->
  exists nd, h !! hprev C prev = Some nd /\
    next_sibling nd = bfirst b (hnext C next) /\ hprev C prev ∈ cptrs C.
Proof.
  induction C as [|p C IH r|p cs C IH]; intros par prev next L N0 NH Hv; simpl in *; [done| |].
  - destruct (h !! p) as [a|] eqn:Ea; [|done].
    destruct L as (L1 & L2 & L3 & L4 & L5 & LC & Lr).
    destruct (IH p 0 0) as (nd & E1 & E2 & E3); [done| | |done|].
    + intros X; apply N0, elem_of_cons; right; apply elem_of_app; by left.
    + by intros ->.
    + exists nd. split; [done|]. split; [done|].
      apply elem_of_cons; right; apply elem_of_app; by left.
  - destruct (h !! p) as [a|] eqn:Ea; [|done].
    destruct L as (L1 & L2 & L3 & L4 & L5 & Lcs & LC).
    destruct C as [|q C' r'|q cs' C'] eqn:EC.
    + simpl. exists a. split; [done|]. split; [done|]. apply elem_of_cons. by left.
    + destruct (IH par p next) as (nd & E1 & E2 & E3); [done| |done|done|].
      * intros X; apply N0, elem_of_cons; right; apply elem_of_app; by right.
      * exists nd. split; [done|]. split; [done|].
        apply elem_of_cons; right; apply elem_of_app; by right.
    + destruct (IH par p next) as (nd & E1 & E2 & E3); [done| |done|done|].
      * intros X; apply N0, elem_of_cons; right; apply elem_of_app; by right.
      * exists nd. split; [done|]. split; [done|].
        apply elem_of_cons; right; apply elem_of_app; by right.
Qed.

Lemma hpar_hprev C : forall u v,
  NoDup (cptrs C) -> 0 ∉ cptrs C -> u ∉ cptrs C -> C <> HHole -> hprev C v <> 0 ->
  hpar C u <> hprev C v.
Proof.
  induction C as [|p C IH r|p cs C IH]; intros u v ND N0 Nu NH Hv; simpl in *; [done| |].
  - apply NoDup_cons in ND as [Np ND]. apply NoDup_app in ND as (NDC & _ & _).
    apply IH; try done.
    + intros X; apply N0, elem_of_cons; right; apply elem_of_app; by left.
    + intros X; apply Np, elem_of_app; by left.
    + by intros ->.
  - apply NoDup_cons in ND as [Np ND]. apply NoDup_app in ND as (_ & _ & NDC).
    destruct C as [|q C' r'|q cs' C'] eqn:EC.
    + simpl. intros ->. apply Nu, elem_of_cons. by left.
    + apply IH; try done.
      * intros X; apply N0, elem_of_cons; right; apply elem_of_app; by right.
      * intros X; apply Nu, elem_of_cons; right; apply elem_of_app; by right.
    + apply IH; try done.
      * intros X; apply N0, elem_of_cons; right; apply elem_of_app; by right.
      * intros X; apply Nu, elem_of_cons; right; apply elem_of_app; by right.
Qed.

Lemma links_last (h : heap) f : forall par prev next,
  links h par prev f next -> f <> FNil ->
  exists nd, h !! last_ptr f prev = Some nd /\ next_sibling nd = next.
Proof.
  induction f as [|p cs _ r IH]; intros par prev next L NE; [done|].
  apply links_cons in L as (nd & Hp & _ & _ & Hn & _ & _ & _ & Lr).
  simpl. destruct r as [|q qcs r'].
  - simpl in *. eauto.
  - by apply (IH par p next).
Qed.

Lemma links_reprev (h h' : heap) r par pv pv' next :
  links h par pv r next ->
  (forall q, q ∈ preorder r -> q <> first_ptr r 0 -> keeps_links h h' q) ->
  (r <> FNil ->
   match h !! first_ptr r 0, h' !! first_ptr r 0 with
   | Some a, Some c => same_links (set_prev_sibling pv' a) c
   | _, _ => False
   end) ->
  NoDup (preorder r) ->
  links h' par pv' r next.
Proof.
  destruct r as [|p cs r]; intros L K F ND; [done|].
  apply links_cons in L as (nd & Hp & E1 & E2 & E3 & E4 & E5 & Lcs & Lr).
  specialize (F ltac:(done)). simpl in F. rewrite Hp in F.
  simpl in ND. apply NoDup_cons in ND as [Np ND].
  cbn [links]. destruct (h' !! p) as [c|]; [|done].
  destruct F as (F1 & F2 & F3 & F4 & F5). simpl in *.
  repeat split; try congruence.
  - apply (links_keep h h' _ _ _ _ Lcs). intros q Hq. apply K.
    + apply elem_of_cons. right. apply elem_of_app. by left.
    + intros ->. apply Np. apply elem_of_app. by left.
  - apply (links_keep h h' _ _ _ _ Lr). intros q Hq. apply K.
    + apply elem_of_cons. right. apply elem_of_app. by right.
    + intros ->. apply Np. apply elem_of_app. by right.
Qed.

Lemma sort_chain_inv (h : heap) prev nodes next h2 :
  sort_chain h prev nodes next = Ok h2 ->
  exists h1 pv e ha hb,
    sort_relink h prev nodes = Ok (h1, pv, e) /\ last nodes = Some e /\
    (if pv =? 0 then Ok h1 else wr h1 pv (set_next_sibling e)) = Ok ha /\
    wr ha e (set_next_sibling next) = Ok hb /\
    wr hb e (set_prev_sibling pv) = Ok h2.
Proof.
  unfold sort_chain. intros Run.
  destruct (sort_relink h prev nodes) as [[[h1 pv] e]| | |] eqn:E1; try done.
  cbn [mbind outcome_bind obind] in Run.
  destruct (if pv =? 0 then Ok h1 else wr h1 pv (set_next_sibling e)) as [ha| | |] eqn:E2;
    try done.
  cbn [mbind outcome_bind obind] in Run.
  destruct (wr ha e (set_next_sibling next)) as [hb| | |] eqn:E3; try done.
  cbn [mbind outcome_bind obind] in Run.
  exists h1, pv, e, ha, hb. repeat split; try done.
  clear -E1. revert h prev E1.
  induction nodes as [|n nodes IH]; intros h prev E1; [done|].
  destruct nodes as [|n' nodes].
  - simpl in E1. by inversion E1.
  - cbn [sort_relink] in E1.
    destruct (wr h n (set_prev_sibling prev)) as [hx| | |]; try done.
    cbn [mbind outcome_bind obind] in E1.
    destruct (if prev =? 0 then Ok hx else wr hx prev (set_next_sibling n)) as [hy| | |];
      try done.
    cbn [mbind outcome_bind obind] in E1.
    apply IH in E1. done.
Qed.

Lemma ms_fold_perm {A : Type} (lt : A -> A -> bool) l : forall acc,
  fold_left (fun acc x => ms_insert lt x acc) l acc ≡ₚ acc ++ l.
Proof.
  induction l as [|x l IH]; intros acc; simpl; [by rewrite app_nil_r|].
  rewrite IH. rewrite <- Permutation_middle.
  change (x :: acc ++ l) with ((x :: acc) ++ l). apply Permutation_app_tail.
  clear. induction acc as [|e acc IH]; simpl; [done|].
  destruct (lt x e); [done|]. rewrite IH. apply Permutation_swap.
Qed.

Lemma last_ptr_of_trees ts e d :
  last (map fst ts) = Some e -> last_ptr (of_trees ts FNil) d = e.
Proof.
  revert d. induction ts as [|[p cs] ts IH]; intros d E; [done|].
  simpl. destruct ts as [|x ts'].
  - simpl in *. congruence.
  - apply IH. exact E.
Qed.

Lemma first_ptr_rest (h : heap) rest par prev next :
  h !! 0 = None -> links h par prev rest next ->
  first_ptr rest 0 = 0 -> rest = FNil.
Proof.
  intros H0 L E. destruct rest as [|p cs r]; [done|]. simpl in E. subst p.
  apply links_cons in L as (nd & Hp & _). congruence.
Qed.

Lemma tsort_perm (h : heap) comp ts : tsort h comp ts ≡ₚ ts.
Proof. unfold tsort. by rewrite ms_fold_perm. Qed.

Lemma tsort_roots (h : heap) comp ts :
  map fst (tsort h comp ts) =
  fold_left (fun acc x => ms_insert (compare_nodes h comp) x acc) (map fst ts) [].
Proof. unfold tsort. apply (ms_fold_map fst (compare_nodes h comp) ts []). Qed.

Lemma sort_level (h : heap) C ts rest comp from to :
  raw h (hplug C (of_trees ts rest)) -> ts <> [] ->
  (hprev C 0 = 0 -> hpar C 0 <> 0) ->
  (first_ptr rest 0 = 0 -> hpar C 0 <> 0) ->
  snode from = first_ptr (of_trees ts FNil) 0 ->
  snode to = first_ptr rest 0 ->
  (first_ptr rest 0 = 0 -> parent_ to = hpar C 0) ->
  exists h',
    (forall fuel deep, length ts <= fuel ->
       sort (S fuel) h comp from to deep =
       if deep then
         sort_children fuel (fun h b e => sort fuel h comp b e deep) h'
           (first_ptr (of_trees (tsort h comp ts) FNil) 0) (first_ptr rest 0)
       else Ok h') /\
    raw h' (hplug C (of_trees (tsort h comp ts) rest)) /\
    same_values h h'.
Proof.
  intros (H0 & L & ND) NE Hpv Hnx Hfrom Hto Hpt.
  set (par := hpar C 0) in *. set (prev := hprev C 0) in *.
  set (next := first_ptr rest 0) in *.
  remember (tsort h comp ts) as ts' eqn:Ets0.
  pose proof (links_nonnull _ _ _ _ _ H0 L) as NN. pose proof L as L0.
  apply links_hplug in L as [LC Lg]. rewrite hnext_raw in Lg. fold par prev in Lg.
  rewrite of_trees_fapp in Lg. apply links_fapp in Lg as [Lts Lrest].
  fold next in Lts.
  rewrite preorder_hplug in ND, NN.
  rewrite of_trees_fapp, preorder_fapp in ND, NN.
  apply NoDup_app in ND as (NDC & Dis & NDg).
  apply NoDup_app in NDg as (NDts & Dis2 & NDrest).
  apply Forall_app in NN as [NNC NNg]. apply Forall_app in NNg as [NNts NNrest].
  assert (0 ∉ cptrs C) as N0C by (intros X; rewrite Forall_forall in NNC; by apply (NNC 0)).
  assert (0 ∉ preorder (of_trees ts FNil)) as N0ts
    by (intros X; rewrite Forall_forall in NNts; by apply (NNts 0)).
  assert (ts' ≡ₚ ts) as Pts by (rewrite Ets0; apply tsort_perm).
  assert (preorder (of_trees ts' FNil) ≡ₚ preorder (of_trees ts FNil)) as Ppre
    by (by apply preorder_of_trees_perm).
  assert (map fst ts' ≡ₚ map fst ts) as Proots by (by rewrite Pts).
  (* the nodes around the range *)
  assert (par <> 0 -> par ∈ cptrs C /\ exists pnd, h !! par = Some pnd /\
            last_child pnd = last_ptr (of_trees ts rest) prev /\
            (prev = 0 -> first_child pnd = first_ptr (of_trees ts FNil) 0)) as Hpar.
  { intros Hp. destruct (hpar_cases C 0) as [[T1 T2]|[T1 T2]]; [done|].
    split; [done|].
    destruct (clinks_parent _ _ _ _ _ _ LC N0C T1) as (pnd & E1 & E2 & E3).
    exists pnd. split; [done|]. split.
    - rewrite E2. by rewrite <- last_ptr_bounds.
    - intros E. rewrite (E3 E). rewrite <- first_ptr_bounds.
      destruct ts as [|[a cs] ts0]; done. }
  assert (prev <> 0 -> prev ∈ cptrs C /\ prev <> par /\ exists vnd, h !! prev = Some vnd /\
            next_sibling vnd = first_ptr (of_trees ts FNil) 0) as Hprev.
  { intros Hp. assert (C <> HHole) as NH by (intros X; apply Hp; unfold prev; by rewrite X).
    destruct (clinks_prev _ _ _ _ _ _ LC N0C NH Hp) as (vnd & E1 & E2 & E3).
    split; [done|]. split.
    - apply not_eq_sym. by apply hpar_hprev.
    - exists vnd. split; [done|]. rewrite E2, <- first_ptr_bounds.
      destruct ts as [|[a cs] ts0]; done. }
  assert (next <> 0 -> next ∈ preorder rest /\ exists nnd, h !! next = Some nnd /\
            prev_sibling nnd = last_ptr (of_trees ts FNil) prev) as Hnext.
  { intros Hn. destruct rest as [|q qcs r]; [done|].
    apply links_cons in Lrest as (nnd & E1 & _ & E2 & _).
    split; [apply elem_of_cons; by left|]. simpl. eauto. }
  assert (next = 0 -> rest = FNil) as Hrest.
  { intros E. by apply (first_ptr_rest h rest par (last_ptr (of_trees ts FNil) prev) 0). }
  destruct (links_last _ _ _ _ _ Lts) as (lnd & Elast & Elnext).
  { by destruct ts as [|[a cs] ts0]. }
  destruct ts as [|[a1 cs1] ts0] eqn:Ets; [done|]. rewrite <- Ets in *.
  assert (first_ptr (of_trees ts FNil) 0 = a1) as Efirst by (by rewrite Ets).
  assert (links h par prev (of_trees ts FNil) next) as Lts' by done.
  rewrite Ets in Lts'. apply links_cons in Lts' as (a1d & Ea1 & _ & Eaprev & _).
  assert (a1 ∈ map fst ts) as Ha1 by (rewrite Ets; simpl; apply elem_of_cons; by left).
  assert (forall q, q ∈ map fst ts -> q ∈ preorder (of_trees ts FNil)) as Hroot
    by (intros q Hq; by apply root_in_preorder).
  assert (next ∉ map fst ts) as Nnext.
  { intros X. destruct (Nat.eq_dec next 0) as [E|E].
    - rewrite E in X. by apply N0ts, Hroot.
    - destruct (Hnext E) as [Y _]. by apply (Dis2 next (Hroot _ X)). }
  (* the sorted nodes *)
  destruct ts' as [|[n1 ncs1] ts0'] eqn:Ets'.
  { apply Permutation_nil_l in Pts. congruence. }
  rewrite <- Ets' in *.
  assert (first_ptr (of_trees ts' FNil) 0 = n1) as Efirst' by (by rewrite Ets').
  assert (n1 ∈ map fst ts) as Hn1.
  { rewrite <- Proots, Ets'. simpl. apply elem_of_cons. by left. }
  destruct (last (map fst ts')) as [nm|] eqn:Elast'.
  2:{ apply last_None in Elast'. rewrite Ets' in Elast'. done. }
  assert (nm ∈ map fst ts) as Hnm.
  { rewrite <- Proots. apply last_Some in Elast' as [l' ->].
    apply elem_of_app. right. apply elem_of_cons. by left. }
  assert (Forall (tree_ok h par) ts') as Oks.
  { rewrite Pts. by apply (links_trees _ _ _ _ _ Lts). }
  assert (forall x, x ∈ ts' -> exists nd, h !! x.1 = Some nd /\ parent nd = par) as Hpars.
  { intros x Hx. rewrite Forall_forall in Oks. pose proof (Oks x Hx) as O.
    unfold tree_ok in O. destruct (h !! x.1) as [nd|]; [|done]. exists nd. tauto. }
  assert (forall q, q ∈ map fst ts -> exists nd, h !! q = Some nd /\ parent nd = par) as Hpq.
  { intros q Hq. rewrite <- Proots in Hq. apply list_elem_of_fmap in Hq as (x & -> & Hx).
    by apply Hpars. }
  destruct (Hpq n1 Hn1) as (n1d & En1 & Pn1).
  destruct (Hpq nm Hnm) as (nmd & Enm & Pnm).
  (* the first assignment *)
  set (w1 := if prev =? 0 then par else prev).
  set (g1 := if prev =? 0 then set_first_child n1 else set_next_sibling n1
             : tree_node_ T -> tree_node_ T).
  assert (w1 <> 0) as Hw1.
  { unfold w1. destruct (Nat.eqb_spec prev 0) as [E|E]; [by apply Hpv|done]. }
  assert (w1 ∈ cptrs C) as Hw1C.
  { unfold w1. destruct (Nat.eqb_spec prev 0) as [E|E].
    - apply Hpar. by apply Hpv.
    - by apply Hprev. }
  assert (exists w1d, h !! w1 = Some w1d) as [w1d Ew1].
  { unfold w1. destruct (Nat.eqb_spec prev 0) as [E|E].
    - destruct (Hpar (Hpv E)) as (_ & pnd & X & _). eauto.
    - destruct (Hprev E) as (_ & _ & vnd & X & _). eauto. }
  set (h0 := <[w1 := g1 w1d]> h).
  assert ((if prev =? 0 then
             nn ← rd h n1;
             if parent nn =? 0 then Ok h else wr h (parent nn) (set_first_child n1)
           else wr h prev (set_next_sibling n1)) = Ok h0) as Run1.
  { unfold h0, g1. unfold w1 in Ew1. unfold w1.
    destruct (Nat.eqb_spec prev 0) as [E|E].
    - rewrite (rd_some _ _ _ En1). cbn [mbind outcome_bind obind]. rewrite Pn1.
      rewrite (proj2 (Nat.eqb_neq par 0)) by (by apply Hpv).
      by rewrite (wr_some _ _ _ _ Ew1).
    - by rewrite (wr_some _ _ _ _ Ew1). }
  assert (forall q, q ∈ preorder (of_trees ts FNil) -> q <> w1) as Hts_w1.
  { intros q Hq ->. by apply (Dis w1 Hw1C), elem_of_app; left. }
  assert (same_values h h0) as SV0.
  { apply (same_values_insert _ _ w1d); [done|]. unfold g1. by destruct (prev =? 0). }
  (* the chain of the sorted nodes *)
  destruct (sort_chain_spec ts' h0 par prev next) as (h2 & Run2 & L2 & Out2 & Pv2 & SV2).
  { rewrite Ets'. done. }
  { apply Forall_forall. intros x Hx. rewrite Forall_forall in Oks.
    apply (tree_ok_keep h h0); [by apply Oks|].
    intros q Hq. unfold h0. rewrite lookup_insert_ne; [done|].
    apply not_eq_sym, Hts_w1. rewrite <- Ppre. by apply (tree_in_preorder _ FNil x). }
  { by rewrite Ppre. }
  { by rewrite Ppre. }
  { destruct (Nat.eq_dec prev 0) as [E|E]; [by left|right].
    destruct (Hprev E) as (_ & _ & vnd & X & _).
    unfold h0. destruct (decide (prev = w1)) as [<-|N].
    - rewrite lookup_insert_eq. eauto.
    - rewrite lookup_insert_ne by done. eauto. }
  { rewrite Ppre. intros X. destruct (Nat.eq_dec prev 0) as [E|E].
    - rewrite E in X. done.
    - destruct (Hprev E) as (Y & _). by apply (Dis prev Y), elem_of_app; left. }
  apply sort_chain_inv in Run2 as (hr & pv & e & ha & hb & R1 & R2 & R3 & R4 & R5).
  rewrite Elast' in R2. injection R2 as <-.
  (* the last assignment *)
  set (w3 := if next =? 0 then par else next).
  set (g3 := if next =? 0 then set_last_child nm else set_prev_sibling nm
             : tree_node_ T -> tree_node_ T).
  assert (w3 <> 0) as Hw3.
  { unfold w3. destruct (Nat.eqb_spec next 0) as [E|E]; [by apply Hnx|done]. }
  assert (w3 ∉ map fst ts) as Hw3r.
  { unfold w3. destruct (Nat.eqb_spec next 0) as [E|E]; [|done].
    intros X. destruct (Hpar (Hnx E)) as (Y & _).
    by apply (Dis par Y), elem_of_app; left; apply Hroot. }
  assert (w3 <> prev \/ prev = 0) as Hw3p.
  { destruct (Nat.eq_dec prev 0) as [E|E]; [by right|left].
    destruct (Hprev E) as (Y1 & Y2 & _). unfold w3.
    destruct (Nat.eqb_spec next 0) as [E'|E']; [by apply not_eq_sym|].
    destruct (Hnext E') as (Z & _). intros X. rewrite X in Z.
    by apply (Dis prev Y1), elem_of_app; right. }
  assert (exists w3d, h2 !! w3 = Some w3d /\ h0 !! w3 = Some w3d) as (w3d & Ew3 & Ew30).
  { assert (is_Some (h !! w3)) as [x Ex].
    { unfold w3. destruct (Nat.eqb_spec next 0) as [E|E].
      - destruct (Hpar (Hnx E)) as (_ & pnd & X & _). eauto.
      - destruct (Hnext E) as (_ & nnd & X & _). eauto. }
    assert (is_Some (h0 !! w3)) as [y Ey].
    { unfold h0. destruct (decide (w3 = w1)) as [->|N].
      - rewrite lookup_insert_eq. eauto.
      - rewrite lookup_insert_ne by done. eauto. }
    exists y. split; [|done]. rewrite Out2; [done| |].
    - by rewrite Proots.
    - destruct Hw3p as [?|E]; [done|]. by rewrite E. }
  set (h3 := <[w3 := g3 w3d]> h2).
  assert ((if next =? 0 then
             en ← rd h2 nm;
             if parent en =? 0 then Ok h2 else wr h2 (parent en) (set_last_child nm)
           else wr h2 next (set_prev_sibling nm)) = Ok h3) as Run3.
  { unfold h3, g3. unfold w3 in Ew3. unfold w3.
    destruct (Nat.eqb_spec next 0) as [E|E].
    - assert (exists nd, h2 !! nm = Some nd /\ parent nd = par) as (nd & X1 & X2).
      { assert (nm ∈ map fst ts') as Y by (by rewrite Proots).
        apply list_elem_of_fmap in Y as ([q qcs] & -> & Hx).
        apply (links_trees _ _ _ _ _) in L2. rewrite Forall_forall in L2.
        pose proof (L2 _ Hx) as O. unfold tree_ok in O. simpl in *.
        destruct (h2 !! q) as [nd|]; [|done]. exists nd. tauto. }
      rewrite (rd_some _ _ _ X1). cbn [mbind outcome_bind obind]. rewrite X2.
      rewrite (proj2 (Nat.eqb_neq par 0)) by (by apply Hnx).
      by rewrite (wr_some _ _ _ _ Ew3).
    - by rewrite (wr_some _ _ _ _ Ew3). }
  assert (same_values h h3) as SV3.
  { apply (same_values_trans _ h0); [done|]. apply (same_values_trans _ h2); [done|].
    apply (same_values_insert _ _ w3d); [done|]. unfold g3. by destruct (next =? 0). }
  exists h3. split; [|split; [|done]].
  { intros fuel deep Hf. cbn [sort]. rewrite Hfrom, Hto. fold next. rewrite Efirst.
    assert (a1 <> next) as Han by (intros X; apply Nnext; by rewrite <- X).
    rewrite (proj2 (Nat.eqb_neq a1 next)) by done.
    pose proof (sort_collect_spec h (compare_nodes h comp) ts par prev next (S fuel) []
                  H0 Lts Nnext ltac:(lia)) as Col.
    rewrite (first_ptr_of_trees ts next), Efirst in Col by (by rewrite Ets).
    rewrite Col. cbn [mbind outcome_bind obind].
    rewrite <- tsort_roots, <- Ets0.
    assert (sibling_decr h to = Ok (mk_sit (last_ptr (of_trees ts FNil) prev) (parent_ to))) as ->.
    { unfold sibling_decr. rewrite Hto. fold next.
      destruct (Nat.eqb_spec next 0) as [E|E].
      - rewrite (Hpt E). fold par. rewrite (proj2 (Nat.eqb_neq par 0)) by (by apply Hnx).
        destruct (Hpar (Hnx E)) as (_ & pnd & X1 & X2 & _).
        rewrite (rd_some _ _ _ X1). cbn [mbind outcome_bind obind].
        rewrite X2, (Hrest E). rewrite of_trees_fapp, last_ptr_fapp. done.
      - destruct (Hnext E) as (_ & nnd & X1 & X2).
        rewrite (rd_some _ _ _ X1). cbn [mbind outcome_bind obind]. by rewrite X2. }
    cbn [mbind outcome_bind obind snode].
    rewrite (rd_some _ _ _ Ea1). cbn [mbind outcome_bind obind].
    rewrite (rd_some _ _ _ Elast). cbn [mbind outcome_bind obind].
    rewrite Eaprev, Elnext. rewrite Ets'. cbn [map fst]. rewrite <- Ets'.
    rewrite Run1. cbn [mbind outcome_bind obind].
    change (n1 :: map fst ts0') with (map fst ((n1, ncs1) :: ts0')). rewrite <- Ets'.
    rewrite R1. cbn [mbind outcome_bind obind].
    rewrite R3. cbn [mbind outcome_bind obind].
    rewrite R4. cbn [mbind outcome_bind obind].
    rewrite R5. cbn [mbind outcome_bind obind].
    rewrite Run3. cbn [mbind outcome_bind obind]. rewrite Efirst'. done. }
  (* the resulting heap *)
  assert (w3 ∈ cptrs C \/ (next <> 0 /\ w3 = next /\ w3 ∈ preorder rest)) as Hw3C.
  { unfold w3. destruct (Nat.eqb_spec next 0) as [E|E].
    - left. by apply Hpar, Hnx.
    - right. destruct (Hnext E) as (Y & _). done. }
  assert (forall q, q ∈ preorder (of_trees ts FNil) -> q <> w3) as Hts_w3.
  { intros q Hq ->. destruct Hw3C as [X|(_ & _ & X)].
    - by apply (Dis w3 X), elem_of_app; left.
    - by apply (Dis2 w3 Hq). }
  assert (forall q, h3 !! q = if decide (q = w3) then Some (g3 w3d) else h2 !! q) as Look3.
  { intros q. unfold h3. destruct (decide (q = w3)) as [->|N].
    - by rewrite lookup_insert_eq.
    - by rewrite lookup_insert_ne. }
  assert (forall q, h0 !! q = if decide (q = w1) then Some (g1 w1d) else h !! q) as Look0.
  { intros q. unfold h0. destruct (decide (q = w1)) as [->|N].
    - by rewrite lookup_insert_eq.
    - by rewrite lookup_insert_ne. }
  assert (forall q, q ∉ preorder (of_trees ts FNil) -> q <> 0 ->
            h3 !! q =
            (if decide (q = w3) then g3 else id) <$>
            ((if decide (q = prev) then set_next_sibling n1 else id) <$>
             ((if decide (q = w1) then g1 else id) <$> h !! q))) as Look.
  { intros q Hq Hq0.
    assert (h0 !! q = (if decide (q = w1) then g1 else id) <$> h !! q) as E0.
    { rewrite Look0. destruct (decide (q = w1)) as [->|N].
      - by rewrite Ew1.
      - by destruct (h !! q). }
    assert (h2 !! q = (if decide (q = prev) then set_next_sibling n1 else id) <$> h0 !! q) as E2.
    { destruct (decide (q = prev)) as [->|N].
      - rewrite (Pv2 Hq0), Efirst'. done.
      - rewrite Out2; [by destruct (h0 !! q)| |done].
        intros X. apply Hq, Hroot. by rewrite <- Proots. }
    rewrite Look3. destruct (decide (q = w3)) as [->|N].
    - rewrite <- E0, <- E2, Ew3. done.
    - rewrite <- E0, <- E2. by destruct (h2 !! q). }
  split; [|split].
  - pose proof (SV3 0) as X. rewrite H0 in X. by destruct (h3 !! 0).
  - apply links_hplug. rewrite hnext_raw. fold par prev. split.
    + apply (clinks_rebound h h3 C (bounds (of_trees ts rest))); try done.
      intros p Hp. fold par prev. rewrite hnext_raw.
      assert (p <> 0) as Hp0 by (intros ->; done).
      assert (p ∉ preorder (of_trees ts FNil)) as Hpts
        by (intros X; by apply (Dis p Hp), elem_of_app; left).
      assert (p ∉ preorder rest) as Hprest
        by (intros X; by apply (Dis p Hp), elem_of_app; right).
      assert (is_Some (h !! p)) as [a Ea].
      { apply (links_lookup _ _ _ _ _ _ L0). rewrite preorder_hplug.
        apply elem_of_app. by left. }
      unfold ctx_upd. rewrite (Look p Hpts Hp0), Ea. cbn [fmap option_fmap option_map].
      assert (bounds (of_trees ts' rest) =
              Some (n1, last_ptr (of_trees ts' rest) n1)) as ->.
      { rewrite Ets'. simpl. destruct ts0' as [|[x xcs] l]; simpl; [|done]. by destruct rest. }
      cbn [bfirst blast].
      assert (p <> next) as Hpn.
      { intros X. apply Hprest. rewrite X. apply Hnext. by rewrite <- X. }
      destruct (decide (p = prev)) as [Epv|Npv].
      { (* the left neighbour of the range *)
        assert (prev <> 0) as Hv0 by congruence.
        destruct (Hprev Hv0) as (_ & Hvp & _).
        assert (w1 = prev) as Ew by (unfold w1; by rewrite (proj2 (Nat.eqb_neq prev 0))).
        assert (p <> w3) as Hpw3.
        { unfold w3. destruct (next =? 0); congruence. }
        rewrite (decide_True (P := p = w1)) by congruence.
        rewrite (decide_False (P := p = w3)) by done.
        rewrite !(decide_False (P := p = par)) by congruence.
        unfold g1. rewrite (proj2 (Nat.eqb_neq prev 0)) by done. done. }
      destruct (decide (p = par)) as [Epar|Npar].
      { (* the parent of the range *)
        assert (par <> 0) as Hpar0 by congruence.
        destruct (Hpar Hpar0) as (_ & pnd & Epnd & Elc & Efc).
        assert (pnd = a) as -> by congruence.
        unfold w1, w3, g1, g3.
        destruct (Nat.eqb_spec prev 0) as [Ev|Ev]; destruct (Nat.eqb_spec next 0) as [En|En].
        - rewrite !(decide_True (P := p = par)) by done.
          rewrite (decide_True (P := prev = 0)) by done. cbn.
          repeat split; try done.
          rewrite (Hrest En). symmetry. rewrite of_trees_fapp, last_ptr_fapp. simpl.
          apply (last_ptr_of_trees ts' nm n1 Elast').
        - rewrite (decide_True (P := p = par)) by done.
          rewrite (decide_False (P := p = next)) by done.
          rewrite (decide_True (P := prev = 0)) by done. cbn.
          repeat split; try done.
          rewrite Elc. rewrite !(of_trees_fapp _ rest), !last_ptr_fapp.
          destruct rest as [|q qcs r]; [done|]. done.
        - rewrite (decide_False (P := p = prev)) by done.
          rewrite (decide_True (P := p = par)) by done.
          rewrite (decide_False (P := prev = 0)) by done. cbn.
          repeat split; try done.
          rewrite (Hrest En). symmetry. rewrite of_trees_fapp, last_ptr_fapp. simpl.
          apply (last_ptr_of_trees ts' nm n1 Elast').
        - rewrite (decide_False (P := p = prev)) by done.
          rewrite (decide_False (P := p = next)) by done.
          rewrite (decide_False (P := prev = 0)) by done. cbn.
          repeat split; try done.
          rewrite Elc. rewrite !(of_trees_fapp _ rest), !last_ptr_fapp.
          destruct rest as [|q qcs r]; [done|]. done. }
      assert (p <> w1) as Hpw1 by (unfold w1; destruct (prev =? 0); congruence).
      assert (p <> w3) as Hpw3 by (unfold w3; destruct (next =? 0); congruence).
      rewrite (decide_False (P := p = w1)) by done.
      rewrite (decide_False (P := p = w3)) by done. done.
    + rewrite of_trees_fapp. apply links_fapp. split.
      * apply (links_keep h2 h3 _ _ _ _ L2). intros q Hq. apply keeps_links_same.
        -- eapply links_lookup; eauto.
        -- rewrite Look3. rewrite decide_False; [done|]. apply Hts_w3. by rewrite <- Ppre.
      * rewrite (last_ptr_of_trees ts' nm prev Elast').
        apply (links_reprev h h3 rest par _ nm 0 Lrest); [| |done].
        -- intros q Hq Hqn.
           assert (q <> 0) as Hq0.
           { intros ->. rewrite Forall_forall in NNrest. by apply (NNrest 0). }
           assert (q ∉ preorder (of_trees ts FNil)) as Hqts
             by (intros X; by apply (Dis2 q X)).
           assert (forall x, x ∈ cptrs C -> q <> x) as Hqc.
           { intros x Hx ->. by apply (Dis x Hx), elem_of_app; right. }
           destruct (links_lookup _ _ _ _ _ _ Lrest Hq) as [a Ea].
           unfold keeps_links. rewrite (Look q Hqts Hq0), Ea.
           rewrite (decide_False (P := q = w1)) by (by apply Hqc).
           rewrite (decide_False (P := q = prev)).
           2:{ intros ->. destruct (Hprev Hq0) as (Y & _). by apply (Hqc prev Y). }
           rewrite (decide_False (P := q = w3)).
           2:{ intros ->. destruct Hw3C as [X|(_ & X & _)]; [by apply (Hqc w3 X)|].
               apply Hqn. by rewrite X. }
           cbn. apply same_links_refl.
        -- intros NR. fold next.
           assert (next <> 0) as Hn0 by (intros E; by apply NR, Hrest).
           destruct (Hnext Hn0) as (Y & nnd & E1 & E2).
           assert (next ∉ preorder (of_trees ts FNil)) as Hqts
             by (intros X; by apply (Dis2 next X)).
           rewrite (Look next Hqts Hn0), E1.
           assert (w3 = next) as Ew by (unfold w3; by rewrite (proj2 (Nat.eqb_neq next 0))).
           rewrite (decide_False (P := next = w1)).
           2:{ intros X. rewrite <- X in Hw1C. by apply (Dis next Hw1C), elem_of_app; right. }
           rewrite (decide_False (P := next = prev)).
           2:{ intros X. destruct (Hprev ltac:(by rewrite <- X)) as (Z & _).
               rewrite <- X in Z. by apply (Dis next Z), elem_of_app; right. }
           rewrite (decide_True (P := next = w3)) by done.
           cbn. unfold g3. rewrite (proj2 (Nat.eqb_neq next 0)) by done.
           apply same_links_refl.
  - rewrite preorder_hplug, of_trees_fapp, preorder_fapp, Ppre.
    apply NoDup_app. split; [done|]. split; [done|].
    apply NoDup_app. done.
Qed.

Lemma of_trees_trees f : of_trees (trees f) FNil = f.
Proof. induction f as [|p cs _ r IH]; simpl; [done|]. by rewrite IH. Qed.

Lemma hplug_hcomp C D g : hplug (hcomp C D) g = hplug C (hplug D g).
Proof. induction C as [|p C IH r|p cs C IH]; simpl; [done| |]; by rewrite IH. Qed.

Lemma hpar_hcomp C D : forall u, hpar (hcomp C D) u = hpar D (hpar C u).
Proof. induction C as [|p C IH r|p cs C IH]; intros u; simpl; [done| |]; apply IH. Qed.

Lemma hprev_hcomp C D : forall v, hprev (hcomp C D) v = hprev D (hprev C v).
Proof. induction C as [|p C IH r|p cs C IH]; intros v; simpl; [done| |]; apply IH. Qed.

Lemma edges_of_trees par ts rest :
  edges par (of_trees ts rest) =
  mjoin ((fun x => (par, x.1) :: edges x.1 x.2) <$> ts) ++ edges par rest.
Proof.
  induction ts as [|[p cs] ts IH]; simpl; [done|].
  rewrite IH. by rewrite <- !(assoc_L (++)).
Qed.

Lemma edges_perm par ts ts' rest :
  ts ≡ₚ ts' -> edges par (of_trees ts rest) ≡ₚ edges par (of_trees ts' rest).
Proof. intros P. rewrite !edges_of_trees. by rewrite P. Qed.

Lemma edges_Forall2 par ts ts' rest :
  Forall2 (fun x y => x.1 = y.1 /\ same_edges x.2 y.2) ts ts' ->
  edges par (of_trees ts rest) ≡ₚ edges par (of_trees ts' rest).
Proof.
  induction 1 as [|[p cs] [q cs'] ts ts' [E1 E2] F IH]; [done|].
  simpl in *. subst q. rewrite IH, (E2 p). done.
Qed.

Lemma edges_hplug C g g' :
  same_edges g g' -> same_edges (hplug C g) (hplug C g').
Proof.
  intros E. induction C as [|p C IH r|p cs C IH]; intros par; simpl; [apply E| |].
  - by rewrite (IH p).
  - by rewrite (IH par).
Qed.

Lemma sort_children_spec
    (k : heap -> sibling_iterator -> sibling_iterator -> outcome heap) (fuelk : nat) :
  (forall (h : heap) p, k h (mk_sit 0 p) (mk_sit 0 p) = Ok h) ->
  (forall (h : heap) C ts from to,
     raw h (hplug C (of_trees ts FNil)) -> ts <> [] ->
     hprev C 0 = 0 -> hpar C 0 <> 0 ->
     snode from = first_ptr (of_trees ts FNil) 0 -> snode to = 0 ->
     parent_ to = hpar C 0 ->
     length (preorder (of_trees ts FNil)) + 2 <= fuelk ->
     exists h' ts', k h from to = Ok h' /\ raw h' (hplug C (of_trees ts' FNil)) /\
       same_values h h' /\ same_edges (of_trees ts FNil) (of_trees ts' FNil)) ->
  forall todo (h : heap) C rest fuel,
    raw h (hplug C (of_trees todo rest)) ->
    length todo + 1 <= fuel ->
    Forall (fun x => length (preorder x.2) + 2 <= fuelk) todo ->
    exists h' todo',
      sort_children fuel k h (first_ptr (of_trees todo rest) 0) (first_ptr rest 0) = Ok h' /\
      raw h' (hplug C (of_trees todo' rest)) /\ same_values h h' /\
      Forall2 (fun x y => x.1 = y.1 /\ same_edges x.2 y.2) todo todo'.
Proof.
  intros Hk0 Hk. induction todo as [|[n cs] todo IH]; intros h C rest fuel R Hf Hsz;
    (destruct fuel as [|fuel]; [simpl in Hf; lia|]).
  - simpl. rewrite Nat.eqb_refl. exists h, []. split; [done|]. split; [done|].
    split; [apply same_values_refl|constructor].
  - cbn [of_trees first_ptr sort_children].
    pose proof R as (H0 & L & ND).
    pose proof (links_nonnull _ _ _ _ _ H0 L) as NN.
    apply links_hplug in L as [_ Lg]. rewrite hnext_raw in Lg.
    cbn [of_trees] in Lg.
    apply links_cons in Lg as (nd & En & Epar & _ & Enext & Efc & _ & Lcs & _).
    assert (n <> 0) as Hn0 by (intros ->; congruence).
    assert (n <> first_ptr rest 0) as Hne.
    { destruct rest as [|q qcs r]; [done|]. simpl. intros <-.
      rewrite preorder_hplug in ND. apply NoDup_app in ND as (_ & _ & ND).
      cbn [of_trees preorder] in ND. apply NoDup_cons in ND as [X _]. apply X.
      apply elem_of_app. right. rewrite preorder_of_trees. apply elem_of_app. right.
      simpl. apply elem_of_cons. by left. }
    rewrite (proj2 (Nat.eqb_neq _ _) Hne).
    apply Forall_cons in Hsz as [Hsz1 Hsz]. simpl in Hsz1.
    assert (exists b h1 cs',
      sibling_begin h (iterator_of n) = Ok b /\
      k h b (sibling_end (iterator_of n)) = Ok h1 /\
      raw h1 (hplug C (FCons n cs' (of_trees todo rest))) /\
      same_values h h1 /\ same_edges cs cs') as (b & h1 & cs' & Run0 & Run1 & R1 & SV1 & SE1).
    { unfold sibling_begin, sibling_end, iterator_of. cbn [node].
      rewrite (proj2 (Nat.eqb_neq n 0)) by done.
      rewrite (rd_some _ _ _ En). cbn [mbind outcome_bind obind]. rewrite Efc.
      destruct cs as [|c ccs cr] eqn:Ecs.
      - simpl. exists (mk_sit 0 n), h, FNil. split; [done|]. split; [apply Hk0|]. split; [done|].
        split; [apply same_values_refl|by intros par].
      - rewrite <- Ecs in *. assert (first_ptr cs 0 = c) as -> by (by rewrite Ecs).
        assert (links h n 0 cs 0) as Lcs' by done.
        rewrite Ecs in Lcs'. apply links_cons in Lcs' as (cd & Ec & Ecp & _).
        assert (c <> 0) as Hc0 by (intros ->; congruence).
        rewrite (proj2 (Nat.eqb_neq c 0)) by done.
        unfold sibling_of_node. rewrite (proj2 (Nat.eqb_neq c 0)) by done.
        rewrite (rd_some _ _ _ Ec). cbn [mbind outcome_bind obind]. rewrite Ecp.
        destruct (Hk h (hcomp C (HChild n HHole (of_trees todo rest))) (trees cs)
                    (mk_sit c n) (mk_sit 0 n)) as (h1 & ts' & Run & R1 & SV1 & SE1).
        + rewrite hplug_hcomp, of_trees_trees. exact R.
        + by rewrite Ecs.
        + by rewrite hprev_hcomp.
        + by rewrite hpar_hcomp.
        + by rewrite of_trees_trees, Ecs.
        + done.
        + by rewrite hpar_hcomp.
        + by rewrite of_trees_trees.
        + exists (mk_sit c n), h1, (of_trees ts' FNil). split; [done|]. split; [done|].
          rewrite hplug_hcomp in R1. split; [exact R1|]. split; [done|].
          by rewrite of_trees_trees in SE1. }
    rewrite Run0. cbn [mbind outcome_bind obind].
    rewrite Run1. cbn [mbind outcome_bind obind].
    pose proof R1 as (H01 & L1 & ND1).
    apply links_hplug in L1 as [_ Lg1]. rewrite hnext_raw in Lg1.
    apply links_cons in Lg1 as (nd1 & En1 & _ & _ & Enext1 & _).
    unfold sibling_incr. cbn [snode parent_].
    rewrite (proj2 (Nat.eqb_neq n 0)) by done.
    rewrite (rd_some _ _ _ En1). cbn [mbind outcome_bind obind snode]. rewrite Enext1.
    destruct (IH h1 (hcomp C (HRest n cs' HHole)) rest fuel) as (h' & todo' & Run & R' & SV' & F').
    + by rewrite hplug_hcomp.
    + simpl in Hf. lia.
    + done.
    + exists h', ((n, cs') :: todo'). split; [done|].
      rewrite hplug_hcomp in R'. split; [exact R'|].
      split; [by apply (same_values_trans _ h1)|].
      constructor; [|done]. done.
Qed.

Lemma length_trees_le ts rest : length ts <= length (preorder (of_trees ts rest)).
Proof.
  induction ts as [|[p cs] ts IH]; simpl; [lia|]. rewrite length_app. lia.
Qed.

Lemma length_tree_lt ts rest x :
  x ∈ ts -> length (preorder x.2) + 1 <= length (preorder (of_trees ts rest)).
Proof.
  induction ts as [|[p cs] ts IH]; intros Hx; [by apply not_elem_of_nil in Hx|].
  simpl. rewrite length_app. apply elem_of_cons in Hx as [->|Hx]; simpl; [lia|].
  specialize (IH Hx). lia.
Qed.

Lemma sort_raw comp : forall fuel (h : heap) C ts rest from to deep,
  raw h (hplug C (of_trees ts rest)) -> ts <> [] ->
  (hprev C 0 = 0 -> hpar C 0 <> 0) ->
  (first_ptr rest 0 = 0 -> hpar C 0 <> 0) ->
  snode from = first_ptr (of_trees ts FNil) 0 ->
  snode to = first_ptr rest 0 ->
  (first_ptr rest 0 = 0 -> parent_ to = hpar C 0) ->
  length (preorder (of_trees ts FNil)) + 2 <= fuel ->
  exists h' ts',
    sort fuel h comp from to deep = Ok h' /\
    raw h' (hplug C (of_trees ts' rest)) /\ same_values h h' /\
    map fst ts' = map fst (tsort h comp ts) /\
    same_edges (of_trees ts FNil) (of_trees ts' FNil) /\
    (deep = false -> ts' = tsort h comp ts).
Proof.
  induction fuel as [|fuel IH]; intros h C ts rest from to deep R NE Hpv Hnx Hfrom Hto Hpt Hf;
    [lia|].
  destruct (sort_level h C ts rest comp from to R NE Hpv Hnx Hfrom Hto Hpt)
    as (h3 & Eq & R3 & SV3).
  pose proof (length_trees_le ts FNil) as Hlen.
  rewrite (Eq fuel deep) by lia.
  pose proof (tsort_perm h comp ts) as Pts.
  assert (same_edges (of_trees ts FNil) (of_trees (tsort h comp ts) FNil)) as SE
    by (intros par; by apply edges_perm).
  destruct deep.
  - destruct (sort_children_spec (fun h b e => sort fuel h comp b e true) fuel)
      with (todo := tsort h comp ts) (h := h3) (C := C) (rest := rest) (fuel := fuel)
      as (h' & todo' & Run & R' & SV' & F').
    + intros h0 p. destruct fuel as [|fuel']; [lia|]. done.
    + intros h0 C0 ts0 from0 to0 R0 NE0 E1 E2 E3 E4 E5 E6.
      destruct (IH h0 C0 ts0 FNil from0 to0 true) as (h' & ts' & Run & R' & SV' & _ & SE' & _);
        try done.
      exists h', ts'. done.
    + done.
    + rewrite Pts. lia.
    + apply Forall_forall. intros x Hx. rewrite Pts in Hx.
      pose proof (length_tree_lt ts FNil x Hx). lia.
    + exists h', todo'.
      assert (first_ptr (of_trees (tsort h comp ts) rest) 0 =
              first_ptr (of_trees (tsort h comp ts) FNil) 0) as Ef.
      { destruct (tsort h comp ts) as [|[a b] l]; [|done].
        apply Permutation_nil_l in Pts. congruence. }
      rewrite <- Ef. split; [done|]. split; [done|].
      split; [by apply (same_values_trans _ h3)|]. split; [|split; [|done]].
      * clear -F'. induction F' as [|x y l l' [E _] F IH]; [done|].
        simpl. by rewrite IH, E.
      * intros par. rewrite (SE par). by apply edges_Forall2.
  - exists h3, (tsort h comp ts). done.
Qed.

Lemma edges_fapp par f g : edges par (fapp f g) = edges par f ++ edges par g.
Proof.
  induction f as [|p cs _ r IH]; simpl; [done|].
  rewrite IH. by rewrite <- !(assoc_L (++)).
Qed.

Lemma of_trees_gext t C ts rest :
  gext t C (of_trees ts rest) = of_trees ts (gext t C rest).
Proof.
  unfold gext. destruct (on_top C); [|done].
  induction ts as [|[p cs] ts IH]; simpl; [done|]. by rewrite IH.
Qed.

(** C4: [sort(from, to, comp, deep)] on a non-empty range of siblings,
    for a strict weak ordering [comp], returns; the nodes of the range
    are rearranged into an order that is sorted by [comp] on their
    values, nodes with equivalent values keep their relative order, the
    nodes before and after the range and the parent are linked to the
    rearranged range so that the tree is well formed, every value and
    every parent/child edge of the tree is as before, and without [deep]
    every sorted node keeps its chain of children as it is. *)
Theorem sort_spec (h : heap) (t : tree) (C : hforest) (ts : list (ptr * forest))
    (rest : forest) (comp : T -> T -> bool) (deep : bool)
    (from to : sibling_iterator) (fuel : nat) :
  tree_rep h t (hplug C (of_trees ts rest)) ->
  ts <> [] ->
  strict_weak comp ->
  snode from = first_ptr (of_trees ts FNil) 0 ->
  snode to = first_ptr rest (if on_top C then feet t else 0) ->
  (snode to = 0 -> parent_ to = hpar C 0) ->
  2 * length (preorder (hplug C (of_trees ts rest))) + 2 <= fuel ->
  exists h' ts',
    sort fuel h comp from to deep = Ok h' /\
    tree_rep h' t (hplug C (of_trees ts' rest)) /\
    same_values h h' /\
    map fst ts' ≡ₚ map fst ts /\
    StronglySorted (not_after comp h) (map fst ts') /\
    (forall v,
       List.filter (fun p => equivalent comp v (value_of h p)) (map fst ts') =
       List.filter (fun p => equivalent comp v (value_of h p)) (map fst ts)) /\
    same_edges (hplug C (of_trees ts rest)) (hplug C (of_trees ts' rest)) /\
    (deep = false -> ts' ≡ₚ ts).
Proof.
  intros R NE SW Hfrom Hto Hpt Hf.
  pose proof (rep_head_nonnull _ _ _ R) as Hh0.
  pose proof (rep_feet_nonnull _ _ _ R) as Hf0.
  pose proof (rep_null _ _ _ R) as H0.
  pose proof (links_nonnull _ _ _ _ _ H0 (rep_links _ _ _ R)) as NN.
  rewrite preorder_hplug in NN. apply Forall_app in NN as [NNC NNg].
  assert (0 ∉ cptrs C) as N0C by (intros X; rewrite Forall_forall in NNC; by apply (NNC 0)).
  assert (first_ptr rest (if on_top C then feet t else 0) = first_ptr (gext t C rest) 0) as Eto.
  { unfold gext. destruct (on_top C); [|done]. by rewrite first_ptr_fsnoc. }
  assert (on_top C = false -> hpar C 0 <> 0) as Hdeep.
  { intros Top. destruct (hpar_cases C 0) as [[T1 _]|[_ T2]]; [congruence|].
    intros X. by rewrite X in T2. }
  apply rep_raw in R. rewrite with_sentinels_hplug, of_trees_gext in R.
  destruct (sort_raw comp fuel h (cext t C) ts (gext t C rest) from to deep R NE)
    as (h' & ts' & Run & R' & SV & Eroots & SE & Hd).
  - unfold cext. cbn [hprev hpar]. rewrite hprev_cext_top, hpar_cext_top. intros E.
    destruct (hprev_cases C (head t)) as [[_ X]|[X|[X _]]].
    + congruence.
    + by rewrite E in X.
    + by apply Hdeep.
  - unfold cext. cbn [hpar]. rewrite hpar_cext_top. rewrite <- Eto. intros E.
    destruct (on_top C) eqn:Top; [|by apply Hdeep].
    destruct rest as [|q qcs r]; [done|]. simpl in E. subst q.
    rewrite of_trees_fapp, preorder_fapp in NNg. apply Forall_app in NNg as [_ X].
    simpl in X. apply Forall_cons in X as [X _]. done.
  - done.
  - by rewrite <- Eto.
  - unfold cext. cbn [hpar]. rewrite hpar_cext_top, <- Eto, <- Hto. done.
  - assert (length (preorder (of_trees ts FNil)) <= length (preorder (of_trees ts rest))).
    { rewrite (of_trees_fapp ts rest), preorder_fapp, length_app. lia. }
    rewrite preorder_hplug, length_app in Hf. lia.
  - exists h', ts'. split; [done|]. split.
    { apply rep_raw. by rewrite with_sentinels_hplug, of_trees_gext. }
    split; [done|].
    pose proof (tsort_roots h comp ts) as Er. rewrite <- Eroots in Er.
    destruct (ms_fold_spec comp (value_of h) SW (map fst ts) [])
      as (S1 & P1 & F1); [constructor|].
    split; [rewrite Er; exact P1|]. split; [rewrite Er; exact S1|].
    split; [intros v; rewrite Er; exact (F1 v)|]. split.
    + apply edges_hplug. intros par.
      rewrite (of_trees_fapp ts rest), (of_trees_fapp ts' rest), !edges_fapp.
      by rewrite (SE par).
    + intros ->. rewrite (Hd eq_refl). apply tsort_perm.
Qed.

Lemma length_preorder_hplug C g :
  Z.of_nat (length (preorder (hplug C g))) = csize C (Z.of_nat (length (preorder g))).
Proof.
  induction C as [|p C IH r|p cs C IH]; simpl; [done| |].
  - rewrite length_app. lia.
  - rewrite length_app. lia.
Qed.

Lemma counts_hplug (h : heap) C g :
  counts_ok h (hplug C g) <->
  ccounts h C (Z.of_nat (length (preorder g))) /\ counts_ok h g.
Proof.
  induction C as [|p C IH r|p cs C IH]; simpl.
  - tauto.
  - rewrite IH, length_preorder_hplug. tauto.
  - rewrite IH. tauto.
Qed.

Lemma csize_shift C k d : csize C (k + d) = (csize C k + d)%Z.
Proof. induction C as [|p C IH r|p cs C IH]; simpl; lia. Qed.

Lemma counts_keep (h h' : heap) f :
  counts_ok h f -> (forall q, q ∈ preorder f -> count_upd h h' id q) -> counts_ok h' f.
Proof.
  induction f as [|p cs IHcs r IHr]; intros Ok K; [done|].
  simpl in *. destruct Ok as (Op & Ocs & Or).
  pose proof (K p ltac:(apply elem_of_cons; by left)) as Kp. unfold count_upd in Kp.
  destruct (h !! p) as [a|]; [|done]. destruct (h' !! p) as [c|]; [|done].
  split; [simpl in Kp; congruence|]. split.
  - apply IHcs; [done|]. intros q Hq. apply K. apply elem_of_cons. right.
    apply elem_of_app. by left.
  - apply IHr; [done|]. intros q Hq. apply K. apply elem_of_cons. right.
    apply elem_of_app. by right.
Qed.

Lemma cancestors_cptrs C p : p ∈ cancestors C -> p ∈ cptrs C.
Proof.
  induction C as [|q C IH r|q cs C IH]; simpl; [done| |].
  - rewrite elem_of_app, list_elem_of_singleton, elem_of_cons, elem_of_app. intros [X| ->]; auto.
  - rewrite elem_of_cons, elem_of_app. auto.
Qed.

Lemma ccounts_rebump (h h' : heap) C k d :
  ccounts h C k ->
  NoDup (cptrs C) ->
  (forall p, p ∈ cptrs C ->
     count_upd h h' (fun c => if decide (p ∈ cancestors C) then wrap (c + d) else c) p) ->
  ccounts h' C (k + d).
Proof.
  induction C as [|p C IH r|p cs C IH]; intros CC ND U; [done| |]; simpl in *.
  - destruct CC as (Cp & CC & Cr).
    apply NoDup_cons in ND as [Np ND]. apply NoDup_app in ND as (NDC & Dis & NDr).
    pose proof (U p ltac:(apply elem_of_cons; by left)) as Up. unfold count_upd in Up.
    destruct (h !! p) as [a|]; [|done]. destruct (h' !! p) as [c|]; [|done].
    rewrite decide_True in Up by (apply elem_of_app; right; by apply list_elem_of_singleton).
    split; [|split].
    + rewrite Up, Cp, csize_shift. unfold wrap. by rewrite Zplus_mod_idemp_l.
    + apply IH; [done|done|]. intros q Hq.
      pose proof (U q ltac:(apply elem_of_cons; right; apply elem_of_app; by left)) as Uq.
      unfold count_upd in *. destruct (h !! q) as [a'|]; [|done].
      destruct (h' !! q) as [c'|]; [|done].
      destruct (decide (q ∈ cancestors C)) as [Y|N].
      * rewrite decide_True in Uq by (apply elem_of_app; by left). done.
      * rewrite decide_False in Uq; [done|].
        rewrite elem_of_app, list_elem_of_singleton. intros [?| ->]; [done|].
        apply Np. apply elem_of_app. by left.
    + apply (counts_keep h h'); [done|]. intros q Hq.
      pose proof (U q ltac:(apply elem_of_cons; right; apply elem_of_app; by right)) as Uq.
      unfold count_upd in *. destruct (h !! q) as [a'|]; [|done].
      destruct (h' !! q) as [c'|]; [|done].
      rewrite decide_False in Uq; [done|].
      rewrite elem_of_app, list_elem_of_singleton. intros [X| ->].
      * apply (Dis q); [by apply cancestors_cptrs|done].
      * apply Np. apply elem_of_app. by right.
  - destruct CC as (Cp & Ccs & CC).
    apply NoDup_cons in ND as [Np ND]. apply NoDup_app in ND as (NDcs & Dis & NDC).
    pose proof (U p ltac:(apply elem_of_cons; by left)) as Up. unfold count_upd in Up.
    destruct (h !! p) as [a|]; [|done]. destruct (h' !! p) as [c|]; [|done].
    rewrite decide_False in Up.
    2:{ intros X. apply Np. apply elem_of_app. right. by apply cancestors_cptrs. }
    split; [congruence|]. split.
    + apply (counts_keep h h'); [done|]. intros q Hq.
      pose proof (U q ltac:(apply elem_of_cons; right; apply elem_of_app; by left)) as Uq.
      unfold count_upd in *. destruct (h !! q) as [a'|]; [|done].
      destruct (h' !! q) as [c'|]; [|done].
      rewrite decide_False in Uq; [done|].
      intros X. apply (Dis q Hq). by apply cancestors_cptrs.
    + apply IH; [done|done|]. intros q Hq.
      apply U. apply elem_of_cons. right. apply elem_of_app. by right.
Qed.

Lemma clinks_chain (h : heap) C b : forall par prev next acc,
  clinks h par prev C next b -> 0 ∉ cptrs C ->
  chain_up h par acc -> chain_up h (hpar C par) (cancestors C ++ acc).
Proof.
  induction C as [|p C IH r|p cs C IH]; intros par prev next acc L N0 Ch; simpl in *; [done| |].
  - destruct (h !! p) as [a|] eqn:Ea; [|done].
    destruct L as (L1 & L2 & L3 & L4 & L5 & LC & Lr).
    rewrite <- (assoc_L (++)). apply (IH p 0 0 (p :: acc)); [done| |].
    + intros X; apply N0, elem_of_cons; right; apply elem_of_app; by left.
    + simpl. split; [done|]. split; [intros ->; apply N0, elem_of_cons; by left|].
      rewrite Ea, L1. done.
  - destruct (h !! p) as [a|] eqn:Ea; [|done].
    destruct L as (L1 & L2 & L3 & L4 & L5 & Lcs & LC).
    apply (IH par p next acc); [done| |done].
    intros X; apply N0, elem_of_cons; right; apply elem_of_app; by right.
Qed.

Lemma raw_replace (h h' : heap) C g g' :
  raw h (hplug C g) -> h' !! 0 = None ->
  links h' (hpar C 0) (hprev C 0) g' 0 ->
  (forall p, p ∈ cptrs C -> ctx_upd h h' (hpar C 0) (hprev C 0) 0 (bounds g') p) ->
  (forall x, x ∈ cptrs C -> x ∉ preorder g') -> NoDup (preorder g') ->
  raw h' (hplug C g').
Proof.
  intros (H0 & L & ND) H0' Lg' U Dis NDg'.
  pose proof (links_nonnull _ _ _ _ _ H0 L) as NN.
  rewrite preorder_hplug in NN, ND. apply Forall_app in NN as [NNC _].
  apply NoDup_app in ND as (NDC & _ & _).
  assert (0 ∉ cptrs C) as N0C by (intros X; rewrite Forall_forall in NNC; by apply (NNC 0)).
  apply links_hplug in L as [LC _].
  split; [done|]. split.
  - apply links_hplug. rewrite hnext_raw. split; [|done].
    apply (clinks_rebound h h' C (bounds g)); try done.
    intros p Hp. rewrite hnext_raw. by apply U.
  - rewrite preorder_hplug. apply NoDup_app. done.
Qed.

Lemma counts_replace (h h' : heap) C g g' d :
  counts_ok h (hplug C g) -> NoDup (cptrs C) -> counts_ok h' g' ->
  (forall p, p ∈ cptrs C ->
     count_upd h h' (fun c => if decide (p ∈ cancestors C) then wrap (c + d) else c) p) ->
  Z.of_nat (length (preorder g')) = (Z.of_nat (length (preorder g)) + d)%Z ->
  counts_ok h' (hplug C g').
Proof.
  intros Ok ND Og' U E. apply counts_hplug in Ok as [CC _].
  apply counts_hplug. split; [|done]. rewrite E. by apply (ccounts_rebump h h').
Qed.

Lemma bump_ancestors_spec l : forall (h : heap) p pe fuel,
  chain_up h p l -> NoDup l -> length l < fuel ->
  exists h' pe', bump_ancestors fuel h p pe = Ok (h', pe') /\ same_shape h h' /\
    forall q, is_Some (h !! q) ->
      count_upd h h' (fun c => if decide (q ∈ l) then wrap (c + 1) else c) q.
Proof.
  induction l as [|a l IH]; intros h p pe fuel C ND Hf; (destruct fuel as [|fuel]; [lia|]).
  - simpl in C. subst p. exists h, pe. split; [done|]. split; [apply same_shape_refl|].
    intros q [nd Hq]. unfold count_upd. rewrite Hq.
    by rewrite decide_False by apply not_elem_of_nil.
  - simpl in C. destruct C as (-> & Hp0 & C).
    destruct (h !! p) as [nd|] eqn:Hp; [|done].
    apply NoDup_cons in ND as [Np ND].
    cbn [bump_ancestors]. rewrite (proj2 (Nat.eqb_neq p 0)) by done.
    rewrite (rd_some _ _ _ Hp). cbn [mbind outcome_bind obind].
    set (pe' := pe && expanded nd).
    set (nd1 := if pe' then set_count_expanded (wrap (count_expanded nd + 1)) nd else nd).
    set (nd3 := set_count_expandable _ (set_count _ nd1)).
    assert (parent nd3 = parent nd /\ same_links nd nd3 /\ data nd = data nd3 /\
            count nd3 = wrap (count nd + 1)) as (E1 & E2 & E3 & E4).
    { unfold nd3, nd1. destruct pe'; simpl; repeat split; done. }
    rewrite E1.
    assert (same_shape h (<[p := nd3]> h)) as S1 by (by apply (same_shape_insert _ _ nd)).
    destruct (IH (<[p := nd3]> h) (parent nd) pe' fuel) as (h' & pe2 & Run & S2 & Cn).
    + by apply (chain_up_shape h).
    + done.
    + simpl in Hf. lia.
    + exists h', pe2. split; [exact Run|]. split; [by eapply same_shape_trans|].
      intros q [qd Hq]. destruct (decide (q = p)) as [->|Hne].
      * pose proof (Cn p ltac:(rewrite lookup_insert_eq; eauto)) as X.
        unfold count_upd in *. rewrite lookup_insert_eq in X. rewrite Hp.
        destruct (h' !! p) as [c|]; [|done].
        rewrite decide_False in X by done.
        rewrite decide_True by (apply elem_of_cons; by left). congruence.
      * pose proof (Cn q ltac:(rewrite lookup_insert_ne by done; eauto)) as X.
        unfold count_upd in *. rewrite lookup_insert_ne in X by done. rewrite Hq in *.
        destruct (h' !! q) as [c|]; [|done].
        destruct (decide (q ∈ l)) as [Y|N].
        -- rewrite decide_True by (apply elem_of_cons; by right). done.
        -- rewrite decide_False; [done|]. rewrite elem_of_cons. tauto.
Qed.

Lemma bump_head_spec (h : heap) t pe :
  is_Some (h !! head t) ->
  exists h', bump_head h t pe = Ok h' /\ same_shape h h' /\
    forall q, is_Some (h !! q) ->
      count_upd h h' (fun c => if decide (q = head t) then wrap (c + 1) else c) q.
Proof.
  intros [hd Hh]. unfold bump_head.
  set (hd1 := if pe then set_count_expanded (wrap (count_expanded hd + 1)) hd else hd).
  set (h1 := if pe then <[head t := hd1]> h else h).
  assert ((if pe then wr h (head t) (fun n => set_count_expanded (wrap (count_expanded n + 1)) n)
           else Ok h) = Ok h1) as ->.
  { unfold h1, hd1. destruct pe; [|done]. by rewrite (wr_some _ _ _ _ Hh). }
  assert (h1 !! head t = Some hd1) as Hh1.
  { unfold h1, hd1. destruct pe; [by rewrite lookup_insert_eq|done]. }
  cbn [mbind outcome_bind obind]. rewrite (wr_some _ _ _ _ Hh1).
  cbn [mbind outcome_bind obind].
  rewrite (wr_some _ _ (set_count (wrap (count hd1 + 1)) hd1)) by apply lookup_insert_eq.
  rewrite insert_insert_eq.
  set (hd3 := set_count_expandable _ (set_count _ hd1)).
  assert (<[head t := hd3]> h1 = <[head t := hd3]> h) as ->.
  { unfold h1. destruct pe; [by rewrite insert_insert_eq|done]. }
  assert (same_links hd hd3 /\ data hd = data hd3 /\ count hd3 = wrap (count hd + 1))
    as (E2 & E3 & E4).
  { unfold hd3, hd1. destruct pe; simpl; repeat split; done. }
  eexists. split; [done|]. split; [by apply (same_shape_insert _ _ hd)|].
  intros q [qd Hq]. unfold count_upd. rewrite Hq.
  destruct (decide (q = head t)) as [->|Hne].
  - rewrite lookup_insert_eq. congruence.
  - by rewrite lookup_insert_ne, Hq.
Qed.

Lemma count_upd_trans (h1 h2 h3 : heap) g1 g2 q :
  count_upd h1 h2 g1 q -> count_upd h2 h3 g2 q -> count_upd h1 h3 (fun c => g2 (g1 c)) q.
Proof.
  unfold count_upd. destruct (h1 !! q), (h2 !! q), (h3 !! q); try done. congruence.
Qed.

Lemma bookkeep_insert_spec (h : heap) t tmp nd l fuel :
  h !! tmp = Some nd -> chain_up h (parent nd) l -> NoDup l -> head t ∉ l ->
  is_Some (h !! head t) -> length l < fuel ->
  exists h', bookkeep_insert fuel h t tmp = Ok h' /\ same_shape h h' /\
    forall q, is_Some (h !! q) ->
      count_upd h h' (fun c => if decide (q ∈ l \/ q = head t) then wrap (c + 1) else c) q.
Proof.
  intros Ht C ND Nh [hd Hh] Hf. unfold bookkeep_insert.
  rewrite (rd_some _ _ _ Ht). cbn [mbind outcome_bind obind].
  destruct (bump_ancestors_spec l h (parent nd) true fuel C ND Hf) as (h1 & pe & Run & S1 & C1).
  rewrite Run. cbn [mbind outcome_bind obind].
  destruct (same_shape_lookup _ _ _ _ S1 Hh) as (hd1 & Hh1 & _).
  destruct (bump_head_spec h1 t pe) as (h2 & Run2 & S2 & C2); [eauto|].
  exists h2. split; [done|]. split; [by eapply same_shape_trans|].
  intros q [qd Hq].
  destruct (same_shape_lookup _ _ _ _ S1 Hq) as (qd1 & Hq1 & _).
  pose proof (count_upd_trans _ _ _ _ _ _ (C1 q ltac:(eauto)) (C2 q ltac:(eauto))) as X.
  unfold count_upd in *. rewrite Hq in *. destruct (h2 !! q) as [c|]; [|done].
  rewrite X. destruct (decide (q ∈ l)) as [Y|N].
  - rewrite decide_False by (intros ->; done). rewrite decide_True by (by left). done.
  - destruct (decide (q = head t)) as [->|N2].
    + rewrite decide_True by (by right). done.
    + rewrite decide_False by tauto. done.
Qed.

Lemma raw_hole (h : heap) C g :
  raw h (hplug C g) ->
  h !! 0 = None /\ (0 ∉ cptrs C) /\ NoDup (cptrs C) /\ NoDup (preorder g) /\
  (forall x, x ∈ cptrs C -> x ∉ preorder g) /\ (0 ∉ preorder g) /\
  links h (hpar C 0) (hprev C 0) g 0 /\
  (forall p, p ∈ cptrs C -> is_Some (h !! p)) /\
  chain_up h (hpar C 0) (cancestors C) /\
  (hpar C 0 <> 0 ->
   hpar C 0 ∈ cptrs C /\
   exists pnd, h !! hpar C 0 = Some pnd /\
     last_child pnd = blast (bounds g) (hprev C 0) /\
     (hprev C 0 = 0 -> first_child pnd = bfirst (bounds g) 0)) /\
  (hprev C 0 <> 0 ->
   hprev C 0 ∈ cptrs C /\ hprev C 0 <> hpar C 0 /\
   exists vnd, h !! hprev C 0 = Some vnd /\ next_sibling vnd = bfirst (bounds g) 0).
Proof.
  intros (H0 & L & ND).
  pose proof (links_nonnull _ _ _ _ _ H0 L) as NN. pose proof L as L0.
  rewrite preorder_hplug in NN, ND. apply Forall_app in NN as [NNC NNg].
  apply NoDup_app in ND as (NDC & Dis & NDg).
  assert (0 ∉ cptrs C) as N0C by (intros X; rewrite Forall_forall in NNC; by apply (NNC 0)).
  apply links_hplug in L as [LC Lg]. rewrite hnext_raw in Lg.
  split; [done|]. split; [done|]. split; [done|]. split; [done|]. split; [done|].
  split; [intros X; rewrite Forall_forall in NNg; by apply (NNg 0)|].
  split; [done|]. split; [|split; [|split]].
  - intros p Hp. apply (links_lookup _ _ _ _ _ _ L0). rewrite preorder_hplug.
    apply elem_of_app. by left.
  - pose proof (clinks_chain h C _ 0 0 0 [] LC N0C ltac:(done)) as X.
    by rewrite app_nil_r in X.
  - intros Hp. destruct (hpar_cases C 0) as [[T1 T2]|[T1 T2]]; [done|].
    split; [done|]. apply (clinks_parent _ _ _ _ _ _ LC N0C T1).
  - intros Hp. assert (C <> HHole) as NH by (by intros ->).
    destruct (clinks_prev _ _ _ _ _ _ LC N0C NH Hp) as (vnd & E1 & E2 & E3).
    split; [done|]. split; [apply not_eq_sym; by apply hpar_hprev|].
    exists vnd. rewrite hnext_raw in E2. done.
Qed.

Lemma ctx_upd_intro (h h' : heap) C g b' :
  raw h (hplug C g) ->
  (forall p, p ∈ cptrs C -> p <> hpar C 0 -> p <> hprev C 0 -> keeps_links h h' p) ->
  (hprev C 0 <> 0 ->
   match h !! hprev C 0, h' !! hprev C 0 with
   | Some x, Some y => same_links (set_next_sibling (bfirst b' 0) x) y
   | _, _ => False
   end) ->
  (hpar C 0 <> 0 ->
   match h !! hpar C 0, h' !! hpar C 0 with
   | Some x, Some y =>
       same_links
         (set_last_child (blast b' (hprev C 0))
            (if decide (hprev C 0 = 0) then set_first_child (bfirst b' 0) x else x)) y
   | _, _ => False
   end) ->
  forall p, p ∈ cptrs C -> ctx_upd h h' (hpar C 0) (hprev C 0) 0 b' p.
Proof.
  intros R K Hv Hp p Hin.
  destruct (raw_hole _ _ _ R) as (H0 & N0C & NDC & NDg & Dis & N0g & Lg & Al & Ch & Fp & Fv).
  assert (p <> 0) as Hp0 by (by intros ->).
  unfold ctx_upd.
  destruct (decide (p = hprev C 0)) as [Epv|Npv].
  - subst p. specialize (Hv Hp0). destruct (Fv Hp0) as (_ & Hne & _).
    destruct (h !! hprev C 0) as [x|]; [|done].
    destruct (h' !! hprev C 0) as [y|]; [|done].
    destruct Hv as (E1 & E2 & E3 & E4 & E5). simpl in *.
    rewrite !decide_False by done. repeat split; congruence.
  - destruct (decide (p = hpar C 0)) as [Epar|Npar].
    + subst p. specialize (Hp Hp0).
      destruct (h !! hpar C 0) as [x|]; [|done].
      destruct (h' !! hpar C 0) as [y|]; [|done].
      destruct Hp as (E1 & E2 & E3 & E4 & E5).
      destruct (decide (hprev C 0 = 0)); simpl in *; repeat split; congruence.
    + specialize (K p Hin Npar Npv). unfold keeps_links in K.
      destruct (h !! p) as [x|]; [|done]. destruct (h' !! p) as [y|]; [|done].
      destruct K as (E1 & E2 & E3 & E4 & E5). repeat split; congruence.
Qed.

Lemma insert_raw (h : heap) C pos cs r tmp N :
  raw h (hplug C (FCons pos cs r)) ->
  h !! tmp = None -> tmp <> 0 ->
  (hprev C 0 = 0 -> hpar C 0 <> 0) ->
  first_child N = 0 -> last_child N = 0 ->
  exists pn h2 h3 h4,
    rd (<[tmp := N]> h) pos = Ok pn /\
    wr (<[tmp := N]> h) tmp
       (fun n => set_prev_sibling (prev_sibling pn)
                   (set_next_sibling pos (set_parent (parent pn) n))) = Ok h2 /\
    wr h2 pos (set_prev_sibling tmp) = Ok h3 /\
    (if prev_sibling pn =? 0 then
       if parent pn =? 0 then Ok h3 else wr h3 (parent pn) (set_first_child tmp)
     else wr h3 (prev_sibling pn) (set_next_sibling tmp)) = Ok h4 /\
    raw h4 (hplug C (FCons tmp FNil (FCons pos cs r))) /\
    (forall q, is_Some (h !! q) -> count_upd h h4 id q) /\
    (exists N', h4 !! tmp = Some N' /\ count N' = count N /\ parent N' = hpar C 0 /\
                data N' = data N).
Proof.
  intros R Htmp Htmp0 Hpv Hfc Hlc.
  destruct (raw_hole _ _ _ R) as (H0 & N0C & NDC & NDg & Dis & N0g & Lg & Al & Ch & Fp & Fv).
  set (par := hpar C 0) in *. set (prev := hprev C 0) in *.
  pose proof Lg as Lg'.
  apply links_cons in Lg' as (pn & Epos & Ppar & Pprev & Pnext & Pfc & Plc & Lcs & Lr).
  assert (pos <> tmp) as Hpt by (intros ->; congruence).
  assert (forall q, is_Some (h !! q) -> q <> tmp) as Hal by (intros q [x Hx] ->; congruence).
  assert (forall q, q ∈ preorder (FCons pos cs r) -> is_Some (h !! q)) as Alg.
  { intros q Hq. by apply (links_lookup _ _ _ _ _ _ Lg). }
  exists pn.
  set (h1 := <[tmp := N]> h).
  set (N2 := set_prev_sibling prev (set_next_sibling pos (set_parent par N))).
  set (h2 := <[tmp := N2]> h1).
  set (h3 := <[pos := set_prev_sibling tmp pn]> h2).
  set (w1 := if prev =? 0 then par else prev).
  set (g1 := if prev =? 0 then set_first_child tmp else set_next_sibling tmp
             : tree_node_ T -> tree_node_ T).
  assert (w1 <> 0) as Hw1.
  { unfold w1. destruct (Nat.eqb_spec prev 0) as [E|E]; [by apply Hpv|done]. }
  assert (w1 ∈ cptrs C) as Hw1C.
  { unfold w1. destruct (Nat.eqb_spec prev 0) as [E|E].
    - apply Fp. by apply Hpv.
    - by apply Fv. }
  destruct (Al w1 Hw1C) as [w1d Ew1].
  assert (w1 <> tmp) as Hw1t by (apply Hal; eauto).
  assert (w1 <> pos) as Hw1p.
  { intros X. apply (Dis w1 Hw1C). rewrite X. apply elem_of_cons. by left. }
  set (h4 := <[w1 := g1 w1d]> h3).
  exists h2, h3, h4.
  assert (forall q, h4 !! q =
            if decide (q = w1) then Some (g1 w1d)
            else if decide (q = pos) then Some (set_prev_sibling tmp pn)
            else if decide (q = tmp) then Some N2 else h !! q) as Look.
  { intros q. unfold h4, h3, h2, h1.
    destruct (decide (q = w1)) as [->|N1]; [by rewrite lookup_insert_eq|].
    rewrite lookup_insert_ne by done.
    destruct (decide (q = pos)) as [->|N2']; [by rewrite lookup_insert_eq|].
    rewrite lookup_insert_ne by done.
    destruct (decide (q = tmp)) as [->|N3]; [by rewrite lookup_insert_eq|].
    by rewrite !lookup_insert_ne by done. }
  split; [|split; [|split; [|split; [|split; [|split]]]]].
  - unfold h1. apply rd_some. by rewrite lookup_insert_ne.
  - rewrite Ppar, Pprev. unfold h1. rewrite (wr_some _ _ N) by apply lookup_insert_eq. done.
  - apply wr_some. unfold h2, h1. by rewrite !lookup_insert_ne.
  - rewrite Ppar, Pprev. fold par prev.
    assert (h3 !! w1 = Some w1d) as Hwr.
    { unfold h3, h2, h1. by rewrite !lookup_insert_ne by done. }
    unfold h4, g1. revert Hwr. generalize h3. unfold w1.
    destruct (Nat.eqb_spec prev 0) as [E|E]; intros hx Hwr.
    + rewrite (proj2 (Nat.eqb_neq par 0)) by (by apply Hpv). by apply wr_some.
    + by apply wr_some.
  - apply (raw_replace h h4 C (FCons pos cs r)); [done| | | | |].
    + rewrite Look. rewrite !decide_False; [done| | |]; intros X; congruence.
    + fold par prev. cbn [links]. rewrite Look.
      rewrite (decide_False (P := tmp = w1)) by (by apply not_eq_sym).
      rewrite (decide_False (P := tmp = pos)) by (by apply not_eq_sym).
      rewrite decide_True by done. unfold N2. cbn.
      repeat split; try done.
      change (match h4 !! pos with
              | Some nd => parent nd = par /\ prev_sibling nd = tmp /\
                  next_sibling nd = first_ptr r 0 /\ first_child nd = first_ptr cs 0 /\
                  last_child nd = last_ptr cs 0 /\ links h4 pos 0 cs 0 /\ links h4 par pos r 0
              | None => False end) with (links h4 par tmp (FCons pos cs r) 0).
      apply (links_reprev h h4 _ par prev tmp 0 Lg); [| |done].
      * intros q Hq Hqp. simpl in Hqp.
        apply keeps_links_same; [by apply Alg|].
        rewrite Look. rewrite !decide_False; [done| | |].
        -- apply Hal. by apply Alg.
        -- done.
        -- intros ->. by apply (Dis w1 Hw1C).
      * intros _. simpl. rewrite Epos, Look.
        rewrite decide_False by (by apply not_eq_sym). rewrite decide_True by done.
        apply same_links_refl.
    + apply (ctx_upd_intro h h4 C (FCons pos cs r)); [done| | |].
      * intros p Hp Hp1 Hp2. apply keeps_links_same; [by apply Al|].
        rewrite Look. rewrite !decide_False; [done| | |].
        -- apply Hal. by apply Al.
        -- intros ->. apply (Dis pos Hp). apply elem_of_cons. by left.
        -- unfold w1. fold par prev in Hp1, Hp2. destruct (prev =? 0); congruence.
      * fold prev. intros E. destruct (Fv E) as (_ & _ & vnd & Ev & _).
        rewrite Ev, Look.
        assert (w1 = prev) as Ew by (unfold w1; by rewrite (proj2 (Nat.eqb_neq prev 0))).
        rewrite decide_True by done. rewrite Ew in Ew1.
        assert (w1d = vnd) as -> by congruence.
        unfold g1. rewrite (proj2 (Nat.eqb_neq prev 0)) by done. cbn. apply same_links_refl.
      * fold par prev. intros E. destruct (Fp E) as (Hin & pnd & Ep & Elc & Efc).
        rewrite Ep, Look. cbn [bounds bfirst blast last_ptr].
        cbn [bounds blast] in Elc.
        assert (par <> pos) as Hpp.
        { intros X. apply (Dis par Hin). rewrite X. apply elem_of_cons. by left. }
        assert (par <> tmp) as Hpt' by (apply Hal; eauto).
        unfold w1, g1 in *. destruct (Nat.eqb_spec prev 0) as [Ev|Ev].
        -- rewrite decide_True by done. rewrite decide_True by done.
           assert (w1d = pnd) as -> by congruence.
           unfold same_links. cbn. rewrite Elc. done.
        -- destruct (Fv Ev) as (_ & Hne & _).
           rewrite decide_False by (by apply not_eq_sym).
           rewrite (decide_False (P := par = pos)) by done.
           rewrite (decide_False (P := par = tmp)) by done.
           rewrite Ep. rewrite decide_False by done.
           unfold same_links. cbn. rewrite Elc. done.
    + intros x Hx. cbn [preorder]. rewrite elem_of_cons. intros [->|X].
      * destruct (Al tmp Hx) as [? ?]. congruence.
      * by apply (Dis x Hx).
    + cbn [preorder app]. apply NoDup_cons. split; [|done].
      intros X. destruct (Alg tmp X) as [? ?]. congruence.
  - intros q Hq. pose proof (Hal q Hq) as Hqt. destruct Hq as [x Hx].
    unfold count_upd. rewrite Hx, Look.
    destruct (decide (q = w1)) as [->|N1].
    + assert (w1d = x) as -> by congruence. unfold g1. by destruct (prev =? 0).
    + destruct (decide (q = pos)) as [->|N2'].
      * assert (pn = x) as -> by congruence. done.
      * rewrite decide_False by done. by rewrite Hx.
  - exists N2. rewrite Look.
    rewrite (decide_False (P := tmp = w1)) by (by apply not_eq_sym).
    rewrite (decide_False (P := tmp = pos)) by (by apply not_eq_sym).
    rewrite decide_True by done. done.
Qed.

Lemma cancestors_cext_top t C : cancestors (cext_top t C) = cancestors C.
Proof. induction C as [|p C IH r|p cs C IH]; simpl; [done|done|apply IH]. Qed.

Lemma cancestors_cext t C : cancestors (cext t C) = cancestors C.
Proof. unfold cext. simpl. apply cancestors_cext_top. Qed.

Lemma hpar_cext t C : hpar (cext t C) 0 = hpar C 0.
Proof. unfold cext. simpl. apply hpar_cext_top. Qed.

Lemma hprev_cext t C : hprev (cext t C) 0 = hprev C (head t).
Proof. unfold cext. simpl. apply hprev_cext_top. Qed.

Lemma NoDup_cancestors C : NoDup (cptrs C) -> NoDup (cancestors C).
Proof.
  induction C as [|p C IH r|p cs C IH]; intros ND; simpl in *; [constructor| |].
  - apply NoDup_cons in ND as [Np ND]. apply NoDup_app in ND as (NDC & _ & _).
    apply NoDup_app. split; [by apply IH|]. split; [|apply NoDup_singleton].
    intros x Hx ->%list_elem_of_singleton. apply Np. apply elem_of_app. left.
    by apply cancestors_cptrs.
  - apply NoDup_cons in ND as [Np ND]. apply NoDup_app in ND as (_ & _ & NDC). by apply IH.
Qed.

Lemma cptrs_preorder C g p : p ∈ cptrs C -> p ∈ preorder (hplug C g).
Proof. intros Hp. rewrite preorder_hplug. apply elem_of_app. by left. Qed.

Lemma hole_preorder C g p : p ∈ preorder g -> p ∈ preorder (hplug C g).
Proof. intros Hp. rewrite preorder_hplug. apply elem_of_app. by right. Qed.

Lemma cext_prev (h : heap) t C g :
  tree_rep h t (hplug C g) -> hprev (cext t C) 0 = 0 -> hpar (cext t C) 0 <> 0.
Proof.
  intros R. rewrite hprev_cext, hpar_cext. intros E.
  pose proof (rep_head_nonnull _ _ _ R) as Hh0.
  assert (0 ∉ cptrs C) as N0C.
  { intros X. apply (rep_nonnull _ _ _ 0 R); [|done]. by apply cptrs_preorder. }
  destruct (hprev_cases C (head t)) as [[_ X]|[X|[X _]]].
  - congruence.
  - by rewrite E in X.
  - destruct (hpar_cases C 0) as [[T1 _]|[_ T2]]; [congruence|].
    intros Y. by rewrite Y in T2.
Qed.

Lemma gext_cons (h : heap) t C g :
  tree_rep h t (hplug C g) ->
  first_ptr g (if on_top C then feet t else 0) <> 0 ->
  exists cs r, gext t C g = FCons (first_ptr g (if on_top C then feet t else 0)) cs r.
Proof.
  intros R Hne. unfold gext. destruct (on_top C).
  - destruct g as [|p cs r]; simpl; eauto.
  - destruct g as [|p cs r]; simpl in *; [done|eauto].
Qed.

Lemma gext_leaf t C tmp g : gext t C (FCons tmp FNil g) = FCons tmp FNil (gext t C g).
Proof. unfold gext. by destruct (on_top C). Qed.

Lemma rep_hole (h : heap) t C g :
  tree_rep h t (hplug C g) ->
  NoDup (cptrs C) /\ (head t ∉ cptrs C) /\ (head t ∉ preorder g) /\
  (forall q, q ∈ cptrs C -> is_Some (h !! q)) /\
  (forall q, q ∈ preorder g -> is_Some (h !! q)) /\
  (forall q, q ∈ cptrs C -> q ∉ preorder g) /\
  is_Some (h !! head t).
Proof.
  intros R. pose proof (rep_nodup _ _ _ R) as ND.
  apply NoDup_cons in ND as [Nh ND]. apply NoDup_cons in ND as [_ ND].
  rewrite preorder_hplug in ND, Nh. apply NoDup_app in ND as (NDC & Dis & _).
  split; [done|]. split; [intros X; apply Nh, elem_of_cons; right; apply elem_of_app; by left|].
  split; [intros X; apply Nh, elem_of_cons; right; apply elem_of_app; by right|].
  split; [|split; [|split; [done|]]].
  - intros q Hq. apply (rep_allocated _ _ _ _ R). do 2 (apply elem_of_cons; right).
    by apply cptrs_preorder.
  - intros q Hq. apply (rep_allocated _ _ _ _ R). do 2 (apply elem_of_cons; right).
    by apply hole_preorder.
  - apply (rep_allocated _ _ _ _ R). apply elem_of_cons. by left.
Qed.

Lemma bookkeep_leaf (h h4 : heap) t C g tmp N' fuel :
  bookkept h t (hplug C g) ->
  tree_rep h4 t (hplug C (FCons tmp FNil g)) ->
  (forall q, is_Some (h !! q) -> count_upd h h4 id q) ->
  h !! tmp = None -> h4 !! tmp = Some N' -> count N' = 0%Z -> parent N' = hpar C 0 ->
  length (cancestors C) < fuel ->
  exists h',
    bookkeep_insert fuel h4 t tmp = Ok h' /\
    bookkept h' t (hplug C (FCons tmp FNil g)).
Proof.
  intros (R & Cn & Ch) R4 Cu4 Htmp EN' CN' PN' Hf.
  destruct (rep_hole _ _ _ _ R) as (NDC & NhC & Nhg & AlC & Alg & Dis & [hd Hh]).
  pose proof R4 as Rr4. apply rep_raw in Rr4. rewrite with_sentinels_hplug in Rr4.
  destruct (raw_hole _ _ _ Rr4) as (_ & _ & _ & _ & _ & _ & _ & _ & Chain & _).
  rewrite hpar_cext, cancestors_cext in Chain.
  assert (is_Some (h4 !! head t)) as Hh4.
  { pose proof (Cu4 (head t) ltac:(eauto)) as X. unfold count_upd in X. rewrite Hh in X.
    destruct (h4 !! head t); [eauto|done]. }
  destruct (bookkeep_insert_spec h4 t tmp N' (cancestors C) fuel EN')
    as (h' & Run & Sh & Cu'); try done.
  { by rewrite PN'. }
  { by apply NoDup_cancestors. }
  { intros X. by apply NhC, cancestors_cptrs. }
  assert (forall q, is_Some (h !! q) ->
    count_upd h h' (fun c => if decide (q ∈ cancestors C \/ q = head t)
                             then wrap (c + 1) else c) q) as Cu.
  { intros q Hq. pose proof (Cu4 q Hq) as X1.
    assert (is_Some (h4 !! q)) as Hq4.
    { unfold count_upd in X1. destruct (h !! q); [|done]. destruct (h4 !! q); [eauto|done]. }
    pose proof (count_upd_trans _ _ _ _ _ _ X1 (Cu' q Hq4)) as X. exact X. }
  exists h'. split; [done|].
  split; [by apply (tree_rep_shape h4)|]. split.
  - apply (counts_replace h h' C g _ 1); [done|done| | |].
    + cbn [counts_ok]. split; [|split; [done|]].
      * assert (is_Some (h4 !! tmp)) as Ht4 by eauto.
        pose proof (Cu' tmp Ht4) as X. unfold count_upd in X. rewrite EN' in X.
        destruct (h' !! tmp) as [c|]; [|done].
        rewrite decide_False in X.
        2:{ intros [Y| ->].
            - destruct (AlC tmp (cancestors_cptrs _ _ Y)) as [? ?]. congruence.
            - congruence. }
        rewrite X, CN'. done.
      * apply counts_hplug in Cn as [_ Cg]. apply (counts_keep h h'); [done|].
        intros q Hq. pose proof (Cu q (Alg q Hq)) as X.
        unfold count_upd in *. destruct (h !! q); [|done]. destruct (h' !! q); [|done].
        rewrite decide_False in X; [done|].
        intros [Y| ->]; [|done]. by apply (Dis q (cancestors_cptrs _ _ Y)).
    + intros p Hp. pose proof (Cu p (AlC p Hp)) as X.
      unfold count_upd in *. destruct (h !! p); [|done]. destruct (h' !! p); [|done].
      destruct (decide (p ∈ cancestors C)) as [Y|Nn].
      * rewrite decide_True in X by (by left). done.
      * rewrite decide_False in X; [done|]. intros [?| ->]; done.
    + simpl. lia.
  - pose proof (Cu (head t) ltac:(eauto)) as X. unfold count_upd in X.
    rewrite Hh in X. rewrite Hh in Ch. simpl in Ch. injection Ch as Ch.
    destruct (h' !! head t) as [c|]; [|done]. simpl.
    rewrite decide_True in X by (by right). rewrite X, Ch.
    f_equal. unfold wrap. rewrite Zplus_mod_idemp_l. f_equal.
    rewrite !length_preorder_hplug. simpl.
    rewrite <- csize_shift. f_equal. lia.
Qed.

Lemma insert_bookkept (h : heap) t C g position x fuel :
  bookkept h t (hplug C g) ->
  (if node position =? 0 then feet t else node position) =
    first_ptr g (if on_top C then feet t else 0) ->
  first_ptr g (if on_top C then feet t else 0) <> 0 ->
  length (cancestors C) < fuel ->
  exists h',
    insert fuel h t position x = Ok (h', iterator_of (allocate h)) /\
    bookkept h' t (hplug C (FCons (allocate h) FNil g)).
Proof.
  intros B Hpos Hne Hf. pose proof B as (R & Cn & Ch).
  destruct (rep_hole _ _ _ _ R) as (NDC & NhC & Nhg & AlC & Alg & Dis & [hd Hh]).
  destruct (gext_cons _ _ _ _ R Hne) as (cs & r & Eg).
  set (pos := first_ptr g (if on_top C then feet t else 0)) in *.
  destruct (allocate_fresh h) as [Htmp Htmp0]. set (tmp := allocate h) in *.
  set (N := set_visible (visible hd) (set_expanded (expanded hd) (node_of x))).
  pose proof R as Rr. apply rep_raw in Rr. rewrite with_sentinels_hplug, Eg in Rr.
  destruct (raw_hole _ _ _ Rr) as (_ & _ & _ & _ & Dis' & _).
  assert (pos <> head t) as Hph.
  { intros X. apply (Dis' (head t)).
    - unfold cext. simpl. apply elem_of_cons. by left.
    - rewrite <- X. apply elem_of_cons. by left. }
  destruct (insert_raw h (cext t C) pos cs r tmp N Rr Htmp Htmp0)
    as (pn & h2 & h3 & h4 & R1 & R2 & R3 & R4 & Rr4 & Cu4 & N' & EN' & CN' & PN' & _);
    [by apply (cext_prev h t C g)|done|done|].
  rewrite <- Eg, <- gext_leaf, <- with_sentinels_hplug in Rr4. apply rep_raw in Rr4.
  rewrite hpar_cext in PN'.
  destruct (bookkeep_leaf h h4 t C g tmp N' fuel B Rr4 Cu4 Htmp EN') as (h' & Run & B');
    [by rewrite CN'|done|done|].
  exists h'. split; [|done].
  unfold insert. fold pos in Hpos. rewrite Hpos.
  rewrite (proj2 (Nat.eqb_neq pos (head t))) by done.
  unfold new_node. rewrite (rd_some _ _ _ Hh). cbn [mbind outcome_bind obind].
  fold tmp N. rewrite R1. cbn [mbind outcome_bind obind].
  rewrite R2. cbn [mbind outcome_bind obind].
  rewrite R3. cbn [mbind outcome_bind obind].
  rewrite R4. cbn [mbind outcome_bind obind].
  rewrite Run. done.
Qed.

Lemma append_raw (h : heap) C tmp N :
  raw h (hplug C FNil) -> hpar C 0 <> 0 ->
  h !! tmp = None -> tmp <> 0 ->
  first_child N = 0 -> last_child N = 0 ->
  exists pn h2 h3 h4 h5 h6,
    wr (<[tmp := N]> h) tmp (set_parent (hpar C 0)) = Ok h2 /\
    rd h2 (hpar C 0) = Ok pn /\
    (if last_child pn =? 0 then wr h2 (hpar C 0) (set_first_child tmp)
     else wr h2 (last_child pn) (set_next_sibling tmp)) = Ok h3 /\
    wr h3 tmp (set_prev_sibling (last_child pn)) = Ok h4 /\
    wr h4 (hpar C 0) (set_last_child tmp) = Ok h5 /\
    wr h5 tmp (set_next_sibling 0) = Ok h6 /\
    raw h6 (hplug C (FCons tmp FNil FNil)) /\
    (forall q, is_Some (h !! q) -> count_upd h h6 id q) /\
    (exists N', h6 !! tmp = Some N' /\ count N' = count N /\ parent N' = hpar C 0 /\
                data N' = data N).
Proof.
  intros R Hpar0 Htmp Htmp0 Hfc Hlc.
  destruct (raw_hole _ _ _ R) as (H0 & N0C & NDC & NDg & Dis & N0g & Lg & Al & Ch & Fp & Fv).
  set (pos := hpar C 0) in *. set (hv := hprev C 0) in *.
  destruct (Fp Hpar0) as (HposC & pn & Epos & Elc & Efc). cbn [bounds blast bfirst] in Elc, Efc.
  assert (forall q, is_Some (h !! q) -> q <> tmp) as Hal by (intros q [x Hx] ->; congruence).
  assert (pos <> tmp) as Hpt by (apply Hal; eauto).
  exists pn.
  set (Nt := set_next_sibling 0 (set_prev_sibling hv (set_parent pos N))).
  set (Np := set_last_child tmp (if decide (hv = 0) then set_first_child tmp pn else pn)).
  set (h2 := <[tmp := set_parent pos N]> (<[tmp := N]> h)).
  set (h3 := if hv =? 0 then <[pos := set_first_child tmp pn]> h2
             else <[hv := set_next_sibling tmp (default pn (h !! hv))]> h2).
  set (h4 := <[tmp := set_prev_sibling hv (set_parent pos N)]> h3).
  set (h5 := <[pos := Np]> h4).
  set (h6 := <[tmp := Nt]> h5).
  exists h2, h3, h4, h5, h6.
  assert (hv <> 0 -> hv <> pos /\ hv <> tmp /\ exists vnd, h !! hv = Some vnd) as Hv.
  { intros E. destruct (Fv E) as (X1 & X2 & vnd & X3 & _).
    split; [done|]. split; [apply Hal; eauto|eauto]. }
  assert (forall q, h6 !! q =
            if decide (q = tmp) then Some Nt
            else if decide (q = pos) then Some Np
            else if decide (q = hv) then set_next_sibling tmp <$> h !! q
            else h !! q) as Look.
  { intros q. unfold h6, h5, h4.
    destruct (decide (q = tmp)) as [->|N1]; [by rewrite lookup_insert_eq|].
    rewrite lookup_insert_ne by done.
    destruct (decide (q = pos)) as [->|N2]; [by rewrite lookup_insert_eq|].
    rewrite !lookup_insert_ne by done. unfold h3, h2.
    destruct (Nat.eqb_spec hv 0) as [E|E].
    - rewrite !lookup_insert_ne by done.
      destruct (decide (q = hv)) as [->|N3]; [|done].
      rewrite E, H0. done.
    - destruct (Hv E) as (X1 & X2 & vnd & X3).
      destruct (decide (q = hv)) as [->|N3].
      + rewrite lookup_insert_eq, X3. done.
      + by rewrite !lookup_insert_ne by done. }
  assert (h3 !! tmp = Some (set_parent pos N)) as E3t.
  { unfold h3, h2. destruct (Nat.eqb_spec hv 0) as [E|E].
    - rewrite lookup_insert_ne by done. by rewrite lookup_insert_eq.
    - destruct (Hv E) as (X1 & X2 & _).
      rewrite lookup_insert_ne by done. by rewrite lookup_insert_eq. }
  assert (h4 !! pos = Some (if decide (hv = 0) then set_first_child tmp pn else pn)) as E4p.
  { unfold h4, h3, h2. rewrite lookup_insert_ne by done.
    destruct (Nat.eqb_spec hv 0) as [E|E].
    - rewrite lookup_insert_eq. by rewrite decide_True.
    - destruct (Hv E) as (X1 & X2 & _). rewrite decide_False by done.
      by rewrite !lookup_insert_ne by done. }
  split; [|split; [|split; [|split; [|split; [|split; [|split; [|split]]]]]]].
  - by rewrite (wr_some _ _ N) by apply lookup_insert_eq.
  - apply rd_some. unfold h2. by rewrite !lookup_insert_ne.
  - rewrite Elc. fold hv. unfold h3.
    destruct (Nat.eqb_spec hv 0) as [E|E].
    + apply wr_some. unfold h2. by rewrite !lookup_insert_ne.
    + destruct (Hv E) as (X1 & X2 & vnd & X3). rewrite X3. simpl.
      apply wr_some. unfold h2. by rewrite !lookup_insert_ne.
  - rewrite Elc. fold hv. by rewrite (wr_some _ _ _ _ E3t).
  - by rewrite (wr_some _ _ _ _ E4p).
  - unfold h6, Nt. rewrite (wr_some _ _ (set_prev_sibling hv (set_parent pos N))); [done|].
    unfold h5, h4. rewrite lookup_insert_ne by done. by rewrite lookup_insert_eq.
  - apply (raw_replace h h6 C FNil); [done| | | | |].
    + rewrite Look. rewrite (decide_False (P := 0 = tmp)) by congruence.
      rewrite (decide_False (P := 0 = pos)) by congruence.
      destruct (decide (0 = hv)); by rewrite H0.
    + fold pos hv. cbn [links]. rewrite Look, decide_True by done.
      unfold Nt. cbn. done.
    + apply (ctx_upd_intro h h6 C FNil); [done| | |].
      * intros p Hp Hp1 Hp2. apply keeps_links_same; [by apply Al|].
        rewrite Look. rewrite !decide_False; try done.
        apply Hal. by apply Al.
      * fold hv. intros E. destruct (Hv E) as (X1 & X2 & vnd & X3).
        rewrite X3, Look. rewrite !decide_False by done. rewrite decide_True by done.
        rewrite X3. cbn. apply same_links_refl.
      * fold pos hv. intros _. rewrite Epos, Look.
        rewrite decide_False by done. rewrite decide_True by done.
        unfold Np. cbn [bounds bfirst blast last_ptr]. apply same_links_refl.
    + intros x Hx. cbn [preorder]. rewrite elem_of_cons. intros [->|X].
      * destruct (Al tmp Hx) as [? ?]. congruence.
      * by apply elem_of_nil in X.
    + cbn [preorder app]. apply NoDup_singleton.
  - intros q Hq. pose proof (Hal q Hq) as Hqt. destruct Hq as [x Hx].
    unfold count_upd. rewrite Hx, Look. rewrite decide_False by done.
    destruct (decide (q = pos)) as [->|N2].
    + assert (pn = x) as -> by congruence. unfold Np. by destruct (decide (hv = 0)).
    + destruct (decide (q = hv)) as [->|N3]; rewrite Hx; done.
  - exists Nt. rewrite Look, decide_True by done. done.
Qed.

Lemma hplug_cend f g : hplug (cend f) g = fapp f g.
Proof. induction f as [|p cs _ r IH]; simpl; [done|]. by rewrite IH. Qed.

Lemma fapp_nil_r f : fapp f FNil = f.
Proof. induction f as [|p cs _ r IH]; simpl; [done|]. by rewrite IH. Qed.

Lemma hpar_cend f u : hpar (cend f) u = u.
Proof. induction f as [|p cs _ r IH]; simpl; [done|]. apply IH. Qed.

Lemma cancestors_cend f : cancestors (cend f) = [].
Proof. induction f as [|p cs _ r IH]; simpl; [done|]. apply IH. Qed.

Lemma cancestors_hcomp C D : cancestors (hcomp C D) = cancestors D ++ cancestors C.
Proof.
  induction C as [|p C IH r|p cs C IH]; simpl; [by rewrite app_nil_r| |done].
  rewrite IH. by rewrite <- (assoc_L (++)).
Qed.

Lemma on_top_hcomp C D : on_top (hcomp C D) = on_top C && on_top D.
Proof. induction C as [|p C IH r|p cs C IH]; simpl; [done|done|apply IH]. Qed.

Lemma hplug_child_end C pos cs r g :
  hplug (child_end C pos cs r) g = hplug C (FCons pos (fapp cs g) r).
Proof. unfold child_end. rewrite hplug_hcomp. simpl. by rewrite hplug_cend. Qed.

Lemma append_child_hole (h : heap) t C x fuel :
  bookkept h t (hplug C FNil) -> on_top C = false ->
  length (cancestors C) < fuel ->
  exists h',
    append_child fuel h t (iterator_of (hpar C 0)) x = Ok (h', iterator_of (allocate h)) /\
    bookkept h' t (hplug C (FCons (allocate h) FNil FNil)).
Proof.
  intros B Top Hf. pose proof B as (R & Cn & Ch).
  destruct (rep_hole _ _ _ _ R) as (NDC & NhC & Nhg & AlC & Alg & Dis & [hd Hh]).
  destruct (allocate_fresh h) as [Htmp Htmp0]. set (tmp := allocate h) in *.
  set (N := set_visible (visible hd) (set_expanded (expanded hd) (node_of x))).
  set (pos := hpar C 0).
  assert (pos ∈ cptrs C) as HposC.
  { unfold pos. destruct (hpar_cases C 0) as [[T1 _]|[_ T2]]; [congruence|done]. }
  assert (pos ∈ preorder (hplug C FNil)) as Hpos by (by apply cptrs_preorder).
  assert (pos <> 0) as Hp0 by (by apply (rep_nonnull _ _ _ _ R)).
  assert (pos <> head t) as Hph by (intros X; by rewrite X in HposC).
  assert (pos <> feet t) as Hpf.
  { intros X. apply (rep_feet_fresh _ _ _ R). by rewrite <- X. }
  pose proof R as Rr. apply rep_raw in Rr. rewrite with_sentinels_hplug in Rr.
  assert (forall g, gext t C g = g) as Eg by (intros g; unfold gext; by rewrite Top).
  rewrite Eg in Rr.
  destruct (append_raw h (cext t C) tmp N Rr)
    as (pn & h2 & h3 & h4 & h5 & h6 & R1 & R2 & R3 & R4 & R5 & R6 & Rr6 & Cu6 &
        N' & EN' & CN' & PN' & _); try done.
  { by rewrite hpar_cext. }
  rewrite hpar_cext in *. fold pos in R1, R2, R3, R5, PN'.
  rewrite <- (Eg (FCons tmp FNil FNil)), <- with_sentinels_hplug in Rr6. apply rep_raw in Rr6.
  destruct (bookkeep_leaf h h6 t C FNil tmp N' fuel B Rr6 Cu6 Htmp EN') as (h' & Run & B');
    [by rewrite CN'|done|done|].
  exists h'. split; [|done].
  unfold append_child, iterator_of. cbn [node]. fold pos.
  rewrite (proj2 (Nat.eqb_neq pos (head t))) by done.
  rewrite (proj2 (Nat.eqb_neq pos (feet t))) by done.
  rewrite (proj2 (Nat.eqb_neq pos 0)) by done. cbn [orb].
  unfold new_node. rewrite (rd_some _ _ _ Hh). cbn [mbind outcome_bind obind].
  fold tmp N. rewrite R1. cbn [mbind outcome_bind obind].
  rewrite R2. cbn [mbind outcome_bind obind].
  rewrite R3. cbn [mbind outcome_bind obind].
  rewrite R4. cbn [mbind outcome_bind obind].
  rewrite R5. cbn [mbind outcome_bind obind].
  rewrite R6. cbn [mbind outcome_bind obind].
  rewrite Run. done.
Qed.

Lemma append_child_bookkept (h : heap) t C pos cs r x fuel :
  bookkept h t (hplug C (FCons pos cs r)) ->
  length (cancestors C) + 1 < fuel ->
  exists h',
    append_child fuel h t (iterator_of pos) x = Ok (h', iterator_of (allocate h)) /\
    bookkept h' t (hplug C (FCons pos (fsnoc cs (allocate h)) r)).
Proof.
  intros B Hf.
  destruct (append_child_hole h t (child_end C pos cs r) x fuel) as (h' & Run & B').
  - by rewrite hplug_child_end, fapp_nil_r.
  - unfold child_end. rewrite on_top_hcomp. simpl. apply andb_false_r.
  - unfold child_end. rewrite cancestors_hcomp. simpl.
    rewrite cancestors_cend, length_app. simpl. lia.
  - exists h'. split.
    + unfold child_end in Run. rewrite hpar_hcomp in Run. simpl in Run.
      by rewrite hpar_cend in Run.
    + rewrite hplug_child_end in B'. by rewrite fsnoc_fapp.
Qed.

Lemma erase_loop_spec (k : heap -> ptr -> outcome heap) (fuelk : nat) :
  (forall (h : heap) p cs nd,
     h !! p = Some nd -> first_child nd = first_ptr cs 0 -> links h p 0 cs 0 ->
     NoDup (p :: preorder cs) -> h !! 0 = None -> length (preorder cs) + 2 <= fuelk ->
     exists h', k h p = Ok h' /\
       forall q, h' !! q =
         if decide (q ∈ preorder cs) then None
         else if decide (q = p) then Some (set_last_child 0 (set_first_child 0 nd))
         else h !! q) ->
  forall f (h : heap) par prev fuel,
    links h par prev f 0 -> NoDup (preorder f) -> h !! 0 = None ->
    length (trees f) + 1 <= fuel ->
    Forall (fun x => length (preorder x.2) + 2 <= fuelk) (trees f) ->
    exists h', erase_loop fuel k h (first_ptr f 0) = Ok h' /\
      forall q, h' !! q = if decide (q ∈ preorder f) then None else h !! q.
Proof.
  intros Hk. induction f as [|p cs _ r IH]; intros h par prev fuel L ND H0 Hf Hsz;
    (destruct fuel as [|fuel]; [simpl in Hf; lia|]).
  - exists h. split; [done|]. intros q. cbn [preorder].
    by rewrite decide_False by apply not_elem_of_nil.
  - apply links_cons in L as (nd & Hp & _ & _ & Hnext & Hfc & _ & Lcs & Lr).
    assert (p <> 0) as Hp0 by (intros ->; congruence).
    cbn [preorder] in ND. apply NoDup_cons in ND as [Np ND].
    pose proof ND as ND'. apply NoDup_app in ND' as (NDcs & Dis & NDr).
    cbn [trees] in Hsz. apply Forall_cons in Hsz as [Hsz1 Hsz]. simpl in Hsz1.
    cbn [first_ptr erase_loop]. rewrite (proj2 (Nat.eqb_neq p 0)) by done.
    rewrite (rd_some _ _ _ Hp). cbn [mbind outcome_bind obind].
    destruct (Hk h p cs nd Hp Hfc Lcs) as (h1 & Run1 & Look1); [|done|done|].
    { apply NoDup_cons. split; [|done]. intros X. apply Np. apply elem_of_app. by left. }
    rewrite Run1. cbn [mbind outcome_bind obind].
    assert (h1 !! p = Some (set_last_child 0 (set_first_child 0 nd))) as Hp1.
    { rewrite Look1. rewrite decide_False by (intros X; apply Np, elem_of_app; by left).
      by rewrite decide_True. }
    rewrite (rd_some _ _ _ Hp1). cbn [mbind outcome_bind obind]. rewrite Hnext.
    assert (forall q, deallocate h1 p !! q =
              if decide (q ∈ p :: preorder cs) then None else h !! q) as Look2.
    { intros q. unfold deallocate. destruct (decide (q = p)) as [->|N].
      - rewrite lookup_delete_eq. by rewrite decide_True by (apply elem_of_cons; by left).
      - rewrite lookup_delete_ne by done. rewrite Look1.
        destruct (decide (q ∈ preorder cs)) as [Y|N'].
        + by rewrite decide_True by (apply elem_of_cons; by right).
        + rewrite decide_False by done.
          rewrite decide_False; [done|]. rewrite elem_of_cons. tauto. }
    destruct (IH (deallocate h1 p) par p fuel) as (h' & Run & Look').
    + apply (links_keep h _ r par p 0 Lr). intros q Hq. apply keeps_links_same.
      * eapply links_lookup; eauto.
      * rewrite Look2. rewrite decide_False; [done|].
        rewrite elem_of_cons. intros [->|X].
        -- apply Np. apply elem_of_app. by right.
        -- by apply (Dis q X).
    + done.
    + rewrite Look2. by destruct (decide (0 ∈ p :: preorder cs)).
    + simpl in Hf. lia.
    + done.
    + exists h'. split; [done|]. intros q. rewrite Look', Look2. cbn [preorder].
      destruct (decide (q ∈ preorder r)) as [Y|N].
      * rewrite decide_True; [done|]. apply elem_of_cons. right. apply elem_of_app. by right.
      * destruct (decide (q ∈ p :: preorder cs)) as [Y|N'].
        -- rewrite decide_True; [done|]. apply elem_of_cons in Y as [->|Y].
           ++ apply elem_of_cons. by left.
           ++ apply elem_of_cons. right. apply elem_of_app. by left.
        -- rewrite decide_False; [done|].
           rewrite elem_of_cons, elem_of_app. rewrite elem_of_cons in N'. tauto.
Qed.

Lemma length_trees f : length (trees f) <= length (preorder f).
Proof.
  induction f as [|p cs _ r IH]; simpl; [lia|]. rewrite length_app. lia.
Qed.

Lemma size_trees f : Forall (fun x => length (preorder x.2) + 1 <= length (preorder f)) (trees f).
Proof.
  induction f as [|p cs _ r IH]; simpl; [constructor|].
  constructor.
  - simpl. rewrite length_app. lia.
  - eapply Forall_impl; [exact IH|]. intros x Hx. cbn beta in Hx |- *.
    cbn [preorder length]. rewrite length_app. lia.
Qed.

Lemma erase_children_spec : forall fuel (h : heap) p cs nd,
  h !! p = Some nd -> first_child nd = first_ptr cs 0 -> links h p 0 cs 0 ->
  NoDup (p :: preorder cs) -> h !! 0 = None -> length (preorder cs) + 2 <= fuel ->
  exists h', erase_children_ fuel h p = Ok h' /\
    forall q, h' !! q =
      if decide (q ∈ preorder cs) then None
      else if decide (q = p) then Some (set_last_child 0 (set_first_child 0 nd))
      else h !! q.
Proof.
  induction fuel as [|fuel IH]; intros h p cs nd Hp Hfc L ND H0 Hf; [lia|].
  assert (p <> 0) as Hp0 by (intros ->; congruence).
  apply NoDup_cons in ND as [Np NDcs].
  cbn [erase_children_]. rewrite (proj2 (Nat.eqb_neq p 0)) by done.
  rewrite (rd_some _ _ _ Hp). cbn [mbind outcome_bind obind]. rewrite Hfc.
  destruct (erase_loop_spec (erase_children_ fuel) fuel IH cs h p 0 fuel L NDcs H0)
    as (h1 & Run & Look).
  { pose proof (length_trees cs). lia. }
  { eapply Forall_impl; [apply size_trees|]. intros x Hx. simpl in *. lia. }
  rewrite Run. cbn [mbind outcome_bind obind].
  assert (h1 !! p = Some nd) as Hp1 by (rewrite Look; by rewrite decide_False).
  rewrite (wr_some _ _ _ _ Hp1). cbn [mbind outcome_bind obind].
  rewrite (wr_some _ _ (set_first_child 0 nd)) by apply lookup_insert_eq.
  rewrite insert_insert_eq. eexists. split; [done|].
  intros q. destruct (decide (q = p)) as [->|N].
  - rewrite lookup_insert_eq. by rewrite decide_False.
  - rewrite lookup_insert_ne by done. apply Look.
Qed.

Lemma unbump_ancestors_spec cur cn l : forall (h : heap) p pe fuel,
  chain_up h p l -> NoDup l -> cur ∉ l -> h !! cur = Some cn -> length l < fuel ->
  exists h' pe', unbump_ancestors fuel h cur p pe = Ok (h', pe') /\ same_shape h h' /\
    h' !! cur = Some cn /\
    forall q, is_Some (h !! q) ->
      count_upd h h'
        (fun c => if decide (q ∈ l) then wrap (wrap (c - 1) - count cn) else c) q.
Proof.
  induction l as [|a l IH]; intros h p pe fuel C ND Nc Hc Hf;
    (destruct fuel as [|fuel]; [lia|]).
  - simpl in C. subst p. exists h, pe. split; [done|]. split; [apply same_shape_refl|].
    split; [done|]. intros q [nd Hq]. unfold count_upd. rewrite Hq.
    by rewrite decide_False by apply not_elem_of_nil.
  - simpl in C. destruct C as (-> & Hp0 & C).
    destruct (h !! p) as [nd|] eqn:Hp; [|done].
    apply NoDup_cons in ND as [Np ND].
    assert (cur <> p) as Hcp by (intros ->; apply Nc, elem_of_cons; by left).
    assert (cur ∉ l) as Ncl by (intros X; apply Nc, elem_of_cons; by right).
    cbn [unbump_ancestors]. rewrite (proj2 (Nat.eqb_neq p 0)) by done.
    rewrite (rd_some _ _ _ Hp). cbn [mbind outcome_bind obind].
    set (pe' := pe && expanded nd).
    set (nd1 := if pe' then set_count_expanded
                  (wrap (wrap (count_expanded nd - 1) - count_expanded cn)) nd else nd).
    set (h1 := if pe' then <[p := nd1]> h else h).
    assert ((if pe' then
               cn0 ← rd h cur;
               wr h p (fun n => set_count_expanded
                        (wrap (wrap (count_expanded n - 1) - count_expanded cn0)) n)
             else Ok h) = Ok h1) as ->.
    { unfold h1, nd1. destruct pe'; [|done].
      rewrite (rd_some _ _ _ Hc). cbn [mbind outcome_bind obind].
      by rewrite (wr_some _ _ _ _ Hp). }
    cbn [mbind outcome_bind obind].
    assert (h1 !! cur = Some cn) as Hc1.
    { unfold h1. destruct pe'; [|done]. by rewrite lookup_insert_ne by done. }
    assert (h1 !! p = Some nd1) as Hp1.
    { unfold h1, nd1. destruct pe'; [by rewrite lookup_insert_eq|done]. }
    rewrite (rd_some _ _ _ Hc1). cbn [mbind outcome_bind obind].
    rewrite (wr_some _ _ _ _ Hp1). cbn [mbind outcome_bind obind].
    set (nd2 := set_count _ nd1).
    rewrite (rd_some _ _ nd2) by apply lookup_insert_eq. cbn [mbind outcome_bind obind].
    assert (<[p := nd2]> h1 = <[p := nd2]> h) as Eh.
    { unfold h1. destruct pe'; [by rewrite insert_insert_eq|done]. }
    rewrite Eh.
    assert (parent nd2 = parent nd /\ same_links nd nd2 /\ data nd = data nd2 /\
            count nd2 = wrap (wrap (count nd - 1) - count cn)) as (E1 & E2 & E3 & E4).
    { unfold nd2, nd1. destruct pe'; simpl; repeat split; done. }
    rewrite E1.
    assert (same_shape h (<[p := nd2]> h)) as S1 by (by apply (same_shape_insert _ _ nd)).
    destruct (IH (<[p := nd2]> h) (parent nd) pe' fuel) as (h' & pe2 & Run & S2 & Hc' & Cn).
    + by apply (chain_up_shape h).
    + done.
    + done.
    + by rewrite lookup_insert_ne by done.
    + simpl in Hf. lia.
    + exists h', pe2. split; [exact Run|]. split; [by eapply same_shape_trans|].
      split; [done|].
      intros q [qd Hq]. destruct (decide (q = p)) as [->|Hne].
      * pose proof (Cn p ltac:(rewrite lookup_insert_eq; eauto)) as X.
        unfold count_upd in *. rewrite lookup_insert_eq in X. rewrite Hp.
        destruct (h' !! p) as [c|]; [|done].
        rewrite decide_False in X by done.
        rewrite decide_True by (apply elem_of_cons; by left). congruence.
      * pose proof (Cn q ltac:(rewrite lookup_insert_ne by done; eauto)) as X.
        unfold count_upd in *. rewrite lookup_insert_ne in X by done. rewrite Hq in *.
        destruct (h' !! q) as [c|]; [|done].
        destruct (decide (q ∈ l)) as [Y|N].
        -- rewrite decide_True by (apply elem_of_cons; by right). done.
        -- rewrite decide_False; [done|]. rewrite elem_of_cons. tauto.
Qed.

Lemma unbump_head_spec (h : heap) t cur cn pe :
  is_Some (h !! head t) -> h !! cur = Some cn -> cur <> head t ->
  exists h', unbump_head h t cur pe = Ok h' /\ same_shape h h' /\
    h' !! cur = Some cn /\
    forall q, is_Some (h !! q) ->
      count_upd h h'
        (fun c => if decide (q = head t) then wrap (wrap (c - 1) - count cn) else c) q.
Proof.
  intros [hd Hh] Hc Hne. unfold unbump_head.
  set (hd1 := if pe then set_count_expanded
                (wrap (wrap (count_expanded hd - 1) - count_expanded cn)) hd else hd).
  set (h1 := if pe then <[head t := hd1]> h else h).
  assert ((if pe then
             cn0 ← rd h cur;
             wr h (head t) (fun n => set_count_expanded
                      (wrap (wrap (count_expanded n - 1) - count_expanded cn0)) n)
           else Ok h) = Ok h1) as ->.
  { unfold h1, hd1. destruct pe; [|done].
    rewrite (rd_some _ _ _ Hc). cbn [mbind outcome_bind obind].
    by rewrite (wr_some _ _ _ _ Hh). }
  cbn [mbind outcome_bind obind].
  assert (h1 !! cur = Some cn) as Hc1.
  { unfold h1. destruct pe; [|done]. by rewrite lookup_insert_ne by done. }
  assert (h1 !! head t = Some hd1) as Hh1.
  { unfold h1, hd1. destruct pe; [by rewrite lookup_insert_eq|done]. }
  rewrite (rd_some _ _ _ Hc1). cbn [mbind outcome_bind obind].
  rewrite (wr_some _ _ _ _ Hh1).
  set (hd2 := set_count _ hd1).
  assert (<[head t := hd2]> h1 = <[head t := hd2]> h) as ->.
  { unfold h1. destruct pe; [by rewrite insert_insert_eq|done]. }
  assert (same_links hd hd2 /\ data hd = data hd2 /\
          count hd2 = wrap (wrap (count hd - 1) - count cn)) as (E2 & E3 & E4).
  { unfold hd2, hd1. destruct pe; simpl; repeat split; done. }
  eexists. split; [done|]. split; [by apply (same_shape_insert _ _ hd)|].
  split; [by rewrite lookup_insert_ne by done|].
  intros q [qd Hq]. unfold count_upd. rewrite Hq.
  destruct (decide (q = head t)) as [->|Hne'].
  - rewrite lookup_insert_eq. congruence.
  - by rewrite lookup_insert_ne, Hq.
Qed.

Lemma erase_raw (h : heap) C cur cs r fuel :
  raw h (hplug C (FCons cur cs r)) ->
  (hprev C 0 = 0 -> hpar C 0 <> 0) ->
  (first_ptr r 0 = 0 -> hpar C 0 <> 0) ->
  length (preorder cs) + 2 <= fuel ->
  exists nd h1 cn h2 h3,
    h !! cur = Some nd /\
    erase_children_ fuel h cur = Ok h1 /\ rd h1 cur = Ok cn /\
    (if prev_sibling cn =? 0 then wr h1 (parent cn) (set_first_child (next_sibling cn))
     else wr h1 (prev_sibling cn) (set_next_sibling (next_sibling cn))) = Ok h2 /\
    (if next_sibling cn =? 0 then wr h2 (parent cn) (set_last_child (prev_sibling cn))
     else wr h2 (next_sibling cn) (set_prev_sibling (prev_sibling cn))) = Ok h3 /\
    parent cn = hpar C 0 /\ h3 !! cur = Some cn /\ count cn = count nd /\
    raw (deallocate h3 cur) (hplug C r) /\
    (forall q, q ∉ cur :: preorder cs -> is_Some (h !! q) -> count_upd h h3 id q).
Proof.
  intros R Hpv Hnx Hf.
  destruct (raw_hole _ _ _ R) as (H0 & N0C & NDC & NDg & Dis & N0g & Lg & Al & Ch & Fp & Fv).
  set (hp := hpar C 0) in *. set (hv := hprev C 0) in *. set (nx := first_ptr r 0) in *.
  pose proof Lg as Lg'.
  apply links_cons in Lg' as (nd & Ecur & Ppar & Pprev & Pnext & Pfc & Plc & Lcs & Lr).
  fold nx in Pnext.
  cbn [preorder] in NDg, Dis, N0g.
  pose proof NDg as NDg'. apply NoDup_cons in NDg' as [Ncur NDg'].
  apply NoDup_app in NDg' as (NDcs & Dis2 & NDr).
  assert (cur <> 0) as Hcur0 by (intros ->; congruence).
  destruct (erase_children_spec fuel h cur cs nd Ecur Pfc Lcs) as (h1 & Run1 & Look1);
    [|done|done|].
  { apply NoDup_cons. split; [|done]. intros X. apply Ncur. apply elem_of_app. by left. }
  set (cn := set_last_child 0 (set_first_child 0 nd)).
  assert (h1 !! cur = Some cn) as Ecur1.
  { rewrite Look1. rewrite decide_False by (intros X; apply Ncur, elem_of_app; by left).
    by rewrite decide_True. }
  assert (forall q, q ∉ cur :: preorder cs -> h1 !! q = h !! q) as Out1.
  { intros q Hq. rewrite Look1. rewrite elem_of_cons in Hq.
    rewrite decide_False by tauto. rewrite decide_False by tauto. done. }
  assert (forall q, q ∈ cptrs C -> q ∉ cur :: preorder cs) as HC.
  { intros q Hq X. apply (Dis q Hq). apply elem_of_cons in X as [->|X].
    - apply elem_of_cons. by left.
    - apply elem_of_cons. right. apply elem_of_app. by left. }
  assert (forall q, q ∈ preorder r -> q ∉ cur :: preorder cs) as Hr.
  { intros q Hq X. apply elem_of_cons in X as [->|X].
    - apply Ncur. apply elem_of_app. by right.
    - by apply (Dis2 q X). }
  assert (forall q, q ∈ preorder r -> is_Some (h !! q)) as Alr.
  { intros q Hq. by apply (links_lookup _ _ _ _ _ _ Lr). }
  (* the first assignment *)
  set (w1 := if hv =? 0 then hp else hv).
  set (g1 := if hv =? 0 then set_first_child nx else set_next_sibling nx
             : tree_node_ T -> tree_node_ T).
  assert (w1 ∈ cptrs C) as Hw1C.
  { unfold w1. destruct (Nat.eqb_spec hv 0) as [E|E]; [by apply Fp, Hpv|by apply Fv]. }
  destruct (Al w1 Hw1C) as [w1d Ew1].
  set (h2 := <[w1 := g1 w1d]> h1).
  (* the second assignment *)
  set (w3 := if nx =? 0 then hp else nx).
  set (g3 := if nx =? 0 then set_last_child hv else set_prev_sibling hv
             : tree_node_ T -> tree_node_ T).
  assert (nx <> 0 -> nx ∈ preorder r) as Hnxr.
  { intros E. unfold nx in *. destruct r as [|q qcs r']; [done|]. apply elem_of_cons. by left. }
  assert (w3 ∈ cptrs C \/ w3 ∈ preorder r) as Hw3.
  { unfold w3. destruct (Nat.eqb_spec nx 0) as [E|E]; [left; by apply Fp, Hnx|right; auto]. }
  assert (w3 ∉ cur :: preorder cs) as Hw3n by (destruct Hw3; auto).
  assert (is_Some (h !! w3)) as [w3d0 Ew3] by (destruct Hw3; auto).
  set (w3d := if decide (w3 = w1) then g1 w1d else w3d0).
  assert (h2 !! w3 = Some w3d) as Ew32.
  { unfold h2, w3d. destruct (decide (w3 = w1)) as [->|N].
    - by rewrite lookup_insert_eq.
    - rewrite lookup_insert_ne by done. by rewrite Out1. }
  set (h3 := <[w3 := g3 w3d]> h2).
  assert (forall q, q ∉ cur :: preorder cs -> h3 !! q =
            (if decide (q = w3) then g3 else id) <$>
            ((if decide (q = w1) then g1 else id) <$> h !! q)) as Look.
  { intros q Hq. unfold h3. destruct (decide (q = w3)) as [->|N3].
    - rewrite lookup_insert_eq. unfold w3d.
      destruct (decide (w3 = w1)) as [E|N1].
      + rewrite E, Ew1. done.
      + rewrite Ew3. done.
    - rewrite lookup_insert_ne by done. unfold h2.
      destruct (decide (q = w1)) as [->|N1].
      + rewrite lookup_insert_eq, Ew1. done.
      + rewrite lookup_insert_ne by done. rewrite (Out1 q Hq). by destruct (h !! q). }
  assert (h3 !! cur = Some cn) as Ecur3.
  { unfold h3, h2. rewrite !lookup_insert_ne; [done| |].
    - intros X. apply (HC w1 Hw1C). rewrite X. apply elem_of_cons. by left.
    - intros X. apply Hw3n. rewrite X. apply elem_of_cons. by left. }
  exists nd, h1, cn, h2, h3.
  split; [done|]. split; [done|]. split; [by apply rd_some|].
  split; [|split; [|split; [done|split; [done|split; [done|split]]]]].
  - unfold cn. cbn. rewrite Pprev, Ppar, Pnext. unfold h2, g1. revert Ew1. unfold w1.
    destruct (Nat.eqb_spec hv 0) as [E|E]; intros Ew1;
      (apply wr_some; rewrite Out1; [done|]).
    + apply HC. by apply Fp, Hpv.
    + apply HC. by apply Fv.
  - unfold cn. cbn. rewrite Pprev, Ppar, Pnext. unfold h3, g3. revert Ew32.
    generalize w3d. unfold w3.
    destruct (Nat.eqb_spec nx 0) as [E|E]; intros x Ex; by apply wr_some.
  - apply (raw_replace h _ C (FCons cur cs r)); [done| | | | |].
    + unfold deallocate. rewrite lookup_delete_ne by congruence.
      unfold h3, h2. rewrite !lookup_insert_ne; [rewrite Out1; [done|] | |].
      * intros X. apply N0g. rewrite elem_of_cons in X.
        rewrite elem_of_cons, elem_of_app. tauto.
      * intros X. rewrite X in Hw1C. done.
      * intros X. rewrite X in Hw3. destruct Hw3 as [?|Y]; [done|].
        apply N0g. apply elem_of_cons. right. apply elem_of_app. by right.
    + fold hp hv.
      apply (links_reprev h _ r hp cur hv 0 Lr); [| |done].
      * intros q Hq Hqn. fold nx in Hqn.
        pose proof (Hr q Hq) as Hq'.
        unfold keeps_links, deallocate. rewrite lookup_delete_ne.
        2:{ intros ->. apply Hq'. apply elem_of_cons. by left. }
        rewrite (Look q Hq'). destruct (Alr q Hq) as [x Hx]. rewrite Hx.
        rewrite (decide_False (P := q = w1)).
        2:{ intros ->. apply (Dis w1 Hw1C). apply elem_of_cons. right.
            apply elem_of_app. by right. }
        rewrite (decide_False (P := q = w3)).
        2:{ unfold w3. destruct (Nat.eqb_spec nx 0) as [E|E]; [|done].
            intros ->. apply (Dis hp); [by apply Fp, Hnx|].
            apply elem_of_cons. right. apply elem_of_app. by right. }
        cbn. apply same_links_refl.
      * intros NR. fold nx.
        assert (nx <> 0) as En.
        { unfold nx. destruct r as [|q qcs r']; [done|]. simpl. intros ->.
          apply N0g. apply elem_of_cons. right. apply elem_of_app. right.
          apply elem_of_cons. by left. }
        pose proof (Hnxr En) as Hin. pose proof (Hr nx Hin) as Hq'.
        destruct (Alr nx Hin) as [x Hx]. rewrite Hx.
        unfold deallocate. rewrite lookup_delete_ne.
        2:{ intros X. apply Hq'. rewrite <- X. apply elem_of_cons. by left. }
        rewrite (Look nx Hq'), Hx.
        assert (w3 = nx) as Ew by (unfold w3; by rewrite (proj2 (Nat.eqb_neq nx 0))).
        rewrite (decide_False (P := nx = w1)).
        2:{ intros X. rewrite <- X in Hw1C. apply (Dis nx Hw1C). apply elem_of_cons. right.
            apply elem_of_app. by right. }
        rewrite (decide_True (P := nx = w3)) by done.
        cbn. unfold g3. rewrite (proj2 (Nat.eqb_neq nx 0)) by done. apply same_links_refl.
    + apply (ctx_upd_intro h _ C (FCons cur cs r)); [done| | |].
      * intros p Hp Hp1 Hp2. fold hp in Hp1. fold hv in Hp2.
        pose proof (HC p Hp) as Hp'. destruct (Al p Hp) as [x Hx].
        unfold keeps_links, deallocate. rewrite lookup_delete_ne.
        2:{ intros ->. apply Hp'. apply elem_of_cons. by left. }
        rewrite (Look p Hp'), Hx.
        rewrite (decide_False (P := p = w1)) by (unfold w1; destruct (hv =? 0); congruence).
        rewrite (decide_False (P := p = w3)).
        2:{ unfold w3. destruct (Nat.eqb_spec nx 0) as [E|E]; [congruence|].
            intros ->. apply (Dis nx Hp). apply elem_of_cons. right.
            apply elem_of_app. right. by apply Hnxr. }
        cbn. apply same_links_refl.
      * fold hv. intros E. destruct (Fv E) as (Hin & Hne & vnd & Ev & _).
        pose proof (HC hv Hin) as Hp'.
        unfold deallocate. rewrite lookup_delete_ne.
        2:{ intros X. apply Hp'. rewrite <- X. apply elem_of_cons. by left. }
        rewrite (Look hv Hp'), Ev.
        assert (w1 = hv) as Ew by (unfold w1; by rewrite (proj2 (Nat.eqb_neq hv 0))).
        rewrite (decide_True (P := hv = w1)) by done.
        rewrite (decide_False (P := hv = w3)).
        2:{ unfold w3. fold hp in Hne. destruct (Nat.eqb_spec nx 0) as [E'|E']; [done|].
            intros X. rewrite X in Hin. apply (Dis nx Hin). apply elem_of_cons. right.
            apply elem_of_app. right. by apply Hnxr. }
        cbn. unfold g1. rewrite (proj2 (Nat.eqb_neq hv 0)) by done.
        rewrite <- first_ptr_bounds. apply same_links_refl.
      * fold hp hv. intros E. destruct (Fp E) as (Hin & pnd & Ep & Elc & Efc).
        pose proof (HC hp Hin) as Hp'.
        unfold deallocate. rewrite lookup_delete_ne.
        2:{ intros X. apply Hp'. rewrite <- X. apply elem_of_cons. by left. }
        rewrite (Look hp Hp'), Ep. rewrite <- first_ptr_bounds, <- last_ptr_bounds.
        fold nx. cbn [bounds blast] in Elc.
        assert (hp <> nx \/ nx = 0) as Hpn.
        { destruct (Nat.eq_dec nx 0) as [?|E']; [by right|left].
          intros X. rewrite X in Hin. apply (Dis nx Hin). apply elem_of_cons. right.
          apply elem_of_app. right. by apply Hnxr. }
        unfold w1, w3, g1, g3.
        destruct (Nat.eqb_spec hv 0) as [Ev|Ev]; destruct (Nat.eqb_spec nx 0) as [En|En].
        -- rewrite !decide_True by done. cbn.
           assert (r = FNil) as -> by (unfold nx in En; destruct r; [done|];
             simpl in En; subst; exfalso; apply N0g; apply elem_of_cons; right;
             apply elem_of_app; right; apply elem_of_cons; by left).
           apply same_links_refl.
        -- rewrite (decide_True (P := hp = hp)) by done.
           rewrite (decide_False (P := hp = nx)) by (destruct Hpn; done).
           rewrite decide_True by done. cbn. unfold same_links. cbn.
           rewrite Elc. destruct r as [|q qcs r']; done.
        -- destruct (Fv Ev) as (_ & Hne & _). fold hp in Hne.
           rewrite (decide_False (P := hp = hv)) by (by apply not_eq_sym).
           rewrite (decide_True (P := hp = hp)) by done.
           rewrite decide_False by done. cbn.
           assert (r = FNil) as -> by (unfold nx in En; destruct r; [done|];
             simpl in En; subst; exfalso; apply N0g; apply elem_of_cons; right;
             apply elem_of_app; right; apply elem_of_cons; by left).
           apply same_links_refl.
        -- destruct (Fv Ev) as (_ & Hne & _). fold hp in Hne.
           rewrite (decide_False (P := hp = hv)) by (by apply not_eq_sym).
           rewrite (decide_False (P := hp = nx)) by (destruct Hpn; done).
           rewrite decide_False by done. cbn. unfold same_links. cbn.
           rewrite Elc. destruct r as [|q qcs r']; done.
    + intros x Hx X. apply (Dis x Hx). apply elem_of_cons. right. apply elem_of_app. by right.
    + done.
  - intros q Hq [x Hx]. unfold count_upd. rewrite Hx, (Look q Hq), Hx.
    unfold g1, g3. destruct (decide (q = w1)), (decide (q = w3));
      destruct (hv =? 0), (nx =? 0); done.
Qed.

Lemma same_shape_delete (h h' : heap) p :
  same_shape h h' -> same_shape (deallocate h p) (deallocate h' p).
Proof.
  intros S q. unfold deallocate. destruct (decide (q = p)) as [->|N].
  - by rewrite !lookup_delete_eq.
  - rewrite !lookup_delete_ne by done. apply S.
Qed.

Lemma chain_up_ext (h h' : heap) l : forall p,
  chain_up h p l -> (forall q, q ∈ l -> h' !! q = h !! q) -> chain_up h' p l.
Proof.
  induction l as [|a l IH]; intros p C E; [done|].
  simpl in *. destruct C as (-> & Hp & C). split; [done|]. split; [done|].
  rewrite (E p) by (apply elem_of_cons; by left).
  destruct (h !! p) as [nd|]; [|done]. apply IH; [done|].
  intros q Hq. apply E. apply elem_of_cons. by right.
Qed.

Lemma gext_node t C cur cs r : gext t C (FCons cur cs r) = FCons cur cs (gext t C r).
Proof. unfold gext. by destruct (on_top C). Qed.

Lemma cext_next (h : heap) t C g r :
  tree_rep h t (hplug C g) -> (forall q, q ∈ preorder r -> q ∈ preorder g) ->
  first_ptr (gext t C r) 0 = 0 -> hpar (cext t C) 0 <> 0.
Proof.
  intros R Sub E. rewrite hpar_cext. unfold gext in E.
  destruct (on_top C) eqn:Top.
  - rewrite first_ptr_fsnoc in E. exfalso.
    destruct r as [|q qcs r']; simpl in E.
    + by apply (rep_feet_nonnull _ _ _ R).
    + subst q. apply (rep_nonnull _ _ _ 0 R); [|done]. apply hole_preorder, Sub.
      apply elem_of_cons. by left.
  - destruct (hpar_cases C 0) as [[T1 _]|[_ T2]]; [congruence|].
    intros Y. rewrite Y in T2.
    apply (rep_nonnull _ _ _ 0 R); [|done]. by apply cptrs_preorder.
Qed.

Lemma wrap_unbump c k : wrap (wrap (wrap c - 1) - wrap k) = wrap (c - 1 - k).
Proof.
  unfold wrap. rewrite Zminus_mod_idemp_l, Zminus_mod_idemp_r.
  rewrite <- !Z.sub_add_distr. by rewrite Zminus_mod_idemp_l.
Qed.

Lemma length_cancestors C : length (cancestors C) <= length (cptrs C).
Proof.
  induction C as [|p C IH r|p cs C IH]; simpl; [lia| |].
  - rewrite !length_app. simpl. lia.
  - rewrite !length_app. lia.
Qed.

Lemma erase_bookkept (h : heap) t C cur cs r it fuel :
  bookkept h t (hplug C (FCons cur cs r)) ->
  node it = cur ->
  2 * length (preorder (hplug C (FCons cur cs r))) + 2 <= fuel ->
  exists h' ret,
    erase fuel h t it = Ok (h', ret) /\ bookkept h' t (hplug C r).
Proof.
  intros (R & Cn & Ch) Hit Hf.
  set (G := FCons cur cs r) in *.
  destruct (rep_hole _ _ _ _ R) as (NDC & NhC & Nhg & AlC & Alg & Dis & [hd Hh]).
  assert (cur ∈ preorder G) as Hcur by (apply elem_of_cons; by left).
  assert (cur <> head t) as Hch by (intros X; by rewrite X in Hcur).
  assert (length (preorder (hplug C G)) =
          length (cptrs C) + length (preorder G)) as Elen.
  { by rewrite preorder_hplug, length_app. }
  assert (length (preorder G) = S (length (preorder cs) + length (preorder r))) as ElenG.
  { unfold G. simpl. by rewrite length_app. }
  (* the iterator that is returned *)
  assert (exists ret, pre_incr fuel h (mk_it cur true) = Ok ret) as [ret Hret].
  { pose proof (tree_walk h t _ fuel R) as W.
    assert (cur ∈ preorder (hplug C G)) as Hin by (by apply hole_preorder).
    apply subtree_of_elem in Hin as [cs' S].
    destruct (walk_ok_sub fuel h (hplug C G) cur cs' (feet t)) as (_ & Sk & _); [|done|].
    - apply W. pose proof (fdepth_le (hplug C G)). lia.
    - eexists. exact Sk. }
  (* unlinking *)
  pose proof R as Rr. apply rep_raw in Rr. rewrite with_sentinels_hplug in Rr.
  unfold G in Rr. rewrite gext_node in Rr.
  destruct (erase_raw h (cext t C) cur cs (gext t C r) fuel Rr)
    as (nd & h1 & cn & h2 & h3 & Ecur & Run1 & Rd1 & Run2 & Run3 & Pcn & Ecur3 & Ccn & Rr3 & Cu3).
  { by apply (cext_prev h t C G). }
  { apply (cext_next h t C G r R). intros q Hq. apply elem_of_cons. right.
    apply elem_of_app. by right. }
  { lia. }
  rewrite hpar_cext in Pcn.
  rewrite <- with_sentinels_hplug in Rr3. apply rep_raw in Rr3.
  (* the counters *)
  assert (count nd = wrap (Z.of_nat (length (preorder cs)))) as Cnd.
  { apply counts_hplug in Cn as [_ Cg]. unfold G in Cg. simpl in Cg. rewrite Ecur in Cg.
    tauto. }
  assert (cur ∉ cancestors C) as Nca.
  { intros X. by apply (Dis cur (cancestors_cptrs _ _ X)). }
  assert (chain_up h3 (hpar C 0) (cancestors C)) as Chain.
  { pose proof Rr3 as Rr3'. apply rep_raw in Rr3'. rewrite with_sentinels_hplug in Rr3'.
    destruct (raw_hole _ _ _ Rr3') as (_ & _ & _ & _ & _ & _ & _ & _ & X & _).
    rewrite hpar_cext, cancestors_cext in X.
    apply (chain_up_ext _ _ _ _ X). intros q Hq. unfold deallocate.
    rewrite lookup_delete_ne; [done|]. intros ->. done. }
  destruct (unbump_ancestors_spec cur cn (cancestors C) h3 (hpar C 0) true fuel Chain)
    as (h4 & pe & Run4 & S4 & Ecur4 & Cu4); try done.
  { by apply NoDup_cancestors. }
  { pose proof (length_cancestors C). lia. }
  assert (is_Some (h3 !! head t)) as Hh3.
  { assert (head t ∉ cur :: preorder cs) as X.
    { intros X. apply Nhg. unfold G. cbn [preorder]. rewrite elem_of_cons in X.
      rewrite elem_of_cons, elem_of_app. tauto. }
    pose proof (Cu3 (head t) X ltac:(eauto)) as Y. unfold count_upd in Y. rewrite Hh in Y.
    destruct (h3 !! head t); [eauto|done]. }
  destruct Hh3 as [hd3 Hh3].
  destruct (same_shape_lookup _ _ _ _ S4 Hh3) as (hd4 & Hh4 & _).
  destruct (unbump_head_spec h4 t cur cn pe) as (h5 & Run5 & S5 & Ecur5 & Cu5); [eauto|done|done|].
  set (h' := deallocate h5 cur).
  assert (forall q, q ∉ cur :: preorder cs -> is_Some (h !! q) ->
    count_upd h h' (fun c => if decide (q ∈ cancestors C \/ q = head t)
                             then wrap (wrap (c - 1) - count cn) else c) q) as Cu.
  { intros q Hq Hal. pose proof (Cu3 q Hq Hal) as X3.
    assert (is_Some (h3 !! q)) as Hq3.
    { unfold count_upd in X3. destruct (h !! q); [|done]. destruct (h3 !! q); [eauto|done]. }
    pose proof (Cu4 q Hq3) as X4.
    assert (is_Some (h4 !! q)) as Hq4.
    { unfold count_upd in X4. destruct (h3 !! q); [|done]. destruct (h4 !! q); [eauto|done]. }
    pose proof (Cu5 q Hq4) as X5.
    pose proof (count_upd_trans _ _ _ _ _ _ (count_upd_trans _ _ _ _ _ _ X3 X4) X5) as X.
    unfold count_upd in X |- *. unfold h', deallocate. rewrite lookup_delete_ne.
    2:{ intros ->. apply Hq. apply elem_of_cons. by left. }
    destruct (h !! q) as [a|]; [|done]. destruct (h5 !! q) as [c|]; [|done].
    rewrite X. unfold id.
    destruct (decide (q ∈ cancestors C)) as [Y|N].
    - rewrite decide_False by (intros ->; apply NhC; by apply cancestors_cptrs).
      rewrite decide_True by (by left). done.
    - destruct (decide (q = head t)) as [->|N2].
      + rewrite decide_True by (by right). done.
      + rewrite decide_False by tauto. done. }
  exists h', ret. split.
  - unfold erase. rewrite Hit.
    rewrite (proj2 (Nat.eqb_neq cur (head t))) by done.
    rewrite Hret. cbn [mbind outcome_bind obind].
    rewrite Run1. cbn [mbind outcome_bind obind].
    rewrite Rd1. cbn [mbind outcome_bind obind].
    rewrite Run2. cbn [mbind outcome_bind obind].
    rewrite Run3. cbn [mbind outcome_bind obind].
    rewrite Pcn, Run4. cbn [mbind outcome_bind obind].
    rewrite Run5. cbn [mbind outcome_bind obind].
    rewrite (rd_some _ _ _ Ecur5). done.
  - split; [|split].
    + apply (tree_rep_shape (deallocate h3 cur)); [done|].
      apply same_shape_delete. by apply (same_shape_trans _ h4).
    + apply (counts_replace h h' C G r (- (1 + Z.of_nat (length (preorder cs))))); [done|done| | |].
      * apply counts_hplug in Cn as [_ Cg]. unfold G in Cg. cbn [counts_ok] in Cg.
        destruct Cg as (_ & _ & Cr). apply (counts_keep h h'); [done|].
        intros q Hq.
        assert (q ∈ preorder G) as HqG.
        { unfold G. apply elem_of_cons. right. apply elem_of_app. by right. }
        assert (q ∉ cur :: preorder cs) as Hq'.
        { pose proof (rep_nodup _ _ _ R) as ND. apply NoDup_cons in ND as [_ ND].
          apply NoDup_cons in ND as [_ ND]. rewrite preorder_hplug in ND.
          apply NoDup_app in ND as (_ & _ & ND). unfold G in ND. cbn [preorder] in ND.
          apply NoDup_cons in ND as [N1 ND]. apply NoDup_app in ND as (_ & D2 & _).
          rewrite elem_of_cons. intros [->|X].
          - apply N1. apply elem_of_app. by right.
          - by apply (D2 q X). }
        pose proof (Cu q Hq' (Alg q HqG)) as X.
        unfold count_upd in *. destruct (h !! q); [|done]. destruct (h' !! q); [|done].
        rewrite decide_False in X; [done|].
        intros [Y| ->]; [|done]. by apply (Dis q (cancestors_cptrs _ _ Y)).
      * intros p Hp.
        assert (p ∉ cur :: preorder cs) as Hp'.
        { intros X. apply (Dis p Hp). unfold G. cbn [preorder]. rewrite elem_of_cons in X.
          rewrite elem_of_cons, elem_of_app. tauto. }
        pose proof (Cu p Hp' (AlC p Hp)) as X.
        unfold count_upd in *. destruct (h !! p) as [a|]; [|done].
        destruct (h' !! p) as [c|]; [|done].
        destruct (decide (p ∈ cancestors C)) as [Y|Nn].
        -- rewrite decide_True in X by (by left). rewrite X, Ccn, Cnd.
           unfold wrap. rewrite Zminus_mod_idemp_l, Zminus_mod_idemp_r.
           f_equal. lia.
        -- rewrite decide_False in X; [done|]. intros [?| ->]; done.
      * rewrite ElenG. lia.
    + assert (head t ∉ cur :: preorder cs) as Hn.
      { intros X. apply Nhg. unfold G. cbn [preorder]. rewrite elem_of_cons in X.
        rewrite elem_of_cons, elem_of_app. tauto. }
      pose proof (Cu (head t) Hn ltac:(eauto)) as X. unfold count_upd in X.
      rewrite Hh in X. rewrite Hh in Ch. simpl in Ch. injection Ch as Ch.
      destruct (h' !! head t) as [c|]; [|done]. simpl.
      rewrite decide_True in X by (by right). rewrite X, Ch, Ccn, Cnd.
      f_equal. rewrite wrap_unbump. f_equal.
      rewrite !length_preorder_hplug. rewrite ElenG.
      replace (Z.of_nat (S (length (preorder cs) + length (preorder r))))
        with (Z.of_nat (length (preorder r)) + (1 + Z.of_nat (length (preorder cs))))%Z by lia.
      rewrite csize_shift. lia.
Qed.

Lemma hole_at f : forall pos,
  pos ∈ preorder f -> exists C cs r, f = hplug C (FCons pos cs r).
Proof.
  induction f as [|p cs IHcs r IHr]; intros pos Hp; [by apply elem_of_nil in Hp|].
  simpl in Hp. apply elem_of_cons in Hp as [->|Hp].
  - by exists HHole, cs, r.
  - apply elem_of_app in Hp as [Hp|Hp].
    + destruct (IHcs pos Hp) as (C & cs' & r' & ->). by exists (HChild p C r), cs', r'.
    + destruct (IHr pos Hp) as (C & cs' & r' & ->). by exists (HRest p cs C), cs', r'.
Qed.

Lemma of_trees_app l1 l2 rest : of_trees (l1 ++ l2) rest = of_trees l1 (of_trees l2 rest).
Proof. induction l1 as [|[p cs] l1 IH]; simpl; [done|]. by rewrite IH. Qed.

(** Every node of a forest, with the [k] siblings that follow it (or with
    all of them, if they are fewer), is a range of siblings in a hole. *)
Lemma sibling_range_at f pos k :
  pos ∈ preorder f ->
  exists C ts rest,
    f = hplug C (of_trees ts rest) /\ ts <> [] /\
    first_ptr (of_trees ts FNil) 0 = pos /\ (length ts = S k \/ rest = FNil).
Proof.
  intros Hp. destruct (hole_at f pos Hp) as (C & cs & r & ->).
  exists C, ((pos, cs) :: take k (trees r)), (of_trees (drop k (trees r)) FNil).
  split; [|split; [done|split; [done|]]].
  - cbn [of_trees]. by rewrite <- of_trees_app, take_drop, of_trees_trees.
  - destruct (Nat.le_gt_cases k (length (trees r))) as [Hle|Hgt].
    + left. simpl. rewrite length_take. lia.
    + right. by rewrite drop_ge by lia.
Qed.

Lemma counts_children_sum (h : heap) cs :
  counts_ok h cs -> wrap (Z.of_nat (length (preorder cs))) = wrap (children_sum h cs).
Proof.
  unfold children_sum. induction cs as [|c ccs _ r IH]; intros Ok; [done|].
  simpl in Ok. destruct Ok as (Oc & _ & Or).
  destruct (h !! c) as [nd|] eqn:E; [|done].
  cbn [roots foldr preorder length]. rewrite E. unfold default at 1. cbn [from_option id].
  specialize (IH Or). rewrite length_app, Oc. unfold wrap in *.
  rewrite Nat2Z.inj_succ, Nat2Z.inj_add.
  rewrite <- (Zplus_mod_idemp_r (foldr _ _ _)), <- IH, Zplus_mod_idemp_r.
  rewrite <- Z.add_assoc, (Z.add_comm 1), <- !Z.add_assoc.
  rewrite Zplus_mod_idemp_l. f_equal. lia.
Qed.

(** In a tree whose counters are in order, the counter of every node is
    the sum over its children of one plus the counter of the child, and a
    leaf counts 0. *)
Lemma bookkept_children_sum (h : heap) t f p cs :
  bookkept h t f -> subtree_of f p = Some cs ->
  count <$> h !! p = Some (wrap (children_sum h cs)).
Proof.
  intros (R & Cn & _) S. clear R. revert Cn S.
  induction f as [|q qcs IHcs r IHr]; intros Cn S; [done|].
  simpl in Cn, S. destruct Cn as (Oq & Ocs & Or).
  destruct (Nat.eqb_spec q p) as [->|Hne].
  - injection S as <-. destruct (h !! p) as [nd|]; [|done]. simpl.
    by rewrite Oq, (counts_children_sum h qcs).
  - destruct (subtree_of qcs p) eqn:E.
    + injection S as <-. by apply IHcs.
    + by apply IHr.
Qed.

(** The counters that [insert(iter, const T&)],
    [append_child(iter, const T&)] and [erase] keep: when every node of a
    well-formed tree counts its proper descendants and the head sentinel
    counts all nodes (modulo 2^64), this is so again after
    [insert(position, x)] at the end of the tree or in front of any node,
    after [append_child(position, x)] and after [erase(position)] at any
    node; the calls return, and the tree they leave is the old one with the
    new leaf linked in, or with the erased subtree taken out. *)
Theorem bookkeeping_preserved (h : heap) (t : tree) (f : forest) (fuel : nat) :
  bookkept h t f ->
  2 * length (preorder f) + 2 <= fuel ->
  (forall sk x, exists h',
     insert fuel h t (mk_it 0 sk) x = Ok (h', iterator_of (allocate h)) /\
     insert fuel h t (mk_it (feet t) sk) x = Ok (h', iterator_of (allocate h)) /\
     bookkept h' t (fsnoc f (allocate h))) /\
  (forall position x, node position ∈ preorder f ->
     exists C cs r, f = hplug C (FCons (node position) cs r) /\
       (exists h',
          insert fuel h t position x = Ok (h', iterator_of (allocate h)) /\
          bookkept h' t
            (hplug C (FCons (allocate h) FNil (FCons (node position) cs r)))) /\
       (exists h',
          append_child fuel h t position x = Ok (h', iterator_of (allocate h)) /\
          bookkept h' t (hplug C (FCons (node position) (fsnoc cs (allocate h)) r))) /\
       (exists h' ret,
          erase fuel h t position = Ok (h', ret) /\ bookkept h' t (hplug C r))).
Proof.
  intros B Hf. split.
  - intros sk x.
    assert (f = hplug (cend f) FNil) as Ef by (by rewrite hplug_cend, fapp_nil_r).
    assert (on_top (cend f) = true) as Top.
    { clear. induction f as [|p cs _ r IH]; [done|]. exact IH. }
    pose proof B as (R & _).
    pose proof (rep_feet_nonnull _ _ _ R) as Hf0.
    rewrite Ef in B.
    destruct (insert_bookkept h t (cend f) FNil (mk_it 0 sk) x fuel B) as (h' & Run & B').
    { rewrite Top. done. }
    { rewrite Top. done. }
    { rewrite cancestors_cend. simpl. lia. }
    destruct (insert_bookkept h t (cend f) FNil (mk_it (feet t) sk) x fuel B)
      as (h'' & Run' & _).
    { rewrite Top. cbn [node first_ptr]. by rewrite (proj2 (Nat.eqb_neq (feet t) 0)). }
    { rewrite Top. done. }
    { rewrite cancestors_cend. simpl. lia. }
    assert (insert fuel h t (mk_it (feet t) sk) x = insert fuel h t (mk_it 0 sk) x) as Eq.
    { unfold insert. cbn [node]. by rewrite (proj2 (Nat.eqb_neq (feet t) 0)). }
    exists h'. split; [done|]. split; [by rewrite Eq|].
    rewrite hplug_cend in B'. by rewrite fsnoc_fapp.
  - intros position x Hpos.
    destruct (hole_at f (node position) Hpos) as (C & cs & r & Ef).
    exists C, cs, r. split; [done|]. rewrite Ef in B, Hf, Hpos.
    pose proof B as (R & _).
    assert (node position <> 0) as Hn0 by (by apply (rep_nonnull _ _ _ _ R)).
    assert (length (cancestors C) + 1 < fuel) as Hfc.
    { pose proof (length_cancestors C). rewrite preorder_hplug, length_app in Hf.
      simpl in Hf. lia. }
    split; [|split].
    + apply (insert_bookkept h t C (FCons (node position) cs r)); [done| |done|lia].
      simpl. by rewrite (proj2 (Nat.eqb_neq _ 0)).
    + destruct (append_child_bookkept h t C (node position) cs r x fuel B Hfc) as (h' & Run & B').
      exists h'. split; [exact Run|done].
    + by apply (erase_bookkept h t C (node position) cs r position fuel).
Qed.

Lemma count_to_last_spec (h : heap) r : forall p cs par prev next fuel k,
  links h par prev (FCons p cs r) next -> NoDup (preorder (FCons p cs r)) ->
  length (roots r) < fuel ->
  count_to_last fuel h (last_ptr r p) p k = Ok (k + length (roots r)).
Proof.
  induction r as [|q qcs _ r IH]; intros p cs par prev next fuel k L ND Hf.
  - destruct fuel; [simpl in Hf; lia|]. simpl. rewrite Nat.eqb_refl. f_equal. lia.
  - destruct fuel; [simpl in Hf; lia|]. cbn [count_to_last last_ptr].
    assert (p <> last_ptr r q) as Np.
    { intros E. cbn [preorder] in ND. apply NoDup_cons in ND as [N1 _]. apply N1.
      apply elem_of_app. right.
      destruct (last_ptr_in r q) as [X|X].
      - rewrite E, X. apply elem_of_cons. by left.
      - rewrite E. cbn [preorder]. apply elem_of_cons. right. apply elem_of_app. by right. }
    rewrite (proj2 (Nat.eqb_neq _ _) Np).
    destruct (links_cons _ _ _ _ _ _ _ L) as (nd & Hnd & _ & _ & Hn & _ & _ & _ & Lr).
    rewrite (rd_some _ _ _ Hnd). cbn [mbind outcome_bind obind]. rewrite Hn.
    cbn [first_ptr]. rewrite (IH q qcs par p next fuel (S k)); [f_equal; simpl; lia|done| |].
    + cbn [preorder] in ND. apply NoDup_cons in ND as [_ ND].
      by apply NoDup_app in ND as (_ & _ & ND).
    + simpl in Hf. lia.
Qed.

(** The two ways to count the children of a node agree: in a well-formed
    tree the static [number_of_children], which walks to the null pointer,
    and the member of the iterator, which walks to [last_child], both
    return the number of children of the node. *)
Theorem number_of_children_agree (h : heap) t f a cs fuel sk :
  tree_rep h t f -> subtree_of f a = Some cs -> length (preorder f) <= fuel ->
  number_of_children fuel h (mk_it a sk) = Ok (length (roots cs)) /\
  it_number_of_children fuel h (mk_it a sk) = Ok (length (roots cs)).
Proof.
  intros R S Hf. split.
  - eapply number_of_children_spec; eauto using rep_null, rep_links.
  - destruct (links_sub _ _ _ _ _ _ _ (rep_links _ _ _ R) S) as (Lcs & nd & Hnd & Hfc & Hlc).
    unfold it_number_of_children. cbn [node]. rewrite (rd_some _ _ _ Hnd).
    cbn [mbind outcome_bind obind]. rewrite Hfc, Hlc.
    destruct cs as [|c ccs cr]; [done|]. cbn [first_ptr last_ptr].
    assert (c <> 0) as Nc.
    { apply (rep_nonnull _ _ _ _ R). eapply subtree_of_incl; [exact S|].
      apply elem_of_cons. by left. }
    rewrite (proj2 (Nat.eqb_neq _ _) Nc).
    rewrite (count_to_last_spec h cr c ccs a 0 0 fuel 1 Lcs).
    + done.
    + assert (NoDup (a :: preorder (FCons c ccs cr))) as X.
      { apply (sub_nodup f); [|done]. pose proof (rep_nodup _ _ _ R) as ND.
        apply NoDup_cons in ND as [_ ND]. by apply NoDup_cons in ND as [_ ND]. }
      by apply NoDup_cons in X as [_ X].
    + apply subtree_of_length in S. simpl in S. rewrite length_app in S.
      pose proof (roots_le cr). lia.
Qed.

(** [empty()] tells whether the tree has no node. *)
Theorem empty_spec (h : heap) t f :
  tree_rep h t f -> empty h t = Ok (bool_decide (preorder f = [])).
Proof.
  intros R. destruct (rep_head_fields _ _ _ R) as (nd & Hhd & _ & _ & Hn).
  unfold empty, begin_. rewrite (rd_some _ _ _ Hhd). cbn [mbind outcome_bind obind].
  cbn [node iterator_of end_]. rewrite Hn. f_equal.
  destruct f as [|p cs r]; cbn [first_ptr preorder].
  - by rewrite Nat.eqb_refl.
  - rewrite bool_decide_eq_false_2 by done. apply Nat.eqb_neq. intros E. pose proof (rep_feet_fresh _ _ _ R) as X.
    apply X. rewrite <- E. apply elem_of_cons. by left.
Qed.

(** In a tree whose counters are kept, [size()] is the number of nodes
    modulo [2^64], and this number is the number of increments that take
    [begin()] to [end()]: the two builds of [size()] agree. *)
Theorem size_counts_nodes (h : heap) t f fuel :
  bookkept h t f -> 2 * length (preorder f) < fuel ->
  size h t = Ok (wrap (Z.of_nat (length (preorder f)))) /\
  pre_order_steps fuel h t = Ok (length (preorder f)).
Proof.
  intros (R & _ & Ch) Hf. split.
  - unfold size, rd. destruct (h !! head t) as [nd|]; [|done]. simpl in Ch.
    injection Ch as Ch. cbn [mbind outcome_bind obind]. by rewrite Ch.
  - by apply pre_order_steps_spec.
Qed.

Lemma depth_top_chain (h : heap) l : forall pos nd k fuel,
  h !! pos = Some nd -> chain_up h (parent nd) l -> length l < fuel ->
  depth_top fuel h pos k = Ok (k + length l).
Proof.
  induction l as [|a l IH]; intros pos nd k fuel Hnd Ch Hf.
  - destruct fuel; [simpl in Hf; lia|]. simpl in Ch. simpl.
    rewrite (rd_some _ _ _ Hnd). cbn [mbind outcome_bind obind]. rewrite Ch. simpl.
    f_equal. lia.
  - destruct fuel; [simpl in Hf; lia|]. cbn [chain_up] in Ch.
    destruct Ch as (-> & Np & Ch). cbn [depth_top].
    rewrite (rd_some _ _ _ Hnd). cbn [mbind outcome_bind obind].
    rewrite (proj2 (Nat.eqb_neq _ _) Np). cbn [negb].
    destruct (h !! parent nd) as [pn|] eqn:Hpn; [|done].
    rewrite (IH (parent nd) pn (S k) fuel Hpn Ch); [f_equal; simpl; lia|].
    simpl in Hf. lia.
Qed.

Lemma depth_loop_chain (h : heap) root l1 : forall pos nd l2 k fuel,
  h !! pos = Some nd -> chain_up h (parent nd) (l1 ++ root :: l2) ->
  pos <> root -> root ∉ l1 -> length l1 + 1 < fuel ->
  depth_loop fuel h root pos k = Ok (k + S (length l1)).
Proof.
  induction l1 as [|a l1 IH]; intros pos nd l2 k fuel Hnd Ch Np Nr Hf.
  - destruct fuel as [|[|fuel]]; [simpl in Hf; lia..|].
    cbn [app chain_up] in Ch. destruct Ch as (E & Nz & Ch).
    cbn [depth_loop]. rewrite (rd_some _ _ _ Hnd). cbn [mbind outcome_bind obind].
    rewrite (proj2 (Nat.eqb_neq _ _) Nz), (proj2 (Nat.eqb_neq _ _) Np). cbn [negb andb].
    destruct (h !! parent nd) as [pn|] eqn:Hpn; [|done].
    rewrite (rd_some _ _ _ Hpn). cbn [mbind outcome_bind obind].
    rewrite <- E, Nat.eqb_refl. cbn [negb]. rewrite andb_false_r. f_equal. simpl. lia.
  - destruct fuel; [simpl in Hf; lia|].
    cbn [app chain_up] in Ch. destruct Ch as (-> & Nz & Ch).
    cbn [depth_loop]. rewrite (rd_some _ _ _ Hnd). cbn [mbind outcome_bind obind].
    rewrite (proj2 (Nat.eqb_neq _ _) Nz), (proj2 (Nat.eqb_neq _ _) Np). cbn [negb andb].
    destruct (h !! parent nd) as [pn|] eqn:Hpn; [|done].
    rewrite (IH (parent nd) pn l2 (S k) fuel Hpn Ch).
    + f_equal. simpl. lia.
    + intros E. apply Nr. rewrite <- E. apply elem_of_cons. by left.
    + intros X. apply Nr. apply elem_of_cons. by right.
    + simpl in Hf. lia.
Qed.

Lemma depth_loop_miss (h : heap) root l : forall pos nd k fuel,
  h !! pos = Some nd -> chain_up h (parent nd) l ->
  pos <> root -> (forall a b, l = a ++ [b] -> root ∉ a) -> length l < fuel ->
  depth_loop fuel h root pos k = Ok (k + length l).
Proof.
  induction l as [|a l IH]; intros pos nd k fuel Hnd Ch Np Nr Hf.
  - destruct fuel; [simpl in Hf; lia|]. simpl in Ch. simpl.
    rewrite (rd_some _ _ _ Hnd). cbn [mbind outcome_bind obind]. rewrite Ch. simpl.
    f_equal. lia.
  - destruct fuel; [simpl in Hf; lia|]. cbn [chain_up] in Ch.
    destruct Ch as (-> & Nz & Ch). cbn [depth_loop].
    rewrite (rd_some _ _ _ Hnd). cbn [mbind outcome_bind obind].
    rewrite (proj2 (Nat.eqb_neq _ _) Nz), (proj2 (Nat.eqb_neq _ _) Np). cbn [negb andb].
    destruct (h !! parent nd) as [pn|] eqn:Hpn; [|done].
    destruct l as [|b l].
    + simpl in Ch. destruct fuel; [simpl in Hf; lia|]. simpl.
      rewrite (rd_some _ _ _ Hpn). cbn [mbind outcome_bind obind]. rewrite Ch. simpl.
      f_equal. lia.
    + rewrite (IH (parent nd) pn (S k) fuel Hpn Ch).
      * f_equal. simpl. lia.
      * intros E. destruct (exists_last (l:=b :: l)) as (a' & b' & E'); [done|].
        apply (Nr (parent nd :: a') b'); [by rewrite E'|]. rewrite <- E.
        apply elem_of_cons. by left.
      * intros a' b' E X. apply (Nr (parent nd :: a') b'); [by rewrite E|].
        apply elem_of_cons. by right.
      * simpl in Hf |- *. lia.
Qed.

Lemma rep_ancestors (h : heap) t C p cs r :
  tree_rep h t (hplug C (FCons p cs r)) ->
  exists nd, h !! p = Some nd /\ parent nd = hpar C 0 /\
    chain_up h (hpar C 0) (cancestors C) /\ NoDup (p :: cancestors C).
Proof.
  intros R. pose proof R as Rr. apply rep_raw in Rr. rewrite with_sentinels_hplug in Rr.
  destruct (raw_hole _ _ _ Rr) as (_ & _ & NDC & _ & Dis & _ & L & _ & Ch & _).
  rewrite hpar_cext, cancestors_cext in Ch. rewrite hpar_cext in L.
  rewrite gext_node in L. destruct (links_cons _ _ _ _ _ _ _ L) as (nd & Hnd & Hp & _).
  exists nd. split; [done|]. split; [done|]. split; [done|].
  apply NoDup_cons. split.
  - intros X. rewrite <- (cancestors_cext t) in X. apply cancestors_cptrs in X.
    apply (Dis p X). rewrite gext_node. apply elem_of_cons. by left.
  - rewrite <- (cancestors_cext t). by apply NoDup_cancestors.
Qed.

(** [depth(it)] is the number of ancestors of the node: [0] at a
    top-level node. *)
Theorem depth_spec (h : heap) t C p cs r fuel sk :
  tree_rep h t (hplug C (FCons p cs r)) -> length (cancestors C) < fuel ->
  depth fuel h (mk_it p sk) = Ok (length (cancestors C)).
Proof.
  intros R Hf. destruct (rep_ancestors _ _ _ _ _ _ R) as (nd & Hnd & Hp & Ch & ND).
  assert (p <> 0) as Np.
  { apply (rep_nonnull _ _ _ _ R). apply hole_preorder. apply elem_of_cons. by left. }
  rewrite <- Hp in Ch. unfold depth. cbn [node].
  rewrite (proj2 (Nat.eqb_neq _ _) Np).
  by rewrite (depth_top_chain h _ p nd 0 fuel Hnd Ch).
Qed.

(** [depth(it, root)] is the number of levels between the node and [root]
    when [root] is one of its ancestors, [0] when [root] is the node
    itself, and the full depth of the node when [root] is neither. *)
Theorem depth_below_spec (h : heap) t C p cs r fuel sk sk' :
  tree_rep h t (hplug C (FCons p cs r)) -> length (cancestors C) + 2 <= fuel ->
  depth_below fuel h (mk_it p sk) (mk_it p sk') = Ok 0 /\
  (forall l1 a l2, cancestors C = l1 ++ a :: l2 ->
     depth_below fuel h (mk_it p sk) (mk_it a sk') = Ok (S (length l1))) /\
  (forall x, x ∉ p :: cancestors C ->
     depth_below fuel h (mk_it p sk) (mk_it x sk') = Ok (length (cancestors C))).
Proof.
  intros R Hf. destruct (rep_ancestors _ _ _ _ _ _ R) as (nd & Hnd & Hp & Ch & ND).
  assert (p <> 0) as Np.
  { apply (rep_nonnull _ _ _ _ R). apply hole_preorder. apply elem_of_cons. by left. }
  rewrite <- Hp in Ch. unfold depth_below. cbn [node].
  rewrite (proj2 (Nat.eqb_neq _ _) Np). split; [|split].
  - destruct fuel; [lia|]. cbn [depth_loop]. rewrite (rd_some _ _ _ Hnd).
    cbn [mbind outcome_bind obind]. rewrite Nat.eqb_refl. cbn [negb].
    by rewrite andb_false_r.
  - intros l1 a l2 E. rewrite E in Ch, ND, Hf.
    rewrite (depth_loop_chain h a l1 p nd l2 0 fuel Hnd Ch); [done| | |].
    + intros ->. apply NoDup_cons in ND as [X _]. apply X.
      rewrite elem_of_app, elem_of_cons. tauto.
    + intros X. apply NoDup_cons in ND as [_ ND].
      apply NoDup_app in ND as (_ & Dd & _). apply (Dd a X). apply elem_of_cons. by left.
    + rewrite length_app in Hf. simpl in Hf. lia.
  - intros x Hx. rewrite (depth_loop_miss h x _ p nd 0 fuel Hnd Ch); [done| | |lia].
    + intros ->. apply Hx. apply elem_of_cons. by left.
    + intros a b E X. apply Hx. apply elem_of_cons. right. rewrite E.
      apply elem_of_app. by left.
Qed.

Lemma sibling_chain_links (h : heap) t f par g lo hi :
  tree_rep h t f -> sibling_chain t f par g lo hi ->
  links h par lo g hi /\ NoDup (preorder g) /\
  (forall x, x ∈ preorder g -> x ∈ preorder f) /\
  (par = 0 -> g = f /\ lo = head t /\ hi = feet t) /\
  (par <> 0 -> lo = 0 /\ hi = 0 /\
     exists pn, h !! par = Some pn /\ first_child pn = first_ptr g 0 /\
                last_child pn = last_ptr g 0).
Proof.
  intros R [(-> & -> & -> & ->)|(S & -> & ->)].
  - split; [apply (rep_links _ _ _ R)|]. split.
    { pose proof (rep_nodup _ _ _ R) as ND. apply NoDup_cons in ND as [_ ND].
      by apply NoDup_cons in ND as [_ ND]. }
    split; [done|]. split; [done|]. done.
  - assert (par ∈ preorder f) as Hp by (apply subtree_of_elem; eauto).
    pose proof (rep_nonnull _ _ _ _ R Hp) as Np.
    destruct (links_sub _ _ _ _ _ _ _ (rep_links _ _ _ R) S) as (L & pn & Hpn & Hfc & Hlc).
    split; [done|]. split.
    { assert (NoDup (par :: preorder g)) as X.
      { apply (sub_nodup f); [|done]. pose proof (rep_nodup _ _ _ R) as ND.
        apply NoDup_cons in ND as [_ ND]. by apply NoDup_cons in ND as [_ ND]. }
      by apply NoDup_cons in X as [_ X]. }
    split; [by apply (subtree_of_incl f par)|]. split; [done|]. eauto 10.
Qed.

Lemma root_ptr_elem g i p cs d : nth_root g i = Some (p, cs) -> root_ptr g i d ∈ preorder g.
Proof.
  intros E. unfold root_ptr. rewrite E. by apply (proj1 (nth_root_elem g i p cs E)).
Qed.

Lemma index_loop_spec (h : heap) g par lo hi :
  links h par lo g hi -> lo ∉ preorder g ->
  forall i p cs fuel k, nth_root g i = Some (p, cs) -> i < fuel ->
  index_loop fuel h lo p k = Ok (k + i).
Proof.
  intros L Nlo. induction i as [|j IH]; intros p cs fuel k E Hf.
  - destruct fuel; [lia|]. destruct (links_nth _ _ _ _ _ _ _ _ L E) as (nd & Hnd & _ & Hp & _).
    simpl. rewrite (rd_some _ _ _ Hnd). cbn [mbind outcome_bind obind].
    rewrite Hp, Nat.eqb_refl. f_equal. lia.
  - destruct fuel; [lia|]. destruct (links_nth _ _ _ _ _ _ _ _ L E) as (nd & Hnd & _ & Hp & _).
    destruct (nth_root_pred _ _ _ _ E) as (q & qcs & Eq).
    cbn [index_loop]. rewrite (rd_some _ _ _ Hnd). cbn [mbind outcome_bind obind].
    rewrite Hp. unfold root_ptr. rewrite Eq.
    assert (q <> lo) as Nq.
    { intros ->. apply Nlo. by apply (proj1 (nth_root_elem g j lo qcs Eq)). }
    rewrite (proj2 (Nat.eqb_neq _ _) Nq).
    rewrite (IH q qcs fuel (S k) Eq); [f_equal; lia|lia].
Qed.

Lemma sibling_loop_spec (h : heap) g : forall i par prev next p cs d,
  links h par prev g next -> nth_root g i = Some (p, cs) ->
  sibling_loop h (first_ptr g d) i = Ok p.
Proof.
  induction g as [|q qcs _ r IH]; intros i par prev next p cs d L E; [done|].
  destruct i as [|j].
  - simpl in E. injection E as -> ->. done.
  - cbn [nth_root] in E. cbn [first_ptr sibling_loop].
    destruct (links_cons _ _ _ _ _ _ _ L) as (nd & Hnd & _ & _ & Hn & _ & _ & _ & Lr).
    rewrite (rd_some _ _ _ Hnd). cbn [mbind outcome_bind obind]. rewrite Hn.
    by apply (IH j par q next p cs next).
Qed.

(** [sibling(it, index(it))] is [it]: [index] returns the position of a
    node among its siblings, counted from [0], and [sibling] returns the
    sibling at a position. *)
Theorem sibling_index_roundtrip (h : heap) t f par g lo hi i p cs fuel sk q :
  tree_rep h t f -> sibling_chain t f par g lo hi -> nth_root g i = Some (p, cs) ->
  i < fuel ->
  index fuel h t (mk_sit p q) = Ok i /\
  sibling h t (mk_it p sk) i = Ok (mk_sit p par).
Proof.
  intros R SC E Hf.
  destruct (sibling_chain_links _ _ _ _ _ _ _ R SC) as (L & ND & Sub & Top & Low).
  destruct (links_nth _ _ _ _ _ _ _ _ L E) as (nd & Hnd & Hp & _).
  assert (p ∈ preorder g) as Hpg by (by apply (proj1 (nth_root_elem g i p cs E))).
  assert (p <> 0) as Np by (apply (rep_nonnull _ _ _ _ R); auto).
  assert (sibling_of_node h p = Ok (mk_sit p par)) as Hs.
  { unfold sibling_of_node. rewrite (proj2 (Nat.eqb_neq _ _) Np).
    rewrite (rd_some _ _ _ Hnd). cbn [mbind outcome_bind obind]. by rewrite Hp. }
  unfold index, sibling. cbn [snode node]. rewrite (rd_some _ _ _ Hnd).
  cbn [mbind outcome_bind obind]. rewrite Hp.
  destruct (Nat.eqb_spec par 0) as [Z|NZ].
  - destruct (Top Z) as (-> & -> & ->). split.
    + apply (index_loop_spec h f par (head t) (feet t) L) with (cs := cs) (k := 0); [|done|done].
      pose proof (rep_nodup _ _ _ R) as X. by apply NoDup_cons in X as [X _];
        rewrite elem_of_cons in X; tauto.
    + destruct (rep_head_fields _ _ _ R) as (hd & Hhd & _ & _ & Hn).
      rewrite (rd_some _ _ _ Hhd). cbn [mbind outcome_bind obind]. rewrite Hn.
      rewrite (sibling_loop_spec h f i par (head t) (feet t) p cs (feet t) L E).
      done.
  - destruct (Low NZ) as (-> & -> & pn & Hpn & Hfc & _). split.
    + apply (index_loop_spec h g par 0 0 L) with (cs := cs) (k := 0); [|done|done].
      intros X. by apply (rep_nonnull _ _ _ 0 R); auto.
    + rewrite (rd_some _ _ _ Hpn). cbn [mbind outcome_bind obind]. rewrite Hfc.
      rewrite (child_loop_spec h g i par 0 (rep_null _ _ _ R) L).
      assert (i < length (roots g)) as Hi.
      { destruct (Nat.lt_ge_cases i (length (roots g))) as [?|X]; [done|].
        apply nth_root_none in X. congruence. }
      rewrite (proj2 (Nat.leb_le _ _)) by lia. cbn [mbind outcome_bind obind].
      unfold root_ptr. rewrite E. done.
Qed.

Lemma nth_root_roots g : forall i p cs,
  nth_root g i = Some (p, cs) -> roots g !! i = Some p.
Proof.
  induction g as [|q qcs _ r IH]; intros i p cs E; [done|].
  destruct i as [|j]; simpl in *; [by injection E as -> ->|]. by apply (IH j p cs).
Qed.

Lemma root_ptr_last g i p cs d :
  nth_root g i = Some (p, cs) -> S i = length (roots g) -> root_ptr g (S i) d = d.
Proof.
  intros _ E. unfold root_ptr.
  assert (nth_root g (S i) = None) as ->; [|done]. apply nth_root_none. lia.
Qed.

Lemma nth_root_some g i : i < length (roots g) -> exists p cs, nth_root g i = Some (p, cs).
Proof.
  intros Hi. destruct (nth_root g i) as [[p cs]|] eqn:E; [eauto|].
  apply nth_root_none in E. lia.
Qed.

Lemma count_forward_spec (h : heap) t g par lo hi :
  links h par lo g hi -> (hi = 0 \/ hi = feet t) ->
  (forall x, x ∈ preorder g -> x <> 0 /\ x <> head t /\ x <> feet t) ->
  forall n i p cs fuel k, nth_root g i = Some (p, cs) ->
    i + S n = length (roots g) -> n < fuel ->
    count_forward fuel h t p k = Ok (k + n).
Proof.
  intros L Hhi Ng. induction n as [|n IH]; intros i p cs fuel k E Hi Hf.
  - destruct fuel; [lia|]. destruct (links_nth _ _ _ _ _ _ _ _ L E) as (nd & Hnd & _ & _ & Hn & _).
    simpl. rewrite (rd_some _ _ _ Hnd). cbn [mbind outcome_bind obind].
    rewrite Hn, (root_ptr_last g i p cs hi E) by lia.
    replace (k + 0) with k by lia.
    destruct Hhi as [-> | ->]; [done|]. rewrite Nat.eqb_refl.
    by destruct (feet t =? 0), (feet t =? head t).
  - destruct fuel; [lia|]. destruct (links_nth _ _ _ _ _ _ _ _ L E) as (nd & Hnd & _ & _ & Hn & _).
    destruct (nth_root_some g (S i)) as (q & qcs & Eq); [lia|].
    cbn [count_forward]. rewrite (rd_some _ _ _ Hnd). cbn [mbind outcome_bind obind].
    rewrite Hn. unfold root_ptr. rewrite Eq.
    destruct (Ng q (proj1 (nth_root_elem g _ q qcs Eq))) as (N1 & N2 & N3).
    rewrite (proj2 (Nat.eqb_neq _ _) N1), (proj2 (Nat.eqb_neq _ _) N2),
      (proj2 (Nat.eqb_neq _ _) N3). cbn [negb andb].
    rewrite (IH (S i) q qcs fuel (S k) Eq); [f_equal; lia|lia|lia].
Qed.

Lemma count_backward_spec (h : heap) t g par lo hi :
  links h par lo g hi -> (lo = 0 \/ lo = head t) ->
  (forall x, x ∈ preorder g -> x <> 0 /\ x <> head t /\ x <> feet t) ->
  forall i p cs fuel k, nth_root g i = Some (p, cs) -> i < fuel ->
    count_backward fuel h t p k = Ok (k + i).
Proof.
  intros L Hlo Ng. induction i as [|j IH]; intros p cs fuel k E Hf.
  - destruct fuel; [lia|]. destruct (links_nth _ _ _ _ _ _ _ _ L E) as (nd & Hnd & _ & Hp & _).
    simpl. rewrite (rd_some _ _ _ Hnd). cbn [mbind outcome_bind obind].
    rewrite Hp. replace (k + 0) with k by lia.
    destruct Hlo as [-> | ->]; [done|]. rewrite Nat.eqb_refl.
    by destruct (head t =? 0).
  - destruct fuel; [lia|]. destruct (links_nth _ _ _ _ _ _ _ _ L E) as (nd & Hnd & _ & Hp & _).
    destruct (nth_root_pred _ _ _ _ E) as (q & qcs & Eq).
    cbn [count_backward]. rewrite (rd_some _ _ _ Hnd). cbn [mbind outcome_bind obind].
    rewrite Hp. unfold root_ptr. rewrite Eq.
    destruct (Ng q (proj1 (nth_root_elem g _ q qcs Eq))) as (N1 & N2 & N3).
    rewrite (proj2 (Nat.eqb_neq _ _) N1), (proj2 (Nat.eqb_neq _ _) N2),
      (proj2 (Nat.eqb_neq _ _) N3). cbn [negb andb].
    rewrite (IH q qcs fuel (S k) Eq); [f_equal; lia|lia].
Qed.

Lemma rep_plain (h : heap) t f x :
  tree_rep h t f -> x ∈ preorder f -> x <> 0 /\ x <> head t /\ x <> feet t.
Proof.
  intros R Hx. split; [by apply (rep_nonnull _ _ _ _ R)|].
  pose proof (rep_nodup _ _ _ R) as ND. apply NoDup_cons in ND as [N1 ND].
  apply NoDup_cons in ND as [N2 _]. rewrite elem_of_cons in N1.
  split; intros ->; tauto.
Qed.

(** [number_of_siblings(it)] is the number of the other nodes in the
    sibling chain of the node, at the top level as well as below a
    parent. *)
Theorem number_of_siblings_spec (h : heap) t f par g lo hi i p cs fuel sk :
  tree_rep h t f -> sibling_chain t f par g lo hi -> nth_root g i = Some (p, cs) ->
  length (roots g) <= fuel ->
  number_of_siblings fuel h t (mk_it p sk) = Ok (length (roots g) - 1).
Proof.
  intros R SC E Hf.
  destruct (sibling_chain_links _ _ _ _ _ _ _ R SC) as (L & ND & Sub & Top & Low).
  assert (forall x, x ∈ preorder g -> x <> 0 /\ x <> head t /\ x <> feet t) as Ng.
  { intros x Hx. apply (rep_plain h t f); auto. }
  assert (i < length (roots g)) as Hi.
  { destruct (Nat.lt_ge_cases i (length (roots g))) as [?|X]; [done|].
    apply nth_root_none in X. congruence. }
  assert ((lo = 0 \/ lo = head t) /\ (hi = 0 \/ hi = feet t)) as [Hlo Hhi].
  { destruct (Nat.eq_dec par 0) as [Z|NZ].
    - destruct (Top Z) as (_ & -> & ->). tauto.
    - destruct (Low NZ) as (-> & -> & _). tauto. }
  unfold number_of_siblings. cbn [node].
  rewrite (count_forward_spec h t g par lo hi L Hhi Ng (length (roots g) - S i) i p cs fuel 0 E)
    by lia.
  cbn [mbind outcome_bind obind].
  rewrite (count_backward_spec h t g par lo hi L Hlo Ng i p cs fuel _ E) by lia.
  f_equal. lia.
Qed.

(** [parent], [previous_sibling] and [next_sibling] in a well-formed
    tree.  Below a parent they return the parent and the neighbours, a
    null iterator where there is no neighbour.  At the top level [parent]
    returns a null iterator, [previous_sibling] of the first node returns
    the head sentinel and [next_sibling] of the last node returns the foot
    sentinel, which is [end()]. *)
Theorem navigation_spec (h : heap) t f par g lo hi i p cs sk :
  tree_rep h t f -> sibling_chain t f par g lo hi -> nth_root g i = Some (p, cs) ->
  parent_of h (mk_it p sk) = Ok (iterator_of par) /\
  previous_sibling_of h (mk_it p sk) =
    Ok (mk_it (match i with
               | 0 => if par =? 0 then head t else 0
               | S j => root_ptr g j 0
               end) sk) /\
  next_sibling_of h (mk_it p sk) =
    Ok (mk_it (root_ptr g (S i) (if par =? 0 then feet t else 0)) sk).
Proof.
  intros R SC E.
  destruct (sibling_chain_links _ _ _ _ _ _ _ R SC) as (L & ND & Sub & Top & Low).
  destruct (links_nth _ _ _ _ _ _ _ _ L E) as (nd & Hnd & Hp & Hv & Hn & _).
  assert (p <> 0) as Np.
  { apply (rep_nonnull _ _ _ _ R), Sub. by apply (proj1 (nth_root_elem g i p cs E)). }
  assert (lo = (if par =? 0 then head t else 0) /\
          hi = (if par =? 0 then feet t else 0)) as [Elo Ehi].
  { destruct (Nat.eqb_spec par 0) as [Z|NZ].
    - destruct (Top Z) as (_ & -> & ->). tauto.
    - destruct (Low NZ) as (-> & -> & _). tauto. }
  unfold parent_of, previous_sibling_of, next_sibling_of. cbn [node skip_current_children_].
  rewrite (proj2 (Nat.eqb_neq _ _) Np), (rd_some _ _ _ Hnd).
  cbn [mbind outcome_bind obind]. rewrite Hp, Hv, Hn, <- Elo, <- Ehi. done.
Qed.

Lemma sibling_loop_end (h : heap) g : forall par prev next k,
  links h par prev g next ->
  sibling_loop h (first_ptr g next) (length (roots g) + k) = sibling_loop h next k.
Proof.
  induction g as [|q qcs _ r IH]; intros par prev next k L; [done|].
  cbn [roots length Nat.add first_ptr sibling_loop].
  destruct (links_cons _ _ _ _ _ _ _ L) as (nd & Hnd & _ & _ & Hn & _ & _ & _ & Lr).
  rewrite (rd_some _ _ _ Hnd). cbn [mbind outcome_bind obind]. rewrite Hn.
  by apply (IH par q).
Qed.

Lemma nth_root_last g : forall i p cs d,
  nth_root g i = Some (p, cs) -> S i = length (roots g) -> last_ptr g d = p.
Proof.
  induction g as [|q qcs _ r IH]; intros i p cs d E Hi; [done|].
  destruct i as [|j]; simpl in *.
  - injection E as -> ->. destruct r; [done|simpl in Hi; lia].
  - apply (IH j p cs q E). lia.
Qed.

(** [sibling(it, num)] past the last sibling.  Below a parent the position
    one behind the last sibling gives a null iterator and any later
    position fails the assertion.  At the top level there is no check: the
    position one behind the last node gives the foot sentinel, the next
    one a null iterator, and any later position reads through the null
    pointer. *)
Theorem sibling_past_end (h : heap) t f par g lo hi i p cs sk :
  tree_rep h t f -> sibling_chain t f par g lo hi -> nth_root g i = Some (p, cs) ->
  (par = 0 ->
     sibling h t (mk_it p sk) (length (roots g)) = Ok (mk_sit (feet t) 0) /\
     sibling h t (mk_it p sk) (length (roots g) + 1) = Ok (mk_sit 0 0) /\
     forall k, sibling h t (mk_it p sk) (length (roots g) + (2 + k)) = Abort) /\
  (par <> 0 ->
     sibling h t (mk_it p sk) (length (roots g)) = Ok (mk_sit 0 0) /\
     forall k, sibling h t (mk_it p sk) (length (roots g) + (1 + k)) = Abort).
Proof.
  intros R SC E.
  destruct (sibling_chain_links _ _ _ _ _ _ _ R SC) as (L & ND & Sub & Top & Low).
  destruct (links_nth _ _ _ _ _ _ _ _ L E) as (nd & Hnd & Hp & _).
  unfold sibling. cbn [node]. rewrite (rd_some _ _ _ Hnd). cbn [mbind outcome_bind obind].
  rewrite Hp. split.
  - intros Z. destruct (Top Z) as (-> & -> & ->). rewrite Z. cbn [Nat.eqb].
    destruct (rep_head_fields _ _ _ R) as (hd & Hhd & _ & _ & Hn).
    destruct (rep_feet_fields _ _ _ R) as (fd & Hfd & Hfp & _ & Hfn & _).
    rewrite (rd_some _ _ _ Hhd). cbn [mbind outcome_bind obind]. rewrite Hn.
    pose proof (rep_feet_nonnull _ _ _ R) as Nf.
    rewrite Z in L. split; [|split].
    + rewrite <- (Nat.add_0_r (length (roots f))).
      rewrite (sibling_loop_end h f 0 (head t) (feet t) 0 L). cbn [sibling_loop].
      cbn [mbind outcome_bind obind]. unfold sibling_of_node.
      rewrite (proj2 (Nat.eqb_neq _ _) Nf), (rd_some _ _ _ Hfd).
      cbn [mbind outcome_bind obind]. by rewrite Hfp.
    + rewrite (sibling_loop_end h f 0 (head t) (feet t) 1 L). cbn [sibling_loop].
      rewrite (rd_some _ _ _ Hfd). cbn [mbind outcome_bind obind]. by rewrite Hfn.
    + intros k. rewrite (sibling_loop_end h f 0 (head t) (feet t) (2 + k) L).
      cbn [Nat.add sibling_loop].
      rewrite (rd_some _ _ _ Hfd). cbn [mbind outcome_bind obind]. rewrite Hfn.
      unfold rd. by rewrite (rep_null _ _ _ R).
  - intros NZ. destruct (Low NZ) as (-> & -> & pn & Hpn & Hfc & _).
    rewrite (proj2 (Nat.eqb_neq _ _) NZ), (rd_some _ _ _ Hpn).
    cbn [mbind outcome_bind obind]. rewrite Hfc. split.
    + rewrite (child_loop_spec h g _ par 0 (rep_null _ _ _ R) L).
      rewrite Nat.leb_refl. cbn [mbind outcome_bind obind].
      unfold root_ptr. rewrite (proj2 (nth_root_none g _)) by lia. done.
    + intros k. rewrite (child_loop_spec h g _ par 0 (rep_null _ _ _ R) L).
      by rewrite (proj2 (Nat.leb_gt _ _)) by lia.
Qed.

(** Stepping a sibling iterator forth and back returns to the node, also
    from the last sibling, where the step forth gives the end of the
    chain.  Stepping back and forth returns to the node unless it is the
    first child of a parent: then the step back gives the end of the chain
    of the children, which the step forth leaves as it is. *)
Theorem sibling_step_roundtrip (h : heap) t f par g lo hi i p cs :
  tree_rep h t f -> sibling_chain t f par g lo hi -> nth_root g i = Some (p, cs) ->
  (exists s, sibling_incr h (mk_sit p par) = Ok s /\
             sibling_decr h s = Ok (mk_sit p par)) /\
  (exists s, sibling_decr h (mk_sit p par) = Ok s /\
             sibling_incr h s =
               Ok (if (i =? 0) && negb (par =? 0) then sibling_end (iterator_of par)
                   else mk_sit p par)).
Proof.
  intros R SC E.
  destruct (sibling_chain_links _ _ _ _ _ _ _ R SC) as (L & ND & Sub & Top & Low).
  destruct (links_nth _ _ _ _ _ _ _ _ L E) as (nd & Hnd & Hp & Hv & Hn & _).
  assert (p ∈ preorder g) as Hpg by (by apply (proj1 (nth_root_elem g i p cs E))).
  assert (p <> 0) as Np by (apply (rep_nonnull _ _ _ _ R); auto).
  assert (i < length (roots g)) as Hi.
  { destruct (Nat.lt_ge_cases i (length (roots g))) as [?|X]; [done|].
    apply nth_root_none in X. congruence. }
  split.
  - eexists. split.
    { unfold sibling_incr. cbn [snode parent_]. rewrite (proj2 (Nat.eqb_neq _ _) Np).
      rewrite (rd_some _ _ _ Hnd). cbn [mbind outcome_bind obind]. rewrite Hn. done. }
    unfold sibling_decr. cbn [snode parent_].
    destruct (Nat.eq_dec (S i) (length (roots g))) as [El|Nl].
    + rewrite (root_ptr_last g i p cs hi E El).
      destruct (Nat.eq_dec par 0) as [Z|NZ].
      * destruct (Top Z) as (-> & -> & ->).
        destruct (rep_feet_fields _ _ _ R) as (fd & Hfd & _ & _ & _ & Hfv).
        rewrite (proj2 (Nat.eqb_neq _ _) (rep_feet_nonnull _ _ _ R)).
        rewrite (rd_some _ _ _ Hfd). cbn [mbind outcome_bind obind]. rewrite Hfv.
        by rewrite (nth_root_last f i p cs (head t) E El).
      * destruct (Low NZ) as (-> & -> & pn & Hpn & _ & Hlc).
        cbn [Nat.eqb]. rewrite (proj2 (Nat.eqb_neq _ _) NZ), (rd_some _ _ _ Hpn).
        cbn [mbind outcome_bind obind]. rewrite Hlc.
        by rewrite (nth_root_last g i p cs 0 E El).
    + destruct (nth_root_some g (S i)) as (q & qcs & Eq); [lia|].
      destruct (links_nth _ _ _ _ _ _ _ _ L Eq) as (qd & Hqd & _ & Hqv & _).
      unfold root_ptr at 1 2. rewrite Eq.
      assert (q <> 0) as Nq.
      { apply (rep_nonnull _ _ _ _ R), Sub. by apply (proj1 (nth_root_elem g _ q qcs Eq)). }
      rewrite (proj2 (Nat.eqb_neq _ _) Nq), (rd_some _ _ _ Hqd).
      cbn [mbind outcome_bind obind]. rewrite Hqv. unfold root_ptr. by rewrite E.
  - eexists. split.
    { unfold sibling_decr. cbn [snode parent_]. rewrite (proj2 (Nat.eqb_neq _ _) Np).
      rewrite (rd_some _ _ _ Hnd). cbn [mbind outcome_bind obind]. rewrite Hv. done. }
    unfold sibling_incr. cbn [snode parent_].
    destruct i as [|j].
    + cbn [Nat.eqb andb]. destruct (Nat.eqb_spec par 0) as [Z|NZ].
      * destruct (Top Z) as (-> & -> & ->). cbn [negb].
        destruct (rep_head_fields _ _ _ R) as (hd & Hhd & _ & _ & Hhn).
        rewrite (proj2 (Nat.eqb_neq _ _) (rep_head_nonnull _ _ _ R)).
        rewrite (rd_some _ _ _ Hhd). cbn [mbind outcome_bind obind]. rewrite Hhn.
        destruct f; simpl in E; [done|]. by injection E as -> ->.
      * destruct (Low NZ) as (-> & -> & _). done.
    + cbn [Nat.eqb andb].
      destruct (nth_root_pred _ _ _ _ E) as (q & qcs & Eq).
      destruct (links_nth _ _ _ _ _ _ _ _ L Eq) as (qd & Hqd & _ & _ & Hqn & _).
      assert (root_ptr g j 0 = q) as -> by (unfold root_ptr; by rewrite Eq).
      assert (q <> 0) as Nq.
      { apply (rep_nonnull _ _ _ _ R), Sub. by apply (proj1 (nth_root_elem g _ q qcs Eq)). }
      rewrite (proj2 (Nat.eqb_neq _ _) Nq), (rd_some _ _ _ Hqd).
      cbn [mbind outcome_bind obind]. rewrite Hqn. unfold root_ptr. by rewrite E.
Qed.

Lemma md_loop_bound (h : heap) pos : forall fuel x cur maxd d,
  md_loop fuel h pos x cur maxd = Ok d -> (0 <= maxd < size_max)%Z ->
  (0 <= d < size_max)%Z.
Proof.
  induction fuel as [|fuel IH]; intros x cur maxd d E B; [done|].
  cbn [md_loop] in E. unfold rd in E. destruct (h !! x) as [nd|]; [|done].
  cbn [mbind outcome_bind obind] in E.
  destruct (first_child nd =? 0).
  - destruct (x =? pos); [by injection E as <-|].
    destruct (if next_sibling nd =? 0 then md_climb (S fuel) h x cur else Ok (Some (x, cur)))
      as [[[q c]|]| | |]; cbn [mbind outcome_bind obind] in E; try done.
    + destruct (q =? pos); [by injection E as <-|].
      destruct (h !! q); [|done]. cbn [mbind outcome_bind obind] in E. by eapply IH.
    + by injection E as <-.
  - eapply IH; [exact E|]. unfold wrap.
    pose proof (Z.mod_pos_bound (cur + 1) size_max ltac:(done)). lia.
Qed.

Lemma max_depth_at_ok (h : heap) t f pos cs fuel sk :
  tree_rep h t f -> subtree_of f pos = Some cs -> 2 * length (preorder f) + 2 <= fuel ->
  exists d, max_depth_at fuel h t (mk_it pos sk) = Ok d /\ (0 <= d < size_max)%Z.
Proof.
  intros R Sub Hf.
  assert (Hpos : pos ∈ preorder f) by (apply subtree_of_elem; eauto).
  assert (exists d, max_depth_at fuel h t (mk_it pos sk) = Ok d) as [d Hd].
  { unfold max_depth_at. cbn [node].
    pose proof (rep_valid h t f pos sk R Hpos) as Hv. unfold is_valid in Hv.
    cbn [node] in Hv. apply negb_true_iff in Hv.
    replace ((pos =? 0) || (pos =? head t) || (pos =? feet t))
      with ((pos =? 0) || (pos =? feet t) || (pos =? head t))
      by (destruct (pos =? 0), (pos =? feet t), (pos =? head t); done).
    rewrite Hv.
    destruct (links_sub _ _ _ _ _ _ _ (rep_links _ _ _ R) Sub) as (Lcs & nd & Hnd & Hfc & _).
    destruct fuel as [|fuel]; [lia|]. cbn [md_loop].
    rewrite (rd_some _ _ _ Hnd). cbn [mbind outcome_bind obind]. rewrite Hfc.
    destruct cs as [|c ccs cr].
    + simpl. rewrite Nat.eqb_refl. eauto.
    + simpl first_ptr.
      assert (Hc : c ∈ preorder f).
      { eapply subtree_of_incl; [exact Sub|]. apply elem_of_cons. by left. }
      rewrite (proj2 (Nat.eqb_neq c 0) (rep_nonnull _ _ _ _ R Hc)).
      destruct (preorder_sub f pos _ (feet t) Sub) as (l1 & l2 & E).
      simpl in E. rewrite <- app_assoc in E. simpl in E.
      set (rem := preorder ccs ++ preorder cr ++ after f (feet t) pos :: l2) in E.
      assert (E' : preorder f ++ [feet t] = (l1 ++ [pos]) ++ c :: rem)
        by (by rewrite <- app_assoc).
      destruct (md_loop_ok h t f pos (length (preorder f) + 1) R Hpos ltac:(lia)
                  rem c (wrap (0 + 1)) (Z.max (wrap (0 + 1)) 0) fuel) as (d & Hd & Hle).
      * rewrite <- (last_app_cons (l1 ++ [pos])), <- E'. apply last_snoc.
      * assert (Hall : Forall (fun z => z ∈ preorder f \/ z = feet t)
                         (preorder f ++ [feet t])).
        { apply Forall_app. split.
          - apply Forall_forall. intros z Hz. by left.
          - apply Forall_singleton. by right. }
        rewrite E' in Hall. by apply Forall_app in Hall as [_ ?].
      * intros n Hn. apply (chain_app_r _ (l1 ++ [pos])). rewrite <- E'.
        apply walk_chain, tree_walk; [done|]. pose proof (fdepth_le f). lia.
      * assert (length (c :: rem) < length (preorder f ++ [feet t])).
        { rewrite E'. rewrite !length_app. simpl. lia. }
        rewrite length_app in H0. simpl in H0. lia.
      * eauto. }
  exists d. split; [done|]. unfold max_depth_at in Hd. cbn [node] in Hd.
  destruct ((pos =? 0) || (pos =? head t) || (pos =? feet t)).
  - injection Hd as <-. by vm_compute.
  - by apply (md_loop_bound h pos fuel pos 0 0 d Hd).
Qed.

Lemma max_depth_roots_sentinel (h : heap) t f :
  tree_rep h t f ->
  forall g prev fuel,
    links h 0 prev g (feet t) -> (forall x, x ∈ preorder g -> x ∈ preorder f) ->
    2 * length (preorder f) + 3 + length (roots g) <= fuel ->
    max_depth_roots fuel h t (first_ptr g (feet t)) (size_max - 1) = Ok (size_max - 1)%Z.
Proof.
  intros R. induction g as [|p cs _ r IH]; intros prev fuel L Sub Hf.
  - destruct fuel; [lia|]. simpl. by rewrite Nat.eqb_refl.
  - destruct fuel; [simpl in Hf; lia|]. cbn [max_depth_roots first_ptr].
    assert (p ∈ preorder f) as Hp by (apply Sub, elem_of_cons; by left).
    destruct (rep_plain _ _ _ _ R Hp) as (_ & _ & Nf).
    rewrite (proj2 (Nat.eqb_neq _ _) Nf).
    apply subtree_of_elem in Hp as [cs' Sp].
    destruct (max_depth_at_ok h t f p cs' (S fuel) false R Sp) as (d & Hd & Bd).
    { simpl in Hf. lia. }
    unfold iterator_of. rewrite Hd. cbn [mbind outcome_bind obind].
    destruct (links_cons _ _ _ _ _ _ _ L) as (nd & Hnd & _ & _ & Hn & _ & _ & _ & Lr).
    rewrite (rd_some _ _ _ Hnd). cbn [mbind outcome_bind obind]. rewrite Hn.
    replace (Z.max (size_max - 1) d) with (size_max - 1)%Z by lia.
    apply (IH p); [done| |simpl in Hf; lia].
    intros x Hx. apply Sub. apply elem_of_cons. right. apply elem_of_app. by right.
Qed.

(** The whole-tree [max_depth()] returns [size_t(-1)] for every tree,
    whatever its shape: the maximum is taken with the initial value
    [size_t(-1)], which no depth exceeds. *)
Theorem max_depth_is_sentinel (h : heap) t f fuel :
  tree_rep h t f -> 3 * length (preorder f) + 3 <= fuel ->
  max_depth fuel h t = Ok (size_max - 1)%Z.
Proof.
  intros R Hf. unfold max_depth.
  destruct (rep_head_fields _ _ _ R) as (nd & Hhd & _ & _ & Hn).
  rewrite (rd_some _ _ _ Hhd). cbn [mbind outcome_bind obind]. rewrite Hn.
  change (wrap (-1)) with (size_max - 1)%Z.
  apply (max_depth_roots_sentinel h t f R f (head t)); [apply (rep_links _ _ _ R)|done|].
  pose proof (roots_le f). lia.
Qed.

Lemma preorder_hplug_seq C g : preorder (hplug C g) = cbefore C ++ preorder g ++ cafter C.
Proof.
  induction C as [|p C IH r|p cs C IH]; simpl.
  - by rewrite app_nil_r.
  - rewrite IH. by rewrite <- !app_assoc.
  - rewrite IH. by rewrite <- !app_assoc.
Qed.

Lemma after_hplug C cur cs r : forall e,
  NoDup (preorder (hplug C (FCons cur cs r))) ->
  after (hplug C (FCons cur cs r)) e cur = hd e (preorder r ++ cafter C).
Proof.
  induction C as [|p C IH r'|p cs' C IH]; intros e ND.
  - cbn [hplug after cafter]. rewrite Nat.eqb_refl, app_nil_r. by destruct r.
  - cbn [hplug after cafter preorder] in *. apply NoDup_cons in ND as [N1 ND].
    apply NoDup_app in ND as (ND & _ & _).
    assert (cur ∈ preorder (hplug C (FCons cur cs r))) as Hc.
    { apply hole_preorder. apply elem_of_cons. by left. }
    assert (p <> cur) as Np.
    { intros ->. apply N1. apply elem_of_app. by left. }
    rewrite (proj2 (Nat.eqb_neq _ _) Np).
    pose proof Hc as Hc'. apply subtree_of_elem in Hc' as [x ->].
    rewrite (IH _ ND). rewrite app_assoc.
    destruct (preorder r ++ cafter C); [|done]. by destruct r'.
  - cbn [hplug after cafter preorder] in *. apply NoDup_cons in ND as [N1 ND].
    apply NoDup_app in ND as (_ & Dis & ND).
    assert (cur ∈ preorder (hplug C (FCons cur cs r))) as Hc.
    { apply hole_preorder. apply elem_of_cons. by left. }
    assert (p <> cur) as Np.
    { intros ->. apply N1. apply elem_of_app. by right. }
    rewrite (proj2 (Nat.eqb_neq _ _) Np).
    rewrite (subtree_of_none cs' cur); [by apply IH|].
    intros X. by apply (Dis cur X).
Qed.

Lemma wr_data (h h' : heap) p g :
  wr h p g = Ok h' -> (forall n, data (g n) = data n) ->
  forall q, data <$> h' !! q = data <$> h !! q.
Proof.
  unfold wr. intros E D q. destruct (h !! p) as [n|] eqn:Hp; [|done].
  injection E as <-. destruct (decide (q = p)) as [->|N].
  - rewrite lookup_insert_eq, Hp. simpl. by rewrite D.
  - by rewrite lookup_insert_ne.
Qed.

Lemma same_shape_data (h h' : heap) :
  same_shape h h' -> forall q, data <$> h' !! q = data <$> h !! q.
Proof.
  intros S q. specialize (S q). destruct (h !! q), (h' !! q); try done.
  simpl. destruct S as [_ ->]. done.
Qed.

Lemma rep_inner_nodup (h : heap) t f : tree_rep h t f -> NoDup (preorder f).
Proof.
  intros R. pose proof (rep_nodup _ _ _ R) as ND. apply NoDup_cons in ND as [_ ND].
  by apply NoDup_cons in ND as [_ ND].
Qed.

Lemma erase_rep (h : heap) t C cur cs r sk fuel :
  tree_rep h t (hplug C (FCons cur cs r)) ->
  2 * length (preorder (hplug C (FCons cur cs r))) + 2 <= fuel ->
  exists h',
    erase fuel h t (mk_it cur sk) =
      Ok (h', iterator_of (hd (feet t) (preorder r ++ cafter C))) /\
    tree_rep h' t (hplug C r) /\
    (forall q, data <$> h' !! q =
       if decide (q ∈ cur :: preorder cs) then None else data <$> h !! q).
Proof.
  intros R Hf.
  set (G := FCons cur cs r) in *.
  destruct (rep_hole _ _ _ _ R) as (NDC & NhC & Nhg & AlC & Alg & Dis & [hdn Hh]).
  assert (cur ∈ preorder G) as Hcur by (apply elem_of_cons; by left).
  assert (cur <> head t) as Hch by (intros X; by rewrite X in Hcur).
  assert (length (preorder (hplug C G)) =
          length (cptrs C) + length (preorder G)) as Elen.
  { by rewrite preorder_hplug, length_app. }
  assert (length (preorder G) = S (length (preorder cs) + length (preorder r))) as ElenG.
  { unfold G. simpl. by rewrite length_app. }
  (* the iterator that is returned *)
  assert (pre_incr fuel h (mk_it cur true) =
          Ok (iterator_of (hd (feet t) (preorder r ++ cafter C)))) as Hret.
  { pose proof (tree_walk h t _ fuel R) as W.
    assert (cur ∈ preorder (hplug C G)) as Hin by (by apply hole_preorder).
    apply subtree_of_elem in Hin as [cs' S].
    destruct (walk_ok_sub fuel h (hplug C G) cur cs' (feet t)) as (_ & Sk & _); [|done|].
    - apply W. pose proof (fdepth_le (hplug C G)). lia.
    - unfold skip_step in Sk. rewrite Sk. unfold G.
      rewrite (after_hplug C cur cs r (feet t)); [done|].
      apply (rep_inner_nodup _ _ _ R). }
  (* unlinking *)
  pose proof R as Rr. apply rep_raw in Rr. rewrite with_sentinels_hplug in Rr.
  unfold G in Rr. rewrite gext_node in Rr.
  destruct (erase_raw h (cext t C) cur cs (gext t C r) fuel Rr)
    as (nd & h1 & cn & h2 & h3 & Ecur & Run1 & Rd1 & Run2 & Run3 & Pcn & Ecur3 & Ccn & Rr3 & Cu3).
  { by apply (cext_prev h t C G). }
  { apply (cext_next h t C G r R). intros q Hq. apply elem_of_cons. right.
    apply elem_of_app. by right. }
  { lia. }
  rewrite hpar_cext in Pcn.
  rewrite <- with_sentinels_hplug in Rr3. apply rep_raw in Rr3.
  assert (cur ∉ cancestors C) as Nca.
  { intros X. by apply (Dis cur (cancestors_cptrs _ _ X)). }
  assert (chain_up h3 (hpar C 0) (cancestors C)) as Chain.
  { pose proof Rr3 as Rr3'. apply rep_raw in Rr3'. rewrite with_sentinels_hplug in Rr3'.
    destruct (raw_hole _ _ _ Rr3') as (_ & _ & _ & _ & _ & _ & _ & _ & X & _).
    rewrite hpar_cext, cancestors_cext in X.
    apply (chain_up_ext _ _ _ _ X). intros q Hq. unfold deallocate.
    rewrite lookup_delete_ne; [done|]. intros ->. done. }
  destruct (unbump_ancestors_spec cur cn (cancestors C) h3 (hpar C 0) true fuel Chain)
    as (h4 & pe & Run4 & S4 & Ecur4 & Cu4); try done.
  { by apply NoDup_cancestors. }
  { pose proof (length_cancestors C). lia. }
  assert (is_Some (h3 !! head t)) as Hh3.
  { assert (head t ∉ cur :: preorder cs) as X.
    { intros X. apply Nhg. unfold G. cbn [preorder]. rewrite elem_of_cons in X.
      rewrite elem_of_cons, elem_of_app. tauto. }
    pose proof (Cu3 (head t) X ltac:(eauto)) as Y. unfold count_upd in Y. rewrite Hh in Y.
    destruct (h3 !! head t); [eauto|done]. }
  destruct Hh3 as [hd3 Hh3].
  destruct (same_shape_lookup _ _ _ _ S4 Hh3) as (hd4 & Hh4 & _).
  destruct (unbump_head_spec h4 t cur cn pe) as (h5 & Run5 & S5 & Ecur5 & Cu5); [eauto|done|done|].
  exists (deallocate h5 cur). split; [|split].
  - unfold erase. cbn [node].
    rewrite (proj2 (Nat.eqb_neq cur (head t))) by done.
    rewrite Hret. cbn [mbind outcome_bind obind].
    rewrite Run1. cbn [mbind outcome_bind obind].
    rewrite Rd1. cbn [mbind outcome_bind obind].
    rewrite Run2. cbn [mbind outcome_bind obind].
    rewrite Run3. cbn [mbind outcome_bind obind].
    rewrite Pcn, Run4. cbn [mbind outcome_bind obind].
    rewrite Run5. cbn [mbind outcome_bind obind].
    rewrite (rd_some _ _ _ Ecur5). done.
  - apply (tree_rep_shape (deallocate h3 cur)); [done|].
    apply same_shape_delete. by apply (same_shape_trans _ h4).
  - intros q.
    (* the heap after [erase_children_] *)
    destruct (raw_hole _ _ _ Rr) as (H0 & _ & _ & NDg & _ & _ & Lg & _).
    destruct (links_cons _ _ _ _ _ _ _ Lg) as (nd' & Hnd' & _ & _ & _ & Hfc & _ & Lcs & _).
    rewrite Ecur in Hnd'. injection Hnd' as <-.
    assert (NoDup (cur :: preorder cs)) as NDc.
    { cbn [preorder] in NDg. apply NoDup_cons in NDg as [N1 NDg].
      apply NoDup_app in NDg as (NDg & _ & _). apply NoDup_cons. split; [|done].
      intros X. apply N1. apply elem_of_app. by left. }
    destruct (erase_children_spec fuel h cur cs nd Ecur Hfc Lcs NDc H0 ltac:(lia))
      as (h1' & Run1' & Look1).
    rewrite Run1 in Run1'. injection Run1' as <-.
    assert (data <$> h3 !! q = data <$> h1 !! q) as E13.
    { assert (data <$> h2 !! q = data <$> h1 !! q) as <-.
      { destruct (prev_sibling cn =? 0); by apply (wr_data _ _ _ _ Run2). }
      destruct (next_sibling cn =? 0); by apply (wr_data _ _ _ _ Run3). }
    unfold deallocate. destruct (decide (q = cur)) as [->|Nq].
    + rewrite lookup_delete_eq. rewrite decide_True; [done|]. apply elem_of_cons. by left.
    + rewrite lookup_delete_ne by done.
      rewrite (same_shape_data _ _ S5), (same_shape_data _ _ S4), E13, Look1.
      destruct (decide (q ∈ preorder cs)) as [Y|N].
      * rewrite decide_True; [done|]. apply elem_of_cons. by right.
      * rewrite (decide_False (P := q ∈ cur :: preorder cs)) by (rewrite elem_of_cons; tauto).
        by rewrite decide_False.
Qed.

(** [erase] on any well-formed tree: the node and its descendants are
    freed and gone from the tree, every other node keeps its address and
    its value, and the iterator that is returned points to the node that
    followed the erased subtree in pre-order, or is [end()]. *)
Theorem erase_spec (h : heap) t C cur cs r sk fuel :
  tree_rep h t (hplug C (FCons cur cs r)) ->
  2 * length (preorder (hplug C (FCons cur cs r))) + 2 <= fuel ->
  exists h',
    erase fuel h t (mk_it cur sk) =
      Ok (h', iterator_of (hd (feet t) (preorder r ++ cafter C))) /\
    tree_rep h' t (hplug C r) /\
    (forall q, data <$> h' !! q =
       if decide (q ∈ cur :: preorder cs) then None else data <$> h !! q).
Proof. apply erase_rep. Qed.

Lemma bump_ancestors_data : forall fuel (h h' : heap) p pe pe',
  bump_ancestors fuel h p pe = Ok (h', pe') ->
  forall q, data <$> h' !! q = data <$> h !! q.
Proof.
  induction fuel as [|fuel IH]; intros h h' p pe pe' E q; [done|].
  cbn [bump_ancestors] in E. destruct (p =? 0); [by injection E as <- <-|].
  unfold rd in E. destruct (h !! p) as [nd|] eqn:Hp; [|done].
  cbn [mbind outcome_bind obind] in E. rewrite (IH _ _ _ _ _ E q).
  destruct (decide (q = p)) as [->|N].
  - rewrite lookup_insert_eq, Hp. simpl. by destruct (pe && expanded nd).
  - by rewrite lookup_insert_ne.
Qed.

Lemma bookkeep_insert_data fuel (h h' : heap) t tmp :
  bookkeep_insert fuel h t tmp = Ok h' ->
  forall q, data <$> h' !! q = data <$> h !! q.
Proof.
  unfold bookkeep_insert, rd. intros E q. destruct (h !! tmp) as [nd|]; [|done].
  cbn [mbind outcome_bind obind] in E.
  destruct (bump_ancestors fuel h (parent nd) true) as [[h1 pe]| | |] eqn:E1; try done.
  cbn [mbind outcome_bind obind] in E. rewrite <- (bump_ancestors_data _ _ _ _ _ _ E1 q).
  unfold bump_head in E.
  destruct (if pe then wr h1 (head t) (fun n => set_count_expanded (wrap (count_expanded n + 1)) n)
            else Ok h1) as [h2| | |] eqn:E2; try done.
  cbn [mbind outcome_bind obind] in E.
  destruct (wr h2 (head t) (fun n => set_count (wrap (count n + 1)) n)) as [h3| | |] eqn:E3;
    try done.
  cbn [mbind outcome_bind obind] in E.
  rewrite (wr_data _ _ _ _ E ltac:(done) q). rewrite (wr_data _ _ _ _ E3 ltac:(done) q).
  destruct pe; [by rewrite (wr_data _ _ _ _ E2 ltac:(done) q)|by injection E2 as <-].
Qed.

Lemma insert_data fuel (h h' : heap) t position x it :
  insert fuel h t position x = Ok (h', it) ->
  forall q, data <$> h' !! q = if decide (q = allocate h) then Some x else data <$> h !! q.
Proof.
  unfold insert, new_node, rd. intros E q.
  destruct ((if node position =? 0 then feet t else node position) =? head t); [done|].
  destruct (h !! head t) as [hd|]; [|done]. cbn [mbind outcome_bind obind] in E.
  set (pos := if node position =? 0 then feet t else node position) in *.
  set (h0 := <[allocate h := _]> h) in E.
  destruct (h0 !! pos) as [pn|]; [|done]. cbn [mbind outcome_bind obind] in E.
  destruct (wr h0 (allocate h) _) as [h1| | |] eqn:E1; try done.
  cbn [mbind outcome_bind obind] in E.
  destruct (wr h1 pos _) as [h2| | |] eqn:E2; try done.
  cbn [mbind outcome_bind obind] in E.
  destruct (if prev_sibling pn =? 0 then _ else _) as [h3| | |] eqn:E3; try done.
  cbn [mbind outcome_bind obind] in E.
  destruct (bookkeep_insert fuel h3 t (allocate h)) as [h4| | |] eqn:E4; try done.
  cbn [mbind outcome_bind obind] in E. injection E as <- <-.
  rewrite (bookkeep_insert_data _ _ _ _ _ E4 q).
  assert (data <$> h3 !! q = data <$> h2 !! q) as ->.
  { destruct (prev_sibling pn =? 0).
    - destruct (parent pn =? 0); [by injection E3 as <-|by apply (wr_data _ _ _ _ E3)].
    - by apply (wr_data _ _ _ _ E3). }
  rewrite (wr_data _ _ _ _ E2 ltac:(done) q). rewrite (wr_data _ _ _ _ E1 ltac:(done) q).
  unfold h0. destruct (decide (q = allocate h)) as [->|N].
  - by rewrite lookup_insert_eq.
  - by rewrite lookup_insert_ne.
Qed.

(** Inserting a node in front of a node of a tree whose counters are kept
    and erasing it again restores the tree: the shape and the counters are
    as before, every node has its value, and [erase] returns the position
    the node was inserted at. *)
Theorem insert_erase_roundtrip (h : heap) t C pos cs r x fuel sk :
  bookkept h t (hplug C (FCons pos cs r)) ->
  2 * length (preorder (hplug C (FCons pos cs r))) + 4 <= fuel ->
  exists h1 h2,
    insert fuel h t (mk_it pos sk) x = Ok (h1, iterator_of (allocate h)) /\
    erase fuel h1 t (iterator_of (allocate h)) = Ok (h2, iterator_of pos) /\
    bookkept h2 t (hplug C (FCons pos cs r)) /\
    (forall q, data <$> h2 !! q = data <$> h !! q).
Proof.
  intros B Hf. pose proof B as (R & _).
  assert (pos <> 0) as Np.
  { apply (rep_nonnull _ _ _ _ R). apply hole_preorder. apply elem_of_cons. by left. }
  assert (length (preorder (hplug C (FCons pos cs r))) =
          length (cptrs C) + length (preorder (FCons pos cs r))) as Elen.
  { by rewrite preorder_hplug, length_app. }
  destruct (insert_bookkept h t C (FCons pos cs r) (mk_it pos sk) x fuel B) as (h1 & I & B1).
  { cbn [node first_ptr]. by rewrite (proj2 (Nat.eqb_neq _ _) Np). }
  { done. }
  { pose proof (length_cancestors C). lia. }
  set (new := allocate h) in *. set (G := FCons pos cs r) in *.
  assert (length (preorder (hplug C (FCons new FNil G))) =
          S (length (preorder (hplug C G)))) as Elen1.
  { rewrite !preorder_hplug, !length_app. simpl. lia. }
  destruct (erase_rep h1 t C new FNil G false fuel (proj1 B1)) as (h2 & Er & R2 & D2); [lia|].
  destruct (erase_bookkept h1 t C new FNil G (iterator_of new) fuel B1 eq_refl)
    as (h2' & ret & Er' & B2); [lia|].
  unfold iterator_of in Er'. rewrite Er in Er'. injection Er' as <- <-.
  exists h1, h2. split; [done|]. split; [done|]. split; [done|].
  intros q. rewrite D2. cbn [preorder app]. rewrite (insert_data _ _ _ _ _ _ _ I q).
  fold new. destruct (decide (q = new)) as [->|N].
  - rewrite decide_True by (apply elem_of_cons; by left).
    unfold new. by rewrite (proj1 (allocate_fresh h)).
  - rewrite decide_False; [done|]. rewrite elem_of_cons. intros [?|X]; [done|].
    by apply elem_of_nil in X.
Qed.

Lemma clear_loop_spec t f : forall (h : heap) fuel,
  tree_rep h t f -> 2 * length (preorder f) + 2 <= fuel ->
  exists h', clear_loop fuel h t = Ok h' /\ tree_rep h' t FNil /\
    (forall q, data <$> h' !! q = if decide (q ∈ preorder f) then None else data <$> h !! q) /\
    (bookkept h t f -> bookkept h' t FNil).
Proof.
  induction f as [|p cs _ r IH]; intros h fuel R Hf.
  - destruct fuel; [lia|]. exists h.
    destruct (rep_head_fields _ _ _ R) as (nd & Hhd & _ & _ & Hn).
    cbn [clear_loop]. rewrite (rd_some _ _ _ Hhd). cbn [mbind outcome_bind obind].
    rewrite Hn. cbn [first_ptr]. rewrite Nat.eqb_refl. split; [done|]. split; [done|].
    split; [|done]. intros q. rewrite decide_False; [done|]. apply not_elem_of_nil.
  - destruct fuel; [lia|].
    destruct (rep_head_fields _ _ _ R) as (nd & Hhd & _ & _ & Hn).
    cbn [clear_loop]. rewrite (rd_some _ _ _ Hhd). cbn [mbind outcome_bind obind].
    rewrite Hn. cbn [first_ptr].
    assert (p <> feet t) as Np.
    { apply (rep_plain h t _ p R). apply elem_of_cons. by left. }
    rewrite (proj2 (Nat.eqb_neq _ _) Np).
    destruct (erase_rep h t HHole p cs r false (S fuel) R Hf) as (h1 & Er & R1 & D1).
    unfold iterator_of at 1. rewrite Er. cbn [mbind outcome_bind obind].
    cbn [hplug] in R1.
    destruct (IH h1 fuel R1) as (h' & Run & R' & D' & B').
    { cbn [preorder length] in Hf. rewrite length_app in Hf. lia. }
    exists h'. split; [done|]. split; [done|]. split.
    + intros q. rewrite D', D1. cbn [preorder].
      destruct (decide (q ∈ preorder r)) as [Y|N].
      * rewrite decide_True; [done|]. rewrite elem_of_cons, elem_of_app. tauto.
      * destruct (decide (q ∈ p :: preorder cs)) as [Y2|N2].
        -- rewrite decide_True; [done|]. rewrite elem_of_cons in Y2.
           rewrite elem_of_cons, elem_of_app. tauto.
        -- rewrite decide_False; [done|]. rewrite elem_of_cons in N2.
           rewrite elem_of_cons, elem_of_app. tauto.
    + intros B. apply B'.
      destruct (erase_bookkept h t HHole p cs r (mk_it p false) (S fuel) B eq_refl Hf)
        as (h1' & ret & Er' & B1).
      rewrite Er in Er'. by injection Er' as <- <-.
Qed.

(** [clear()] erases every node: the tree is empty afterwards, every node
    it had is freed and the nodes that are not of this tree keep their
    values; a tree whose counters are kept has size [0] afterwards. *)
Theorem clear_spec (h : heap) t f fuel :
  tree_rep h t f -> 2 * length (preorder f) + 2 <= fuel ->
  exists h', clear fuel h t = Ok h' /\ tree_rep h' t FNil /\
    (forall q, data <$> h' !! q = if decide (q ∈ preorder f) then None else data <$> h !! q) /\
    (bookkept h t f -> bookkept h' t FNil /\ size h' t = Ok 0%Z).
Proof.
  intros R Hf. destruct (clear_loop_spec t f h fuel R Hf) as (h' & Run & R' & D' & B').
  exists h'. unfold clear. rewrite (proj2 (Nat.eqb_neq _ _) (rep_head_nonnull _ _ _ R)).
  split; [done|]. split; [done|]. split; [done|]. intros B.
  specialize (B' B). split; [done|]. destruct B' as (_ & _ & Ch).
  unfold size, rd. destruct (h' !! head t) as [nd|]; [|done]. simpl in Ch.
  injection Ch as Ch. cbn [mbind outcome_bind obind]. by rewrite Ch.
Qed.

(** [set_head] on an empty tree inserts the value as the only node; on a
    tree that has a node it fails its assertion. *)
Theorem set_head_spec (h : heap) t f x fuel :
  tree_rep h t f -> 1 <= fuel ->
  (preorder f <> [] -> set_head fuel h t x = Abort) /\
  (bookkept h t f -> preorder f = [] ->
   exists h', set_head fuel h t x = Ok (h', iterator_of (allocate h)) /\
     bookkept h' t (FCons (allocate h) FNil FNil) /\
     data <$> h' !! allocate h = Some x).
Proof.
  intros R Hf. destruct (rep_head_fields _ _ _ R) as (nd & Hhd & _ & _ & Hn).
  unfold set_head. rewrite (rd_some _ _ _ Hhd). cbn [mbind outcome_bind obind].
  rewrite Hn. split.
  - intros Ne. destruct f as [|p cs r]; [done|]. cbn [first_ptr].
    assert (p <> feet t) as Np.
    { apply (rep_plain h t _ p R). apply elem_of_cons. by left. }
    by rewrite (proj2 (Nat.eqb_neq _ _) Np).
  - intros B E. destruct f as [|p cs r]; [|done]. cbn [first_ptr]. rewrite Nat.eqb_refl.
    pose proof (rep_feet_nonnull _ _ _ R) as Nf.
    destruct (insert_bookkept h t HHole FNil (iterator_of (feet t)) x fuel B) as (h' & I & B1).
    { cbn [node iterator_of first_ptr on_top]. by rewrite (proj2 (Nat.eqb_neq _ _) Nf). }
    { done. }
    { simpl. lia. }
    exists h'. split; [done|]. split; [done|].
    rewrite (insert_data _ _ _ _ _ _ _ I). by rewrite decide_True.
Qed.

Lemma chain_app_l (R : ptr -> ptr -> Prop) l1 l2 : chain R (l1 ++ l2) -> chain R l1.
Proof.
  induction l1 as [|a l1 IH]; [done|]. simpl. intros [X Y]. split; [|by apply IH].
  destruct l1; [done|]. exact X.
Qed.

Lemma feet_step (h : heap) t f n : tree_rep h t f -> 1 <= n -> step n h (feet t) 0.
Proof.
  intros R Hn. unfold step, pre_incr. cbn [node iterator_of].
  rewrite (proj2 (Nat.eqb_neq _ 0) (rep_feet_nonnull _ _ _ R)).
  destruct (rep_feet_fields _ _ _ R) as (nd & Hft & Hp & Hfc & Hnx & _).
  rewrite (rd_some _ _ _ Hft). cbn [mbind outcome_bind obind].
  rewrite Hfc. cbn [Nat.eqb negb andb skip_current_children_].
  destruct n as [|n]; [lia|]. cbn [climb_next].
  rewrite (rd_some _ _ _ Hft). cbn [mbind outcome_bind obind].
  rewrite Hnx, Hp. done.
Qed.

Lemma in_range_spec (h : heap) it last N0 l :
  (forall n, N0 <= n -> chain (step n h) (l ++ [last])) ->
  last ∉ l ->
  forall fuel, N0 + length l < fuel ->
  in_range fuel h it (hd last l) last = Ok (bool_decide (it ∈ l)).
Proof.
  induction l as [|x l IH]; intros Hch Hnf fuel Hf;
    (destruct fuel as [|fuel]; [lia|]); simpl hd; cbn [in_range].
  - rewrite Nat.eqb_refl. by rewrite bool_decide_eq_false_2 by apply not_elem_of_nil.
  - assert (x <> last) by (intros ->; apply Hnf, elem_of_cons; by left).
    rewrite (proj2 (Nat.eqb_neq x last)) by done.
    destruct (Nat.eqb_spec x it) as [->|Nx].
    { rewrite bool_decide_eq_true_2; [done|]. apply elem_of_cons. by left. }
    pose proof (Hch (S fuel) ltac:(simpl in Hf; lia)) as Hch1. simpl in Hch1.
    destruct Hch1 as [Hst _].
    assert (Hst' : step (S fuel) h x (hd last l)) by (destruct l; exact Hst).
    unfold step in Hst'. rewrite Hst'. cbn [mbind outcome_bind obind node iterator_of].
    rewrite IH.
    + f_equal. apply bool_decide_ext. rewrite elem_of_cons. split; [tauto|].
      intros [->|?]; [done|done].
    + intros n Hn. specialize (Hch n Hn). simpl in Hch. tauto.
    + intros Hin. apply Hnf, elem_of_cons. by right.
    + simpl in Hf. lia.
Qed.

Lemma cafter_on_top C : on_top C = true -> cafter C = [].
Proof. induction C as [|p C IH r|p cs C IH]; simpl; auto. done. Qed.

(** [is_in_subtree(it, top)] walks in pre-order from [top] to the next
    sibling of [top].  When [top] is a top-level node or has a next
    sibling the answer is exact.  When [top] is the last child of its
    parent the next sibling is null and the walk runs on to the end of the
    tree: every node behind the subtree, and the foot sentinel, is
    reported as a member of the subtree. *)
Theorem is_in_subtree_spec (h : heap) t C top cs r it fuel sk sk' :
  tree_rep h t (hplug C (FCons top cs r)) ->
  2 * length (preorder (hplug C (FCons top cs r))) + 3 <= fuel ->
  is_in_subtree fuel h (mk_it it sk) (mk_it top sk') =
    Ok (bool_decide
          (it ∈ top :: preorder cs ++
             (if on_top C then []
              else match r with
                   | FNil => cafter C ++ [feet t]
                   | FCons _ _ _ => []
                   end))).
Proof.
  intros R Hf. set (f := hplug C (FCons top cs r)) in *.
  assert (top ∈ preorder f) as Htop.
  { apply hole_preorder. apply elem_of_cons. by left. }
  pose proof (rep_nonnull _ _ _ _ R Htop) as Ntop.
  pose proof R as Rr. apply rep_raw in Rr. unfold f in Rr.
  rewrite with_sentinels_hplug in Rr.
  destruct (raw_hole _ _ _ Rr) as (H0 & _ & _ & _ & _ & _ & Lg & _).
  rewrite gext_node in Lg.
  destruct (links_cons _ _ _ _ _ _ _ Lg) as (nd & Hnd & _ & _ & Hn & _).
  unfold is_in_subtree, sibling_of_node. cbn [node].
  rewrite (proj2 (Nat.eqb_neq _ _) Ntop), (rd_some _ _ _ Hnd).
  cbn [mbind outcome_bind obind]. unfold sibling_incr. cbn [snode parent_].
  rewrite (proj2 (Nat.eqb_neq _ _) Ntop), (rd_some _ _ _ Hnd).
  cbn [mbind outcome_bind obind snode]. rewrite Hn.
  assert (forall n, length (preorder f) <= n -> chain (step n h) (preorder f ++ [feet t])) as W.
  { intros n Hn'. apply walk_chain, tree_walk; [done|]. pose proof (fdepth_le f). lia. }
  pose proof (rep_nodup_exit _ _ _ R) as ND. fold f in ND.
  assert (preorder f ++ [feet t] =
          cbefore C ++ (top :: preorder cs) ++ (preorder r ++ cafter C ++ [feet t])) as E.
  { unfold f. rewrite preorder_hplug_seq. cbn [preorder]. rewrite <- !app_assoc. simpl.
    by rewrite <- !app_assoc. }
  assert (length (preorder f) + 1 =
          length (cbefore C) + S (length (preorder cs)) +
          (length (preorder r) + length (cafter C) + 1)) as El.
  { pose proof (f_equal length E) as X. rewrite !length_app in X. simpl in X. lia. }
  rewrite E in ND. apply NoDup_app in ND as (_ & _ & ND).
  assert (forall n, length (preorder f) <= n ->
            chain (step n h) ((top :: preorder cs) ++ preorder r ++ cafter C ++ [feet t])) as W'.
  { intros n Hn'. apply (chain_app_r _ (cbefore C)). rewrite <- E. by apply W. }
  set (tl := preorder r ++ cafter C ++ [feet t]) in *.
  assert (first_ptr (gext t C r) 0 = if on_top C then hd 0 tl
                                     else match r with FNil => 0 | FCons _ _ _ => hd 0 tl end)
    as ->.
  { unfold gext, tl. destruct (on_top C) eqn:Top.
    - rewrite (cafter_on_top C Top). by destruct r.
    - by destruct r. }
  assert (tl <> []) as Ntl by (unfold tl; destruct (preorder r), (cafter C); done).
  assert (on_top C = true \/ r <> FNil ->
          in_range fuel h it top (hd 0 tl) = Ok (bool_decide (it ∈ top :: preorder cs))) as A.
  { intros _. destruct tl as [|z tl'] eqn:Etl; [done|]. cbn [hd].
    apply (in_range_spec h it z (length (preorder f)) (top :: preorder cs)).
    - intros n Hn'. specialize (W' n Hn').
      replace (((top :: preorder cs) ++ z :: tl')) with (((top :: preorder cs) ++ [z]) ++ tl')
        in W' by (by rewrite <- app_assoc).
      by apply chain_app_l in W'.
    - apply NoDup_app in ND as (_ & Dis & _). intros X. apply (Dis z X).
      apply elem_of_cons. by left.
    - simpl. lia. }
  destruct (on_top C) eqn:Top.
  - rewrite app_nil_r. apply A. by left.
  - destruct r as [|q qcs qr].
    + replace (top :: preorder cs ++ cafter C ++ [feet t])
        with ((top :: preorder cs) ++ tl) by done.
      apply (in_range_spec h it 0 (length (preorder f) + 1) ((top :: preorder cs) ++ tl)).
      * intros n Hn'.
        assert (((top :: preorder cs) ++ tl) ++ [0] =
                ((top :: preorder cs) ++ cafter C) ++ feet t :: [0]) as ->.
        { unfold tl. simpl. by rewrite <- !app_assoc. }
        apply chain_glue.
        -- specialize (W' n ltac:(lia)).
           assert (((top :: preorder cs) ++ cafter C) ++ [feet t] =
                   (top :: preorder cs) ++ tl) as ->; [|done].
           unfold tl. simpl. by rewrite <- !app_assoc.
        -- simpl. split; [|done]. apply (feet_step h t f); [done|lia].
      * intros X. apply elem_of_app in X as [X|X].
        -- apply Ntop. apply elem_of_cons in X as [->|X]; [done|]. exfalso.
           apply (rep_nonnull _ _ _ 0 R); [|done]. unfold f. rewrite preorder_hplug_seq.
           cbn [preorder]. rewrite !elem_of_app, elem_of_cons, elem_of_app. tauto.
        -- unfold tl in X. cbn [preorder app] in X. apply elem_of_app in X as [X|X].
           ++ apply (rep_nonnull _ _ _ 0 R); [|done]. unfold f. rewrite preorder_hplug_seq.
              rewrite !elem_of_app. tauto.
           ++ apply elem_of_cons in X as [X|X]; [by apply (rep_feet_nonnull _ _ _ R)|].
              by apply elem_of_nil in X.
      * rewrite length_app. unfold tl. rewrite !length_app. simpl.
        simpl in El. lia.
    + rewrite app_nil_r. apply A. by right.
Qed.

Lemma prepend_raw (h : heap) C g tmp N :
  raw h (hplug C g) -> hpar C 0 <> 0 -> hprev C 0 = 0 ->
  h !! tmp = None -> tmp <> 0 ->
  first_child N = 0 -> last_child N = 0 ->
  exists pn h2 h3 h4 h5 h6,
    wr (<[tmp := N]> h) tmp (set_parent (hpar C 0)) = Ok h2 /\
    rd h2 (hpar C 0) = Ok pn /\
    (if first_child pn =? 0 then wr h2 (hpar C 0) (set_last_child tmp)
     else wr h2 (first_child pn) (set_prev_sibling tmp)) = Ok h3 /\
    wr h3 tmp (set_next_sibling (first_child pn)) = Ok h4 /\
    wr h4 (hpar C 0) (set_first_child tmp) = Ok h5 /\
    wr h5 tmp (set_prev_sibling 0) = Ok h6 /\
    raw h6 (hplug C (FCons tmp FNil g)) /\
    (forall q, is_Some (h !! q) ->
       count_upd h h6 id q /\ data <$> h6 !! q = data <$> h !! q) /\
    (exists N', h6 !! tmp = Some N' /\ count N' = count N /\ data N' = data N).
Proof.
  intros R Hpar0 Hv0 Htmp Htmp0 Hfc Hlc.
  destruct (raw_hole _ _ _ R) as (H0 & N0C & NDC & NDg & Dis & N0g & Lg & Al & Ch & Fp & Fv).
  set (pos := hpar C 0) in *. rewrite Hv0 in *.
  destruct (Fp Hpar0) as (HposC & pn & Epos & Elc & Efc). specialize (Efc eq_refl).
  assert (forall q, is_Some (h !! q) -> q <> tmp) as Hal by (intros q [x Hx] ->; congruence).
  assert (pos <> tmp) as Hpt by (apply Hal; eauto).
  set (fc := first_ptr g 0).
  assert (bfirst (bounds g) 0 = fc) as Ebf by (by destruct g).
  rewrite Ebf in Efc.
  assert (fc <> 0 -> fc ∈ preorder g /\ fc <> pos /\ fc <> tmp /\
                      exists fnd, h !! fc = Some fnd) as Hfcs.
  { intros E. unfold fc in *. destruct g as [|p cs r]; [done|]. cbn [first_ptr] in *.
    assert (p ∈ preorder (FCons p cs r)) as X by (apply elem_of_cons; by left).
    destruct (links_cons _ _ _ _ _ _ _ Lg) as (nd & Hnd & _).
    split; [done|]. split; [|split; [apply Hal; eauto|eauto]].
    intros Y. apply (Dis pos HposC). by rewrite <- Y. }
  exists pn.
  set (Nt := set_prev_sibling 0 (set_next_sibling fc (set_parent pos N))).
  set (Np := set_first_child tmp (if decide (fc = 0) then set_last_child tmp pn else pn)).
  set (h2 := <[tmp := set_parent pos N]> (<[tmp := N]> h)).
  set (h3 := if fc =? 0 then <[pos := set_last_child tmp pn]> h2
             else <[fc := set_prev_sibling tmp (default pn (h !! fc))]> h2).
  set (h4 := <[tmp := set_next_sibling fc (set_parent pos N)]> h3).
  set (h5 := <[pos := Np]> h4).
  set (h6 := <[tmp := Nt]> h5).
  exists h2, h3, h4, h5, h6.
  assert (forall q, h6 !! q =
            if decide (q = tmp) then Some Nt
            else if decide (q = pos) then Some Np
            else if decide (q = fc) then set_prev_sibling tmp <$> h !! q
            else h !! q) as Look.
  { intros q. unfold h6, h5, h4.
    destruct (decide (q = tmp)) as [->|N1]; [by rewrite lookup_insert_eq|].
    rewrite lookup_insert_ne by done.
    destruct (decide (q = pos)) as [->|N2]; [by rewrite lookup_insert_eq|].
    rewrite !lookup_insert_ne by done. unfold h3, h2.
    destruct (Nat.eqb_spec fc 0) as [E|E].
    - rewrite !lookup_insert_ne by done.
      destruct (decide (q = fc)) as [->|N3]; [|done].
      rewrite E, H0. done.
    - destruct (Hfcs E) as (_ & X1 & X2 & fnd & X3).
      destruct (decide (q = fc)) as [->|N3].
      + rewrite lookup_insert_eq, X3. done.
      + by rewrite !lookup_insert_ne by done. }
  assert (h3 !! tmp = Some (set_parent pos N)) as E3t.
  { unfold h3, h2. destruct (Nat.eqb_spec fc 0) as [E|E].
    - rewrite lookup_insert_ne by done. by rewrite lookup_insert_eq.
    - destruct (Hfcs E) as (_ & X1 & X2 & _).
      rewrite lookup_insert_ne by done. by rewrite lookup_insert_eq. }
  assert (h4 !! pos = Some (if decide (fc = 0) then set_last_child tmp pn else pn)) as E4p.
  { unfold h4, h3, h2. rewrite lookup_insert_ne by done.
    destruct (Nat.eqb_spec fc 0) as [E|E].
    - rewrite lookup_insert_eq. by rewrite decide_True.
    - destruct (Hfcs E) as (_ & X1 & X2 & _). rewrite decide_False by done.
      by rewrite !lookup_insert_ne by done. }
  split; [|split; [|split; [|split; [|split; [|split; [|split; [|split]]]]]]].
  - by rewrite (wr_some _ _ N) by apply lookup_insert_eq.
  - apply rd_some. unfold h2. by rewrite !lookup_insert_ne.
  - rewrite Efc. unfold h3.
    destruct (Nat.eqb_spec fc 0) as [E|E].
    + apply wr_some. unfold h2. by rewrite !lookup_insert_ne.
    + destruct (Hfcs E) as (_ & X1 & X2 & fnd & X3). rewrite X3. simpl.
      apply wr_some. unfold h2. by rewrite !lookup_insert_ne.
  - rewrite Efc. by rewrite (wr_some _ _ _ _ E3t).
  - by rewrite (wr_some _ _ _ _ E4p).
  - unfold h6, Nt. rewrite (wr_some _ _ (set_next_sibling fc (set_parent pos N))); [done|].
    unfold h5, h4. rewrite lookup_insert_ne by done. by rewrite lookup_insert_eq.
  - apply (raw_replace h h6 C g); [done| | | | |].
    + rewrite Look. rewrite (decide_False (P := 0 = tmp)) by congruence.
      rewrite (decide_False (P := 0 = pos)) by congruence.
      destruct (decide (0 = fc)); by rewrite H0.
    + fold pos. rewrite Hv0. cbn [links]. rewrite Look, decide_True by done.
      unfold Nt. cbn. split; [done|]. split; [done|]. split; [done|].
      split; [done|]. split; [done|]. split; [done|].
      apply (links_reprev h h6 g pos 0 tmp 0 Lg).
      * intros q Hq Hq1. apply keeps_links_same; [by apply (links_lookup h g q pos 0 0)|].
        rewrite Look. rewrite !decide_False; try done.
        -- intros ->. by apply (Dis pos HposC).
        -- apply Hal. by apply (links_lookup h g q pos 0 0).
      * intros Ng. assert (fc <> 0) as E.
        { unfold fc. destruct g as [|p cs r]; [done|]. cbn [first_ptr]. intros ->.
          apply N0g. apply elem_of_cons. by left. }
        destruct (Hfcs E) as (_ & X1 & X2 & fnd & X3). fold fc.
        rewrite X3, Look. rewrite !decide_False by done. rewrite decide_True by done.
        rewrite X3. cbn. apply same_links_refl.
      * done.
    + apply (ctx_upd_intro h h6 C g); [done| | |].
      * intros p Hp Hp1 Hp2. apply keeps_links_same; [by apply Al|].
        rewrite Look. rewrite !decide_False; try done.
        -- intros ->. destruct (Nat.eq_dec fc 0) as [E|E]; [by rewrite E in Hp|].
           destruct (Hfcs E) as (X & _). by apply (Dis fc Hp).
        -- apply Hal. by apply Al.
      * rewrite Hv0. done.
      * fold pos. rewrite Hv0. intros _. rewrite Epos, Look.
        rewrite decide_False by done. rewrite decide_True by done.
        unfold Np. cbn [bounds bfirst blast last_ptr]. rewrite decide_True by done.
        destruct (decide (fc = 0)) as [E|E].
        -- unfold fc in E. destruct g as [|p cs r].
           ++ cbn. done.
           ++ cbn [first_ptr] in E. exfalso. apply N0g. rewrite <- E.
              apply elem_of_cons. by left.
        -- destruct g as [|p cs r]; [done|]. cbn [last_ptr bounds blast] in *.
           unfold same_links. cbn. rewrite Elc. done.
    + intros x Hx. cbn [preorder]. rewrite elem_of_cons. intros [->|X].
      * destruct (Al tmp Hx) as [? ?]. congruence.
      * cbn [app] in X. by apply (Dis x Hx).
    + cbn [preorder app]. apply NoDup_cons. split; [|done].
      intros X. destruct (links_lookup h g tmp pos 0 0 Lg X) as [? ?]. congruence.
  - intros q Hq. pose proof (Hal q Hq) as Hqt. destruct Hq as [x Hx].
    unfold count_upd. rewrite Hx, Look. rewrite decide_False by done.
    destruct (decide (q = pos)) as [->|N2].
    + assert (pn = x) as -> by congruence. unfold Np. by destruct (decide (fc = 0)).
    + destruct (decide (q = fc)) as [->|N3]; rewrite Hx; done.
  - exists Nt. rewrite Look, decide_True by done. done.
Qed.

(** [prepend_child] on any well-formed tree: the new node becomes the
    first child of the position and the tree stays well formed, but no
    counter is touched: every node keeps its counter and [size()] returns
    what it returned before, although the tree has one node more. *)
Theorem prepend_child_spec (h : heap) t C pos cs r x sk :
  tree_rep h t (hplug C (FCons pos cs r)) ->
  exists h',
    prepend_child h t (mk_it pos sk) x = Ok (h', iterator_of (allocate h)) /\
    tree_rep h' t (hplug C (FCons pos (FCons (allocate h) FNil cs) r)) /\
    data <$> h' !! allocate h = Some x /\
    (forall q, is_Some (h !! q) ->
       count <$> h' !! q = count <$> h !! q /\ data <$> h' !! q = data <$> h !! q) /\
    size h' t = size h t /\
    length (preorder (hplug C (FCons pos (FCons (allocate h) FNil cs) r))) =
      S (length (preorder (hplug C (FCons pos cs r)))).
Proof.
  intros R.
  destruct (rep_hole _ _ _ _ R) as (NDC & NhC & Nhg & AlC & Alg & Dis & [hdn Hh]).
  destruct (allocate_fresh h) as [Htmp Htmp0]. set (tmp := allocate h) in *.
  set (N := set_visible (visible hdn) (set_expanded (expanded hdn) (node_of x))).
  assert (pos ∈ preorder (hplug C (FCons pos cs r))) as Hpos.
  { apply hole_preorder. apply elem_of_cons. by left. }
  destruct (rep_plain _ _ _ _ R Hpos) as (Hp0 & Hph & Hpf).
  set (C0 := hcomp C (HChild pos HHole r)).
  assert (forall g, hplug C0 g = hplug C (FCons pos g r)) as EC0.
  { intros g. unfold C0. by rewrite hplug_hcomp. }
  assert (on_top C0 = false) as Top.
  { unfold C0. rewrite on_top_hcomp. cbn [on_top]. by rewrite andb_false_r. }
  assert (forall g, gext t C0 g = g) as Eg by (intros g; unfold gext; by rewrite Top).
  assert (hpar C0 0 = pos) as Epar by (unfold C0; by rewrite hpar_hcomp).
  pose proof R as Rr. rewrite <- EC0 in Rr. apply rep_raw in Rr.
  rewrite with_sentinels_hplug, Eg in Rr.
  destruct (prepend_raw h (cext t C0) cs tmp N Rr)
    as (pn & h2 & h3 & h4 & h5 & h6 & R1 & R2 & R3 & R4 & R5 & R6 & Rr6 & Cu6 &
        N' & EN' & CN' & DN'); try done.
  { by rewrite hpar_cext, Epar. }
  { rewrite hprev_cext. unfold C0. by rewrite hprev_hcomp. }
  rewrite hpar_cext, Epar in *.
  rewrite <- (Eg (FCons tmp FNil cs)), <- with_sentinels_hplug in Rr6. apply rep_raw in Rr6.
  rewrite EC0 in Rr6.
  exists h6. split; [|split; [done|split; [|split; [|split]]]].
  - unfold prepend_child. cbn [node].
    rewrite (proj2 (Nat.eqb_neq pos (head t))) by done.
    rewrite (proj2 (Nat.eqb_neq pos (feet t))) by done.
    rewrite (proj2 (Nat.eqb_neq pos 0)) by done. cbn [orb].
    unfold new_node. rewrite (rd_some _ _ _ Hh). cbn [mbind outcome_bind obind].
    fold tmp N. rewrite R1. cbn [mbind outcome_bind obind].
    rewrite R2. cbn [mbind outcome_bind obind].
    rewrite R3. cbn [mbind outcome_bind obind].
    rewrite R4. cbn [mbind outcome_bind obind].
    rewrite R5. cbn [mbind outcome_bind obind].
    rewrite R6. done.
  - rewrite EN'. simpl. by rewrite DN'.
  - intros q Hq. destruct (Cu6 q Hq) as [X Y]. split; [|done].
    unfold count_upd in X. destruct Hq as [a Ha]. rewrite Ha in X |- *.
    destruct (h6 !! q); [|done]. simpl. by rewrite X.
  - destruct (Cu6 (head t) ltac:(eauto)) as [X _]. unfold count_upd in X.
    unfold size, rd. rewrite Hh in X |- *. destruct (h6 !! head t); [|done].
    cbn [mbind outcome_bind obind]. by rewrite X.
  - rewrite !preorder_hplug, !length_app. simpl. rewrite !length_app. simpl. lia.
Qed.

Lemma insert_after_raw (h : heap) C pos cs r tmp N :
  raw h (hplug C (FCons pos cs r)) ->
  h !! tmp = None -> tmp <> 0 ->
  (first_ptr r 0 = 0 -> hpar C 0 <> 0) ->
  first_child N = 0 -> last_child N = 0 ->
  exists pn h1 h2 h3,
    rd (<[tmp := N]> h) pos = Ok pn /\
    wr (<[tmp := N]> h) tmp
       (fun n => set_next_sibling (next_sibling pn)
                   (set_prev_sibling pos (set_parent (parent pn) n))) = Ok h1 /\
    wr h1 pos (set_next_sibling tmp) = Ok h2 /\
    (if next_sibling pn =? 0 then
       if parent pn =? 0 then Ok h2 else wr h2 (parent pn) (set_last_child tmp)
     else wr h2 (next_sibling pn) (set_prev_sibling tmp)) = Ok h3 /\
    raw h3 (hplug C (FCons pos cs (FCons tmp FNil r))) /\
    (forall q, is_Some (h !! q) ->
       count_upd h h3 id q /\ data <$> h3 !! q = data <$> h !! q) /\
    (exists N', h3 !! tmp = Some N' /\ count N' = count N /\ data N' = data N).
Proof.
  intros R Htmp Htmp0 Hnx Hfc Hlc.
  destruct (raw_hole _ _ _ R) as (H0 & N0C & NDC & NDg & Dis & N0g & Lg & Al & Ch & Fp & Fv).
  set (par := hpar C 0) in *. set (hv := hprev C 0) in *.
  destruct (links_cons _ _ _ _ _ _ _ Lg) as (pn & Epos & Ppn & Vpn & Xpn & Fpn & Lpn & Lcs & Lr).
  set (nx := first_ptr r 0) in *.
  assert (forall q, is_Some (h !! q) -> q <> tmp) as Hal by (intros q [x Hx] ->; congruence).
  assert (pos <> tmp) as Hpt by (apply Hal; eauto).
  assert (pos ∈ preorder (FCons pos cs r)) as HposG by (apply elem_of_cons; by left).
  assert (forall q, q ∈ preorder r -> q ∈ preorder (FCons pos cs r)) as Hr.
  { intros q Hq. apply elem_of_cons. right. apply elem_of_app. by right. }
  assert (forall q, q ∈ preorder cs -> q ∈ preorder (FCons pos cs r)) as Hcs.
  { intros q Hq. apply elem_of_cons. right. apply elem_of_app. by left. }
  assert ((pos ∉ preorder cs) /\ (pos ∉ preorder r) /\ NoDup (preorder cs) /\
          NoDup (preorder r) /\ forall q, q ∈ preorder cs -> q ∉ preorder r) as
    (Npc & Npr & NDcs & NDr & Dcr).
  { cbn [preorder] in NDg. apply NoDup_cons in NDg as [N1 NDg].
    apply NoDup_app in NDg as (X1 & X2 & X3). rewrite elem_of_app in N1. tauto. }
  assert (nx <> 0 -> nx ∈ preorder r /\ nx <> pos /\ nx <> tmp /\ nx <> par /\
                      exists xnd, h !! nx = Some xnd) as Hnxs.
  { intros E. unfold nx in *. destruct r as [|p pcs pr]; [done|]. cbn [first_ptr] in *.
    assert (p ∈ preorder (FCons p pcs pr)) as X by (apply elem_of_cons; by left).
    destruct (links_cons _ _ _ _ _ _ _ Lr) as (nd & Hnd & _).
    split; [done|]. split; [by intros ->|]. split; [apply Hal; eauto|].
    split; [|eauto]. intros Y.
    destruct (Nat.eq_dec par 0) as [Z|NZ]; [congruence|].
    destruct (Fp NZ) as (HposC & _). apply (Dis par HposC). rewrite <- Y. by apply Hr. }
  assert (par <> 0 -> par ∈ cptrs C /\ par <> pos /\ par <> tmp /\
            exists pd, h !! par = Some pd /\
              last_child pd = last_ptr r pos /\ (hv = 0 -> first_child pd = pos)) as Hpars.
  { intros NZ. destruct (Fp NZ) as (HposC & pd & Epd & Elc & Efc).
    split; [done|]. split; [intros Y; apply (Dis par HposC); by rewrite Y|].
    split; [apply Hal; eauto|]. exists pd. done. }
  assert (nx = 0 -> r = FNil) as Hnil.
  { intros E. unfold nx in E. destruct r as [|p pcs pr]; [done|]. cbn [first_ptr] in E.
    exfalso. apply N0g. rewrite <- E. apply Hr. apply elem_of_cons. by left. }
  exists pn.
  set (Nt := set_next_sibling nx (set_prev_sibling pos (set_parent par N))).
  set (h1 := <[tmp := Nt]> (<[tmp := N]> h)).
  set (h2 := <[pos := set_next_sibling tmp pn]> h1).
  set (h3 := if nx =? 0 then
               if par =? 0 then h2
               else <[par := set_last_child tmp (default pn (h !! par))]> h2
             else <[nx := set_prev_sibling tmp (default pn (h !! nx))]> h2).
  exists h1, h2, h3.
  assert (forall q, h3 !! q =
            if decide (q = tmp) then Some Nt
            else if decide (q = pos) then Some (set_next_sibling tmp pn)
            else if decide (nx <> 0 /\ q = nx) then set_prev_sibling tmp <$> h !! q
            else if decide (nx = 0 /\ q = par) then set_last_child tmp <$> h !! q
            else h !! q) as Look.
  { intros q. unfold h3.
    destruct (Nat.eqb_spec nx 0) as [E|E].
    - specialize (Hnx E). fold par in Hnx.
      rewrite (proj2 (Nat.eqb_neq _ _) Hnx).
      destruct (Hpars Hnx) as (_ & X1 & X2 & pd & X3 & _).
      rewrite (decide_False (P := nx <> 0 /\ q = nx)) by tauto.
      destruct (decide (q = tmp)) as [->|N1].
      { rewrite lookup_insert_ne by done. unfold h2, h1.
        rewrite lookup_insert_ne by done. by rewrite lookup_insert_eq. }
      destruct (decide (q = pos)) as [->|N2].
      { rewrite lookup_insert_ne by done. unfold h2. by rewrite lookup_insert_eq. }
      destruct (decide (q = par)) as [->|N3].
      + rewrite lookup_insert_eq, decide_True by done. by rewrite X3.
      + rewrite decide_False by tauto. unfold h2, h1. by rewrite !lookup_insert_ne.
    - destruct (Hnxs E) as (_ & X1 & X2 & X4 & xnd & X3).
      rewrite (decide_False (P := nx = 0 /\ q = par)) by tauto.
      destruct (decide (q = tmp)) as [->|N1].
      { rewrite lookup_insert_ne by done. unfold h2, h1.
        rewrite lookup_insert_ne by done. by rewrite lookup_insert_eq. }
      destruct (decide (q = pos)) as [->|N2].
      { rewrite lookup_insert_ne by done. unfold h2. by rewrite lookup_insert_eq. }
      destruct (decide (q = nx)) as [->|N3].
      + rewrite lookup_insert_eq, decide_True by done. by rewrite X3.
      + rewrite decide_False by tauto. unfold h2, h1. by rewrite !lookup_insert_ne. }
  assert (forall q, q <> tmp -> q <> pos -> q <> par -> q <> nx -> h3 !! q = h !! q) as Out.
  { intros q Q1 Q2 Q3 Q4. rewrite Look. rewrite !decide_False; tauto. }
  split; [|split; [|split; [|split; [|split; [|split]]]]].
  - apply rd_some. by rewrite lookup_insert_ne.
  - rewrite (wr_some _ _ N) by apply lookup_insert_eq. by rewrite Ppn, Xpn.
  - apply wr_some. unfold h1. by rewrite !lookup_insert_ne.
  - rewrite Xpn, Ppn. fold nx par. unfold h3.
    destruct (Nat.eqb_spec nx 0) as [E|E].
    + specialize (Hnx E). fold par in Hnx. rewrite (proj2 (Nat.eqb_neq _ _) Hnx).
      destruct (Hpars Hnx) as (_ & X1 & X2 & pd & X3 & _). rewrite X3. simpl.
      apply wr_some. unfold h2, h1. by rewrite !lookup_insert_ne.
    + destruct (Hnxs E) as (_ & X1 & X2 & X4 & xnd & X3). rewrite X3. simpl.
      apply wr_some. unfold h2, h1. by rewrite !lookup_insert_ne.
  - apply (raw_replace h h3 C (FCons pos cs r)); [done| | | | |].
    + rewrite Look. rewrite (decide_False (P := 0 = tmp)) by congruence.
      rewrite (decide_False (P := 0 = pos)).
      2:{ intros E. apply N0g. by rewrite E. }
      rewrite (decide_False (P := nx <> 0 /\ 0 = nx)) by (intros [? ?]; congruence).
      destruct (decide (nx = 0 /\ 0 = par)) as [[E1 E2]|_]; [|done].
      exfalso. by apply (Hnx E1).
    + fold par hv. cbn [links]. rewrite Look.
      rewrite (decide_False (P := pos = tmp)) by done. rewrite decide_True by done.
      cbn. split; [done|]. split; [done|]. split; [done|]. split; [done|].
      split; [done|]. split.
      * apply (links_keep h h3 cs pos 0 0 Lcs). intros q Hq.
        apply keeps_links_same; [by apply (links_lookup h cs q pos 0 0)|].
        apply Out.
        -- apply Hal. by apply (links_lookup h cs q pos 0 0).
        -- by intros ->.
        -- intros ->. destruct (Nat.eq_dec par 0) as [Z|NZ].
           ++ apply N0g. rewrite <- Z. by apply Hcs.
           ++ destruct (Hpars NZ) as (X & _). apply (Dis par X). by apply Hcs.
        -- intros ->. destruct (Nat.eq_dec nx 0) as [Z|NZ].
           ++ apply N0g. rewrite <- Z. by apply Hcs.
           ++ destruct (Hnxs NZ) as (X & _). by apply (Dcr nx).
      * rewrite Look, decide_True by done. unfold Nt. cbn.
        split; [done|]. split; [done|]. split; [done|]. split; [done|].
        split; [done|]. split; [done|].
        apply (links_reprev h h3 r par pos tmp 0 Lr); [| |done].
        -- intros q Hq Hq1. apply keeps_links_same; [by apply (links_lookup h r q par pos 0)|].
           apply Out.
           ++ apply Hal. by apply (links_lookup h r q par pos 0).
           ++ by intros ->.
           ++ intros ->. destruct (Nat.eq_dec par 0) as [Z|NZ].
              ** apply N0g. rewrite <- Z. by apply Hr.
              ** destruct (Hpars NZ) as (X & _). apply (Dis par X). by apply Hr.
           ++ done.
        -- intros Ng. assert (nx <> 0) as E by (intros E; by apply Ng, Hnil).
           destruct (Hnxs E) as (_ & X1 & X2 & X4 & xnd & X3). fold nx.
           rewrite X3, Look. rewrite !decide_False by done. rewrite decide_True by done.
           rewrite X3. cbn. apply same_links_refl.
    + apply (ctx_upd_intro h h3 C (FCons pos cs r)); [done| | |].
      * intros p Hp Hp1 Hp2. apply keeps_links_same; [by apply Al|].
        apply Out.
        -- apply Hal. by apply Al.
        -- intros ->. by apply (Dis pos Hp).
        -- done.
        -- intros ->. destruct (Nat.eq_dec nx 0) as [Z|NZ]; [by rewrite Z in Hp|].
           destruct (Hnxs NZ) as (X & _). apply (Dis nx Hp). by apply Hr.
      * fold hv. intros E. destruct (Fv E) as (X1 & X2 & vnd & X3 & X4).
        rewrite X3. rewrite Out.
        -- rewrite X3. cbn [bounds bfirst] in *. unfold same_links. cbn. by rewrite X4.
        -- apply Hal. eauto.
        -- intros Y. apply (Dis hv X1). by rewrite Y.
        -- done.
        -- intros Y. destruct (Nat.eq_dec nx 0) as [Z|NZ]; [congruence|].
           destruct (Hnxs NZ) as (X & _). apply (Dis hv X1). rewrite Y. by apply Hr.
      * fold par hv. intros NZ. destruct (Hpars NZ) as (X0 & X1 & X2 & pd & X3 & X5 & X6).
        rewrite X3, Look. rewrite !decide_False by done.
        cbn [bounds bfirst blast last_ptr].
        destruct (decide (nx = 0)) as [E|E].
        -- rewrite (decide_False (P := nx <> 0 /\ par = nx)) by tauto.
           rewrite decide_True by done. rewrite X3. rewrite (Hnil E). cbn.
           unfold same_links. cbn. destruct (decide (hv = 0)) as [V|V]; cbn; [|done].
           by rewrite (X6 V).
        -- destruct (Hnxs E) as (_ & Y1 & Y2 & Y4 & _).
           rewrite (decide_False (P := nx <> 0 /\ par = nx)) by (intros [? ?]; congruence).
           rewrite decide_False by tauto. rewrite X3.
           assert (last_ptr r tmp = last_ptr r pos) as ->.
           { destruct r; [|done]. by exfalso. }
           unfold same_links. cbn. destruct (decide (hv = 0)) as [V|V]; cbn; [|done].
           by rewrite (X6 V).
    + intros x Hx. cbn [preorder]. rewrite elem_of_cons, elem_of_app. cbn [app].
      rewrite elem_of_cons. intros [->|[X|[->|X]]].
      * by apply (Dis pos Hx).
      * apply (Dis x Hx). by apply Hcs.
      * destruct (Al tmp Hx) as [? ?]. congruence.
      * apply (Dis x Hx). by apply Hr.
    + cbn [preorder app].
      assert (forall l : list nat, tmp ∈ l -> (forall q, q ∈ l -> is_Some (h !! q)) -> False) as Nt'.
      { intros l X A. destruct (A tmp X) as [? ?]. congruence. }
      apply NoDup_cons. split.
      * rewrite elem_of_app, elem_of_cons. intros [X|[X|X]]; [done| |done].
        apply Hal in X; [done|eauto].
      * apply NoDup_app. split; [done|]. split.
        -- intros q Hq. rewrite elem_of_cons. intros [->|X].
           ++ apply (Nt' (preorder cs) Hq). intros q' Hq'.
              by apply (links_lookup h cs q' pos 0 0).
           ++ by apply (Dcr q).
        -- apply NoDup_cons. split; [|done]. intros X.
           apply (Nt' (preorder r) X). intros q' Hq'.
           by apply (links_lookup h r q' par pos 0).
  - intros q Hq. pose proof (Hal q Hq) as Hqt. destruct Hq as [x Hx].
    unfold count_upd. rewrite Hx, Look. rewrite decide_False by done.
    destruct (decide (q = pos)) as [->|N2].
    { assert (pn = x) as -> by congruence. done. }
    destruct (decide (nx <> 0 /\ q = nx)) as [_|_]; [by rewrite Hx|].
    destruct (decide (nx = 0 /\ q = par)) as [_|_]; by rewrite Hx.
  - exists Nt. rewrite Look, decide_True by done. done.
Qed.

(** [insert_after] on any well-formed tree: the new node becomes the next
    sibling of the position and the tree stays well formed, but no counter
    is touched: every node keeps its counter and [size()] returns what it
    returned before, although the tree has one node more. *)
Theorem insert_after_spec (h : heap) t C pos cs r x sk :
  tree_rep h t (hplug C (FCons pos cs r)) ->
  exists h',
    insert_after h t (mk_it pos sk) x = Ok (h', iterator_of (allocate h)) /\
    tree_rep h' t (hplug C (FCons pos cs (FCons (allocate h) FNil r))) /\
    data <$> h' !! allocate h = Some x /\
    (forall q, is_Some (h !! q) ->
       count <$> h' !! q = count <$> h !! q /\ data <$> h' !! q = data <$> h !! q) /\
    size h' t = size h t /\
    length (preorder (hplug C (FCons pos cs (FCons (allocate h) FNil r)))) =
      S (length (preorder (hplug C (FCons pos cs r)))).
Proof.
  intros R.
  destruct (rep_hole _ _ _ _ R) as (NDC & NhC & Nhg & AlC & Alg & Dis & [hdn Hh]).
  destruct (allocate_fresh h) as [Htmp Htmp0]. set (tmp := allocate h) in *.
  set (N := set_visible (visible hdn) (set_expanded (expanded hdn) (node_of x))).
  pose proof R as Rr. apply rep_raw in Rr.
  rewrite with_sentinels_hplug, gext_node in Rr.
  destruct (insert_after_raw h (cext t C) pos cs (gext t C r) tmp N Rr)
    as (pn & h1 & h2 & h3 & R0 & R1 & R2 & R3 & Rr3 & Cu3 & N' & EN' & CN' & DN'); try done.
  { apply (cext_next h t C (FCons pos cs r) r R). intros q Hq. apply elem_of_cons. right.
    apply elem_of_app. by right. }
  rewrite <- gext_leaf, <- gext_node, <- with_sentinels_hplug in Rr3. apply rep_raw in Rr3.
  exists h3. split; [|split; [done|split; [|split; [|split]]]].
  - unfold insert_after. cbn [node].
    unfold new_node. rewrite (rd_some _ _ _ Hh). cbn [mbind outcome_bind obind].
    fold tmp N. rewrite R0. cbn [mbind outcome_bind obind].
    rewrite R1. cbn [mbind outcome_bind obind].
    rewrite R2. cbn [mbind outcome_bind obind].
    rewrite R3. done.
  - rewrite EN'. simpl. by rewrite DN'.
  - intros q Hq. destruct (Cu3 q Hq) as [X Y]. split; [|done].
    unfold count_upd in X. destruct Hq as [a Ha]. rewrite Ha in X |- *.
    destruct (h3 !! q); [|done]. simpl. by rewrite X.
  - destruct (Cu3 (head t) ltac:(eauto)) as [X _]. unfold count_upd in X.
    unfold size, rd. rewrite Hh in X |- *. destruct (h3 !! head t); [|done].
    cbn [mbind outcome_bind obind]. by rewrite X.
  - rewrite !preorder_hplug, !length_app. simpl. rewrite !length_app. simpl. lia.
Qed.

Lemma shrink_ancestors_spec cur cn l : forall (h : heap) p pe fuel,
  chain_up h p l -> NoDup l -> cur ∉ l -> h !! cur = Some cn -> length l < fuel ->
  exists h' pe', shrink_ancestors fuel h cur p pe = Ok (h', pe') /\ same_shape h h' /\
    h' !! cur = Some cn /\
    forall q, is_Some (h !! q) ->
      count_upd h h' (fun c => if decide (q ∈ l) then wrap (c - count cn) else c) q.
Proof.
  induction l as [|a l IH]; intros h p pe fuel C ND Nc Hc Hf;
    (destruct fuel as [|fuel]; [lia|]).
  - simpl in C. subst p. exists h, pe. split; [done|]. split; [apply same_shape_refl|].
    split; [done|]. intros q [nd Hq]. unfold count_upd. rewrite Hq.
    by rewrite decide_False by apply not_elem_of_nil.
  - simpl in C. destruct C as (-> & Hp0 & C).
    destruct (h !! p) as [nd|] eqn:Hp; [|done].
    apply NoDup_cons in ND as [Np ND].
    assert (cur <> p) as Hcp by (intros ->; apply Nc, elem_of_cons; by left).
    assert (cur ∉ l) as Ncl by (intros X; apply Nc, elem_of_cons; by right).
    cbn [shrink_ancestors]. rewrite (proj2 (Nat.eqb_neq p 0)) by done.
    rewrite (rd_some _ _ _ Hp). cbn [mbind outcome_bind obind].
    set (pe' := pe && expanded nd).
    set (nd1 := if pe' then set_count_expanded
                  (wrap (count_expanded nd - count_expanded cn)) nd else nd).
    set (h1 := if pe' then <[p := nd1]> h else h).
    assert ((if pe' then
               cn0 ← rd h cur;
               wr h p (fun n => set_count_expanded
                        (wrap (count_expanded n - count_expanded cn0)) n)
             else Ok h) = Ok h1) as ->.
    { unfold h1, nd1. destruct pe'; [|done].
      rewrite (rd_some _ _ _ Hc). cbn [mbind outcome_bind obind].
      by rewrite (wr_some _ _ _ _ Hp). }
    cbn [mbind outcome_bind obind].
    assert (h1 !! cur = Some cn) as Hc1.
    { unfold h1. destruct pe'; [|done]. by rewrite lookup_insert_ne by done. }
    assert (h1 !! p = Some nd1) as Hp1.
    { unfold h1, nd1. destruct pe'; [by rewrite lookup_insert_eq|done]. }
    rewrite (rd_some _ _ _ Hc1). cbn [mbind outcome_bind obind].
    rewrite (wr_some _ _ _ _ Hp1). cbn [mbind outcome_bind obind].
    set (nd2 := set_count _ nd1).
    rewrite (rd_some _ _ cn) by (by rewrite lookup_insert_ne by done).
    cbn [mbind outcome_bind obind].
    rewrite (wr_some _ _ nd2) by apply lookup_insert_eq.
    cbn [mbind outcome_bind obind].
    set (nd3 := set_count_expandable _ nd2).
    rewrite (rd_some _ _ nd3) by apply lookup_insert_eq. cbn [mbind outcome_bind obind].
    assert (<[p := nd3]> (<[p := nd2]> h1) = <[p := nd3]> h) as Eh.
    { rewrite insert_insert_eq. unfold h1. destruct pe'; [by rewrite insert_insert_eq|done]. }
    rewrite Eh.
    assert (parent nd3 = parent nd /\ same_links nd nd3 /\ data nd = data nd3 /\
            count nd3 = wrap (count nd - count cn)) as (E1 & E2 & E3 & E4).
    { unfold nd3, nd2, nd1. destruct pe'; simpl; repeat split; done. }
    rewrite E1.
    assert (same_shape h (<[p := nd3]> h)) as S1 by (by apply (same_shape_insert _ _ nd)).
    destruct (IH (<[p := nd3]> h) (parent nd) pe' fuel) as (h' & pe2 & Run & S2 & Hc' & Cn).
    + by apply (chain_up_shape h).
    + done.
    + done.
    + by rewrite lookup_insert_ne by done.
    + simpl in Hf. lia.
    + exists h', pe2. split; [exact Run|]. split; [by eapply same_shape_trans|].
      split; [done|].
      intros q [qd Hq]. destruct (decide (q = p)) as [->|Hne].
      * pose proof (Cn p ltac:(rewrite lookup_insert_eq; eauto)) as X.
        unfold count_upd in *. rewrite lookup_insert_eq in X. rewrite Hp.
        destruct (h' !! p) as [c|]; [|done].
        rewrite decide_False in X by done.
        rewrite decide_True by (apply elem_of_cons; by left). congruence.
      * pose proof (Cn q ltac:(rewrite lookup_insert_ne by done; eauto)) as X.
        unfold count_upd in *. rewrite lookup_insert_ne in X by done. rewrite Hq in *.
        destruct (h' !! q) as [c|]; [|done].
        destruct (decide (q ∈ l)) as [Y|N].
        -- rewrite decide_True by (apply elem_of_cons; by right). done.
        -- rewrite decide_False; [done|]. rewrite elem_of_cons. tauto.
Qed.

Lemma shrink_head_spec (h : heap) t cur cn pe :
  is_Some (h !! head t) -> h !! cur = Some cn -> cur <> head t ->
  exists h', shrink_head h t cur pe = Ok h' /\ same_shape h h' /\
    h' !! cur = Some cn /\
    forall q, is_Some (h !! q) ->
      count_upd h h' (fun c => if decide (q = head t) then wrap (c - count cn) else c) q.
Proof.
  intros [hd Hh] Hc Hne. unfold shrink_head.
  set (hd1 := if pe then set_count_expanded
                (wrap (count_expanded hd - count_expanded cn)) hd else hd).
  set (h1 := if pe then <[head t := hd1]> h else h).
  assert ((if pe then
             cn0 ← rd h cur;
             wr h (head t) (fun n => set_count_expanded
                      (wrap (count_expanded n - count_expanded cn0)) n)
           else Ok h) = Ok h1) as ->.
  { unfold h1, hd1. destruct pe; [|done].
    rewrite (rd_some _ _ _ Hc). cbn [mbind outcome_bind obind].
    by rewrite (wr_some _ _ _ _ Hh). }
  cbn [mbind outcome_bind obind].
  assert (h1 !! cur = Some cn) as Hc1.
  { unfold h1. destruct pe; [|done]. by rewrite lookup_insert_ne by done. }
  assert (h1 !! head t = Some hd1) as Hh1.
  { unfold h1, hd1. destruct pe; [by rewrite lookup_insert_eq|done]. }
  rewrite (rd_some _ _ _ Hc1). cbn [mbind outcome_bind obind].
  rewrite (wr_some _ _ _ _ Hh1). cbn [mbind outcome_bind obind].
  set (hd2 := set_count _ hd1).
  rewrite (rd_some _ _ cn) by (by rewrite lookup_insert_ne by done).
  cbn [mbind outcome_bind obind].
  rewrite (wr_some _ _ hd2) by apply lookup_insert_eq.
  set (hd3 := set_count_expandable _ hd2).
  assert (<[head t := hd3]> (<[head t := hd2]> h1) = <[head t := hd3]> h) as ->.
  { rewrite insert_insert_eq. unfold h1. destruct pe; [by rewrite insert_insert_eq|done]. }
  assert (same_links hd hd3 /\ data hd = data hd3 /\
          count hd3 = wrap (count hd - count cn)) as (E2 & E3 & E4).
  { unfold hd3, hd2, hd1. destruct pe; simpl; repeat split; done. }
  eexists. split; [done|]. split; [by apply (same_shape_insert _ _ hd)|].
  split; [by rewrite lookup_insert_ne by done|].
  intros q [qd Hq]. unfold count_upd. rewrite Hq.
  destruct (decide (q = head t)) as [->|Hne'].
  - rewrite lookup_insert_eq. congruence.
  - by rewrite lookup_insert_ne, Hq.
Qed.

Lemma wrap_sub_r c k : wrap (c - wrap k) = wrap (c - k).
Proof. unfold wrap. by rewrite Zminus_mod_idemp_r. Qed.

Lemma cptrs_cext t C q : q ∈ cptrs C -> q ∈ cptrs (cext t C).
Proof.
  intros Hq. unfold cext. cbn [cptrs preorder app]. apply elem_of_cons. right.
  induction C as [|a D IH r0|a cs0 D IH]; [done| |].
  - cbn [cext_top cptrs] in *. rewrite elem_of_cons, elem_of_app in Hq.
    rewrite elem_of_cons, elem_of_app, preorder_fsnoc, elem_of_app. tauto.
  - cbn [cext_top cptrs] in *. rewrite elem_of_cons, elem_of_app in Hq.
    rewrite elem_of_cons, elem_of_app. tauto.
Qed.

(** The public [erase_children] in the bookkeeping build.  The children
    and their descendants are freed and the tree stays well formed; the
    counters of the ancestors and of the head are lowered by the counter of
    the node, but the counter of the node itself is left as it was: it
    still counts the descendants that are gone.  Resetting that one counter
    gives a tree whose counters are all right. *)
Theorem erase_children_stale (h : heap) t C p cs r fuel sk :
  bookkept h t (hplug C (FCons p cs r)) ->
  2 * length (preorder (hplug C (FCons p cs r))) + 2 <= fuel ->
  exists h' nd',
    erase_children fuel h t (mk_it p sk) = Ok h' /\
    tree_rep h' t (hplug C (FCons p FNil r)) /\
    (forall q, data <$> h' !! q =
       if decide (q ∈ preorder cs) then None else data <$> h !! q) /\
    h' !! p = Some nd' /\ count nd' = wrap (Z.of_nat (length (preorder cs))) /\
    bookkept (<[p := set_count 0 nd']> h') t (hplug C (FCons p FNil r)) /\
    (wrap (Z.of_nat (length (preorder cs))) <> 0%Z ->
     ~ bookkept h' t (hplug C (FCons p FNil r))).
Proof.
  intros (R & Cn & Chd) Hf.
  set (C0 := hcomp C (HChild p HHole r)).
  assert (forall g, hplug C0 g = hplug C (FCons p g r)) as EC0.
  { intros g. unfold C0. by rewrite hplug_hcomp. }
  assert (on_top C0 = false) as Top.
  { unfold C0. rewrite on_top_hcomp. cbn [on_top]. by rewrite andb_false_r. }
  assert (forall g, gext t C0 g = g) as Eg by (intros g; unfold gext; by rewrite Top).
  assert (hpar C0 0 = p) as Epar by (unfold C0; by rewrite hpar_hcomp).
  assert (hprev (cext t C0) 0 = 0) as Eprev.
  { rewrite hprev_cext. unfold C0. by rewrite hprev_hcomp. }
  assert (cancestors C0 = p :: cancestors C) as Eanc.
  { unfold C0. by rewrite cancestors_hcomp. }
  destruct (rep_ancestors _ _ _ _ _ _ R) as (nd & Hnd & Hp & Ch & ND).
  assert (p ∈ preorder (hplug C (FCons p cs r))) as Hpin.
  { apply hole_preorder. apply elem_of_cons. by left. }
  destruct (rep_plain _ _ _ _ R Hpin) as (Np0 & Nph & Npf).
  apply NoDup_cons in ND as [Npa NDa].
  assert (length (preorder (hplug C (FCons p cs r))) =
          length (cptrs C) + S (length (preorder cs) + length (preorder r))) as Elen.
  { rewrite preorder_hplug, length_app. simpl. by rewrite length_app. }
  destruct (rep_hole _ _ _ _ R) as (_ & NhC & _ & _ & _ & _ & [hdn Hh]).
  (* the counters of the ancestors and of the head *)
  destruct (shrink_ancestors_spec p nd (cancestors C) h (hpar C 0) true fuel Ch NDa Npa Hnd)
    as (h1 & pe & Run1 & S1 & Hnd1 & Cu1).
  { pose proof (length_cancestors C). lia. }
  destruct (same_shape_lookup _ _ _ _ S1 Hh) as (hd1 & Hh1 & _).
  destruct (shrink_head_spec h1 t p nd pe) as (h2 & Run2 & S2 & Hnd2 & Cu2); [eauto|done|done|].
  assert (same_shape h h2) as S12 by (by apply (same_shape_trans _ h1)).
  pose proof (tree_rep_shape _ _ _ _ R S12) as R2.
  (* the children *)
  pose proof R2 as Rr2. rewrite <- EC0 in Rr2. apply rep_raw in Rr2.
  rewrite with_sentinels_hplug, Eg in Rr2.
  destruct (raw_hole _ _ _ Rr2) as (H0 & N0C & NDC & NDg & Dis & N0g & Lg & Al & _ & Fp & _).
  rewrite hpar_cext, Epar, Eprev in *.
  destruct (Fp Np0) as (HpC & pn & Epn & _ & Efc). specialize (Efc eq_refl).
  rewrite Hnd2 in Epn. injection Epn as <-.
  assert (bfirst (bounds cs) 0 = first_ptr cs 0) as Ebf by (by destruct cs).
  rewrite Ebf in Efc.
  assert (NoDup (p :: preorder cs)) as NDp.
  { apply NoDup_cons. split; [|done]. by apply Dis. }
  destruct (erase_children_spec fuel h2 p cs nd Hnd2 Efc Lg NDp H0 ltac:(lia))
    as (h3 & Run3 & Look).
  set (nd3 := set_last_child 0 (set_first_child 0 nd)) in *.
  assert (h3 !! p = Some nd3) as Hnd3.
  { rewrite Look. rewrite decide_False by (by apply Dis). by rewrite decide_True. }
  assert (forall q, q ∈ cptrs (cext t C0) -> q <> p -> h3 !! q = h2 !! q) as Out.
  { intros q Hq Nq. rewrite Look. rewrite decide_False by (by apply Dis).
    by rewrite decide_False. }
  assert (raw h3 (hplug (cext t C0) FNil)) as Rr3.
  { apply (raw_replace h2 h3 (cext t C0) cs FNil); [done| |done| | |].
    - rewrite Look. rewrite decide_False by done. by rewrite decide_False by done.
    - apply (ctx_upd_intro h2 h3 (cext t C0) cs); [done| | |].
      + rewrite hpar_cext, Epar. intros q Hq Hq1 _.
        apply keeps_links_same; [by apply Al|]. by apply Out.
      + by rewrite Eprev.
      + rewrite hpar_cext, Epar, Eprev. intros _. rewrite Hnd2, Hnd3.
        rewrite decide_True by done. cbn [bounds blast bfirst]. apply same_links_refl.
    - intros x _. apply not_elem_of_nil.
    - apply NoDup_nil_2. }
  rewrite <- (Eg FNil), <- with_sentinels_hplug in Rr3. apply rep_raw in Rr3.
  rewrite EC0 in Rr3.
  assert (count nd = wrap (Z.of_nat (length (preorder cs)))) as Cnd.
  { apply counts_hplug in Cn as [_ Cg]. cbn [counts_ok] in Cg. rewrite Hnd in Cg. tauto. }
  assert (head t ∈ cptrs (cext t C0)) as HhC.
  { unfold cext. cbn [cptrs]. apply elem_of_cons. by left. }
  exists h3, nd3. split; [|split; [done|split; [|split; [done|split; [done|split]]]]].
  - unfold erase_children. cbn [node]. rewrite (proj2 (Nat.eqb_neq _ _) Np0).
    rewrite (rd_some _ _ _ Hnd). cbn [mbind outcome_bind obind].
    rewrite Hp, Run1. cbn [mbind outcome_bind obind].
    rewrite Run2. cbn [mbind outcome_bind obind]. done.
  - intros q. rewrite Look. destruct (decide (q ∈ preorder cs)) as [Y|N]; [done|].
    destruct (decide (q = p)) as [->|Nq].
    + rewrite Hnd. done.
    + apply (same_shape_data _ _ S12).
  - set (h4 := <[p := set_count 0 nd3]> h3).
    assert (same_shape h3 h4) as S34.
    { apply (same_shape_insert _ _ nd3 (set_count 0 nd3)); [done| |done].
      unfold same_links. by cbn. }
    assert (forall q, q ∈ cptrs C0 -> q <> p ->
              count_upd h h4 (fun c => if decide (q ∈ cancestors C) then wrap (c - count nd)
                                       else c) q) as CuC.
    { intros q Hq Nq.
      assert (q ∈ cptrs (cext t C0)) as Hq'.
      { by apply cptrs_cext. }
      assert (is_Some (h !! q)) as Hal.
      { destruct (Al q Hq') as [x Hx]. specialize (S12 q). rewrite Hx in S12.
        destruct (h !! q); [eauto|done]. }
      assert (q <> head t) as Nqh.
      { intros ->. destruct (rep_plain h t _ (head t) R) as (_ & X & _); [|done].
        rewrite <- EC0. by apply cptrs_preorder. }
      pose proof (Cu1 q Hal) as X1.
      assert (is_Some (h1 !! q)) as Hal1.
      { unfold count_upd in X1. destruct (h !! q); [|done]. destruct (h1 !! q); [eauto|done]. }
      pose proof (Cu2 q Hal1) as X2.
      pose proof (count_upd_trans _ _ _ _ _ _ X1 X2) as X.
      unfold count_upd in X |- *. unfold h4. rewrite lookup_insert_ne by done.
      rewrite (Out q Hq' Nq). destruct (h !! q); [|done]. destruct (h2 !! q); [|done].
      rewrite X. rewrite (decide_False (P := q = head t)) by done. done. }
    split; [by apply (tree_rep_shape h3)|split].
    + rewrite <- EC0. apply (counts_replace h h4 C0 cs FNil (- Z.of_nat (length (preorder cs)))).
      * by rewrite EC0.
      * rewrite <- EC0 in R. by destruct (rep_hole _ _ _ _ R) as (X & _).
      * done.
      * intros q Hq. destruct (decide (q = p)) as [->|Nq].
        -- unfold count_upd, h4. rewrite Hnd, lookup_insert_eq.
           rewrite decide_True by (rewrite Eanc; apply elem_of_cons; by left).
           rewrite Cnd. cbn. unfold wrap. rewrite Zplus_mod_idemp_l.
           by replace (Z.of_nat (length (preorder cs)) + - Z.of_nat (length (preorder cs)))%Z
             with 0%Z by lia.
        -- pose proof (CuC q Hq Nq) as X. unfold count_upd in X |- *.
           destruct (h !! q); [|done]. destruct (h4 !! q); [|done]. rewrite X.
           rewrite Eanc. destruct (decide (q ∈ cancestors C)) as [Y|N].
           ++ rewrite decide_True by (apply elem_of_cons; by right).
              rewrite Cnd, wrap_sub_r. f_equal; lia.
           ++ rewrite decide_False; [done|]. rewrite elem_of_cons. tauto.
      * simpl. lia.
    + unfold h4. rewrite lookup_insert_ne by done.
      rewrite Look. rewrite decide_False.
      2:{ intros X. apply (Dis (head t) HhC X). }
      rewrite decide_False by done.
      pose proof (Cu1 (head t) ltac:(eauto)) as X1.
      pose proof (Cu2 (head t) ltac:(eauto)) as X2.
      pose proof (count_upd_trans _ _ _ _ _ _ X1 X2) as X. cbn beta in X.
      unfold count_upd in X. rewrite Hh in X, Chd. simpl in Chd. injection Chd as Chd.
      destruct (h2 !! head t); [|done]. simpl. rewrite X.
      rewrite (decide_False (P := head t ∈ cancestors C))
        by (intros Y; by apply NhC, cancestors_cptrs).
      rewrite decide_True by done. rewrite Chd, Cnd, wrap_sub_r.
      unfold wrap. rewrite Zminus_mod_idemp_l. do 2 f_equal.
      rewrite Elen. rewrite preorder_hplug, length_app. simpl. lia.
  - intros Nz (_ & Cn' & _). apply Nz.
    apply counts_hplug in Cn' as [_ Cg]. cbn [counts_ok] in Cg. rewrite Hnd3 in Cg.
    destruct Cg as (Cg & _). unfold nd3 in Cg. cbn in Cg. rewrite <- Cnd. done.
Qed.

Lemma subtree_of_hplug C p cs r :
  NoDup (preorder (hplug C (FCons p cs r))) ->
  subtree_of (hplug C (FCons p cs r)) p = Some cs.
Proof.
  induction C as [|q C IH r'|q cs' C IH]; intros ND.
  - cbn [hplug subtree_of]. by rewrite Nat.eqb_refl.
  - cbn [hplug subtree_of preorder] in *. apply NoDup_cons in ND as [N1 ND].
    apply NoDup_app in ND as (ND & _ & _).
    assert (q <> p) as Nq.
    { intros ->. apply N1. apply elem_of_app. left. apply hole_preorder.
      apply elem_of_cons. by left. }
    rewrite (proj2 (Nat.eqb_neq _ _) Nq). by rewrite (IH ND).
  - cbn [hplug subtree_of preorder] in *. apply NoDup_cons in ND as [N1 ND].
    apply NoDup_app in ND as (_ & Dis & ND).
    assert (p ∈ preorder (hplug C (FCons p cs r))) as Hp.
    { apply hole_preorder. apply elem_of_cons. by left. }
    assert (q <> p) as Nq.
    { intros ->. apply N1. apply elem_of_app. by right. }
    rewrite (proj2 (Nat.eqb_neq _ _) Nq).
    rewrite (subtree_of_none cs' p); [by apply IH|]. intros X. by apply (Dis p X).
Qed.

(** [++it] on a pre-order iterator moves to the next node in pre-order,
    and with [skip_children()] to the next node that is not a descendant;
    from the last of these nodes it moves to [end()].  Incrementing
    [end()] gives a null iterator, and incrementing a null iterator fails
    the assertion. *)
Theorem pre_incr_spec (h : heap) t C p cs r fuel :
  tree_rep h t (hplug C (FCons p cs r)) ->
  length (preorder (hplug C (FCons p cs r))) <= fuel ->
  pre_incr fuel h (mk_it p false) =
    Ok (iterator_of (hd (feet t) (preorder cs ++ preorder r ++ cafter C))) /\
  pre_incr fuel h (mk_it p true) =
    Ok (iterator_of (hd (feet t) (preorder r ++ cafter C))) /\
  pre_incr fuel h (end_ t) = Ok (iterator_of 0) /\
  forall sk, pre_incr fuel h (mk_it 0 sk) = Abort.
Proof.
  intros R Hf. set (f := hplug C (FCons p cs r)) in *.
  pose proof (tree_walk h t f fuel R) as W.
  pose proof (rep_inner_nodup _ _ _ R) as ND.
  destruct (walk_ok_sub fuel h f p cs (feet t)) as (St & Sk & _).
  { apply W. pose proof (fdepth_le f). lia. }
  { by apply subtree_of_hplug. }
  unfold f in St, Sk. rewrite (after_hplug C p cs r (feet t) ND) in St, Sk.
  split; [|split; [done|split; [|done]]].
  - unfold step, iterator_of in St. rewrite St. by destruct cs.
  - apply (feet_step h t f fuel R).
    assert (p ∈ preorder f) as Hp by (apply hole_preorder, elem_of_cons; by left).
    destruct (preorder f); [by apply elem_of_nil in Hp|simpl in Hf; lia].
Qed.

Lemma last_default_irrel (l : list ptr) d d' : l <> [] -> List.last l d = List.last l d'.
Proof.
  induction l as [|x l IH]; [done|]. intros _. destruct l as [|y l]; [done|].
  cbn [List.last]. by apply (IH ltac:(done)).
Qed.

Lemma last_app_ne (l1 l2 : list ptr) d d' :
  l2 <> [] -> List.last (l1 ++ l2) d = List.last l2 d'.
Proof.
  intros N. induction l1 as [|x l1 IH]; [by apply last_default_irrel|].
  cbn [app]. destruct (l1 ++ l2) eqn:E.
  - by destruct l1, l2.
  - cbn [List.last]. exact IH.
Qed.

Lemma preorder_nil f : preorder f = [] -> f = FNil.
Proof. by destruct f. Qed.

Lemma descend_last_chain (h : heap) :
  h !! 0 = None ->
  forall f par prev next d fuel,
    links h par prev f next -> f <> FNil -> length (preorder f) <= fuel ->
    descend_last fuel h (last_ptr f d) = Ok (List.last (preorder f) d).
Proof.
  intros H0. induction f as [|p cs IHcs r IHr]; intros par prev next d fuel L Ne Hf; [done|].
  destruct (links_cons _ _ _ _ _ _ _ L) as (nd & Hnd & _ & _ & _ & _ & Hlc & Lcs & Lr).
  cbn [preorder length] in Hf. rewrite length_app in Hf.
  destruct r as [|q qcs qr].
  - cbn [last_ptr preorder]. rewrite app_nil_r.
    destruct fuel as [|fuel]; [lia|]. cbn [descend_last].
    rewrite (rd_some _ _ _ Hnd). cbn [mbind outcome_bind obind]. rewrite Hlc.
    destruct cs as [|c ccs cr]; [done|].
    assert (last_ptr (FCons c ccs cr) 0 <> 0) as Nl.
    { intros E. pose proof (last_ptr_elem (FCons c ccs cr) 0 ltac:(done)) as X.
      rewrite E in X. destruct (links_lookup h _ 0 p 0 0 Lcs X) as [? ?]. congruence. }
    rewrite (proj2 (Nat.eqb_neq _ _) Nl).
    rewrite (IHcs p 0 0 0 fuel Lcs); [|done|simpl in *; lia].
    f_equal. symmetry. change (p :: preorder (FCons c ccs cr)) with ([p] ++ preorder (FCons c ccs cr)).
    by apply last_app_ne.
  - cbn [last_ptr]. change (last_ptr qr q) with (last_ptr (FCons q qcs qr) p).
    rewrite (IHr par p next p fuel Lr); [|done|lia].
    f_equal. symmetry. cbn [preorder].
    change (p :: preorder cs ++ q :: preorder qcs ++ preorder qr)
      with ((p :: preorder cs) ++ (q :: preorder qcs ++ preorder qr)).
    by apply last_app_ne.
Qed.

Lemma cbefore_nil C : cbefore C = [] -> C = HHole.
Proof. by destruct C. Qed.

Lemma pred_ctx (h : heap) :
  h !! 0 = None ->
  forall C par prev next b fuel,
    clinks h par prev C next b -> C <> HHole -> length (cbefore C) <= fuel ->
    if hprev C prev =? 0 then hpar C par = List.last (cbefore C) 0
    else descend_last fuel h (hprev C prev) = Ok (List.last (cbefore C) 0).
Proof.
  intros H0. induction C as [|p C IH r|p cs C IH]; intros par prev next b fuel L Ne Hf; [done| |].
  - cbn [clinks] in L. destruct (h !! p) as [nd|] eqn:Hnd; [|done].
    destruct L as (_ & _ & _ & _ & _ & L & _).
    cbn [hprev hpar cbefore]. cbn [cbefore length] in Hf.
    destruct C as [|q D rq|q qs D].
    + done.
    + specialize (IH p 0 0 b fuel L ltac:(done) ltac:(lia)).
      change (p :: cbefore (HChild q D rq)) with ([p] ++ cbefore (HChild q D rq)).
      by rewrite (last_app_ne [p] _ 0 0).
    + specialize (IH p 0 0 b fuel L ltac:(done) ltac:(lia)).
      change (p :: cbefore (HRest q qs D)) with ([p] ++ cbefore (HRest q qs D)).
      by rewrite (last_app_ne [p] _ 0 0).
  - cbn [clinks] in L. destruct (h !! p) as [nd|] eqn:Hnd; [|done].
    destruct L as (Hp & Hv & Hn & Hfc & Hlc & Lcs & L).
    cbn [hprev hpar cbefore]. cbn [cbefore length] in Hf. rewrite length_app in Hf.
    destruct C as [|q D rq|q qs D].
    + cbn [hprev cbefore]. rewrite app_nil_r.
      assert (p <> 0) as Np by (intros ->; congruence).
      rewrite (proj2 (Nat.eqb_neq _ _) Np).
      assert (links h par prev (FCons p cs FNil) (next_sibling nd)) as Lp.
      { cbn [links]. rewrite Hnd. done. }
      pose proof (descend_last_chain h H0 (FCons p cs FNil) par prev (next_sibling nd) 0 fuel
                    Lp ltac:(done)) as X.
      cbn [last_ptr preorder] in X. rewrite app_nil_r in X. apply X. simpl. lia.
    + specialize (IH par p next b fuel L ltac:(done) ltac:(lia)).
      change (p :: preorder cs ++ cbefore (HChild q D rq))
        with ((p :: preorder cs) ++ cbefore (HChild q D rq)).
      by rewrite (last_app_ne _ _ 0 0).
    + specialize (IH par p next b fuel L ltac:(done) ltac:(lia)).
      change (p :: preorder cs ++ cbefore (HRest q qs D))
        with ((p :: preorder cs) ++ cbefore (HRest q qs D)).
      by rewrite (last_app_ne _ _ 0 0).
Qed.

Lemma cbefore_cext_top t C : cbefore (cext_top t C) = cbefore C.
Proof. induction C as [|p C IH r|p cs C IH]; simpl; [done|done|by rewrite IH]. Qed.

Lemma pre_decr_ctx (h : heap) t C p cs r fuel sk :
  tree_rep h t (hplug C (FCons p cs r)) ->
  length (preorder (hplug C (FCons p cs r))) + 1 <= fuel ->
  pre_decr fuel h (mk_it p sk) = Ok (mk_it (List.last (cbefore C) (head t)) sk).
Proof.
  intros R Hf. pose proof R as Rr. apply rep_raw in Rr.
  rewrite with_sentinels_hplug, gext_node in Rr. destruct Rr as (H0 & L & _).
  apply links_hplug in L as [CL L].
  destruct (links_cons _ _ _ _ _ _ _ L) as (nd & Hnd & Hp & Hv & _).
  assert (p <> 0) as Np by (intros ->; congruence).
  assert (length (cbefore (cext t C)) <= fuel) as Hl.
  { unfold cext. cbn [cbefore preorder app length]. rewrite cbefore_cext_top.
    rewrite preorder_hplug_seq, !length_app in Hf. lia. }
  pose proof (pred_ctx h H0 (cext t C) 0 0 0 _ fuel CL ltac:(done) Hl) as X.
  assert (List.last (cbefore (cext t C)) 0 = List.last (cbefore C) (head t)) as E.
  { unfold cext. cbn [cbefore preorder app]. rewrite cbefore_cext_top.
    destruct (cbefore C) as [|x l] eqn:Ec; [done|].
    change (head t :: x :: l) with ([head t] ++ x :: l). by apply last_app_ne. }
  rewrite E in X.
  unfold pre_decr. cbn [node skip_current_children_].
  rewrite (proj2 (Nat.eqb_neq _ _) Np), (rd_some _ _ _ Hnd).
  cbn [mbind outcome_bind obind]. rewrite Hv, Hp.
  destruct (hprev (cext t C) 0 =? 0); cbn [negb].
  - by rewrite X.
  - by rewrite X.
Qed.

Lemma pre_decr_end (h : heap) t f fuel sk :
  tree_rep h t f -> length (preorder f) + 1 <= fuel ->
  pre_decr fuel h (mk_it (feet t) sk) = Ok (mk_it (List.last (preorder f) (head t)) sk).
Proof.
  intros R Hf. destruct (rep_feet_fields _ _ _ R) as (nd & Hnd & _ & _ & _ & Hv).
  unfold pre_decr. cbn [node skip_current_children_].
  rewrite (proj2 (Nat.eqb_neq _ _) (rep_feet_nonnull _ _ _ R)), (rd_some _ _ _ Hnd).
  cbn [mbind outcome_bind obind]. rewrite Hv.
  destruct f as [|p cs r].
  - cbn [last_ptr preorder List.last].
    rewrite (proj2 (Nat.eqb_neq _ _) (rep_head_nonnull _ _ _ R)). cbn [negb].
    pose proof (rep_head _ _ _ R) as X. unfold sentinel_ok in X.
    destruct (h !! head t) as [hd|] eqn:Hh; [|done]. destruct X as (_ & _ & Hlc & _).
    destruct fuel; [lia|]. cbn [descend_last]. rewrite (rd_some _ _ _ Hh).
    cbn [mbind outcome_bind obind]. by rewrite Hlc.
  - assert (last_ptr (FCons p cs r) (head t) <> 0) as Nl.
    { apply (rep_nonnull _ _ _ _ R). by apply last_ptr_elem. }
    rewrite (proj2 (Nat.eqb_neq _ _) Nl). cbn [negb].
    rewrite (descend_last_chain h (rep_null _ _ _ R) _ 0 (head t) (feet t) (head t) fuel
               (rep_links _ _ _ R)); [done|done|lia].
Qed.

Lemma rep_nodup_all (h : heap) t f :
  tree_rep h t f -> NoDup (head t :: preorder f ++ [feet t]).
Proof.
  intros R. pose proof (rep_nodup _ _ _ R) as ND. apply NoDup_cons in ND as [N1 ND].
  apply NoDup_cons in ND as [N2 ND]. apply NoDup_cons. split.
  - rewrite elem_of_app, elem_of_cons. rewrite elem_of_cons in N1.
    intros [X|[X|X]]; [tauto|tauto|by apply elem_of_nil in X].
  - by apply (rep_nodup_exit h t f).
Qed.

Lemma pre_decr_list (h : heap) t f l1 a b l2 fuel sk :
  tree_rep h t f -> head t :: preorder f ++ [feet t] = l1 ++ a :: b :: l2 ->
  length (preorder f) + 1 <= fuel ->
  pre_decr fuel h (mk_it b sk) = Ok (mk_it a sk).
Proof.
  intros R E Hf. pose proof (rep_nodup_all _ _ _ R) as ND.
  assert (b ∈ preorder f \/ b = feet t) as [Hb| ->].
  { assert (b ∈ head t :: preorder f ++ [feet t]) as X.
    { rewrite E. rewrite elem_of_app, !elem_of_cons. tauto. }
    rewrite elem_of_cons, elem_of_app, elem_of_cons in X.
    destruct X as [->|[X|[X|X]]]; [|tauto|tauto|by apply elem_of_nil in X].
    exfalso.
    destruct (nodup_split_unique [] (preorder f ++ [feet t]) (l1 ++ [a]) l2 (head t)) as [X _].
    + exact ND.
    + cbn [app]. rewrite <- app_assoc. exact E.
    + by destruct l1. }
  - destruct (hole_at f b Hb) as (C & cs & r & ->).
    rewrite (pre_decr_ctx h t C b cs r fuel sk R Hf). do 2 f_equal.
    assert (head t :: preorder (hplug C (FCons b cs r)) ++ [feet t] =
            (head t :: cbefore C) ++
              b :: ((preorder cs ++ preorder r) ++ cafter C ++ [feet t])) as EL.
    { rewrite preorder_hplug_seq. cbn [preorder app]. rewrite <- !app_assoc. cbn [app].
      by rewrite <- !app_assoc. }
    rewrite EL in E, ND.
    assert (head t :: cbefore C = l1 ++ [a]) as E1.
    { apply (nodup_split_unique (head t :: cbefore C)
               ((preorder cs ++ preorder r) ++ cafter C ++ [feet t])
               (l1 ++ [a]) l2 b ND).
      rewrite E. by rewrite <- app_assoc. }
    transitivity (List.last (head t :: cbefore C) 0).
    + destruct (cbefore C) as [|x l] eqn:Ec; [done|].
      symmetry. change (head t :: x :: l) with ([head t] ++ x :: l). by apply last_app_ne.
    + rewrite E1. apply last_last.
  - rewrite (pre_decr_end h t f fuel sk R Hf). do 2 f_equal.
    assert (head t :: preorder f = l1 ++ [a] /\ [] = l2) as [E1 _].
    { apply (nodup_split_unique (head t :: preorder f) [] (l1 ++ [a]) l2 (feet t)).
      - exact ND.
      - rewrite <- app_assoc. exact E. }
    transitivity (List.last (head t :: preorder f) 0).
    + destruct (preorder f) as [|x l] eqn:Ec; [done|].
      symmetry. change (head t :: x :: l) with ([head t] ++ x :: l). by apply last_app_ne.
    + rewrite E1. apply last_last.
Qed.

Lemma head_step (h : heap) t f n :
  tree_rep h t f -> 1 <= n -> step n h (head t) (hd (feet t) (preorder f)).
Proof.
  intros R Hn. unfold step, pre_incr. cbn [node iterator_of].
  rewrite (proj2 (Nat.eqb_neq _ 0) (rep_head_nonnull _ _ _ R)).
  pose proof (rep_head _ _ _ R) as X. unfold sentinel_ok in X.
  destruct (h !! head t) as [nd|] eqn:Hh; [|done]. destruct X as (_ & Hfc & _ & _ & Hnx).
  rewrite (rd_some _ _ _ Hh). cbn [mbind outcome_bind obind].
  rewrite Hfc. cbn [Nat.eqb negb andb skip_current_children_].
  destruct n as [|n]; [lia|]. cbn [climb_next].
  rewrite (rd_some _ _ _ Hh). cbn [mbind outcome_bind obind]. rewrite Hnx.
  assert (first_ptr f (feet t) <> 0) as N.
  { destruct f as [|p cs r]; [apply (rep_feet_nonnull _ _ _ R)|].
    apply (rep_nonnull _ _ _ _ R). apply elem_of_cons. by left. }
  rewrite (proj2 (Nat.eqb_neq _ _) N). cbn [mbind outcome_bind obind].
  by destruct f.
Qed.

(** The decrement of a pre-order iterator undoes the increment: for two
    neighbours [a], [b] in the sequence that starts with the head
    sentinel, lists the nodes in pre-order and ends with the foot sentinel,
    [++] at [a] gives [b] and [--] at [b] gives [a].  So [--end()] is the
    last node in pre-order and [--begin()] is the head sentinel. *)
Theorem pre_order_step_inverse (h : heap) t f l1 a b l2 fuel :
  tree_rep h t f -> head t :: preorder f ++ [feet t] = l1 ++ a :: b :: l2 ->
  length (preorder f) + 1 <= fuel ->
  pre_incr fuel h (iterator_of a) = Ok (iterator_of b) /\
  pre_decr fuel h (iterator_of b) = Ok (iterator_of a).
Proof.
  intros R E Hf. split; [|by apply (pre_decr_list h t f l1 a b l2)].
  assert (chain (step fuel h) (head t :: preorder f ++ [feet t])) as Ch.
  { change (head t :: preorder f ++ [feet t]) with ([] ++ head t :: preorder f ++ [feet t]).
    apply chain_glue.
    - simpl. done.
    - assert (chain (step fuel h) (preorder f ++ [feet t])) as W.
      { apply walk_chain, tree_walk; [done|]. pose proof (fdepth_le f). lia. }
      cbn [chain]. split; [|done].
      pose proof (head_step h t f fuel R ltac:(lia)) as X.
      destruct (preorder f); exact X. }
  rewrite E in Ch. apply chain_app_r in Ch. cbn [chain] in Ch. apply Ch.
Qed.

Lemma index_pre_loop_spec (h : heap) t f :
  tree_rep h t f ->
  forall l1 a l2 fuel k sk,
    preorder f = l1 ++ a :: l2 -> length (preorder f) + length l1 + 2 <= fuel ->
    index_pre_loop fuel h t (mk_it a sk) k = Ok (k + length l1).
Proof.
  intros R. induction l1 as [|x l1 IH] using rev_ind; intros a l2 fuel k sk E Hf.
  - destruct fuel; [lia|]. cbn [index_pre_loop].
    rewrite (pre_decr_list h t f [] (head t) a (l2 ++ [feet t]) (S fuel) sk R).
    + cbn [mbind outcome_bind obind node]. rewrite Nat.eqb_refl. f_equal. simpl. lia.
    + rewrite E. done.
    + lia.
  - destruct fuel; [lia|]. cbn [index_pre_loop].
    rewrite <- app_assoc in E. cbn [app] in E.
    rewrite (pre_decr_list h t f (head t :: l1) x a (l2 ++ [feet t]) (S fuel) sk R).
    + cbn [mbind outcome_bind obind node].
      assert (x <> head t) as Nx.
      { destruct (rep_plain h t f x R) as (_ & X & _); [|done].
        rewrite E. rewrite elem_of_app, elem_of_cons. tauto. }
      rewrite (proj2 (Nat.eqb_neq _ _) Nx).
      rewrite (IH x (a :: l2) fuel (S k) sk E).
      * f_equal. rewrite length_app. simpl. lia.
      * rewrite length_app in Hf. simpl in Hf. lia.
    + rewrite E. cbn [app]. by rewrite <- app_assoc.
    + lia.
Qed.

(** [index(pre_order_iterator)] returns the position of the node in the
    pre-order of the tree, counted from [0]. *)
Theorem index_pre_spec (h : heap) t f l1 a l2 fuel sk :
  tree_rep h t f -> preorder f = l1 ++ a :: l2 ->
  length (preorder f) + length l1 + 2 <= fuel ->
  index_pre fuel h t (mk_it a sk) = Ok (length l1).
Proof.
  intros R E Hf. unfold index_pre.
  by rewrite (index_pre_loop_spec h t f R l1 a l2 fuel 0 sk E Hf).
Qed.

Ltac qtauto := let H := fresh in assert (H : True) by exact I; clear - H; tauto.

Ltac keep_small :=
  repeat match goal with
         | H : context [@lookup] |- _ => clear H
         | H : context [@decide] |- _ => clear H
         | H : context [links] |- _ => clear H
         | H : context [raw] |- _ => clear H
         | H : context [chain_up] |- _ => clear H
         | H : context [NoDup] |- _ => clear H
         | H : forall _ : nat, _ |- _ => clear H
         | H : _ ∉ _ |- _ => clear H
         end.
Ltac stauto := keep_small; tauto.

Lemma swap_raw (h : heap) C a cas b bs r :
  raw h (hplug C (FCons a cas (FCons b bs r))) ->
  (hprev C 0 = 0 -> hpar C 0 <> 0) ->
  (first_ptr r 0 = 0 -> hpar C 0 <> 0) ->
  exists h', swap h (mk_sit a 0) = Ok h' /\
    (forall q, swap h (mk_sit a q) = swap h (mk_sit a 0)) /\
    raw h' (hplug C (FCons b bs (FCons a cas r))) /\
    (forall q, is_Some (h !! q) ->
       count_upd h h' id q /\ data <$> h' !! q = data <$> h !! q).
Proof.
  intros R Hv0 Hn0.
  destruct (raw_hole _ _ _ R) as (H0 & N0C & NDC & NDg & Dis & N0g & Lg & Al & Ch & Fp & Fv).
  set (par := hpar C 0) in *. set (hv := hprev C 0) in *.
  destruct (links_cons _ _ _ _ _ _ _ Lg) as (an & Ea & Pa & Va & Xa & Fa & La & Las & Lbr).
  destruct (links_cons _ _ _ _ _ _ _ Lbr) as (bn & Eb & Pb & Vb & Xb & Fb & Lb & Lbs & Lr).
  cbn [first_ptr] in Xa. set (nn := first_ptr r 0) in *.
  set (G := FCons a cas (FCons b bs r)) in *.
  assert (forall q, q ∈ preorder cas -> q ∈ preorder G) as Has.
  { intros q Hq. unfold G. cbn [preorder]. rewrite elem_of_cons, elem_of_app.
    clear - Hq; tauto. }
  assert (forall q, q ∈ preorder bs -> q ∈ preorder G) as Hbs.
  { intros q Hq. unfold G. cbn [preorder]. rewrite elem_of_cons, !elem_of_app, elem_of_cons,
      elem_of_app. clear - Hq; tauto. }
  assert (forall q, q ∈ preorder r -> q ∈ preorder G) as Hr.
  { intros q Hq. unfold G. cbn [preorder]. rewrite elem_of_cons, !elem_of_app, elem_of_cons,
      elem_of_app. clear - Hq; tauto. }
  assert (a ∈ preorder G) as HaG by (apply elem_of_cons; by left).
  assert (b ∈ preorder G) as HbG.
  { unfold G. cbn [preorder]. rewrite elem_of_cons, !elem_of_app, elem_of_cons. qtauto. }
  assert (NoDup (a :: preorder cas ++ b :: preorder bs ++ preorder r)) as ND by exact NDg.
  apply NoDup_cons in ND as [Na ND]. apply NoDup_app in ND as (NDas & Das & ND).
  apply NoDup_cons in ND as [Nb ND]. apply NoDup_app in ND as (NDbs & Dbs & NDr).
  assert (a <> b) as Nab.
  { intros ->. apply Na. rewrite elem_of_app, elem_of_cons. qtauto. }
  assert ((a ∉ preorder cas) /\ (a ∉ preorder bs) /\ (a ∉ preorder r) /\
          (b ∉ preorder cas) /\ (b ∉ preorder bs) /\ (b ∉ preorder r) /\
          (forall q, q ∈ preorder cas -> q ∉ preorder bs) /\
          (forall q, q ∈ preorder cas -> q ∉ preorder r) /\
          (forall q, q ∈ preorder bs -> q ∉ preorder r)) as
    (Naas & Nabs & Nar & Nbas & Nbbs & Nbr & Dab & Dar & Dbr).
  { repeat split.
    - intros X. apply Na. rewrite elem_of_app. clear - X; tauto.
    - intros X. apply Na. rewrite elem_of_app, elem_of_cons, elem_of_app. clear - X; tauto.
    - intros X. apply Na. rewrite elem_of_app, elem_of_cons, elem_of_app. clear - X; tauto.
    - intros X. apply (Das b X). apply elem_of_cons. by left.
    - intros X. apply Nb. rewrite elem_of_app. clear - X; tauto.
    - intros X. apply Nb. rewrite elem_of_app. clear - X; tauto.
    - intros q X Y. apply (Das q X). rewrite elem_of_cons, elem_of_app. clear - Y; tauto.
    - intros q X Y. apply (Das q X). rewrite elem_of_cons, elem_of_app. clear - Y; tauto.
    - exact Dbs. }
  assert (a <> 0 /\ b <> 0) as [Na0 Nb0] by (split; intros ->; by apply N0g).
  assert (nn <> 0 -> nn ∈ preorder r /\ exists xn, h !! nn = Some xn) as Hnn.
  { intros E. unfold nn in *. destruct r as [|p pcs pr]; [done|]. cbn [first_ptr] in *.
    destruct (links_cons _ _ _ _ _ _ _ Lr) as (nd & Hnd & _).
    split; [apply elem_of_cons; by left|eauto]. }
  assert (nn = 0 -> r = FNil) as Hnil.
  { intros E. unfold nn in E. destruct r as [|p pcs pr]; [done|]. cbn [first_ptr] in E.
    exfalso. apply N0g. rewrite <- E. apply Hr. apply elem_of_cons. by left. }
  assert (par <> 0 -> par ∈ cptrs C /\
            exists pn, h !! par = Some pn /\
              last_child pn = last_ptr r b /\ (hv = 0 -> first_child pn = a)) as Hpar.
  { intros NZ. destruct (Fp NZ) as (HposC & pd & Epd & Elc & Efc). split; [done|eauto]. }
  assert (hv <> 0 -> hv ∈ cptrs C /\ hv <> par /\
            exists vn, h !! hv = Some vn /\ next_sibling vn = a) as Hhv.
  { intros NZ. destruct (Fv NZ) as (X1 & X2 & vn & X3 & X4). eauto 10. }
  assert (forall q, q ∈ cptrs C -> q ∉ preorder G) as Dis' by exact Dis.
  assert (forall q, q ∈ cptrs C -> q <> a /\ q <> b /\ q <> nn) as NC.
  { intros q Hq. split; [|split]; intros ->.
    - by apply (Dis' a).
    - by apply (Dis' b).
    - destruct (Nat.eq_dec nn 0) as [Z|NZ]; [by rewrite Z in Hq|].
      destruct (Hnn NZ) as (X & _). apply (Dis' nn Hq). by apply Hr. }
  assert (nn <> a /\ nn <> b) as [Nna Nnb].
  { split; intros E.
    - destruct (Nat.eq_dec nn 0) as [Z|NZ]; [congruence|]. destruct (Hnn NZ) as (X & _).
      apply Nar. by rewrite <- E.
    - destruct (Nat.eq_dec nn 0) as [Z|NZ]; [congruence|]. destruct (Hnn NZ) as (X & _).
      apply Nbr. by rewrite <- E. }
  set (pn := default an (h !! par)). set (vn := default an (h !! hv)).
  set (xn := default an (h !! nn)).
  set (A' := set_next_sibling nn (set_prev_sibling b an)).
  set (B' := set_next_sibling a (set_prev_sibling hv bn)).
  set (P2 := if decide (hv = 0) then set_first_child b pn else pn).
  set (P3 := if decide (nn = 0) then set_last_child a P2 else P2).
  set (h1 := if hv =? 0 then <[par := set_first_child b pn]> h
             else <[hv := set_next_sibling b vn]> h).
  set (h2 := <[b := set_prev_sibling hv bn]> h1).
  set (h3 := if nn =? 0 then <[par := set_last_child a P2]> h2
             else <[nn := set_prev_sibling a xn]> h2).
  set (h4 := <[b := B']> h3).
  set (h5 := <[a := set_prev_sibling b an]> h4).
  set (h6 := <[a := A']> h5).
  assert (forall q, q <> a -> q <> b -> h1 !! q =
            if decide (hv <> 0 /\ q = hv) then Some (set_next_sibling b vn)
            else if decide (hv = 0 /\ q = par) then Some (set_first_child b pn)
            else h !! q) as Look1.
  { intros q Q1 Q2. unfold h1. destruct (Nat.eqb_spec hv 0) as [E|E].
    - rewrite decide_False by stauto. destruct (decide (q = par)) as [->|N].
      + rewrite lookup_insert_eq. by rewrite decide_True.
      + rewrite lookup_insert_ne by done. rewrite decide_False by stauto. done.
    - rewrite (decide_False (P := hv = 0 /\ q = par)) by stauto.
      destruct (decide (q = hv)) as [->|N].
      + rewrite lookup_insert_eq. by rewrite decide_True.
      + rewrite lookup_insert_ne by done. rewrite decide_False by stauto. done. }
  assert (h1 !! a = Some an /\ h1 !! b = Some bn) as [E1a E1b].
  { unfold h1. destruct (Nat.eqb_spec hv 0) as [E|E].
    - specialize (Hv0 E). fold par in Hv0. destruct (Hpar Hv0) as (X & _).
      destruct (NC par X) as (? & ? & _). by rewrite !lookup_insert_ne.
    - destruct (Hhv E) as (X & _). destruct (NC hv X) as (? & ? & _).
      by rewrite !lookup_insert_ne. }
  assert (par <> 0 -> h2 !! par = Some P2) as E2p.
  { intros NZ. destruct (Hpar NZ) as (X & pd & Epd & _).
    destruct (NC par X) as (? & ? & _). unfold h2. rewrite lookup_insert_ne by done.
    rewrite Look1 by done. unfold P2, pn. rewrite Epd. cbn [default].
    destruct (decide (hv = 0)) as [E|E].
    + rewrite decide_False by stauto. by rewrite decide_True.
    + destruct (Hhv E) as (_ & Y & _).
      rewrite decide_False by (intros [? ?]; congruence). by rewrite decide_False by stauto. }
  assert (forall q, h6 !! q =
            if decide (q = a) then Some A'
            else if decide (q = b) then Some B'
            else if decide (hv <> 0 /\ q = hv) then Some (set_next_sibling b vn)
            else if decide (nn <> 0 /\ q = nn) then Some (set_prev_sibling a xn)
            else if decide (q = par /\ (hv = 0 \/ nn = 0)) then Some P3
            else h !! q) as Look.
  { intros q. unfold h6, h5, h4.
    destruct (decide (q = a)) as [->|Q1]; [by rewrite lookup_insert_eq|].
    rewrite !lookup_insert_ne by done.
    destruct (decide (q = b)) as [->|Q2]; [by rewrite lookup_insert_eq|].
    rewrite lookup_insert_ne by done. unfold h3.
    destruct (Nat.eqb_spec nn 0) as [E|E].
    - specialize (Hn0 E). fold par in Hn0. destruct (Hpar Hn0) as (X & pd & Epd & _).
      rewrite (decide_False (P := nn <> 0 /\ q = nn)) by stauto.
      destruct (decide (q = par)) as [->|N].
      + rewrite lookup_insert_eq.
        rewrite decide_False.
        2:{ intros [Z1 Z2]. destruct (Hhv Z1) as (_ & Y & _). congruence. }
        rewrite decide_True by stauto. unfold P3. by rewrite decide_True.
      + rewrite lookup_insert_ne by done. unfold h2. rewrite lookup_insert_ne by done.
        rewrite Look1 by done. destruct (decide (hv <> 0 /\ q = hv)); [done|].
        rewrite decide_False by stauto. by rewrite decide_False by stauto.
    - destruct (Hnn E) as (X & xd & Exd).
      destruct (decide (q = nn)) as [->|N].
      + rewrite lookup_insert_eq.
        rewrite decide_False.
        2:{ intros [Z1 Z2]. destruct (Hhv Z1) as (Y & _). destruct (NC hv Y) as (_ & _ & ?).
            congruence. }
        by rewrite decide_True.
      + rewrite lookup_insert_ne by done. unfold h2. rewrite lookup_insert_ne by done.
        rewrite Look1 by done. destruct (decide (hv <> 0 /\ q = hv)); [done|].
        rewrite (decide_False (P := nn <> 0 /\ q = nn)) by stauto.
        destruct (decide (hv = 0 /\ q = par)) as [[Z1 ->]|Z].
        * rewrite decide_True by stauto. unfold P3, P2. rewrite decide_False by done.
          by rewrite decide_True.
        * rewrite decide_False; [done|]. intros [-> [Z1|Z1]]; stauto. }
  assert (forall q, q <> a -> q <> b -> q <> hv -> q <> nn -> q <> par -> h6 !! q = h !! q)
    as Out.
  { intros q Q1 Q2 Q3 Q4 Q5. rewrite Look. rewrite !decide_False; stauto. }
  assert (swap h (mk_sit a 0) = Ok h6) as Run.
  { unfold swap. cbn [snode]. rewrite (rd_some _ _ _ Ea). cbn [mbind outcome_bind obind].
    rewrite Xa, (proj2 (Nat.eqb_neq _ _) Nb0), Va, Pa. fold hv par.
    assert ((if negb (hv =? 0) then wr h hv (set_next_sibling b)
             else wr h par (set_first_child b)) = Ok h1) as ->.
    { unfold h1. destruct (Nat.eqb_spec hv 0) as [E|E]; cbn [negb].
      - specialize (Hv0 E). fold par in Hv0. destruct (Hpar Hv0) as (_ & pd & Epd & _).
        unfold pn. rewrite Epd. cbn [default]. by apply wr_some.
      - destruct (Hhv E) as (_ & _ & vd & Evd & _).
        unfold vn. rewrite Evd. cbn [default]. by apply wr_some. }
    cbn [mbind outcome_bind obind]. rewrite (rd_some _ _ _ E1a).
    cbn [mbind outcome_bind obind]. rewrite Va. fold hv.
    rewrite (wr_some _ _ _ _ E1b). cbn [mbind outcome_bind obind]. fold h2.
    rewrite (rd_some h2 b (set_prev_sibling hv bn)) by (unfold h2; apply lookup_insert_eq).
    cbn [mbind outcome_bind obind]. cbn [next_sibling set_prev_sibling]. rewrite Xb. fold nn.
    assert ((if negb (nn =? 0) then wr h2 nn (set_prev_sibling a)
             else nd ← rd h2 a; wr h2 (parent nd) (set_last_child a)) = Ok h3) as ->.
    { unfold h3. destruct (Nat.eqb_spec nn 0) as [E|E]; cbn [negb].
      - specialize (Hn0 E). fold par in Hn0.
        rewrite (rd_some h2 a an) by (unfold h2; by rewrite lookup_insert_ne).
        cbn [mbind outcome_bind obind]. rewrite Pa. fold par.
        by rewrite (wr_some _ _ _ _ (E2p Hn0)).
      - destruct (Hnn E) as (X & xd & Exd). unfold xn. rewrite Exd. cbn [default].
        apply wr_some. unfold h2. rewrite lookup_insert_ne by done.
        rewrite Look1 by done.
        rewrite decide_False.
        2:{ intros [Z1 Z2]. destruct (Hhv Z1) as (Y & _). destruct (NC hv Y) as (_ & _ & ?).
            congruence. }
        rewrite decide_False; [done|].
        intros [Z1 Z2]. specialize (Hv0 Z1). fold par in Hv0. destruct (Hpar Hv0) as (Y & _).
        destruct (NC par Y) as (_ & _ & ?). congruence. }
    cbn [mbind outcome_bind obind].
    assert (h3 !! b = Some (set_prev_sibling hv bn)) as E3b.
    { unfold h3. destruct (Nat.eqb_spec nn 0) as [E|E].
      - specialize (Hn0 E). fold par in Hn0. destruct (Hpar Hn0) as (Y & _).
        destruct (NC par Y) as (_ & ? & _). rewrite lookup_insert_ne by done.
        unfold h2. apply lookup_insert_eq.
      - rewrite lookup_insert_ne by done. unfold h2. apply lookup_insert_eq. }
    rewrite (wr_some _ _ _ _ E3b). cbn [mbind outcome_bind obind]. fold B' h4.
    assert (h4 !! a = Some an) as E4a.
    { unfold h4. rewrite lookup_insert_ne by done. unfold h3.
      destruct (Nat.eqb_spec nn 0) as [E|E].
      - specialize (Hn0 E). fold par in Hn0. destruct (Hpar Hn0) as (Y & _).
        destruct (NC par Y) as (? & _ & _). rewrite lookup_insert_ne by done.
        unfold h2. by rewrite lookup_insert_ne.
      - rewrite lookup_insert_ne by done. unfold h2. by rewrite lookup_insert_ne. }
    rewrite (wr_some _ _ _ _ E4a). cbn [mbind outcome_bind obind]. fold h5.
    rewrite (wr_some _ _ (set_prev_sibling b an)) by (unfold h5; apply lookup_insert_eq).
    done. }
  exists h6. split; [done|]. split; [done|]. split.
  - apply (raw_replace h h6 C G); [done| | | | |].
    + rewrite Look. rewrite (decide_False (P := 0 = a)) by done.
      rewrite (decide_False (P := 0 = b)) by done.
      rewrite (decide_False (P := hv <> 0 /\ 0 = hv)) by (intros [? ?]; congruence).
      rewrite (decide_False (P := nn <> 0 /\ 0 = nn)) by (intros [? ?]; congruence).
      rewrite decide_False; [done|]. intros [Z [X|X]]; [by apply Hv0|by apply Hn0].
    + fold par hv. cbn [links]. rewrite Look.
      rewrite (decide_False (P := b = a)) by done. rewrite decide_True by done.
      unfold B'. cbn. split; [done|]. split; [done|]. split; [done|]. split; [done|].
      split; [done|]. split.
      * apply (links_keep h h6 bs b 0 0 Lbs). intros q Hq.
        apply keeps_links_same; [by apply (links_lookup h bs q b 0 0)|].
        apply Out.
        -- intros ->. by apply Nabs.
        -- by intros ->.
        -- intros ->. destruct (Nat.eq_dec hv 0) as [Z|NZ].
           ++ apply N0g. rewrite <- Z. by apply Hbs.
           ++ destruct (Hhv NZ) as (X & _). apply (Dis' hv X). by apply Hbs.
        -- intros ->. destruct (Nat.eq_dec nn 0) as [Z|NZ].
           ++ apply N0g. rewrite <- Z. by apply Hbs.
           ++ destruct (Hnn NZ) as (X & _). by apply (Dbs nn).
        -- intros ->. destruct (Nat.eq_dec par 0) as [Z|NZ].
           ++ apply N0g. rewrite <- Z. by apply Hbs.
           ++ destruct (Hpar NZ) as (X & _). apply (Dis' par X). by apply Hbs.
      * rewrite Look. rewrite decide_True by done. unfold A'. cbn.
        split; [done|]. split; [done|]. split; [done|]. split; [done|].
        split; [done|]. split.
        -- apply (links_keep h h6 cas a 0 0 Las). intros q Hq.
           apply keeps_links_same; [by apply (links_lookup h cas q a 0 0)|].
           apply Out.
           ++ by intros ->.
           ++ intros ->. apply (Das b Hq). apply elem_of_cons. by left.
           ++ intros ->. destruct (Nat.eq_dec hv 0) as [Z|NZ].
              ** apply N0g. rewrite <- Z. by apply Has.
              ** destruct (Hhv NZ) as (X & _). apply (Dis' hv X). by apply Has.
           ++ intros ->. destruct (Nat.eq_dec nn 0) as [Z|NZ].
              ** apply N0g. rewrite <- Z. by apply Has.
              ** destruct (Hnn NZ) as (X & _). by apply (Dar nn Hq).
           ++ intros ->. destruct (Nat.eq_dec par 0) as [Z|NZ].
              ** apply N0g. rewrite <- Z. by apply Has.
              ** destruct (Hpar NZ) as (X & _). apply (Dis' par X). by apply Has.
        -- apply (links_reprev h h6 r par b a 0 Lr); [| |done].
           ++ intros q Hq Hq1. apply keeps_links_same; [by apply (links_lookup h r q par b 0)|].
              apply Out.
              ** intros ->. by apply Nar.
              ** intros ->. by apply Nbr.
              ** intros ->. destruct (Nat.eq_dec hv 0) as [Z|NZ].
                 --- apply N0g. rewrite <- Z. by apply Hr.
                 --- destruct (Hhv NZ) as (X & _). apply (Dis' hv X). by apply Hr.
              ** done.
              ** intros ->. destruct (Nat.eq_dec par 0) as [Z|NZ].
                 --- apply N0g. rewrite <- Z. by apply Hr.
                 --- destruct (Hpar NZ) as (X & _). apply (Dis' par X). by apply Hr.
           ++ intros Ng. assert (nn <> 0) as E by (intros E; by apply Ng, Hnil).
              destruct (Hnn E) as (X & xd & Exd). fold nn.
              rewrite Exd, Look. rewrite !(decide_False (P := nn = _)) by done.
              rewrite decide_False.
              2:{ intros [Z1 Z2]. destruct (Hhv Z1) as (Y & _).
                  destruct (NC hv Y) as (_ & _ & ?). congruence. }
              rewrite decide_True by done. unfold xn. rewrite Exd. cbn.
              apply same_links_refl.
    + apply (ctx_upd_intro h h6 C G); [done| | |].
      * intros p Hp Hp1 Hp2. apply keeps_links_same; [by apply Al|].
        destruct (NC p Hp) as (? & ? & ?). by apply Out.
      * fold hv. intros E. destruct (Hhv E) as (X1 & X2 & vd & X3 & X4).
        destruct (NC hv X1) as (? & ? & ?).
        rewrite X3, Look. rewrite !(decide_False (P := hv = _)) by done.
        rewrite decide_True by done. unfold vn. rewrite X3. cbn. apply same_links_refl.
      * fold par hv. intros NZ. destruct (Hpar NZ) as (X0 & pd & X3 & X5 & X6).
        destruct (NC par X0) as (? & ? & ?).
        rewrite X3, Look. rewrite !(decide_False (P := par = _)) by done.
        rewrite decide_False.
        2:{ intros [Z1 Z2]. destruct (Hhv Z1) as (_ & Y & _). congruence. }
        rewrite (decide_False (P := nn <> 0 /\ par = nn)) by (intros [? ?]; congruence).
        cbn [bounds bfirst blast last_ptr].
        assert (pn = pd) as Epn by (unfold pn; by rewrite X3).
        destruct (decide (nn = 0)) as [E|E].
        -- rewrite decide_True by stauto. unfold P3, P2.
           rewrite Epn, (Hnil E). cbn [last_ptr]. apply same_links_refl.
        -- assert (last_ptr r a = last_ptr r b) as ->.
           { destruct r; [|done]. by exfalso. }
           destruct (decide (hv = 0)) as [V|V].
           ++ rewrite decide_True by stauto. unfold P3, P2.
              rewrite Epn. unfold same_links. cbn. repeat split; try done; congruence.
           ++ rewrite decide_False by stauto. rewrite X3. unfold same_links. cbn.
              repeat split; try done; congruence.
    + intros x Hx. intros X. apply (Dis' x Hx). unfold G. cbn [preorder] in X |- *.
      rewrite elem_of_cons, !elem_of_app, elem_of_cons, elem_of_app in X.
      rewrite elem_of_cons, !elem_of_app, elem_of_cons, elem_of_app. clear - X; tauto.
    + cbn [preorder]. apply NoDup_cons. split.
      * rewrite elem_of_app, elem_of_cons, elem_of_app. intros [X|[X|[X|X]]].
        -- by apply Nbbs.
        -- by apply Nab.
        -- by apply Nbas.
        -- by apply Nbr.
      * apply NoDup_app. split; [done|]. split.
        -- intros q Hq. rewrite elem_of_cons, elem_of_app. intros [->|[X|X]].
           ++ by apply Nabs.
           ++ by apply (Dab q X).
           ++ by apply (Dbr q).
        -- apply NoDup_cons. split.
           ++ rewrite elem_of_app. intros [X|X]; [by apply Naas|by apply Nar].
           ++ apply NoDup_app. split; [done|]. split; [|done].
              intros q Hq X. by apply (Dar q Hq).
  - intros q [x Hx]. unfold count_upd. rewrite Hx, Look.
    destruct (decide (q = a)) as [->|Q1].
    { assert (an = x) as -> by congruence. done. }
    destruct (decide (q = b)) as [->|Q2].
    { assert (bn = x) as -> by congruence. done. }
    destruct (decide (hv <> 0 /\ q = hv)) as [[_ ->]|_].
    { unfold vn. rewrite Hx. done. }
    destruct (decide (nn <> 0 /\ q = nn)) as [[_ ->]|_].
    { unfold xn. rewrite Hx. done. }
    destruct (decide (q = par /\ (hv = 0 \/ nn = 0))) as [[-> _]|_]; [|by rewrite Hx].
    unfold P3, P2, pn. rewrite Hx. cbn [default].
    destruct (decide (nn = 0)), (decide (hv = 0)); done.
Qed.

Lemma ccounts_keep (h h' : heap) C k :
  ccounts h C k -> (forall q, q ∈ cptrs C -> count_upd h h' id q) -> ccounts h' C k.
Proof.
  induction C as [|p C IH r|p cs C IH]; [done| |]; cbn [ccounts cptrs]; intros (X & Y & Z) K.
  - split; [|split].
    + pose proof (K p ltac:(apply elem_of_cons; by left)) as U. unfold count_upd, id in U.
      destruct (h !! p); [|done]. destruct (h' !! p); [|done]. congruence.
    + apply IH; [done|]. intros q Hq. apply K. rewrite elem_of_cons, elem_of_app. tauto.
    + apply (counts_keep h h'); [done|]. intros q Hq. apply K.
      rewrite elem_of_cons, elem_of_app. tauto.
  - split; [|split].
    + pose proof (K p ltac:(apply elem_of_cons; by left)) as U. unfold count_upd, id in U.
      destruct (h !! p); [|done]. destruct (h' !! p); [|done]. congruence.
    + apply (counts_keep h h'); [done|]. intros q Hq. apply K.
      rewrite elem_of_cons, elem_of_app. tauto.
    + apply IH; [done|]. intros q Hq. apply K. rewrite elem_of_cons, elem_of_app. tauto.
Qed.

(** [swap(it)] exchanges a node with its next sibling: the two subtrees
    change places, the tree stays well formed, every node keeps its value
    and its counter, and a tree whose counters are kept stays so. *)
Theorem swap_spec (h : heap) t C a cas b bs r q :
  tree_rep h t (hplug C (FCons a cas (FCons b bs r))) ->
  exists h',
    swap h (mk_sit a q) = Ok h' /\
    tree_rep h' t (hplug C (FCons b bs (FCons a cas r))) /\
    (forall p, is_Some (h !! p) ->
       count <$> h' !! p = count <$> h !! p /\ data <$> h' !! p = data <$> h !! p) /\
    (bookkept h t (hplug C (FCons a cas (FCons b bs r))) ->
     bookkept h' t (hplug C (FCons b bs (FCons a cas r)))).
Proof.
  intros R. set (G := FCons a cas (FCons b bs r)) in *.
  pose proof R as Rr. apply rep_raw in Rr. rewrite with_sentinels_hplug in Rr.
  unfold G in Rr. rewrite !gext_node in Rr.
  destruct (swap_raw h (cext t C) a cas b bs (gext t C r) Rr) as (h' & Run & Any & Rr' & Cu).
  { by apply (cext_prev h t C G). }
  { apply (cext_next h t C G r R). intros x Hx. unfold G. cbn [preorder].
    rewrite elem_of_cons, !elem_of_app, elem_of_cons, elem_of_app. tauto. }
  rewrite <- !gext_node, <- with_sentinels_hplug in Rr'. apply rep_raw in Rr'.
  assert (forall p, is_Some (h !! p) ->
            count <$> h' !! p = count <$> h !! p /\ data <$> h' !! p = data <$> h !! p) as K.
  { intros p Hp. destruct (Cu p Hp) as [X Y]. split; [|done].
    unfold count_upd in X. destruct Hp as [x Hx]. rewrite Hx in X |- *.
    destruct (h' !! p); [|done]. simpl. by rewrite X. }
  exists h'. split; [by rewrite Any|]. split; [done|]. split; [done|].
  intros (_ & Cn & Chd).
  destruct (rep_hole _ _ _ _ R) as (NDC & NhC & Nhg & AlC & Alg & Dis & Hh).
  assert (length (preorder (FCons b bs (FCons a cas r))) = length (preorder G)) as El.
  { unfold G. cbn [preorder length]. rewrite !length_app. cbn [length].
    rewrite !length_app. lia. }
  split; [done|]. split.
  - apply counts_hplug in Cn as [Cc Cg]. apply counts_hplug. split.
    + rewrite El. apply (ccounts_keep h h'); [done|]. intros p Hp.
      apply (Cu p). by apply AlC.
    + assert (counts_ok h' G) as X.
      { apply (counts_keep h h'); [done|]. intros p Hp. apply (Cu p). by apply Alg. }
      unfold G in X. cbn [counts_ok] in X |- *. tauto.
  - destruct (K (head t) Hh) as [X _]. rewrite X, Chd. do 3 f_equal.
    rewrite !preorder_hplug, !length_app. by rewrite El.
Qed.

(** [swap(it)] at a node without next sibling.  Below a parent nothing
    happens.  At the top level the next sibling of the last node is the
    foot sentinel, which is not null: the call starts to exchange the node
    with the sentinel and then writes through the null parent pointer. *)
Theorem swap_last (h : heap) t C a cas q :
  tree_rep h t (hplug C (FCons a cas FNil)) ->
  swap h (mk_sit a q) = if on_top C then Abort else Ok h.
Proof.
  intros R. set (G := FCons a cas FNil) in *.
  pose proof R as Rr. apply rep_raw in Rr. rewrite with_sentinels_hplug in Rr.
  unfold G in Rr. rewrite gext_node in Rr.
  destruct (raw_hole _ _ _ Rr) as (H0 & N0C & NDC & NDg & Dis & N0g & Lg & Al & Ch & Fp & Fv).
  destruct (links_cons _ _ _ _ _ _ _ Lg) as (an & Ea & Pa & Va & Xa & _).
  unfold swap. cbn [snode]. rewrite (rd_some _ _ _ Ea). cbn [mbind outcome_bind obind].
  rewrite Xa. unfold gext. destruct (on_top C) eqn:Top; [|done].
  cbn [fsnoc first_ptr].
  pose proof (rep_feet_nonnull _ _ _ R) as Nf. rewrite (proj2 (Nat.eqb_neq _ _) Nf).
  assert (hpar C 0 = 0) as Hp0.
  { destruct (hpar_cases C 0) as [[_ X]|[X _]]; [done|congruence]. }
  assert (hprev (cext t C) 0 <> 0) as Nv.
  { intros E. apply (cext_prev h t C G R E). by rewrite hpar_cext. }
  rewrite hpar_cext in *. rewrite Hp0 in *.
  destruct (Fv Nv) as (X1 & _ & vn & X3 & _).
  set (hv := hprev (cext t C) 0) in *.
  assert (a ∈ preorder G) as HaG by (apply elem_of_cons; by left).
  destruct (rep_plain _ _ _ _ R (hole_preorder C G a HaG)) as (Na0 & Nah & Naf).
  assert (hv <> a) as Nva.
  { intros E. apply (Dis hv X1). rewrite E. unfold gext. rewrite Top.
    apply elem_of_cons. by left. }
  assert (hv <> feet t) as Nvf.
  { intros E. apply (Dis hv X1). rewrite E. unfold gext. rewrite Top.
    cbn [fsnoc preorder]. rewrite elem_of_cons, elem_of_app, elem_of_cons. tauto. }
  destruct (rep_feet_fields _ _ _ R) as (fd & Hfd & _ & _ & Hfn & _).
  rewrite Va, (proj2 (Nat.eqb_neq _ _) Nv). cbn [negb].
  rewrite (wr_some _ _ _ _ X3). cbn [mbind outcome_bind obind].
  rewrite (rd_some _ a an) by (by rewrite lookup_insert_ne).
  cbn [mbind outcome_bind obind].
  rewrite (wr_some _ (feet t) fd) by (by rewrite lookup_insert_ne).
  cbn [mbind outcome_bind obind].
  rewrite (rd_some _ (feet t) (set_prev_sibling (prev_sibling an) fd))
    by apply lookup_insert_eq.
  cbn [mbind outcome_bind obind]. cbn [next_sibling set_prev_sibling]. rewrite Hfn.
  cbn [Nat.eqb negb].
  rewrite (rd_some _ a an) by (by rewrite !lookup_insert_ne).
  cbn [mbind outcome_bind obind]. rewrite Pa. unfold wr.
  rewrite !lookup_insert_ne by done. by rewrite H0.
Qed.

(** [head_initialise_] on any heap gives an empty, well-formed tree with
    its counters in order: the two sentinels are fresh nodes, so every
    node that the heap held is left as it was. *)
Theorem head_initialise_spec (h : heap) :
  h !! 0 = None ->
  bookkept (head_initialise_ h).1 (head_initialise_ h).2 FNil /\
  empty (head_initialise_ h).1 (head_initialise_ h).2 = Ok true /\
  (forall q, is_Some (h !! q) -> (head_initialise_ h).1 !! q = h !! q).
Proof.
  intros H0. unfold head_initialise_. cbn [fst snd].
  destruct (allocate_fresh h) as [Fh Nh]. set (hd := allocate h) in *.
  set (h1 := <[hd := node_default]> h).
  destruct (allocate_fresh h1) as [Ff Nf]. set (ft := allocate h1) in *.
  assert (ft <> hd) as Nfh.
  { intros E. rewrite E in Ff. unfold h1 in Ff. by rewrite lookup_insert_eq in Ff. }
  assert (h !! ft = None) as Ff'.
  { unfold h1 in Ff. by rewrite lookup_insert_ne in Ff. }
  set (nhead := mk_node 0 0 0 0 ft inhabitant 0%Z 0%Z 0%Z true true).
  set (nfeet := mk_node 0 0 0 hd 0 inhabitant 0%Z 0%Z 0%Z false true).
  set (h' := <[ft := nfeet]> (<[hd := nhead]> h1)).
  assert (h' !! hd = Some nhead) as Eh.
  { unfold h'. rewrite lookup_insert_ne by done. apply lookup_insert_eq. }
  assert (h' !! ft = Some nfeet) as Ef by apply lookup_insert_eq.
  assert (tree_rep h' (mk_tree hd ft) FNil) as R.
  { split; cbn [head feet first_ptr last_ptr preorder].
    - unfold h', h1. by rewrite !lookup_insert_ne.
    - unfold sentinel_ok. by rewrite Eh.
    - unfold sentinel_ok. by rewrite Ef.
    - done.
    - apply NoDup_cons. split; [|apply NoDup_singleton].
      rewrite elem_of_cons. intros [X|X]; [done|by apply elem_of_nil in X]. }
  split; [|split].
  - split; [done|]. split; [done|]. cbn [head]. by rewrite Eh.
  - unfold empty, begin_. cbn [head feet]. rewrite (rd_some _ _ _ Eh).
    cbn [mbind outcome_bind obind]. cbn. by rewrite Nat.eqb_refl.
  - intros q [x Hx]. unfold h', h1. rewrite !lookup_insert_ne; [done| | |].
    + intros ->. congruence.
    + intros ->. congruence.
    + intros ->. congruence.
Qed.

Lemma roots_preorder f q : q ∈ roots f -> q ∈ preorder f.
Proof.
  induction f as [|p cs _ r IH]; [done|]. cbn [roots preorder].
  rewrite !elem_of_cons, elem_of_app. intros [->|X]; [by left|]. right. right. by apply IH.
Qed.

Lemma last_ptr_root f d : f <> FNil -> last_ptr f d ∈ roots f.
Proof.
  revert d. induction f as [|p cs _ r IH]; [done|]. intros d _. cbn [last_ptr roots].
  destruct r as [|q qcs qr]; [apply elem_of_cons; by left|].
  apply elem_of_cons. right. by apply IH.
Qed.

(** A sibling chain whose roots get a new parent and new neighbours at its
    two ends. *)
Lemma links_rechain (h h' : heap) f : forall par par' prev prev' next next',
  links h par prev f next -> NoDup (preorder f) ->
  (forall q, q ∈ preorder f -> q ∉ roots f -> keeps_links h h' q) ->
  (forall q, q ∈ roots f ->
     match h !! q, h' !! q with
     | Some a, Some c =>
         parent c = par' /\ first_child c = first_child a /\ last_child c = last_child a /\
         prev_sibling c = (if decide (q = first_ptr f 0) then prev' else prev_sibling a) /\
         next_sibling c = (if decide (q = last_ptr f 0) then next' else next_sibling a)
     | _, _ => False
     end) ->
  links h' par' prev' f next'.
Proof.
  induction f as [|p cs _ r IH]; intros par par' prev prev' next next' L ND K U; [done|].
  destruct (links_cons _ _ _ _ _ _ _ L) as (nd & Hnd & Hp & Hv & Hn & Hfc & Hlc & Lcs & Lr).
  cbn [preorder] in ND. apply NoDup_cons in ND as [N1 ND].
  apply NoDup_app in ND as (NDcs & Dcs & NDr).
  assert (p ∉ preorder cs) as Npc by (intros X; apply N1, elem_of_app; by left).
  assert (p ∉ preorder r) as Npr by (intros X; apply N1, elem_of_app; by right).
  pose proof (U p ltac:(apply elem_of_cons; by left)) as Up. rewrite Hnd in Up.
  cbn [links]. destruct (h' !! p) as [c|] eqn:Hc; [|done].
  destruct Up as (Up1 & Up2 & Up3 & Up4 & Up5). cbn [first_ptr] in Up4.
  rewrite decide_True in Up4 by done.
  split; [done|]. split; [done|]. split.
  { rewrite Up5. cbn [last_ptr]. destruct r as [|q qcs qr].
    - by rewrite decide_True.
    - rewrite decide_False; [by rewrite Hn|]. intros E. apply Npr. rewrite E.
      apply roots_preorder. change (last_ptr qr q) with (last_ptr (FCons q qcs qr) 0).
      by apply last_ptr_root. }
  split; [congruence|]. split; [congruence|]. split.
  - apply (links_keep h h' cs p 0 0 Lcs). intros q Hq. apply K.
    + cbn [preorder]. rewrite elem_of_cons, elem_of_app. tauto.
    + cbn [roots]. rewrite elem_of_cons. intros [->|X]; [done|].
      apply (Dcs q Hq). by apply roots_preorder.
  - apply (IH par par' p p next next' Lr NDr).
    + intros q Hq Nq. apply K.
      * cbn [preorder]. rewrite elem_of_cons, elem_of_app. tauto.
      * cbn [roots]. rewrite elem_of_cons. intros [->|X]; [by apply Npr|done].
    + intros q Hq. pose proof (U q ltac:(cbn [roots]; apply elem_of_cons; by right)) as Uq.
      destruct (h !! q) as [a|] eqn:Ha; [|done]. destruct (h' !! q) as [d|]; [|done].
      destruct Uq as (Uq1 & Uq2 & Uq3 & Uq4 & Uq5).
      assert (q <> p) as Nq by (intros ->; by apply Npr, roots_preorder).
      cbn [first_ptr] in Uq4. rewrite decide_False in Uq4 by done.
      split; [done|]. split; [done|]. split; [done|]. split.
      * destruct (decide (q = first_ptr r 0)) as [E|E]; [|done].
        rewrite Uq4. destruct r as [|x xcs xr]; [by apply elem_of_nil in Hq|].
        cbn [first_ptr] in E. subst q.
        destruct (links_cons _ _ _ _ _ _ _ Lr) as (xd & Hxd & _ & Hxv & _). congruence.
      * rewrite Uq5. cbn [last_ptr]. destruct r as [|x xcs xr]; [by apply elem_of_nil in Hq|].
        change (last_ptr (FCons x xcs xr) p) with (last_ptr xr x).
        change (last_ptr (FCons x xcs xr) 0) with (last_ptr xr x). done.
Qed.

Lemma flatten_loop_spec (pos : ptr) pn par0 : forall f (h : heap) prev fuel,
  links h par0 prev f 0 -> h !! 0 = None -> h !! pos = Some pn ->
  pos ∉ preorder f -> NoDup (preorder f) -> length (roots f) < fuel ->
  exists h', flatten_loop fuel h pos (first_ptr f 0) = Ok h' /\
    forall q, h' !! q = if decide (q ∈ roots f) then set_parent (parent pn) <$> h !! q
                        else h !! q.
Proof.
  induction f as [|c ccs _ cr IH]; intros h prev fuel L H0 Hpos Np ND Hf.
  - destruct fuel; [simpl in Hf; lia|]. exists h. split; [done|]. intros q.
    by rewrite decide_False by apply not_elem_of_nil.
  - destruct fuel; [simpl in Hf; lia|].
    destruct (links_cons _ _ _ _ _ _ _ L) as (nd & Hnd & _ & _ & Hn & _ & _ & Lcs & Lr).
    cbn [preorder] in ND, Np. apply NoDup_cons in ND as [N1 ND].
    apply NoDup_app in ND as (_ & _ & NDr).
    assert (c <> 0) as Nc by (intros ->; congruence).
    assert (c <> pos) as Ncp by (intros ->; apply Np, elem_of_cons; by left).
    assert (c ∉ preorder cr) as Ncr by (intros X; apply N1, elem_of_app; by right).
    cbn [first_ptr flatten_loop]. rewrite (proj2 (Nat.eqb_neq _ _) Nc).
    rewrite (rd_some _ _ _ Hpos). cbn [mbind outcome_bind obind].
    rewrite (wr_some _ _ _ _ Hnd). cbn [mbind outcome_bind obind].
    rewrite (rd_some _ _ (set_parent (parent pn) nd)) by apply lookup_insert_eq.
    cbn [mbind outcome_bind obind]. cbn [next_sibling set_parent]. rewrite Hn.
    set (h1 := <[c := set_parent (parent pn) nd]> h).
    destruct (IH h1 c fuel) as (h' & Run & Look).
    + apply (links_keep h h1 cr par0 c 0 Lr). intros q Hq.
      apply keeps_links_same; [by apply (links_lookup h cr q par0 c 0)|].
      unfold h1. rewrite lookup_insert_ne; [done|]. by intros ->.
    + unfold h1. rewrite lookup_insert_ne; [done|]. done.
    + unfold h1. rewrite lookup_insert_ne; done.
    + intros X. apply Np. rewrite elem_of_cons, elem_of_app. tauto.
    + done.
    + simpl in Hf. lia.
    + exists h'. split; [done|]. intros q. rewrite Look. cbn [roots]. unfold h1.
      destruct (decide (q = c)) as [->|Nq].
      * rewrite decide_False by (intros X; by apply Ncr, roots_preorder).
        rewrite lookup_insert_eq. rewrite decide_True by (apply elem_of_cons; by left).
        by rewrite Hnd.
      * rewrite lookup_insert_ne by done.
        destruct (decide (q ∈ roots cr)) as [Y|N].
        -- by rewrite decide_True by (apply elem_of_cons; by right).
        -- rewrite decide_False; [done|]. rewrite elem_of_cons. tauto.
Qed.

Lemma flatten_root_links (par p c lc nn q : ptr) (a : tree_node_ T) :
  (q = lc -> nn = 0 -> next_sibling a = 0) ->
  let b := if decide (nn <> 0 /\ q = lc) then set_next_sibling nn (set_parent par a)
           else set_parent par a in
  let x := if decide (q = c) then set_prev_sibling p b else b in
  parent x = par /\ first_child x = first_child a /\ last_child x = last_child a /\
  prev_sibling x = (if decide (q = c) then p else prev_sibling a) /\
  next_sibling x = (if decide (q = lc) then nn else next_sibling a).
Proof.
  intros Hl. cbv zeta.
  assert (parent (set_parent par a) = par) as _ by done.
  destruct (decide (q = lc)) as [E2|E2].
  - destruct (Nat.eq_dec nn 0) as [E|E].
    + rewrite (decide_False (P := nn <> 0 /\ q = lc)) by (intros [? _]; done).
      specialize (Hl E2 E). destruct (decide (q = c)); cbn; rewrite Hl, E; done.
    + rewrite (decide_True (P := nn <> 0 /\ q = lc)) by done.
      destruct (decide (q = c)); done.
  - rewrite (decide_False (P := nn <> 0 /\ q = lc)) by (intros [_ ?]; done).
    destruct (decide (q = c)); done.
Qed.

Lemma flatten_raw (h : heap) C p c ccs cr r fuel :
  raw h (hplug C (FCons p (FCons c ccs cr) r)) ->
  (first_ptr r 0 = 0 -> hpar C 0 <> 0) ->
  length (roots (FCons c ccs cr)) < fuel ->
  exists h', (forall sk, flatten fuel h (mk_it p sk) = Ok (h', mk_it p sk)) /\
    raw h' (hplug C (FCons p FNil (fapp (FCons c ccs cr) r))) /\
    (forall q, is_Some (h !! q) ->
       count_upd h h' id q /\ data <$> h' !! q = data <$> h !! q).
Proof.
  intros R Hn0 Hf.
  destruct (raw_hole _ _ _ R) as (H0 & N0C & NDC & NDg & Dis & N0g & Lg & Al & Ch & Fp & Fv).
  set (par := hpar C 0) in *. set (hv := hprev C 0) in *.
  set (cs := FCons c ccs cr) in *.
  destruct (links_cons _ _ _ _ _ _ _ Lg) as (pn & Ep & Pp & Vp & Xp & Fcp & Lcp & Lcs & Lr).
  assert (first_child pn = c) as Fcp' by exact Fcp. clear Fcp. rename Fcp' into Fcp.
  set (nn := first_ptr r 0) in *.
  set (lc := last_ptr cs 0) in *.
  assert (NoDup (p :: preorder cs ++ preorder r)) as ND by exact NDg.
  apply NoDup_cons in ND as [Np ND]. apply NoDup_app in ND as (NDcs & Dcr & NDr).
  assert ((p ∉ preorder cs) /\ (p ∉ preorder r)) as [Npc Npr].
  { split; intros X; apply Np; rewrite elem_of_app; clear - X; tauto. }
  assert (forall q, q ∈ preorder cs -> q ∈ preorder (FCons p cs r)) as Hcs.
  { intros q Hq. cbn [preorder]. rewrite elem_of_cons, elem_of_app. clear - Hq; tauto. }
  assert (forall q, q ∈ preorder r -> q ∈ preorder (FCons p cs r)) as Hr.
  { intros q Hq. cbn [preorder]. rewrite elem_of_cons, elem_of_app. clear - Hq; tauto. }
  assert (p ∈ preorder (FCons p cs r)) as HpG by (apply elem_of_cons; by left).
  assert (c ∈ roots cs) as Hc by (apply elem_of_cons; by left).
  assert (lc ∈ roots cs) as Hlc by (by apply last_ptr_root).
  assert (forall q, q ∈ roots cs -> q ∈ preorder cs) as RC by apply roots_preorder.
  assert (forall q, q ∈ roots cs -> q <> p /\ q <> 0 /\ is_Some (h !! q)) as RCn.
  { intros q Hq. split; [intros ->; by apply Npc, RC|]. split.
    - intros ->. by apply N0g, Hcs, RC.
    - by apply (links_lookup h cs q p 0 0 Lcs), RC. }
  assert (p <> 0) as Np0 by (intros ->; by apply N0g).
  assert (nn <> 0 -> nn ∈ preorder r /\ exists xn, h !! nn = Some xn) as Hnn.
  { intros E. unfold nn in *. destruct r as [|x xcs xr]; [done|]. cbn [first_ptr] in *.
    destruct (links_cons _ _ _ _ _ _ _ Lr) as (nd & Hnd & _).
    split; [apply elem_of_cons; by left|eauto]. }
  assert (nn = 0 -> r = FNil) as Hnil.
  { intros E. unfold nn in E. destruct r as [|x xcs xr]; [done|]. cbn [first_ptr] in E.
    exfalso. apply N0g. rewrite <- E. apply Hr. apply elem_of_cons. by left. }
  assert (nn <> p /\ (nn ∉ roots cs)) as [Nnp Nnr].
  { split.
    - intros E. destruct (Nat.eq_dec nn 0) as [Z|NZ]; [congruence|].
      destruct (Hnn NZ) as (X & _). apply Npr. by rewrite <- E.
    - intros X. destruct (Nat.eq_dec nn 0) as [Z|NZ].
      + rewrite Z in X. by destruct (RCn 0 X) as (_ & ? & _).
      + destruct (Hnn NZ) as (Y & _). by apply (Dcr nn (RC nn X)). }
  assert (par <> 0 -> par ∈ cptrs C /\
            exists pd, h !! par = Some pd /\
              last_child pd = last_ptr r p /\ (hv = 0 -> first_child pd = p)) as Hpar.
  { intros NZ. destruct (Fp NZ) as (HposC & pd & Epd & Elc & Efc). split; [done|eauto]. }
  assert (forall q, q ∈ cptrs C -> q <> p /\ (q ∉ roots cs) /\ q <> nn) as NC.
  { intros q Hq. split; [|split].
    - intros ->. by apply (Dis p).
    - intros X. apply (Dis q Hq). by apply Hcs, RC.
    - intros ->. destruct (Nat.eq_dec nn 0) as [Z|NZ]; [by rewrite Z in Hq|].
      destruct (Hnn NZ) as (X & _). apply (Dis nn Hq). by apply Hr. }
  assert (par <> p /\ (par ∉ roots cs) /\ par <> nn) as (Npp & Npr' & Npn).
  { destruct (Nat.eq_dec par 0) as [Z|NZ].
    - rewrite Z. split; [done|]. split.
      + intros X. by destruct (RCn 0 X) as (_ & ? & _).
      + intros E. symmetry in E. by apply (Hn0 E).
    - destruct (Hpar NZ) as (X & _). by apply NC. }
  (* the loop *)
  destruct (flatten_loop_spec p pn p cs h 0 fuel Lcs H0 Ep Npc NDcs Hf) as (h1 & Run1 & Look1).
  assert (flatten_loop fuel h p c = Ok h1) as Run1' by exact Run1. clear Run1.
  rename Run1' into Run1. rewrite Pp in Look1.
  set (A := fun x : tree_node_ T => set_parent par x).
  set (B := fun (q : ptr) (x : tree_node_ T) =>
              if decide (nn <> 0 /\ q = lc) then set_next_sibling nn (A x) else A x).
  set (D := fun (q : ptr) (x : tree_node_ T) =>
              if decide (q = c) then set_prev_sibling p (B q x) else B q x).
  set (P' := set_last_child 0 (set_first_child 0 (set_next_sibling c pn))).
  destruct (RCn c Hc) as (Ncp & Nc0 & [cnd Ecn]).
  destruct (RCn lc Hlc) as (Nlp & Nl0 & [lnd Eln]).
  set (pd := default pn (h !! par)). set (xn := default pn (h !! nn)).
  set (h3 := if nn =? 0 then <[par := set_last_child lc pd]> h1
             else <[nn := set_prev_sibling lc xn]> (<[lc := set_next_sibling nn (A lnd)]> h1)).
  set (h4 := <[p := set_next_sibling c pn]> h3).
  set (h5 := <[c := set_prev_sibling p (B c cnd)]> h4).
  set (h7 := <[p := P']> h5).
  assert (p ∉ roots cs) as Nprc by (intros X; by apply Npc, RC).
  assert (h1 !! p = Some pn) as E1p.
  { rewrite Look1. by rewrite decide_False. }
  assert (forall q a, q ∈ roots cs -> h !! q = Some a -> h1 !! q = Some (A a)) as E1r.
  { intros q a Hq Ha. rewrite Look1. rewrite decide_True by done. by rewrite Ha. }
  assert (forall q, q ∉ roots cs -> h1 !! q = h !! q) as E1o.
  { intros q Hq. rewrite Look1. by rewrite decide_False. }
  assert (forall q a, q ∈ roots cs -> h !! q = Some a -> h3 !! q = Some (B q a)) as E3r.
  { intros q a Hq Ha. unfold h3, B. destruct (Nat.eqb_spec nn 0) as [E|E].
    - rewrite lookup_insert_ne by (intros ->; done).
      rewrite decide_False by (clear - E; tauto). by apply E1r.
    - rewrite lookup_insert_ne by (intros ->; done).
      destruct (decide (q = lc)) as [->|N].
      + rewrite lookup_insert_eq. rewrite decide_True by done. congruence.
      + rewrite lookup_insert_ne by done. rewrite decide_False by (clear - N; tauto).
        by apply E1r. }
  assert (h3 !! p = Some pn) as E3p.
  { unfold h3. destruct (Nat.eqb_spec nn 0) as [E|E].
    - by rewrite lookup_insert_ne.
    - by rewrite !lookup_insert_ne. }
  assert (forall q, q <> p -> q <> c -> h7 !! q = h3 !! q) as E7.
  { intros q Q1 Q2. unfold h7, h5, h4. by rewrite !lookup_insert_ne. }
  assert (h7 !! p = Some P') as E7p by apply lookup_insert_eq.
  assert (forall q a, q ∈ roots cs -> h !! q = Some a -> h7 !! q = Some (D q a)) as E7r.
  { intros q a Hq Ha. unfold D. destruct (decide (q = c)) as [->|N].
    - unfold h7, h5. rewrite lookup_insert_ne by done. rewrite lookup_insert_eq. congruence.
    - rewrite E7; [by apply E3r| |done]. by destruct (RCn q Hq). }
  assert (forall q, q <> p -> q ∉ roots cs -> (nn <> 0 -> q <> nn) -> (nn = 0 -> q <> par) ->
            h7 !! q = h !! q) as Out.
  { intros q Q1 Q2 Q3 Q4. rewrite E7; [|done|by intros ->]. unfold h3.
    destruct (Nat.eqb_spec nn 0) as [E|E].
    - rewrite lookup_insert_ne by (intros E'; by apply (Q4 E)). by apply E1o.
    - rewrite lookup_insert_ne by (intros E'; by apply (Q3 E)).
      rewrite lookup_insert_ne by (by intros ->). by apply E1o. }
  assert (nn <> 0 -> h7 !! nn = Some (set_prev_sibling lc xn)) as E7n.
  { intros E. rewrite E7; [|done|by intros ->]. unfold h3.
    rewrite (proj2 (Nat.eqb_neq _ _) E). apply lookup_insert_eq. }
  assert (nn = 0 -> h7 !! par = Some (set_last_child lc pd)) as E7a.
  { intros E. rewrite E7; [|done|by intros ->]. unfold h3. rewrite E. cbn [Nat.eqb].
    apply lookup_insert_eq. }
  assert (forall sk, flatten fuel h (mk_it p sk) = Ok (h7, mk_it p sk)) as Run.
  { intros sk. unfold flatten. cbn [node]. rewrite (rd_some _ _ _ Ep).
    cbn [mbind outcome_bind obind]. rewrite Fcp, (proj2 (Nat.eqb_neq _ _) Nc0), Run1.
    cbn [mbind outcome_bind obind]. rewrite (rd_some _ _ _ E1p).
    cbn [mbind outcome_bind obind]. rewrite Xp, Lcp, Pp. fold lc.
    assert ((if negb (nn =? 0) then
               h0 ← wr h1 lc (set_next_sibling nn);
               pn0 ← rd h0 p; wr h0 (next_sibling pn0) (set_prev_sibling (last_child pn0))
             else wr h1 par (set_last_child lc)) = Ok h3) as ->.
    { unfold h3. destruct (Nat.eqb_spec nn 0) as [E|E]; cbn [negb].
      - specialize (Hn0 E). fold par in Hn0. destruct (Hpar Hn0) as (_ & pd' & Epd & _).
        unfold pd. rewrite Epd. cbn [default]. apply wr_some. by rewrite E1o.
      - destruct (Hnn E) as (_ & xd & Exd).
        rewrite (wr_some _ _ _ _ (E1r lc lnd Hlc Eln)). cbn [mbind outcome_bind obind].
        rewrite (rd_some _ p pn) by (by rewrite lookup_insert_ne).
        cbn [mbind outcome_bind obind]. rewrite Xp, Lcp. fold nn lc.
        unfold xn. rewrite Exd. cbn [default]. apply wr_some.
        rewrite lookup_insert_ne by (intros ->; done). by rewrite E1o. }
    cbn [mbind outcome_bind obind]. rewrite (rd_some _ _ _ E3p).
    cbn [mbind outcome_bind obind]. rewrite Fcp. rewrite (wr_some _ _ _ _ E3p).
    cbn [mbind outcome_bind obind]. fold h4.
    rewrite (rd_some h4 p (set_next_sibling c pn)) by apply lookup_insert_eq.
    cbn [mbind outcome_bind obind]. cbn [next_sibling set_next_sibling].
    rewrite (wr_some h4 c (B c cnd)).
    2:{ unfold h4. rewrite lookup_insert_ne by done. by apply E3r. }
    cbn [mbind outcome_bind obind]. fold h5.
    rewrite (wr_some h5 p (set_next_sibling c pn)).
    2:{ unfold h5. rewrite lookup_insert_ne by done. apply lookup_insert_eq. }
    cbn [mbind outcome_bind obind].
    rewrite (wr_some _ p (set_first_child 0 (set_next_sibling c pn))) by apply lookup_insert_eq.
    cbn [mbind outcome_bind obind]. rewrite insert_insert_eq. done. }
  exists h7. split; [done|]. split.
  - apply (raw_replace h h7 C (FCons p cs r)); [done| | | | |].
    + apply eq_trans with (h !! 0); [|done]. apply Out.
      * done.
      * intros X. by destruct (RCn 0 X) as (_ & ? & _).
      * intros E E'. by apply E.
      * intros E E'. apply (Hn0 E). by rewrite <- E'.
    + fold par hv.
      assert (first_ptr (fapp cs r) 0 = c) as FF by done.
      cbn [links]. rewrite E7p, FF. unfold P'. cbn [first_ptr last_ptr].
      split; [exact Pp|]. split; [exact Vp|]. split; [done|]. split; [done|].
      split; [done|]. split; [done|].
      apply (proj2 (links_fapp h7 cs r par p 0)). split.
      * apply (links_rechain h h7 cs p par 0 p 0 (first_ptr r 0) Lcs NDcs).
        -- intros q Hq Nq. apply keeps_links_same; [by apply (links_lookup h cs q p 0 0)|].
           apply Out.
           ++ intros ->. done.
           ++ done.
           ++ intros E ->. destruct (Hnn E) as (X & _). by apply (Dcr nn Hq).
           ++ intros E ->. specialize (Hn0 E). fold par in Hn0. destruct (Hpar Hn0) as (X & _).
              apply (Dis par X). by apply Hcs.
        -- intros q Hq. destruct (RCn q Hq) as (_ & _ & [a Ha]).
           rewrite Ha, (E7r q a Hq Ha). unfold D, B, A.
           apply (flatten_root_links par p c lc nn q a).
           intros -> E. destruct (links_last h cs p 0 0 Lcs ltac:(done)) as (z & Ez & Xz).
           fold lc in Ez. congruence.
      * assert (last_ptr cs p = lc) as ->. { unfold lc, cs. done. }
        apply (links_reprev h h7 r par p lc 0 Lr); [| |done].
        -- intros q Hq Hq1. apply keeps_links_same; [by apply (links_lookup h r q par p 0)|].
           apply Out.
           ++ by intros ->.
           ++ intros X. by apply (Dcr q (RC q X)).
           ++ intros _. done.
           ++ intros E. rewrite (Hnil E) in Hq. by apply elem_of_nil in Hq.
        -- intros Ng. assert (nn <> 0) as E by (intros E; by apply Ng, Hnil).
           destruct (Hnn E) as (X & xd & Exd). fold nn.
           rewrite Exd, (E7n E). unfold xn. rewrite Exd. cbn. apply same_links_refl.
    + apply (ctx_upd_intro h h7 C (FCons p cs r)); [done| | |].
      * intros q Hq Hq1 Hq2. apply keeps_links_same; [by apply Al|].
        destruct (NC q Hq) as (? & ? & ?). apply Out; try done.
      * fold hv. intros E. destruct (Fv E) as (X1 & X2 & vd & X3 & X4).
        destruct (NC hv X1) as (? & ? & ?).
        rewrite X3, Out; try done. rewrite X3. cbn [bounds bfirst] in *.
        unfold same_links. cbn. by rewrite X4.
      * fold par hv. intros NZ. destruct (Hpar NZ) as (X0 & pd' & X3 & X5 & X6).
        rewrite X3. cbn [bounds bfirst blast last_ptr]. rewrite last_ptr_fapp.
        assert (last_ptr cs p = lc) as ->. { unfold lc, cs. done. }
        destruct (Nat.eq_dec nn 0) as [E|E].
        -- rewrite (E7a E). unfold pd. rewrite X3. cbn [default]. rewrite (Hnil E).
           cbn [last_ptr]. unfold same_links. cbn.
           destruct (decide (hv = 0)) as [V|V]; cbn; repeat split; try done.
           by rewrite (X6 V).
        -- rewrite Out; try done. rewrite X3.
           assert (last_ptr r lc = last_ptr r p) as ->.
           { destruct r; [|done]. by exfalso. }
           unfold same_links. cbn.
           destruct (decide (hv = 0)) as [V|V]; cbn; repeat split; try done; try congruence.
           by rewrite (X6 V).
    + intros x Hx. cbn [preorder app]. rewrite preorder_fapp. by apply Dis.
    + cbn [preorder app]. rewrite preorder_fapp. exact NDg.
  - intros q [x Hx]. unfold count_upd. rewrite Hx.
    destruct (decide (q = p)) as [->|Q1].
    { rewrite E7p. assert (pn = x) as -> by congruence. done. }
    destruct (decide (q ∈ roots cs)) as [Q2|Q2].
    { rewrite (E7r q x Q2 Hx). unfold D, B, A.
      destruct (decide (q = c)), (decide (nn <> 0 /\ q = lc)); done. }
    destruct (decide (nn <> 0 /\ q = nn)) as [[Q3 ->]|Q3].
    { rewrite (E7n Q3). unfold xn. rewrite Hx. done. }
    destruct (decide (nn = 0 /\ q = par)) as [[Q4 ->]|Q4].
    { rewrite (E7a Q4). unfold pd. rewrite Hx. done. }
    rewrite Out; [by rewrite Hx|done|done| |].
    + intros E E'. apply Q3. done.
    + intros E E'. apply Q4. done.
Qed.

Lemma fsnoc_fapp_r f g x : fsnoc (fapp f g) x = fapp f (fsnoc g x).
Proof.
  induction f as [|p cs _ r IH]; [done|]. cbn [fapp fsnoc]. by rewrite IH.
Qed.

Lemma gext_fapp t C f g : gext t C (fapp f g) = fapp f (gext t C g).
Proof.
  unfold gext. destruct (on_top C); [apply fsnoc_fapp_r|done].
Qed.

Lemma counts_fapp (h : heap) f g :
  counts_ok h (fapp f g) <-> counts_ok h f /\ counts_ok h g.
Proof.
  induction f as [|p cs _ r IH]; cbn [fapp counts_ok]; [tauto|].
  rewrite IH. tauto.
Qed.

Lemma length_roots_preorder f : length (roots f) <= length (preorder f).
Proof.
  induction f as [|p cs _ r IH]; [done|]. cbn [roots preorder length].
  rewrite length_app. lia.
Qed.

Lemma flatten_rep (h : heap) t C p cs r fuel :
  tree_rep h t (hplug C (FCons p cs r)) ->
  length (roots cs) < fuel ->
  exists h',
    (forall sk, flatten fuel h (mk_it p sk) = Ok (h', mk_it p sk)) /\
    tree_rep h' t (hplug C (FCons p FNil (fapp cs r))) /\
    (forall q, is_Some (h !! q) ->
       count_upd h h' id q /\ data <$> h' !! q = data <$> h !! q).
Proof.
  intros R Hf. set (G := FCons p cs r) in *.
  pose proof R as Rr. apply rep_raw in Rr. rewrite with_sentinels_hplug in Rr.
  unfold G in Rr. rewrite gext_node in Rr.
  destruct cs as [|c ccs cr].
  - destruct (raw_hole _ _ _ Rr) as (_ & _ & _ & _ & _ & _ & Lg & _).
    destruct (links_cons _ _ _ _ _ _ _ Lg) as (pn & Ep & _ & _ & _ & Fcp & _).
    cbn [first_ptr] in Fcp. exists h. split; [|split].
    + intros sk. unfold flatten. cbn [node]. rewrite (rd_some _ _ _ Ep).
      cbn [mbind outcome_bind obind]. by rewrite Fcp.
    + exact R.
    + intros q [x Hx]. unfold count_upd. by rewrite Hx.
  - destruct (flatten_raw h (cext t C) p c ccs cr (gext t C r) fuel Rr) as (h' & Run & Rr' & K).
    { apply (cext_next h t C G r R). intros x Hx. unfold G. cbn [preorder].
      rewrite elem_of_cons, elem_of_app. clear - Hx. tauto. }
    { done. }
    rewrite <- gext_fapp, <- gext_node, <- with_sentinels_hplug in Rr'. apply rep_raw in Rr'.
    exists h'. done.
Qed.

(** [flatten(position)] turns the children of a node into its next
    siblings, in their order and before the siblings it had.  The tree
    stays well formed, the pre-order sequence and every value stay as they
    were, and the iterator comes back unchanged.  No counter is touched: in
    a tree whose counters were kept, the counter of the node still counts
    the former children and their descendants, so with children the
    counters are no longer right; resetting that one counter makes them
    right again. *)
Theorem flatten_spec (h : heap) t C p cs r fuel sk :
  tree_rep h t (hplug C (FCons p cs r)) ->
  length (roots cs) < fuel ->
  exists h' nd',
    flatten fuel h (mk_it p sk) = Ok (h', mk_it p sk) /\
    tree_rep h' t (hplug C (FCons p FNil (fapp cs r))) /\
    preorder (hplug C (FCons p FNil (fapp cs r))) = preorder (hplug C (FCons p cs r)) /\
    (forall q, is_Some (h !! q) ->
       count <$> h' !! q = count <$> h !! q /\ data <$> h' !! q = data <$> h !! q) /\
    h' !! p = Some nd' /\
    (bookkept h t (hplug C (FCons p cs r)) ->
     count nd' = wrap (Z.of_nat (length (preorder cs))) /\
     bookkept (<[p := set_count 0 nd']> h') t (hplug C (FCons p FNil (fapp cs r))) /\
     (wrap (Z.of_nat (length (preorder cs))) <> 0%Z ->
      ~ bookkept h' t (hplug C (FCons p FNil (fapp cs r))))).
Proof.
  intros R Hf. destruct (flatten_rep h t C p cs r fuel R Hf) as (h' & Run & R' & Cu).
  set (G := FCons p cs r) in *. set (G' := FCons p FNil (fapp cs r)) in *.
  assert (preorder G' = preorder G) as EG.
  { unfold G, G'. cbn [preorder app]. by rewrite preorder_fapp. }
  assert (preorder (hplug C G') = preorder (hplug C G)) as EP.
  { by rewrite !preorder_hplug_seq, EG. }
  assert (forall q, is_Some (h !! q) ->
            count <$> h' !! q = count <$> h !! q /\ data <$> h' !! q = data <$> h !! q) as K.
  { intros q Hq. destruct (Cu q Hq) as [X Y]. split; [|done].
    unfold count_upd in X. destruct Hq as [x Hx]. rewrite Hx in X |- *.
    destruct (h' !! q); [|done]. simpl. by rewrite X. }
  destruct (rep_hole _ _ _ _ R) as (NDC & NhC & Nhg & AlC & Alg & Dis & Hh).
  assert (p ∈ preorder G) as HpG by (apply elem_of_cons; by left).
  destruct (Alg p HpG) as [pn Ep].
  assert (exists nd', h' !! p = Some nd' /\ count nd' = count pn) as (nd' & Ep' & Ec').
  { destruct (Cu p ltac:(eauto)) as [X _]. unfold count_upd, id in X. rewrite Ep in X.
    destruct (h' !! p) as [y|]; [|done]. eauto. }
  exists h', nd'. split; [done|]. split; [done|]. split; [done|]. split; [done|].
  split; [done|]. intros (_ & Cn & Chd).
  apply counts_hplug in Cn as [Cc Cg].
  assert (count pn = wrap (Z.of_nat (length (preorder cs))) /\ counts_ok h cs /\ counts_ok h r)
    as (Cp & Ccs & Cr).
  { unfold G in Cg. cbn [counts_ok] in Cg. rewrite Ep in Cg. exact Cg. }
  split; [congruence|]. split.
  - set (h2 := <[p := set_count 0 nd']> h').
    assert (same_shape h' h2) as S2.
    { apply (same_shape_insert h' p nd'); [done| |done]. unfold same_links. by cbn. }
    assert (forall q, q <> p -> is_Some (h !! q) -> count_upd h h2 id q) as Cu2.
    { intros q Nq Hq. unfold count_upd, h2. rewrite lookup_insert_ne by done.
      by apply Cu. }
    assert ((p ∉ preorder cs) /\ (p ∉ preorder r)) as [Npc Npr].
    { pose proof (rep_inner_nodup _ _ _ R) as ND. rewrite preorder_hplug_seq in ND.
      apply NoDup_app in ND as (_ & _ & ND). apply NoDup_app in ND as (ND & _ & _).
      unfold G in ND. cbn [preorder] in ND. apply NoDup_cons in ND as [X _].
      rewrite elem_of_app in X. clear - X. tauto. }
    split; [by apply (tree_rep_shape h' h2)|]. split.
    + apply counts_hplug. split.
      * rewrite EG. apply (ccounts_keep h h2); [done|]. intros q Hq. apply Cu2.
        -- intros ->. by apply (Dis p).
        -- by apply AlC.
      * unfold G'. cbn [counts_ok preorder length]. unfold h2 at 1. rewrite lookup_insert_eq.
        split; [done|]. split; [done|]. apply counts_fapp. split.
        -- apply (counts_keep h h2); [done|]. intros q Hq. apply Cu2.
           ++ by intros ->.
           ++ apply Alg. unfold G. cbn [preorder]. rewrite elem_of_cons, elem_of_app.
              clear - Hq. tauto.
        -- apply (counts_keep h h2); [done|]. intros q Hq. apply Cu2.
           ++ by intros ->.
           ++ apply Alg. unfold G. cbn [preorder]. rewrite elem_of_cons, elem_of_app.
              clear - Hq. tauto.
    + unfold h2. rewrite lookup_insert_ne.
      * destruct (K (head t) Hh) as [X _]. by rewrite X, Chd, EP.
      * intros E. apply Nhg. rewrite <- E. done.
  - intros Nz (_ & Cn' & _). apply counts_hplug in Cn' as [_ Cg'].
    unfold G' in Cg'. cbn [counts_ok preorder length] in Cg'. rewrite Ep' in Cg'.
    destruct Cg' as (X & _). apply Nz. rewrite <- Cp, <- Ec', X. done.
Qed.

Lemma wrap_succ_ne (n : nat) : wrap (Z.of_nat (S n)) <> wrap (Z.of_nat n).
Proof.
  unfold wrap. intros E.
  assert (((Z.of_nat (S n) - Z.of_nat n) mod size_max)%Z = 0%Z) as X.
  { rewrite Zminus_mod, E, Z.sub_diag. done. }
  replace (Z.of_nat (S n) - Z.of_nat n)%Z with 1%Z in X by lia.
  vm_compute in X. done.
Qed.

(** A call that leaves the counter of the head as it was and adds a node
    breaks the bookkeeping. *)
Lemma uncounted_not_bookkept (h h' : heap) t f f' :
  bookkept h t f -> count <$> h' !! head t = count <$> h !! head t ->
  length (preorder f') = S (length (preorder f)) -> ~ bookkept h' t f'.
Proof.
  intros (_ & _ & Ch) E L (_ & _ & Ch'). rewrite E, Ch, L in Ch'.
  injection Ch' as Ch'. by apply (wrap_succ_ne (length (preorder f))).
Qed.

Lemma linked_uncounted_intro (h h' : heap) t x N' :
  is_Some (h !! head t) ->
  h' !! allocate h = Some N' -> count N' = 0%Z -> data N' = x ->
  (forall q, is_Some (h !! q) -> count_upd h h' id q) ->
  linked_uncounted h h' t x.
Proof.
  intros [hd Hh] EN CN DN Cu.
  assert (forall q, is_Some (h !! q) -> count <$> h' !! q = count <$> h !! q) as K.
  { intros q Hq. pose proof (Cu q Hq) as X. unfold count_upd, id in X.
    destruct Hq as [a Ha]. rewrite Ha in X |- *. destruct (h' !! q); [|done].
    simpl. by rewrite X. }
  split; [by rewrite EN; simpl; rewrite DN|]. split; [by rewrite EN; simpl; rewrite CN|].
  split; [done|].
  pose proof (K (head t) ltac:(eauto)) as X. unfold size, rd. rewrite Hh in X |- *.
  destruct (h' !! head t); [|done]. cbn [mbind outcome_bind obind]. simpl in X. congruence.
Qed.

Lemma insert_rvalue_hole (h : heap) t C g position x :
  tree_rep h t (hplug C g) ->
  (if node position =? 0 then feet t else node position) =
    first_ptr g (if on_top C then feet t else 0) ->
  first_ptr g (if on_top C then feet t else 0) <> 0 ->
  exists h',
    insert_rvalue h t position x = Ok (h', iterator_of (allocate h)) /\
    tree_rep h' t (hplug C (FCons (allocate h) FNil g)) /\
    linked_uncounted h h' t x.
Proof.
  intros R Hpos Hne.
  destruct (rep_hole _ _ _ _ R) as (NDC & NhC & Nhg & AlC & Alg & Dis & Hh).
  destruct (gext_cons _ _ _ _ R Hne) as (cs & r & Eg).
  set (pos := first_ptr g (if on_top C then feet t else 0)) in *.
  destruct (allocate_fresh h) as [Htmp Htmp0]. set (tmp := allocate h) in *.
  set (N0 := set_data x node_default).
  set (N := set_last_child 0 (set_first_child 0 N0)).
  pose proof R as Rr. apply rep_raw in Rr. rewrite with_sentinels_hplug, Eg in Rr.
  destruct (insert_raw h (cext t C) pos cs r tmp N Rr Htmp Htmp0)
    as (pn & h2 & h3 & h4 & R1 & R2 & R3 & R4 & Rr4 & Cu4 & N' & EN' & CN' & PN' & DN');
    [by apply (cext_prev h t C g)|done|done|].
  rewrite <- Eg, <- gext_leaf, <- with_sentinels_hplug in Rr4. apply rep_raw in Rr4.
  exists h4. split; [|split; [done|]].
  - unfold insert_rvalue, new_node_rvalue. fold pos in Hpos. rewrite Hpos. fold tmp N0.
    rewrite (wr_some _ tmp N0) by apply lookup_insert_eq.
    cbn [mbind outcome_bind obind]. rewrite insert_insert_eq.
    rewrite (wr_some _ tmp (set_first_child 0 N0)) by apply lookup_insert_eq.
    cbn [mbind outcome_bind obind]. rewrite insert_insert_eq. fold N.
    rewrite R1. cbn [mbind outcome_bind obind].
    rewrite R2. cbn [mbind outcome_bind obind].
    rewrite R3. cbn [mbind outcome_bind obind].
    rewrite R4. done.
  - by apply (linked_uncounted_intro h h4 t x N').
Qed.

Lemma append_child_rvalue_hole (h : heap) t C x :
  tree_rep h t (hplug C FNil) -> on_top C = false ->
  exists h',
    append_child_rvalue h t (iterator_of (hpar C 0)) x = Ok (h', iterator_of (allocate h)) /\
    tree_rep h' t (hplug C (FCons (allocate h) FNil FNil)) /\
    linked_uncounted h h' t x.
Proof.
  intros R Top.
  destruct (rep_hole _ _ _ _ R) as (NDC & NhC & Nhg & AlC & Alg & Dis & Hh).
  destruct (allocate_fresh h) as [Htmp Htmp0]. set (tmp := allocate h) in *.
  set (N0 := set_data x node_default).
  set (N := set_last_child 0 (set_first_child 0 N0)).
  set (pos := hpar C 0).
  assert (pos ∈ cptrs C) as HposC.
  { unfold pos. destruct (hpar_cases C 0) as [[T1 _]|[_ T2]]; [congruence|done]. }
  assert (pos ∈ preorder (hplug C FNil)) as Hpos by (by apply cptrs_preorder).
  assert (pos <> 0) as Hp0 by (by apply (rep_nonnull _ _ _ _ R)).
  assert (pos <> head t) as Hph by (intros X; by rewrite X in HposC).
  assert (pos <> feet t) as Hpf.
  { intros X. apply (rep_feet_fresh _ _ _ R). by rewrite <- X. }
  pose proof R as Rr. apply rep_raw in Rr. rewrite with_sentinels_hplug in Rr.
  assert (forall g, gext t C g = g) as Eg by (intros g; unfold gext; by rewrite Top).
  rewrite Eg in Rr.
  destruct (append_raw h (cext t C) tmp N Rr)
    as (pn & h2 & h3 & h4 & h5 & h6 & R1 & R2 & R3 & R4 & R5 & R6 & Rr6 & Cu6 &
        N' & EN' & CN' & PN' & DN'); try done.
  { by rewrite hpar_cext. }
  rewrite hpar_cext in *. fold pos in R1, R2, R3, R5, PN'.
  rewrite <- (Eg (FCons tmp FNil FNil)), <- with_sentinels_hplug in Rr6. apply rep_raw in Rr6.
  exists h6. split; [|split; [done|]].
  - unfold append_child_rvalue, iterator_of, new_node_rvalue. cbn [node]. fold pos.
    rewrite (proj2 (Nat.eqb_neq pos (head t))) by done.
    rewrite (proj2 (Nat.eqb_neq pos (feet t))) by done.
    rewrite (proj2 (Nat.eqb_neq pos 0)) by done. cbn [orb]. fold tmp N0.
    rewrite (wr_some _ tmp N0) by apply lookup_insert_eq.
    cbn [mbind outcome_bind obind]. rewrite insert_insert_eq.
    rewrite (wr_some _ tmp (set_first_child 0 N0)) by apply lookup_insert_eq.
    cbn [mbind outcome_bind obind]. rewrite insert_insert_eq. fold N.
    rewrite R1. cbn [mbind outcome_bind obind].
    rewrite R2. cbn [mbind outcome_bind obind].
    rewrite R3. cbn [mbind outcome_bind obind].
    rewrite R4. cbn [mbind outcome_bind obind].
    rewrite R5. cbn [mbind outcome_bind obind].
    rewrite R6. done.
  - by apply (linked_uncounted_intro h h6 t x N').
Qed.

(** The overloads [insert(iter, T&&)] and [append_child(iter, T&&)], which
    a call with a temporary selects.  They link the new node where their
    siblings taking [const T&] do, at the end of the tree, in front of any
    node or as the last child of any node, and the tree stays well formed;
    but they touch no counter: the new node counts 0, every old counter
    and [size()] stay as they were, and a tree whose counters were in order
    has them out of order afterwards. *)
Theorem rvalue_overloads_spec (h : heap) (t : tree) (f : forest) (x : T) :
  tree_rep h t f ->
  (forall sk, exists h',
     insert_rvalue h t (mk_it 0 sk) x = Ok (h', iterator_of (allocate h)) /\
     insert_rvalue h t (mk_it (feet t) sk) x = Ok (h', iterator_of (allocate h)) /\
     tree_rep h' t (fsnoc f (allocate h)) /\
     linked_uncounted h h' t x /\
     (bookkept h t f -> ~ bookkept h' t (fsnoc f (allocate h)))) /\
  (forall position, node position ∈ preorder f ->
     exists C cs r, f = hplug C (FCons (node position) cs r) /\
       (exists h',
          insert_rvalue h t position x = Ok (h', iterator_of (allocate h)) /\
          tree_rep h' t (hplug C (FCons (allocate h) FNil (FCons (node position) cs r))) /\
          linked_uncounted h h' t x /\
          (bookkept h t f ->
           ~ bookkept h' t
               (hplug C (FCons (allocate h) FNil (FCons (node position) cs r))))) /\
       (exists h',
          append_child_rvalue h t position x = Ok (h', iterator_of (allocate h)) /\
          tree_rep h' t (hplug C (FCons (node position) (fsnoc cs (allocate h)) r)) /\
          linked_uncounted h h' t x /\
          (bookkept h t f ->
           ~ bookkept h' t (hplug C (FCons (node position) (fsnoc cs (allocate h)) r))))).
Proof.
  intros R.
  assert (is_Some (h !! head t)) as Hh.
  { assert (f = hplug HHole f) as Ef by done. rewrite Ef in R.
    by destruct (rep_hole _ _ _ _ R) as (_ & _ & _ & _ & _ & _ & X). }
  assert (forall h' f', linked_uncounted h h' t x ->
            length (preorder f') = S (length (preorder f)) ->
            bookkept h t f -> ~ bookkept h' t f') as Stale.
  { intros h' f' (_ & _ & K & _) L B. apply (uncounted_not_bookkept h h' t f f' B); [|done].
    by apply K. }
  split.
  - intros sk.
    assert (f = hplug (cend f) FNil) as Ef by (by rewrite hplug_cend, fapp_nil_r).
    assert (on_top (cend f) = true) as Top.
    { clear. induction f as [|p cs _ r IH]; [done|]. exact IH. }
    pose proof (rep_feet_nonnull _ _ _ R) as Hf0.
    pose proof R as R0. rewrite Ef in R0.
    destruct (insert_rvalue_hole h t (cend f) FNil (mk_it 0 sk) x R0) as (h' & Run & R' & U).
    { rewrite Top. done. }
    { rewrite Top. done. }
    assert (insert_rvalue h t (mk_it (feet t) sk) x = insert_rvalue h t (mk_it 0 sk) x) as Eq.
    { unfold insert_rvalue. cbn [node]. by rewrite (proj2 (Nat.eqb_neq (feet t) 0)). }
    rewrite hplug_cend, <- fsnoc_fapp in R'.
    exists h'. split; [done|]. split; [by rewrite Eq|]. split; [done|]. split; [done|].
    apply Stale; [done|]. rewrite preorder_fsnoc, length_app. simpl. lia.
  - intros position Hpos.
    destruct (hole_at f (node position) Hpos) as (C & cs & r & Ef).
    exists C, cs, r. split; [done|].
    pose proof R as R0. rewrite Ef in R0.
    assert (node position <> 0) as Hn0 by (by apply (rep_nonnull _ _ _ _ R)).
    split.
    + destruct (insert_rvalue_hole h t C (FCons (node position) cs r) position x R0)
        as (h' & Run & R' & U).
      { simpl. by rewrite (proj2 (Nat.eqb_neq _ 0)). }
      { done. }
      exists h'. split; [done|]. split; [done|]. split; [done|].
      apply Stale; [done|]. rewrite Ef, !preorder_hplug, !length_app. simpl. lia.
    + destruct (append_child_rvalue_hole h t (child_end C (node position) cs r) x)
        as (h' & Run & R' & U).
      * by rewrite hplug_child_end, fapp_nil_r.
      * unfold child_end. rewrite on_top_hcomp. simpl. apply andb_false_r.
      * assert (hpar (child_end C (node position) cs r) 0 = node position) as Ep.
        { unfold child_end. rewrite hpar_hcomp. simpl. apply hpar_cend. }
        rewrite Ep in Run. rewrite hplug_child_end, <- fsnoc_fapp in R'.
        assert (append_child_rvalue h t position x =
                append_child_rvalue h t (iterator_of (node position)) x) as Eq by done.
        exists h'. split; [by rewrite Eq|]. split; [done|]. split; [done|].
        apply Stale; [done|]. rewrite Ef, !preorder_hplug, !length_app. simpl.
        rewrite preorder_fsnoc, !length_app. simpl. lia.
Qed.

Lemma find_split {A : Type} (f : A -> bool) (l : list A) z :
  List.find f l = Some z ->
  exists l2 l', l = l2 ++ z :: l' /\ f z = true /\ forall y, y ∈ l2 -> f y = false.
Proof.
  induction l as [|a l IH]; [done|]. cbn [List.find]. destruct (f a) eqn:E.
  - intros [= ->]. exists [], l. split; [done|]. split; [done|].
    intros y Hy. by apply elem_of_nil in Hy.
  - intros X. destruct (IH X) as (l2 & l' & -> & Fz & Hl). exists (a :: l2), l'.
    split; [done|]. split; [done|]. intros y Hy. apply elem_of_cons in Hy as [->|Hy]; auto.
Qed.

Lemma find_none_intro {A : Type} (f : A -> bool) (l : list A) :
  (forall y, y ∈ l -> f y = false) -> List.find f l = None.
Proof.
  induction l as [|a l IH]; intros Hl; [done|]. cbn [List.find].
  rewrite (Hl a) by (apply elem_of_cons; by left).
  apply IH. intros y Hy. apply Hl. apply elem_of_cons. by right.
Qed.

Lemma find_some_intro {A : Type} (f : A -> bool) (l : list A) x :
  x ∈ l -> f x = true -> is_Some (List.find f l).
Proof.
  induction l as [|a l IH]; intros Hx Fx; [by apply elem_of_nil in Hx|]. cbn [List.find].
  destruct (f a) eqn:E; [eauto|]. apply IH; [|done].
  apply elem_of_cons in Hx as [->|Hx]; [congruence|done].
Qed.

Lemma find_pred_ext {A : Type} (f g : A -> bool) (l : list A) :
  (forall y, f y = g y) -> List.find f l = List.find g l.
Proof.
  intros E. induction l as [|a l IH]; [done|]. cbn [List.find]. by rewrite E, IH.
Qed.

(** The chain of ancestors above a node is determined by the heap. *)
Lemma chain_up_inj (h : heap) l : forall p l', chain_up h p l -> chain_up h p l' -> l = l'.
Proof.
  induction l as [|a l IH]; intros p l' C1 C2.
  - simpl in C1. subst p. destruct l' as [|b l']; [done|]. simpl in C2. by destruct C2 as (_ & ? & _).
  - simpl in C1. destruct C1 as (-> & Hp & C1). destruct l' as [|b l']; [done|].
    simpl in C2. destruct C2 as (-> & _ & C2).
    destruct (h !! p) as [nd|]; [|done]. f_equal. by apply (IH (parent nd)).
Qed.

Lemma chain_up_suffix (h : heap) l1 : forall p z l,
  chain_up h p (l1 ++ z :: l) ->
  exists zd, h !! z = Some zd /\ chain_up h (parent zd) l.
Proof.
  induction l1 as [|a l1 IH]; intros p z l C.
  - simpl in C. destruct C as (-> & Hp & C). destruct (h !! p) as [nd|]; [|done]. eauto.
  - simpl in C. destruct C as (-> & Hp & C). destruct (h !! p) as [nd|]; [|done].
    by apply (IH (parent nd)).
Qed.

Lemma parent_of_some (h : heap) pos nd :
  pos <> 0 -> h !! pos = Some nd -> parent_of h (iterator_of pos) = Ok (iterator_of (parent nd)).
Proof.
  intros Hp E. unfold parent_of, iterator_of. cbn [node].
  rewrite (proj2 (Nat.eqb_neq _ _) Hp), (rd_some _ _ _ E). done.
Qed.

Lemma is_valid_node t x :
  x <> 0 -> x <> feet t -> x <> head t -> is_valid t (iterator_of x) = true.
Proof.
  intros X1 X2 X3. unfold is_valid, iterator_of. cbn [node].
  by rewrite (proj2 (Nat.eqb_neq _ _) X1), (proj2 (Nat.eqb_neq _ _) X2),
    (proj2 (Nat.eqb_neq _ _) X3).
Qed.

Lemma lca_set_cons (x : ptr) l (Sp : gset ptr) :
  list_to_set l ∪ ({[x]} ∪ Sp) = list_to_set (x :: l) ∪ Sp.
Proof. cbn [list_to_set]. by rewrite (assoc_L (∪)), (comm_L (∪) (list_to_set l)). Qed.

Lemma lca_collect_spec (h : heap) t l : forall pos nd (Sp : gset ptr) fuel,
  h !! pos = Some nd -> pos <> 0 -> chain_up h (parent nd) l -> l <> [] ->
  (forall x, x ∈ l -> x <> feet t /\ x <> head t) -> length l <= fuel ->
  lca_collect fuel h t (iterator_of pos) Sp = Ok (list_to_set l ∪ Sp).
Proof.
  induction l as [|x l IH]; intros pos nd Sp fuel E Hp C Hl V Hf; [done|].
  destruct fuel as [|fuel]; [simpl in Hf; lia|]. cbn [lca_collect].
  rewrite (parent_of_some h pos nd Hp E). cbn [mbind outcome_bind obind].
  simpl in C. destruct C as (-> & Hx0 & C). destruct (h !! parent nd) as [xd|] eqn:Ex; [|done].
  cbn [node iterator_of]. fold (iterator_of (parent nd)).
  rewrite (parent_of_some h (parent nd) xd Hx0 Ex). cbn [mbind outcome_bind obind].
  destruct l as [|y l].
  - simpl in C. rewrite C. cbn [is_valid iterator_of node Nat.eqb orb negb list_to_set].
    by rewrite (right_id_L ∅ (∪)).
  - pose proof C as C'. simpl in C'. destruct C' as (Ey & Hy0 & _).
    destruct (V y) as [Y1 Y2]; [apply elem_of_cons; right; apply elem_of_cons; by left|].
    assert (is_valid t (iterator_of (parent xd)) = true) as ->.
    { rewrite <- Ey. apply is_valid_node; [congruence|done|done]. }
    rewrite (IH (parent nd) xd ({[parent nd]} ∪ Sp) fuel Ex Hx0 C); [|done| |simpl in *; lia].
    + f_equal. apply lca_set_cons.
    + intros z Hz. apply V. apply elem_of_cons. by right.
Qed.

Lemma lca_search_spec (h : heap) t (Sp : gset ptr) l : forall pos nd fuel,
  h !! pos = Some nd -> pos <> 0 -> chain_up h (parent nd) l -> l <> [] ->
  (forall x, x ∈ l -> x <> feet t /\ x <> head t) -> length l <= fuel ->
  lca_search fuel h t (iterator_of pos) Sp =
    Ok (iterator_of (default (List.last l 0) (List.find (fun x => bool_decide (x ∈ Sp)) l))).
Proof.
  induction l as [|x l IH]; intros pos nd fuel E Hp C Hl V Hf; [done|].
  destruct fuel as [|fuel]; [simpl in Hf; lia|]. cbn [lca_search].
  rewrite (parent_of_some h pos nd Hp E). cbn [mbind outcome_bind obind].
  simpl in C. destruct C as (-> & Hx0 & C). destruct (h !! parent nd) as [xd|] eqn:Ex; [|done].
  cbn [node iterator_of List.find]. fold (iterator_of (parent nd)).
  destruct (bool_decide (parent nd ∈ Sp)); [done|].
  rewrite (parent_of_some h (parent nd) xd Hx0 Ex). cbn [mbind outcome_bind obind].
  destruct l as [|y l].
  - simpl in C. rewrite C. cbn. done.
  - pose proof C as C'. simpl in C'. destruct C' as (Ey & Hy0 & _).
    destruct (V y) as [Y1 Y2]; [apply elem_of_cons; right; apply elem_of_cons; by left|].
    assert (is_valid t (iterator_of (parent xd)) = true) as ->.
    { rewrite <- Ey. apply is_valid_node; [congruence|done|done]. }
    rewrite (IH (parent nd) xd fuel Ex Hx0 C); [|done| |simpl in *; lia].
    + done.
    + intros z Hz. apply V. apply elem_of_cons. by right.
Qed.

Lemma lca_collect_top (h : heap) t pos nd (Sp : gset ptr) fuel :
  h !! pos = Some nd -> pos <> 0 -> parent nd = 0 ->
  lca_collect (S fuel) h t (iterator_of pos) Sp = Abort.
Proof.
  intros E Hp P0. cbn [lca_collect]. rewrite (parent_of_some h pos nd Hp E), P0. done.
Qed.

Lemma lca_search_top (h : heap) t pos nd (Sp : gset ptr) fuel :
  h !! pos = Some nd -> pos <> 0 -> parent nd = 0 -> 0 ∉ Sp ->
  lca_search (S fuel) h t (iterator_of pos) Sp = Abort.
Proof.
  intros E Hp P0 N0. cbn [lca_search]. rewrite (parent_of_some h pos nd Hp E), P0.
  cbn [mbind outcome_bind obind node iterator_of]. by rewrite bool_decide_eq_false_2.
Qed.

(** The chains of proper ancestors of two nodes that have a common
    ancestor end in the same chain, which starts at the node that
    [lca_pick] gives; below it the two chains have no node in common. *)
Lemma lca_pick_common (h : heap) p1 p2 l1 l2 x :
  chain_up h p1 l1 -> chain_up h p2 l2 -> NoDup l1 -> NoDup l2 ->
  x ∈ l1 -> x ∈ l2 ->
  exists k1 k2 l,
    l1 = k1 ++ lca_pick l1 l2 :: l /\ l2 = k2 ++ lca_pick l1 l2 :: l /\
    (forall y, y ∈ k1 -> y ∉ l2) /\ (forall y, y ∈ k2 -> y ∉ l1).
Proof.
  intros C1 C2 ND1 ND2 X1 X2. unfold lca_pick.
  destruct (find_some_intro (fun y => bool_decide (y ∈ l1)) l2 x X2) as [z Fz].
  { by apply bool_decide_eq_true_2. }
  rewrite Fz. cbn [default from_option id].
  destruct (find_split _ _ _ Fz) as (k2 & l' & E2 & Hz & Hk2).
  apply bool_decide_eq_true_1 in Hz.
  apply list_elem_of_split in Hz as (k1 & l & E1).
  assert (l' = l) as ->.
  { rewrite E1 in C1. rewrite E2 in C2.
    destruct (chain_up_suffix _ _ _ _ _ C1) as (zd & Ez & Cz).
    destruct (chain_up_suffix _ _ _ _ _ C2) as (zd' & Ez' & Cz').
    assert (zd' = zd) as -> by congruence. by apply (chain_up_inj h l' (parent zd)). }
  exists k1, k2, l. split; [done|]. split; [done|].
  assert (forall y, y ∈ k2 -> y ∉ l1) as D2.
  { intros y Hy Y. specialize (Hk2 y Hy). apply bool_decide_eq_false_1 in Hk2. done. }
  split; [|done].
  intros y Hy Y. rewrite E2 in Y. apply elem_of_app in Y as [Y|Y].
  - apply (D2 y Y). rewrite E1. apply elem_of_app. by left.
  - rewrite E1 in ND1. apply NoDup_app in ND1 as (_ & D & _). by apply (D y Hy).
Qed.

Lemma rep_ancestors_valid (h : heap) t C g x :
  tree_rep h t (hplug C g) -> x ∈ cancestors C -> x <> 0 /\ x <> head t /\ x <> feet t.
Proof.
  intros R Hx. apply (rep_plain h t (hplug C g) x R).
  by apply cptrs_preorder, cancestors_cptrs.
Qed.

(** [lowest_common_ancestor(one, two)] on two nodes of a well-formed tree.
    Both loops start at the parent: when [one] or [two] is a top-level node
    the call asks for the parent of the null iterator and fails the
    assertion of [parent].  Otherwise it returns the first proper ancestor
    of [two] that is a proper ancestor of [one].  When the two nodes have a
    common proper ancestor this is the lowest one: above it the two chains
    of ancestors are the same, below it they share no node.  When they have
    none, because they are in different top-level trees, the call returns
    the top-level ancestor of [two], which is not an ancestor of [one]. *)
Theorem lowest_common_ancestor_spec (h : heap) t C1 a cs1 r1 C2 b cs2 r2 fuel sk1 sk2 :
  tree_rep h t (hplug C1 (FCons a cs1 r1)) ->
  hplug C2 (FCons b cs2 r2) = hplug C1 (FCons a cs1 r1) ->
  length (cancestors C1) < fuel -> length (cancestors C2) < fuel ->
  lowest_common_ancestor fuel h t (mk_it a sk1) (mk_it b sk2) =
    (if bool_decide (cancestors C1 = [] \/ cancestors C2 = []) then Abort
     else Ok (iterator_of (lca_pick (cancestors C1) (cancestors C2)))) /\
  (forall x, x ∈ cancestors C1 -> x ∈ cancestors C2 ->
     exists k1 k2 l,
       cancestors C1 = k1 ++ lca_pick (cancestors C1) (cancestors C2) :: l /\
       cancestors C2 = k2 ++ lca_pick (cancestors C1) (cancestors C2) :: l /\
       (forall y, y ∈ k1 -> y ∉ cancestors C2) /\
       (forall y, y ∈ k2 -> y ∉ cancestors C1)) /\
  ((forall x, x ∈ cancestors C2 -> x ∉ cancestors C1) ->
   lca_pick (cancestors C1) (cancestors C2) = List.last (cancestors C2) 0).
Proof.
  intros R1 E F1 F2. pose proof R1 as R2. rewrite <- E in R2.
  destruct (rep_ancestors _ _ _ _ _ _ R1) as (na & Ea & Pa & Ca & NDa).
  destruct (rep_ancestors _ _ _ _ _ _ R2) as (nb & Eb & Pb & Cb & NDb).
  apply NoDup_cons in NDa as [_ NDa]. apply NoDup_cons in NDb as [_ NDb].
  assert (a <> 0) as Ha0.
  { apply (rep_nonnull _ _ _ _ R1). apply hole_preorder. apply elem_of_cons. by left. }
  assert (b <> 0) as Hb0.
  { apply (rep_nonnull _ _ _ _ R2). apply hole_preorder. apply elem_of_cons. by left. }
  set (A1 := cancestors C1) in *. set (A2 := cancestors C2) in *.
  assert (forall x, x ∈ A1 -> x <> 0 /\ x <> head t /\ x <> feet t) as V1.
  { intros x Hx. by apply (rep_ancestors_valid h t C1 (FCons a cs1 r1)). }
  assert (forall x, x ∈ A2 -> x <> 0 /\ x <> head t /\ x <> feet t) as V2.
  { intros x Hx. by apply (rep_ancestors_valid h t C2 (FCons b cs2 r2)). }
  rewrite <- Pa in Ca. rewrite <- Pb in Cb.
  split; [|split].
  - unfold lowest_common_ancestor. cbn [node].
    destruct fuel as [|fuel]; [lia|].
    destruct A1 as [|x1 A1'] eqn:EA1.
    { rewrite bool_decide_eq_true_2 by (by left). simpl in Ca.
      by rewrite (lca_collect_top h t a na ∅ fuel Ea Ha0 Ca). }
    rewrite <- EA1 in *.
    rewrite (lca_collect_spec h t A1 a na ∅ (S fuel) Ea Ha0 Ca); [|by rewrite EA1| |lia].
    2:{ intros x Hx. destruct (V1 x Hx) as (_ & ? & ?). done. }
    cbn [mbind outcome_bind obind].
    destruct A2 as [|x2 A2'] eqn:EA2.
    { rewrite bool_decide_eq_true_2 by (by right). simpl in Cb.
      apply (lca_search_top h t b nb _ fuel Eb Hb0 Cb).
      intros X. apply elem_of_union in X as [X|X]; [|by apply elem_of_empty in X].
      apply elem_of_list_to_set in X. by destruct (V1 0 X) as (? & _). }
    rewrite <- EA2 in *.
    rewrite bool_decide_eq_false_2.
    2:{ rewrite EA1, EA2. intros [X|X]; discriminate. }
    rewrite (lca_search_spec h t _ A2 b nb (S fuel) Eb Hb0 Cb); [|by rewrite EA2| |lia].
    2:{ intros x Hx. destruct (V2 x Hx) as (_ & ? & ?). done. }
    unfold lca_pick. do 3 f_equal. apply find_pred_ext. intros y.
    apply bool_decide_ext. rewrite elem_of_union, elem_of_list_to_set.
    split; [intros [X|X]; [done|by apply elem_of_empty in X]|by left].
  - intros x X1 X2. by apply (lca_pick_common h (parent na) (parent nb) A1 A2 x).
  - intros D. unfold lca_pick. rewrite find_none_intro; [done|].
    intros y Hy. apply bool_decide_eq_false_2. by apply D.
Qed.

End Proofs.

(** * The concrete tree is well formed *)

Lemma ex_build_ok : ex_build = Ok (ex_heap, ex_tree, [3; 4; 5; 6; 7]).
Proof. vm_compute. reflexivity. Qed.

Lemma ex_rep : tree_rep ex_heap ex_tree ex_forest.
Proof.
  split.
  - vm_compute. reflexivity.
  - vm_compute. repeat split.
  - vm_compute. repeat split.
  - vm_compute. repeat split.
  - apply (bool_decide_unpack _). vm_compute. exact I.
Qed.

(** [equal_subtree_refl] at the root [a] of the concrete tree, compared
    with [==] on the stored integers. *)
Lemma equal_subtree_refl_witness :
  equal_subtree 12 ex_heap ex_tree Nat.eqb (iterator_of 3) (iterator_of 3) = Ok true.
Proof.
  apply (equal_subtree_refl ex_heap ex_tree ex_forest Nat.eqb (iterator_of 3) 12).
  - exact ex_rep.
  - vm_compute. apply elem_of_cons. by left.
  - intros x. apply Nat.eqb_refl.
  - vm_compute. lia.
Defined.

(** * Cached sizes against the structure *)

(** C3 (defect in the code): [size()] returns the counter cached on the
    head, and [prepend_child] never updates it.  After
    [a = set_head(10); prepend_child(a, 20)] the tree is well formed and
    holds two nodes, [begin()] reaches [end()] after two increments, and
    [size()] returns 1. *)
Theorem size_stale_after_prepend_child :
  prepended_build = Ok (prepended_heap, mk_tree 1 2) /\
  tree_rep prepended_heap (mk_tree 1 2) prepended_forest /\
  pre_order_steps 8 prepended_heap (mk_tree 1 2) = Ok 2 /\
  size prepended_heap (mk_tree 1 2) = Ok 1%Z.
Proof.
  split; [vm_compute; reflexivity|]. split; [|split; vm_compute; reflexivity].
  split.
  - vm_compute. reflexivity.
  - vm_compute. repeat split.
  - vm_compute. repeat split.
  - vm_compute. repeat split.
  - apply (bool_decide_unpack _). vm_compute. exact I.
Qed.

Lemma movable_rep : tree_rep movable_heap movable_tree movable_forest.
Proof.
  split.
  - vm_compute. reflexivity.
  - vm_compute. repeat split.
  - vm_compute. repeat split.
  - vm_compute. repeat split.
  - apply (bool_decide_unpack _). vm_compute. exact I.
Qed.

(** C5 (defect in the code): [move_out] relinks the subtree and joins the
    former neighbours, but moves no counter.  For the root-level node [d]
    with the subtree [{d:[f,g]}] between the roots [a] and [e], the
    returned tree starts at [d] and holds three nodes, yet its [size()]
    is 0, and the [size()] of the original tree stays 5 although two
    nodes are left in it. *)
Theorem move_out_keeps_counters :
  movable_build = Ok (movable_heap, movable_tree) /\
  move_out movable_heap (iterator_of 4) = Ok (moved_heap, moved_tree) /\
  begin_ moved_heap moved_tree = Ok (iterator_of 4) /\
  next_sibling <$> moved_heap !! 3 = Some 5 /\
  prev_sibling <$> moved_heap !! 5 = Some 3 /\
  pre_order_steps 8 moved_heap moved_tree = Ok 3 /\
  size moved_heap moved_tree = Ok 0%Z /\
  pre_order_steps 8 moved_heap movable_tree = Ok 2 /\
  size movable_heap movable_tree = Ok 5%Z /\
  size moved_heap movable_tree = Ok 5%Z.
Proof. repeat split; vm_compute; reflexivity. Qed.

(** * Paths and n-th children on the concrete tree *)

(** [path_roundtrip] for the grandchild [d] below the root [a]. *)
Lemma path_roundtrip_witness :
  exists path,
    path_from_iterator 12 ex_heap ex_tree (iterator_of 6) (iterator_of 3) = Ok path /\
    iterator_from_path ex_heap path (iterator_of 3) = Ok (iterator_of 6).
Proof.
  apply (path_roundtrip ex_heap ex_tree ex_forest
           (FCons 4 (FCons 6 FNil FNil) (FCons 5 FNil FNil))
           (iterator_of 3) (iterator_of 6) 12).
  - exact ex_rep.
  - vm_compute. reflexivity.
  - right. vm_compute. apply elem_of_cons. right. apply elem_of_cons. by left.
  - vm_compute. lia.
Defined.



(** * Maximal depth on the concrete tree *)

(** C7 as stated fails at a leaf: the node [c] has no child, and
    [max_depth(c)] is 0, which is at least 0. *)
Lemma max_depth_leaf_counterexample :
  number_of_children 8 ex_heap (iterator_of 5) = Ok 0 /\
  max_depth_at 12 ex_heap ex_tree (iterator_of 5) = Ok 0%Z /\
  (0 <= 0)%Z.
Proof. repeat split; vm_compute; congruence. Qed.

(** [max_depth_spec] at the root [a], which has children. *)
Lemma max_depth_spec_witness :
  exists d, max_depth_at 16 ex_heap ex_tree (iterator_of 3) = Ok d /\ (0 <= d)%Z /\
    ((1 <= d)%Z <-> FCons 4 (FCons 6 FNil FNil) (FCons 5 FNil FNil) <> FNil).
Proof.
  destruct (max_depth_spec ex_heap ex_tree ex_forest ex_rep) as [H1 _].
  apply (H1 (iterator_of 3)); [reflexivity | vm_compute; lia].
Defined.

(** The whole-tree [max_depth()] starts from [size_t(-1)] and takes
    [std::max] with it: on the concrete, non-empty tree, whose deepest
    node is at depth 2, it still returns [size_t(-1)]. *)
Lemma max_depth_nonempty_is_sentinel :
  max_depth_at 16 ex_heap ex_tree (iterator_of 3) = Ok 2%Z /\
  max_depth 16 ex_heap ex_tree = Ok (size_max - 1)%Z.
Proof. split; vm_compute; reflexivity. Qed.

(** * Insertion at a null position on the concrete tree *)

(** [insert_null] on the concrete tree: the new node is the third root. *)
Lemma insert_null_witness :
  exists h',
    insert 4 ex_heap ex_tree (mk_it 0 false) 60 = Ok (h', iterator_of (allocate ex_heap)) /\
    insert 4 ex_heap ex_tree (end_ ex_tree) 60 = Ok (h', iterator_of (allocate ex_heap)) /\
    tree_rep h' ex_tree (fsnoc ex_forest (allocate ex_heap)) /\
    is_valid ex_tree (iterator_of (allocate ex_heap)) = true /\
    data <$> h' !! allocate ex_heap = Some 60.
Proof.
  apply (insert_null ex_heap ex_tree ex_forest 60 false 4).
  - exact ex_rep.
  - lia.
Defined.

(** * Filtering the concrete tree *)

(** [filter_spec] on the concrete tree with the predicate [x == 40],
    which holds of the grandchild [d] only. *)
Lemma filter_spec_witness :
  exists h' n,
    filter 14 ex_heap ex_tree (Nat.eqb 40) = Ok (h', n, preorder ex_forest) /\
    NoDup (preorder ex_forest) /\
    same_shape ex_heap h' /\ tree_rep h' ex_tree ex_forest /\
    (forall x, x ∈ preorder ex_forest ->
       visible_at h' x = comp_at (Nat.eqb 40) ex_heap x
                         || existsb (comp_at (Nat.eqb 40) ex_heap) (desc ex_forest x)) /\
    (forall x y, x ∈ preorder ex_forest -> y ∈ desc ex_forest x ->
       visible_at h' y = true -> visible_at h' x = true).
Proof.
  apply (filter_spec ex_heap ex_tree ex_forest (Nat.eqb 40) 14).
  - exact ex_rep.
  - vm_compute. lia.
Defined.

(** The flags that [filter] leaves on the concrete tree: [d], its parent
    [b] and the root [a] are visible, [c] and [e] are not. *)
Lemma filter_example :
  match filter 14 ex_heap ex_tree (Nat.eqb 40) with
  | Ok (h', _, calls) =>
      calls = [3; 4; 6; 5; 7] /\
      map (visible_at h') [3; 4; 6; 5; 7] = [true; true; true; false; false]
  | _ => False
  end.
Proof. vm_compute. split; reflexivity. Qed.

Lemma descending_strict_weak : strict_weak descending.
Proof.
  unfold descending. split.
  - intros x. apply Nat.ltb_irrefl.
  - intros x y z A B. apply Nat.ltb_lt in A, B. apply Nat.ltb_lt. lia.
  - intros x y z A B D E. apply Nat.ltb_ge in A, B, D, E.
    split; apply Nat.ltb_ge; lia.
Qed.

(** [sort_spec] on the children [b] (20) and [c] (30) of the root [a] of
    the concrete tree, sorted in descending order. *)
Lemma sort_spec_witness :
  exists h' ts',
    sort 12 ex_heap descending (mk_sit 4 3) (mk_sit 0 3) false = Ok h' /\
    tree_rep h' ex_tree (hplug ex_context (of_trees ts' FNil)) /\
    same_values ex_heap h' /\
    map fst ts' ≡ₚ map fst ex_children /\
    StronglySorted (not_after descending ex_heap) (map fst ts') /\
    (forall v,
       List.filter (fun p => equivalent descending v (value_of ex_heap p)) (map fst ts') =
       List.filter (fun p => equivalent descending v (value_of ex_heap p))
         (map fst ex_children)) /\
    same_edges (hplug ex_context (of_trees ex_children FNil))
      (hplug ex_context (of_trees ts' FNil)) /\
    (false = false -> ts' ≡ₚ ex_children).
Proof.
  apply (sort_spec ex_heap ex_tree ex_context ex_children FNil descending false
           (mk_sit 4 3) (mk_sit 0 3) 12).
  - exact ex_rep.
  - discriminate.
  - exact descending_strict_weak.
  - reflexivity.
  - reflexivity.
  - reflexivity.
  - vm_compute. lia.
Defined.

(** The order that [sort] leaves on the concrete tree: the children of
    [a] are [c] (30) and then [b] (20), and [b] keeps its child [d]. *)
Lemma sort_example :
  match sort 12 ex_heap descending (mk_sit 4 3) (mk_sit 0 3) false with
  | Ok h' =>
      tree_rep h' ex_tree
        (FCons 3 (FCons 5 FNil (FCons 4 (FCons 6 FNil FNil) FNil)) (FCons 7 FNil FNil))
  | _ => False
  end.
Proof.
  vm_compute. split.
  - reflexivity.
  - vm_compute. tauto.
  - vm_compute. tauto.
  - vm_compute. tauto.
  - apply (bool_decide_unpack _). vm_compute. exact I.
Qed.

(** * The counters of the concrete tree *)

(** The concrete tree, which [insert] and [append_child] have built,
    has its counters in order. *)
Lemma ex_bookkept : bookkept ex_heap ex_tree ex_forest.
Proof.
  split; [exact ex_rep|]. split.
  - vm_compute. tauto.
  - vm_compute. reflexivity.
Qed.

(** A fresh tree has its counters in order. *)
Lemma empty_bookkept :
  bookkept (fst (head_initialise_ (∅ : gmap nat (tree_node_ nat))))
    (snd (head_initialise_ (∅ : gmap nat (tree_node_ nat)))) FNil.
Proof.
  split; [|split].
  - split.
    + vm_compute. reflexivity.
    + vm_compute. tauto.
    + vm_compute. tauto.
    + exact I.
    + apply (bool_decide_unpack _). vm_compute. exact I.
  - exact I.
  - vm_compute. reflexivity.
Qed.

(** C2 (defect in the code): the counters do not hold what the claim and
    the comment of [count(it)], "the total number of nodes below the
    indicated node (plus one)", say.  On the tree that the overloads taking
    [const T&] have built, the leaf [d] has the counter 0 where the claim
    gives 1, and the root [a] with its three descendants has 3 where the
    claim gives 4.  The overloads of [insert] and [append_child] that take
    [T&&] update no counter at all: after
    [a = insert(end(), 10); append_child(a, 20)] with temporaries the tree
    is well formed and holds two nodes, [begin()] reaches [end()] after two
    increments, and yet the counter of the head, which [size()] returns, and
    the counter of [a] are both 0. *)
Theorem subtree_count_defect :
  ex_build = Ok (ex_heap, ex_tree, [3; 4; 5; 6; 7]) /\
  subtree_of ex_forest 6 = Some FNil /\
  count <$> ex_heap !! 6 = Some 0%Z /\
  spec_subtree_count ex_heap FNil = 1%Z /\
  subtree_of ex_forest 3 = Some (FCons 4 (FCons 6 FNil FNil) (FCons 5 FNil FNil)) /\
  length (preorder (FCons 4 (FCons 6 FNil FNil) (FCons 5 FNil FNil))) = 3 /\
  count <$> ex_heap !! 3 = Some 3%Z /\
  rvalue_build = Ok (rvalue_heap, mk_tree 1 2) /\
  tree_rep rvalue_heap (mk_tree 1 2) rvalue_forest /\
  pre_order_steps 8 rvalue_heap (mk_tree 1 2) = Ok 2 /\
  size rvalue_heap (mk_tree 1 2) = Ok 0%Z /\
  count <$> rvalue_heap !! 3 = Some 0%Z /\
  count <$> rvalue_heap !! 4 = Some 0%Z.
Proof.
  do 8 (split; [vm_compute; reflexivity|]).
  split; [|repeat split; vm_compute; reflexivity].
  split.
  - vm_compute. reflexivity.
  - vm_compute. repeat split.
  - vm_compute. repeat split.
  - vm_compute. repeat split.
  - apply (bool_decide_unpack _). vm_compute. exact I.
Qed.

(** [bookkeeping_preserved] on the concrete tree. *)
Lemma bookkeeping_preserved_witness :
  (forall sk x, exists h',
     insert 12 ex_heap ex_tree (mk_it 0 sk) x = Ok (h', iterator_of (allocate ex_heap)) /\
     insert 12 ex_heap ex_tree (mk_it (feet ex_tree) sk) x
       = Ok (h', iterator_of (allocate ex_heap)) /\
     bookkept h' ex_tree (fsnoc ex_forest (allocate ex_heap))) /\
  (forall position x, node position ∈ preorder ex_forest ->
     exists C cs r, ex_forest = hplug C (FCons (node position) cs r) /\
       (exists h',
          insert 12 ex_heap ex_tree position x = Ok (h', iterator_of (allocate ex_heap)) /\
          bookkept h' ex_tree
            (hplug C (FCons (allocate ex_heap) FNil (FCons (node position) cs r)))) /\
       (exists h',
          append_child 12 ex_heap ex_tree position x
            = Ok (h', iterator_of (allocate ex_heap)) /\
          bookkept h' ex_tree
            (hplug C (FCons (node position) (fsnoc cs (allocate ex_heap)) r))) /\
       (exists h' ret,
          erase 12 ex_heap ex_tree position = Ok (h', ret) /\
          bookkept h' ex_tree (hplug C r))).
Proof.
  apply (bookkeeping_preserved ex_heap ex_tree ex_forest 12).
  - exact ex_bookkept.
  - vm_compute. lia.
Defined.

(** Erasing the child [b] of the root [a] takes [b] and its child [d]
    out: the iterator that is returned points to [c], the root [a] then
    counts 1 and the head sentinel 3. *)
Lemma erase_example :
  match erase 12 ex_heap ex_tree (iterator_of 4) with
  | Ok (h', ret) =>
      ret = iterator_of 5 /\
      bookkept h' ex_tree (FCons 3 (FCons 5 FNil FNil) (FCons 7 FNil FNil)) /\
      count <$> h' !! 3 = Some 1%Z /\ count <$> h' !! head ex_tree = Some 3%Z /\
      h' !! 4 = None /\ h' !! 6 = None
  | _ => False
  end.
Proof.
  vm_compute. split; [reflexivity|]. split; [|repeat split].
  split; [|split].
  - split.
    + vm_compute. reflexivity.
    + vm_compute. tauto.
    + vm_compute. tauto.
    + vm_compute. tauto.
    + apply (bool_decide_unpack _). vm_compute. exact I.
  - vm_compute. tauto.
  - vm_compute. reflexivity.
Qed.

(** * Counting, depth and siblings on the concrete tree *)

(** [number_of_children_agree] at the root [a]. *)
Lemma number_of_children_agree_witness :
  number_of_children 5 ex_heap (mk_it 3 false) = Ok (length (roots ex_siblings)) /\
  it_number_of_children 5 ex_heap (mk_it 3 false) = Ok (length (roots ex_siblings)).
Proof.
  apply (number_of_children_agree ex_heap ex_tree ex_forest 3 ex_siblings 5 false).
  - exact ex_rep.
  - reflexivity.
  - vm_compute. lia.
Defined.

(** [empty_spec] on the concrete tree. *)
Lemma empty_spec_witness :
  empty ex_heap ex_tree = Ok (bool_decide (preorder ex_forest = [])).
Proof. apply (empty_spec ex_heap ex_tree ex_forest). exact ex_rep. Defined.

(** [size_counts_nodes] on the concrete tree. *)
Lemma size_counts_nodes_witness :
  size ex_heap ex_tree = Ok (wrap (Z.of_nat (length (preorder ex_forest)))) /\
  pre_order_steps 11 ex_heap ex_tree = Ok (length (preorder ex_forest)).
Proof.
  apply (size_counts_nodes ex_heap ex_tree ex_forest 11).
  - exact ex_bookkept.
  - vm_compute. lia.
Defined.

(** [depth_spec] at the node [d], which has the ancestors [b] and [a]. *)
Lemma depth_spec_witness :
  depth 3 ex_heap (mk_it 6 false) = Ok (length (cancestors ex_context_d)).
Proof.
  apply (depth_spec ex_heap ex_tree ex_context_d 6 FNil FNil 3 false).
  - exact ex_rep.
  - vm_compute. lia.
Defined.

(** [depth_below_spec] at the node [d]. *)
Lemma depth_below_spec_witness :
  depth_below 4 ex_heap (mk_it 6 false) (mk_it 6 false) = Ok 0 /\
  (forall l1 a l2, cancestors ex_context_d = l1 ++ a :: l2 ->
     depth_below 4 ex_heap (mk_it 6 false) (mk_it a false) = Ok (S (length l1))) /\
  (forall x, x ∉ 6 :: cancestors ex_context_d ->
     depth_below 4 ex_heap (mk_it 6 false) (mk_it x false) =
       Ok (length (cancestors ex_context_d))).
Proof.
  apply (depth_below_spec ex_heap ex_tree ex_context_d 6 FNil FNil 4 false false).
  - exact ex_rep.
  - vm_compute. lia.
Defined.

(** [sibling_index_roundtrip] at the node [c], the second child of [a]. *)
Lemma sibling_index_roundtrip_witness :
  index 2 ex_heap ex_tree (mk_sit 5 3) = Ok 1 /\
  sibling ex_heap ex_tree (mk_it 5 false) 1 = Ok (mk_sit 5 3).
Proof.
  apply (sibling_index_roundtrip ex_heap ex_tree ex_forest 3 ex_siblings 0 0 1 5 FNil 2 false 3).
  - exact ex_rep.
  - right. repeat split.
  - reflexivity.
  - lia.
Defined.

(** [number_of_siblings_spec] at the top-level node [e]. *)
Lemma number_of_siblings_spec_witness :
  number_of_siblings 2 ex_heap ex_tree (mk_it 7 false) = Ok (length (roots ex_forest) - 1).
Proof.
  apply (number_of_siblings_spec ex_heap ex_tree ex_forest 0 ex_forest
           (head ex_tree) (feet ex_tree) 1 7 FNil 2 false).
  - exact ex_rep.
  - left. repeat split.
  - reflexivity.
  - vm_compute. lia.
Defined.

(** [navigation_spec] at the last top-level node [e]: its next sibling is
    the foot sentinel. *)
Lemma navigation_spec_witness :
  parent_of ex_heap (mk_it 7 false) = Ok (iterator_of 0) /\
  previous_sibling_of ex_heap (mk_it 7 false) = Ok (mk_it (root_ptr ex_forest 0 0) false) /\
  next_sibling_of ex_heap (mk_it 7 false) =
    Ok (mk_it (root_ptr ex_forest 2 (feet ex_tree)) false).
Proof.
  apply (navigation_spec ex_heap ex_tree ex_forest 0 ex_forest
           (head ex_tree) (feet ex_tree) 1 7 FNil false).
  - exact ex_rep.
  - left. repeat split.
  - reflexivity.
Defined.

(** [sibling_past_end] at the top-level node [a]. *)
Lemma sibling_past_end_witness :
  (0 = 0 ->
     sibling ex_heap ex_tree (mk_it 3 false) (length (roots ex_forest))
       = Ok (mk_sit (feet ex_tree) 0) /\
     sibling ex_heap ex_tree (mk_it 3 false) (length (roots ex_forest) + 1)
       = Ok (mk_sit 0 0) /\
     forall k, sibling ex_heap ex_tree (mk_it 3 false) (length (roots ex_forest) + (2 + k))
       = Abort) /\
  (0 <> 0 ->
     sibling ex_heap ex_tree (mk_it 3 false) (length (roots ex_forest)) = Ok (mk_sit 0 0) /\
     forall k, sibling ex_heap ex_tree (mk_it 3 false) (length (roots ex_forest) + (1 + k))
       = Abort).
Proof.
  apply (sibling_past_end ex_heap ex_tree ex_forest 0 ex_forest
           (head ex_tree) (feet ex_tree) 0 3 ex_siblings false).
  - exact ex_rep.
  - left. repeat split.
  - reflexivity.
Defined.

(** [sibling_step_roundtrip] at the node [b], the first child of [a]. *)
Lemma sibling_step_roundtrip_witness :
  (exists s, sibling_incr ex_heap (mk_sit 4 3) = Ok s /\
             sibling_decr ex_heap s = Ok (mk_sit 4 3)) /\
  (exists s, sibling_decr ex_heap (mk_sit 4 3) = Ok s /\
             sibling_incr ex_heap s =
               Ok (if (0 =? 0) && negb (3 =? 0) then sibling_end (iterator_of 3)
                   else mk_sit 4 3)).
Proof.
  apply (sibling_step_roundtrip ex_heap ex_tree ex_forest 3 ex_siblings 0 0 0 4
           (FCons 6 FNil FNil)).
  - exact ex_rep.
  - right. repeat split.
  - reflexivity.
Defined.

(** [max_depth_is_sentinel] on the concrete tree, whose deepest node is
    at depth 2. *)
Lemma max_depth_is_sentinel_witness :
  max_depth 18 ex_heap ex_tree = Ok (size_max - 1)%Z.
Proof.
  apply (max_depth_is_sentinel ex_heap ex_tree ex_forest 18).
  - exact ex_rep.
  - vm_compute. lia.
Defined.

(** * Erasing and inserting on the concrete tree *)

(** [erase_spec] at the node [b]: its successor outside the subtree is
    [c]. *)
Lemma erase_spec_witness :
  exists h',
    erase 12 ex_heap ex_tree (mk_it 4 false) =
      Ok (h', iterator_of (hd (feet ex_tree) (preorder (FCons 5 FNil FNil) ++ cafter ex_context))) /\
    tree_rep h' ex_tree (hplug ex_context (FCons 5 FNil FNil)) /\
    (forall q, data <$> h' !! q =
       if decide (q ∈ 4 :: preorder (FCons 6 FNil FNil)) then None
       else data <$> ex_heap !! q).
Proof.
  apply (erase_spec ex_heap ex_tree ex_context 4 (FCons 6 FNil FNil) (FCons 5 FNil FNil)
           false 12).
  - exact ex_rep.
  - vm_compute. lia.
Defined.

(** [insert_erase_roundtrip] in front of the node [b]. *)
Lemma insert_erase_roundtrip_witness :
  exists h1 h2,
    insert 14 ex_heap ex_tree (mk_it 4 false) 60 = Ok (h1, iterator_of (allocate ex_heap)) /\
    erase 14 h1 ex_tree (iterator_of (allocate ex_heap)) = Ok (h2, iterator_of 4) /\
    bookkept h2 ex_tree (hplug ex_context ex_siblings) /\
    (forall q, data <$> h2 !! q = data <$> ex_heap !! q).
Proof.
  apply (insert_erase_roundtrip ex_heap ex_tree ex_context 4 (FCons 6 FNil FNil)
           (FCons 5 FNil FNil) 60 14 false).
  - exact ex_bookkept.
  - vm_compute. lia.
Defined.

(** [clear_spec] on the concrete tree. *)
Lemma clear_spec_witness :
  exists h', clear 12 ex_heap ex_tree = Ok h' /\ tree_rep h' ex_tree FNil /\
    (forall q, data <$> h' !! q =
       if decide (q ∈ preorder ex_forest) then None else data <$> ex_heap !! q) /\
    (bookkept ex_heap ex_tree ex_forest ->
     bookkept h' ex_tree FNil /\ size h' ex_tree = Ok 0%Z).
Proof.
  apply (clear_spec ex_heap ex_tree ex_forest 12).
  - exact ex_rep.
  - vm_compute. lia.
Defined.

(** [set_head_spec] on the concrete tree, where it fails. *)
Lemma set_head_spec_witness :
  (preorder ex_forest <> [] -> set_head 1 ex_heap ex_tree 60 = Abort) /\
  (bookkept ex_heap ex_tree ex_forest -> preorder ex_forest = [] ->
   exists h', set_head 1 ex_heap ex_tree 60 = Ok (h', iterator_of (allocate ex_heap)) /\
     bookkept h' ex_tree (FCons (allocate ex_heap) FNil FNil) /\
     data <$> h' !! allocate ex_heap = Some 60).
Proof.
  apply (set_head_spec ex_heap ex_tree ex_forest 60 1).
  - exact ex_rep.
  - lia.
Defined.

(** [is_in_subtree_spec] at the node [c], the last child of [a]: the walk
    runs on to the end of the tree. *)
Lemma is_in_subtree_spec_witness :
  is_in_subtree 13 ex_heap (mk_it 7 false) (mk_it 5 false) =
    Ok (bool_decide
          (7 ∈ 5 :: preorder FNil ++
             (if on_top ex_context_c then []
              else cafter ex_context_c ++ [feet ex_tree]))).
Proof.
  apply (is_in_subtree_spec ex_heap ex_tree ex_context_c 5 FNil FNil 7 13 false false).
  - exact ex_rep.
  - vm_compute. lia.
Defined.

(** The top-level node [e] is reported to be in the subtree of [c]. *)
Lemma is_in_subtree_escapes :
  subtree_of ex_forest 5 = Some FNil /\
  is_in_subtree 13 ex_heap (mk_it 7 false) (mk_it 5 false) = Ok true /\
  is_in_subtree 13 ex_heap (mk_it 7 false) (mk_it 4 false) = Ok false.
Proof. repeat split; vm_compute; reflexivity. Qed.

(** [prepend_child_spec] at the root [a]. *)
Lemma prepend_child_spec_witness :
  exists h',
    prepend_child ex_heap ex_tree (mk_it 3 false) 60 = Ok (h', iterator_of (allocate ex_heap)) /\
    tree_rep h' ex_tree
      (hplug HHole (FCons 3 (FCons (allocate ex_heap) FNil ex_siblings) (FCons 7 FNil FNil))) /\
    data <$> h' !! allocate ex_heap = Some 60 /\
    (forall q, is_Some (ex_heap !! q) ->
       count <$> h' !! q = count <$> ex_heap !! q /\
       data <$> h' !! q = data <$> ex_heap !! q) /\
    size h' ex_tree = size ex_heap ex_tree /\
    length (preorder (hplug HHole
              (FCons 3 (FCons (allocate ex_heap) FNil ex_siblings) (FCons 7 FNil FNil)))) =
      S (length (preorder (hplug HHole (FCons 3 ex_siblings (FCons 7 FNil FNil))))).
Proof.
  apply (prepend_child_spec ex_heap ex_tree HHole 3 ex_siblings (FCons 7 FNil FNil) 60 false).
  exact ex_rep.
Defined.

(** [insert_after_spec] at the last top-level node [e]. *)
Lemma insert_after_spec_witness :
  exists h',
    insert_after ex_heap ex_tree (mk_it 7 false) 60 = Ok (h', iterator_of (allocate ex_heap)) /\
    tree_rep h' ex_tree
      (hplug (HRest 3 ex_siblings HHole) (FCons 7 FNil (FCons (allocate ex_heap) FNil FNil))) /\
    data <$> h' !! allocate ex_heap = Some 60 /\
    (forall q, is_Some (ex_heap !! q) ->
       count <$> h' !! q = count <$> ex_heap !! q /\
       data <$> h' !! q = data <$> ex_heap !! q) /\
    size h' ex_tree = size ex_heap ex_tree /\
    length (preorder (hplug (HRest 3 ex_siblings HHole)
              (FCons 7 FNil (FCons (allocate ex_heap) FNil FNil)))) =
      S (length (preorder (hplug (HRest 3 ex_siblings HHole) (FCons 7 FNil FNil)))).
Proof.
  apply (insert_after_spec ex_heap ex_tree (HRest 3 ex_siblings HHole) 7 FNil FNil 60 false).
  exact ex_rep.
Defined.

(** [erase_children_stale] at the root [a], which keeps the counter 3
    without any child. *)
Lemma erase_children_stale_witness :
  exists h' nd',
    erase_children 12 ex_heap ex_tree (mk_it 3 false) = Ok h' /\
    tree_rep h' ex_tree (hplug HHole (FCons 3 FNil (FCons 7 FNil FNil))) /\
    (forall q, data <$> h' !! q =
       if decide (q ∈ preorder ex_siblings) then None else data <$> ex_heap !! q) /\
    h' !! 3 = Some nd' /\ count nd' = wrap (Z.of_nat (length (preorder ex_siblings))) /\
    bookkept (<[3 := set_count 0 nd']> h') ex_tree
      (hplug HHole (FCons 3 FNil (FCons 7 FNil FNil))) /\
    (wrap (Z.of_nat (length (preorder ex_siblings))) <> 0%Z ->
     ~ bookkept h' ex_tree (hplug HHole (FCons 3 FNil (FCons 7 FNil FNil)))).
Proof.
  apply (erase_children_stale ex_heap ex_tree HHole 3 ex_siblings (FCons 7 FNil FNil) 12 false).
  - exact ex_bookkept.
  - vm_compute. lia.
Defined.

(** * Stepping through the concrete tree *)

(** [pre_incr_spec] at the node [b]: the next node is its child [d], and
    with [skip_children()] its sibling [c]. *)
Lemma pre_incr_spec_witness :
  pre_incr 5 ex_heap (mk_it 4 false) =
    Ok (iterator_of (hd (feet ex_tree)
          (preorder (FCons 6 FNil FNil) ++ preorder (FCons 5 FNil FNil) ++ cafter ex_context))) /\
  pre_incr 5 ex_heap (mk_it 4 true) =
    Ok (iterator_of (hd (feet ex_tree) (preorder (FCons 5 FNil FNil) ++ cafter ex_context))) /\
  pre_incr 5 ex_heap (end_ ex_tree) = Ok (iterator_of 0) /\
  forall sk, pre_incr 5 ex_heap (mk_it 0 sk) = Abort.
Proof.
  apply (pre_incr_spec ex_heap ex_tree ex_context 4 (FCons 6 FNil FNil) (FCons 5 FNil FNil) 5).
  - exact ex_rep.
  - vm_compute. lia.
Defined.

(** [pre_order_step_inverse] between the node [c] and the top-level node
    [e], which follows it in pre-order. *)
Lemma pre_order_step_inverse_witness :
  pre_incr 6 ex_heap (iterator_of 5) = Ok (iterator_of 7) /\
  pre_decr 6 ex_heap (iterator_of 7) = Ok (iterator_of 5).
Proof.
  apply (pre_order_step_inverse ex_heap ex_tree ex_forest [1; 3; 4; 6] 5 7 [2] 6).
  - exact ex_rep.
  - reflexivity.
  - vm_compute. lia.
Defined.

(** [index_pre_spec] at the node [c], the fourth node in pre-order. *)
Lemma index_pre_spec_witness :
  index_pre 10 ex_heap ex_tree (mk_it 5 false) = Ok (length [3; 4; 6]).
Proof.
  apply (index_pre_spec ex_heap ex_tree ex_forest [3; 4; 6] 5 [7] 10 false).
  - exact ex_rep.
  - reflexivity.
  - vm_compute. lia.
Defined.

(** [swap_spec] at the node [b], which changes places with [c]. *)
Lemma swap_spec_witness :
  exists h',
    swap ex_heap (mk_sit 4 3) = Ok h' /\
    tree_rep h' ex_tree (hplug ex_context (FCons 5 FNil (FCons 4 (FCons 6 FNil FNil) FNil))) /\
    (forall p, is_Some (ex_heap !! p) ->
       count <$> h' !! p = count <$> ex_heap !! p /\
       data <$> h' !! p = data <$> ex_heap !! p) /\
    (bookkept ex_heap ex_tree
       (hplug ex_context (FCons 4 (FCons 6 FNil FNil) (FCons 5 FNil FNil))) ->
     bookkept h' ex_tree (hplug ex_context (FCons 5 FNil (FCons 4 (FCons 6 FNil FNil) FNil)))).
Proof.
  apply (swap_spec ex_heap ex_tree ex_context 4 (FCons 6 FNil FNil) 5 FNil FNil 3).
  exact ex_rep.
Defined.

(** [swap_last] at the last top-level node [e], where the call fails, and
    at the last child [c], where nothing happens. *)
Lemma swap_last_witness :
  swap ex_heap (mk_sit 7 0) = (if on_top (HRest 3 ex_siblings HHole) then Abort else Ok ex_heap) /\
  swap ex_heap (mk_sit 5 3) = (if on_top ex_context_c then Abort else Ok ex_heap).
Proof.
  split.
  - apply (swap_last ex_heap ex_tree (HRest 3 ex_siblings HHole) 7 FNil 0). exact ex_rep.
  - apply (swap_last ex_heap ex_tree ex_context_c 5 FNil 3). exact ex_rep.
Defined.

(** [head_initialise_spec] on the heap of the concrete tree. *)
Lemma head_initialise_spec_witness :
  bookkept (head_initialise_ ex_heap).1 (head_initialise_ ex_heap).2 FNil /\
  empty (head_initialise_ ex_heap).1 (head_initialise_ ex_heap).2 = Ok true /\
  (forall q, is_Some (ex_heap !! q) -> (head_initialise_ ex_heap).1 !! q = ex_heap !! q).
Proof. apply (head_initialise_spec ex_heap). reflexivity. Defined.


(** [flatten_spec] at the root [a]: its children [b] and [c] become top-level
    nodes between [a] and [e]. *)
Lemma flatten_spec_witness :
  exists h' nd',
    flatten 5 ex_heap (mk_it 3 false) = Ok (h', mk_it 3 false) /\
    tree_rep h' ex_tree (hplug HHole (FCons 3 FNil (fapp ex_siblings (FCons 7 FNil FNil)))) /\
    preorder (hplug HHole (FCons 3 FNil (fapp ex_siblings (FCons 7 FNil FNil)))) =
      preorder (hplug HHole (FCons 3 ex_siblings (FCons 7 FNil FNil))) /\
    (forall q, is_Some (ex_heap !! q) ->
       count <$> h' !! q = count <$> ex_heap !! q /\
       data <$> h' !! q = data <$> ex_heap !! q) /\
    h' !! 3 = Some nd' /\
    (bookkept ex_heap ex_tree (hplug HHole (FCons 3 ex_siblings (FCons 7 FNil FNil))) ->
     count nd' = wrap (Z.of_nat (length (preorder ex_siblings))) /\
     bookkept (<[3 := set_count 0 nd']> h') ex_tree
       (hplug HHole (FCons 3 FNil (fapp ex_siblings (FCons 7 FNil FNil)))) /\
     (wrap (Z.of_nat (length (preorder ex_siblings))) <> 0%Z ->
      ~ bookkept h' ex_tree
          (hplug HHole (FCons 3 FNil (fapp ex_siblings (FCons 7 FNil FNil)))))).
Proof.
  apply (flatten_spec ex_heap ex_tree HHole 3 ex_siblings (FCons 7 FNil FNil) 5 false).
  - exact ex_rep.
  - vm_compute. lia.
Defined.


(** [rvalue_overloads_spec] on the concrete tree. *)
Lemma rvalue_overloads_spec_witness :
  (forall sk, exists h',
     insert_rvalue ex_heap ex_tree (mk_it 0 sk) 60 = Ok (h', iterator_of (allocate ex_heap)) /\
     insert_rvalue ex_heap ex_tree (mk_it (feet ex_tree) sk) 60
       = Ok (h', iterator_of (allocate ex_heap)) /\
     tree_rep h' ex_tree (fsnoc ex_forest (allocate ex_heap)) /\
     linked_uncounted ex_heap h' ex_tree 60 /\
     (bookkept ex_heap ex_tree ex_forest ->
      ~ bookkept h' ex_tree (fsnoc ex_forest (allocate ex_heap)))) /\
  (forall position, node position ∈ preorder ex_forest ->
     exists C cs r, ex_forest = hplug C (FCons (node position) cs r) /\
       (exists h',
          insert_rvalue ex_heap ex_tree position 60
            = Ok (h', iterator_of (allocate ex_heap)) /\
          tree_rep h' ex_tree
            (hplug C (FCons (allocate ex_heap) FNil (FCons (node position) cs r))) /\
          linked_uncounted ex_heap h' ex_tree 60 /\
          (bookkept ex_heap ex_tree ex_forest ->
           ~ bookkept h' ex_tree
               (hplug C (FCons (allocate ex_heap) FNil (FCons (node position) cs r))))) /\
       (exists h',
          append_child_rvalue ex_heap ex_tree position 60
            = Ok (h', iterator_of (allocate ex_heap)) /\
          tree_rep h' ex_tree
            (hplug C (FCons (node position) (fsnoc cs (allocate ex_heap)) r)) /\
          linked_uncounted ex_heap h' ex_tree 60 /\
          (bookkept ex_heap ex_tree ex_forest ->
           ~ bookkept h' ex_tree
               (hplug C (FCons (node position) (fsnoc cs (allocate ex_heap)) r))))).
Proof.
  apply (rvalue_overloads_spec ex_heap ex_tree ex_forest 60). exact ex_rep.
Defined.


(** [lowest_common_ancestor_spec] at the nodes [d] and [c], whose lowest
    common ancestor is [a]. *)
Lemma lowest_common_ancestor_spec_witness :
  lowest_common_ancestor 3 ex_heap ex_tree (mk_it 6 false) (mk_it 5 false) =
    (if bool_decide (cancestors ex_context_d = [] \/ cancestors ex_context_c = []) then Abort
     else Ok (iterator_of (lca_pick (cancestors ex_context_d) (cancestors ex_context_c)))) /\
  (forall x, x ∈ cancestors ex_context_d -> x ∈ cancestors ex_context_c ->
     exists k1 k2 l,
       cancestors ex_context_d =
         k1 ++ lca_pick (cancestors ex_context_d) (cancestors ex_context_c) :: l /\
       cancestors ex_context_c =
         k2 ++ lca_pick (cancestors ex_context_d) (cancestors ex_context_c) :: l /\
       (forall y, y ∈ k1 -> y ∉ cancestors ex_context_c) /\
       (forall y, y ∈ k2 -> y ∉ cancestors ex_context_d)) /\
  ((forall x, x ∈ cancestors ex_context_c -> x ∉ cancestors ex_context_d) ->
   lca_pick (cancestors ex_context_d) (cancestors ex_context_c) =
     List.last (cancestors ex_context_c) 0).
Proof.
  apply (lowest_common_ancestor_spec ex_heap ex_tree ex_context_d 6 FNil FNil
           ex_context_c 5 FNil FNil 3 false false).
  - exact ex_rep.
  - reflexivity.
  - vm_compute. lia.
  - vm_compute. lia.
Defined.

(** On the concrete tree the lowest common ancestor of [d] and [c] is [a];
    asked for a top-level node the call fails. *)
Lemma lowest_common_ancestor_example :
  lowest_common_ancestor 3 ex_heap ex_tree (iterator_of 6) (iterator_of 5) = Ok (iterator_of 3) /\
  lowest_common_ancestor 3 ex_heap ex_tree (iterator_of 3) (iterator_of 5) = Abort /\
  lowest_common_ancestor 3 ex_heap ex_tree (iterator_of 6) (iterator_of 7) = Abort.
Proof. repeat split; vm_compute; reflexivity. Qed.

